(** * VLVector: a vector that lives on the stack while it is small

    A shallow embedding of [VLVector.hpp] (class template
    [VLVector<T, StaticCapacity>]) and the verification of its
    specification.

    - [std::size_t] values are integers in [0, 2^64) with the wrap-around
      written out ([size_t]).
    - The [double] arithmetic of [_cap] is IEEE-754 binary64 with
      round-to-nearest-even ([Dbl]).
    - Storage is a block memory: the array member [_staticMem] of the object
      at address [o] is the block [StaticMem o], every [new T[n]] creates a
      block [HeapMem b] that was never used before, [delete[]] removes it.
      A [T*] is a block and an offset.  Reading or writing outside a live
      block is undefined behaviour.
    - Member functions are computations in a state-and-error monad over the
      fields of [*this] and the memory.
    - A range [first, last) of [InputIterator] is a pair of pointers into
      the memory, a multi-pass range of values that are not in the memory,
      or the single-pass range of a [std::istream_iterator].  A [const T&]
      parameter is a reference to an object in the memory or to a value
      that is not in the memory.  [T]'s [operator==] is a parameter.
    - A program is a list of constructor, member-function and destructor
      calls on containers at distinct addresses in one memory; the ranges
      and references that it passes may point into any container.

    After the claims of the specification come properties of the single
    member functions, round trips, and two properties of programs: every
    live heap array has exactly one owner, and only one kind of assignment
    can break the class invariant. *)

From Stdlib Require Import Strings.String.
From Stdlib Require Import ZArith Lia Bool.
From Stdlib Require Floats.SpecFloat.
From stdpp Require Import base option list gmap.

Local Open Scope Z_scope.

(** ** [std::size_t] *)

Definition SIZE_MAX_plus_1 : Z := 2 ^ 64.

(** Conversion of an integer to [std::size_t]: reduction modulo [2^64]. *)
Definition size_t (x : Z) : Z := x mod SIZE_MAX_plus_1.

(** ** IEEE-754 binary64 on the values that occur in [_cap]

    All doubles of [_cap] are finite and non-negative.  A finite
    non-negative double is [mant * 2^exp]; the pair is not normalised, two
    pairs with the same value are the same double.  Every operation rounds
    its exact result to 53 significant bits, to nearest, ties to even.  The
    exponent range is not modelled: the values here are below [2^66], far
    from overflow, and at least [1] when not zero, far from subnormals. *)
Module Dbl.

Record double := Double { mant : Z; exp : Z }.

Definition DBL_MANT_DIG : Z := 53.

(** [x / 2^k] rounded to the nearest integer, ties to the even one
    ([0 < k], [0 <= x]). *)
Definition round_shift (x k : Z) : Z :=
  let q := x / 2 ^ k in
  let r := x mod 2 ^ k in
  let half := 2 ^ (k - 1) in
  if r <? half then q
  else if half <? r then q + 1
  else if Z.even q then q else q + 1.

(** Rounding of the exact value [m * 2^e] to a double. *)
Definition round (m e : Z) : double :=
  let k := Z.log2 m + 1 - DBL_MANT_DIG in
  if k <=? 0 then Double m e else Double (round_shift m k) (e + k).

(** [(double) n] for an unsigned integer [n]. *)
Definition of_size_t (n : Z) : double := round n 0.

(** [a * b]. *)
Definition mul (a b : double) : double :=
  round (mant a * mant b) (exp a + exp b).

(** The integer part of a non-negative double, as an integer. *)
Definition trunc (a : double) : Z :=
  if 0 <=? exp a then mant a * 2 ^ exp a else mant a / 2 ^ (- exp a).

(** [std::floor]: an integer-valued double is exact. *)
Definition floor (a : double) : double := Double (trunc a) 0.

(** Conversion of a double to [std::size_t]: the value is truncated; the
    behaviour is undefined ([None]) when the truncated value does not fit. *)
Definition to_size_t (a : double) : option Z :=
  let z := trunc a in
  if z <? SIZE_MAX_plus_1 then Some z else None.

(** The literal quotient [3.0 / 2.0] is exactly [1.5]. *)
Definition three_halves : double := Double 3 (-1).

(** The binary64 operations of the Standard Library's IEEE-754
    specification, for comparison. *)
Definition ieee_of_Z (n : Z) : SpecFloat.spec_float :=
  SpecFloat.binary_normalize 53 1024 n 0 false.

Definition ieee_trunc (x : SpecFloat.spec_float) : Z :=
  match x with
  | SpecFloat.S754_finite false m e =>
      if 0 <=? e then Z.pos m * 2 ^ e else Z.pos m / 2 ^ (- e)
  | _ => 0
  end.

Definition ieee_growth (n : Z) : Z :=
  ieee_trunc
    (SpecFloat.SFmul 53 1024
       (SpecFloat.SFdiv 53 1024 (ieee_of_Z 3) (ieee_of_Z 2))
       (ieee_of_Z n)).

End Dbl.

(** ** Memory: blocks, pointers *)

(** The address of a [VLVector] object. *)
Definition obj := nat.

Inductive block :=
  | StaticMem (o : obj)   (* the member array [_staticMem] of the object at [o] *)
  | HeapMem (b : nat).    (* the array created by the [b]-th [new T[n]] *)

Arguments StaticMem o%_nat_scope.
Arguments HeapMem b%_nat_scope.

#[global] Instance block_eq_dec : EqDecision block.
Proof. solve_decision. Defined.

#[global] Instance block_countable : Countable block.
Proof.
  refine (inj_countable'
            (fun b => match b with StaticMem o => inl o | HeapMem h => inr h end)
            (fun s => match s with inl o => StaticMem o | inr h => HeapMem h end) _).
  now intros [].
Defined.

(** A [T*] (also [iterator] and [const_iterator], which are [T*] and
    [const T*]): a block and an index into it. *)
Record pointer := Ptr { blk : block; off : Z }.

#[global] Instance pointer_eq_dec : EqDecision pointer.
Proof. solve_decision. Defined.

(** [p + n] *)
Definition ptr_add (p : pointer) (n : Z) : pointer := Ptr (blk p) (off p + n).

Notation "p +ₚ n" := (ptr_add p n) (at level 50, left associativity).

(** [p - q], a [std::ptrdiff_t]; undefined between different arrays. *)
Definition ptr_diff (p q : pointer) : option Z :=
  if decide (blk p = blk q) then Some (off p - off q) else None.

(** [std::out_of_range] with its message. *)
Inductive exception := out_of_range (what : string).

Definition OUT_OF_RANGE_ERR_MSG : string := "Index out of range."%string.

Definition DEFAULT_STATIC_CAPACITY : Z := 16.

Definition GROWTH_FACTOR : Dbl.double := Dbl.three_halves.

(** How a call ends: it returns [a] in state [s], it throws in state [s],
    or its behaviour is undefined. *)
Inductive outcome (S A : Type) :=
  | Ok (a : A) (s : S)
  | Throw (e : exception) (s : S)
  | Undefined.

Arguments Ok {S A} a s.
Arguments Throw {S A} e s.
Arguments Undefined {S A}.

(** Computations on a state [S]. *)
Definition ret {S A} (a : A) : S -> outcome S A := fun s => Ok a s.

Definition bind {S A B} (c : S -> outcome S A) (k : A -> S -> outcome S B)
  : S -> outcome S B :=
  fun s =>
    match c s with
    | Ok a s' => k a s'
    | Throw e s' => Throw e s'
    | Undefined => Undefined
    end.

Definition throw {S A} (e : exception) : S -> outcome S A := fun s => Throw e s.

(** An operation whose behaviour is defined only when it has a result. *)
Definition defined {S A} (o : option A) : S -> outcome S A :=
  fun s => match o with Some a => Ok a s | None => Undefined end.

Notation "'do' x <- c ; k" := (bind c (fun x => k))
  (at level 10, x name, c at level 100, k at level 200,
   format "'[v' 'do'  x  <-  c ; '/' k ']'").

Notation "'run' c ; k" := (bind c (fun _ => k))
  (at level 10, c at level 100, k at level 200,
   format "'[v' 'run'  c ; '/' k ']'").

(** The call throws. *)
Definition throws {S A} (o : outcome S A) : Prop :=
  match o with Throw _ _ => True | _ => False end.

(** An [operator==] of an element type: any function to [bool]; nothing is
    assumed of it. *)
Record equality (T : Type) := operator_equal { equals :> T -> T -> bool }.

Section VLVector.

Context {T : Type} `{EqDecision T}.

(** The value of a default-initialised element ([new T[n]], [T x[n]]). *)
Variable T_default : T.

(** [T]'s [operator==], which [std::equal] calls on two elements. *)
Variable T_eq : equality T.

(** The template parameter. *)
Variable StaticCapacity : Z.

Record memory := Mem {
  blocks : gmap block (list T);
  next_heap : nat   (* the next [new T[n]] creates [HeapMem next_heap] *)
}.

Definition load (m : memory) (p : pointer) : option T :=
  match blocks m !! blk p with
  | Some l => if 0 <=? off p then l !! Z.to_nat (off p) else None
  | None => None
  end.

Definition store (m : memory) (p : pointer) (x : T) : option memory :=
  match blocks m !! blk p with
  | Some l =>
      if (0 <=? off p) && (off p <? Z.of_nat (length l))
      then Some (Mem (<[blk p := <[Z.to_nat (off p) := x]> l]> (blocks m))
                     (next_heap m))
      else None
  | None => None
  end.

(** [new T[n]]: a block of [n] default-initialised elements that no pointer
    names yet.  Allocation does not fail in this model. *)
Definition alloc (m : memory) (n : Z) : pointer * memory :=
  (Ptr (HeapMem (next_heap m)) 0,
   Mem (<[HeapMem (next_heap m) := replicate (Z.to_nat n) T_default]> (blocks m))
       (S (next_heap m))).

(** [delete[] p]: nothing for [nullptr] ([None]); otherwise [p] must be what
    a [new T[n]] returned and not deleted since. *)
Definition dealloc (m : memory) (p : option pointer) : option memory :=
  match p with
  | None => Some m
  | Some (Ptr (HeapMem b) 0) =>
      match blocks m !! HeapMem b with
      | Some _ => Some (Mem (delete (HeapMem b) (blocks m)) (next_heap m))
      | None => None
      end
  | Some _ => None
  end.

(** [std::copy(first, last, d_first)] for pointers:
    [while (first != last) *d_first++ = *first++;] over [n = last - first]
    elements. *)
Fixpoint copy_loop (n : nat) (first d_first : pointer) (m : memory)
  : option memory :=
  match n with
  | O => Some m
  | S k =>
      match load m first with
      | Some x =>
          match store m d_first x with
          | Some m' => copy_loop k (first +ₚ 1) (d_first +ₚ 1) m'
          | None => None
          end
      | None => None
      end
  end.

(** [std::copy_backward(first, last, d_last)]:
    [while (first != last) *(--d_last) = *(--last);] *)
Fixpoint copy_backward_loop (n : nat) (last d_last : pointer) (m : memory)
  : option memory :=
  match n with
  | O => Some m
  | S k =>
      match load m (last +ₚ (-1)) with
      | Some x =>
          match store m (d_last +ₚ (-1)) x with
          | Some m' => copy_backward_loop k (last +ₚ (-1)) (d_last +ₚ (-1)) m'
          | None => None
          end
      | None => None
      end
  end.

(** The number of iterations of a loop from [first] to [last]: the loop
    never reaches [last] when [last] is before [first] or in another array. *)
Definition distance (first last : pointer) : option nat :=
  match ptr_diff last first with
  | Some d => if 0 <=? d then Some (Z.to_nat d) else None
  | None => None
  end.

Definition std_copy_mem (first last d_first : pointer) (m : memory)
  : option memory :=
  match distance first last with
  | Some n => copy_loop n first d_first m
  | None => None
  end.

Definition std_copy_backward_mem (first last d_last : pointer) (m : memory)
  : option memory :=
  match distance first last with
  | Some n => copy_backward_loop n last d_last m
  | None => None
  end.

(** [std::copy(first, last, d_first)] from an input range that is not part
    of the memory: the range is the list of the values it yields. *)
Fixpoint copy_range (r : list T) (d_first : pointer) (m : memory)
  : option memory :=
  match r with
  | [] => Some m
  | x :: r' =>
      match store m d_first x with
      | Some m' => copy_range r' (d_first +ₚ 1) m'
      | None => None
      end
  end.

(** [std::equal(first1, last1, first2)] over [n = last1 - first1] elements:
    [false] at the first pair of elements that [T]'s [operator==] does not
    find equal, [true] when there is none. *)
Fixpoint equal_loop (n : nat) (first1 first2 : pointer) (m : memory)
  : option bool :=
  match n with
  | O => Some true
  | S k =>
      match load m first1, load m first2 with
      | Some x, Some y =>
          if T_eq x y then equal_loop k (first1 +ₚ 1) (first2 +ₚ 1) m
          else Some false
      | _, _ => None
      end
  end.

(** ** The class *)

(** The data members other than the array [_staticMem], which is the block
    [StaticMem this] of the memory. *)
Record VLVector := {
  _data : pointer;
  _size : Z;
  _capacity : Z
}.

(** The array member as a pointer to its first element. *)
Definition _staticMem (this : obj) : pointer := Ptr (StaticMem this) 0.

(** A member function runs on the members of [*this] and the memory. *)
Definition state : Type := VLVector * memory.

Definition M (A : Type) : Type := state -> outcome state A.

(** Reading and writing the members. *)
Definition get {A} (f : VLVector -> A) : M A := fun s => Ok (f (fst s)) s.

Definition set_data (p : pointer) : M unit :=
  fun s => Ok tt ({| _data := p; _size := _size (fst s);
                     _capacity := _capacity (fst s) |}, snd s).

Definition set_size (n : Z) : M unit :=
  fun s => Ok tt ({| _data := _data (fst s); _size := n;
                     _capacity := _capacity (fst s) |}, snd s).

Definition set_capacity (n : Z) : M unit :=
  fun s => Ok tt ({| _data := _data (fst s); _size := _size (fst s);
                     _capacity := n |}, snd s).

(** Operations on the memory. *)
Definition on_memory (f : memory -> option memory) : M unit :=
  fun s => match f (snd s) with
           | Some m' => Ok tt (fst s, m')
           | None => Undefined
           end.

Definition new_array (n : Z) : M pointer :=
  fun s => Ok (fst (alloc (snd s) n)) (fst s, snd (alloc (snd s) n)).

Definition delete_array (p : option pointer) : M unit :=
  on_memory (fun m => dealloc m p).

Definition std_copy (first last d_first : pointer) : M unit :=
  on_memory (std_copy_mem first last d_first).

Definition std_copy_backward (first last d_last : pointer) : M unit :=
  on_memory (std_copy_backward_mem first last d_last).

Definition std_copy_range (r : list T) (d_first : pointer) : M unit :=
  on_memory (copy_range r d_first).

(** [*p = x] *)
Definition assign (p : pointer) (x : T) : M unit :=
  on_memory (fun m => store m p x).

Definition std_equal (first1 last1 first2 : pointer) : M bool :=
  fun s => match distance first1 last1 with
           | Some n => defined (equal_loop n first1 first2 (snd s)) s
           | None => Undefined
           end.

(** *** Inline member functions *)

Definition size : M Z := get _size.

Definition empty : M bool := do sz <- get _size; ret (sz =? 0).

Definition capacity : M Z := get _capacity.

Definition data : M pointer := get _data.

Definition begin : M pointer := get _data.

Definition end_ : M pointer :=
  do d <- get _data; do sz <- get _size; ret (d +ₚ sz).

Definition cbegin : M pointer := get _data.

Definition cend : M pointer :=
  do d <- get _data; do sz <- get _size; ret (d +ₚ sz).

(** [begin()] and [end()] of another object, whose members are [other]. *)
Definition begin_of (other : VLVector) : pointer := _data other.

Definition end_of (other : VLVector) : pointer := _data other +ₚ _size other.

(** [operator[]]: the reference [_data[idx]], no check. *)
Definition operator_index (idx : Z) : M pointer :=
  do d <- get _data; ret (d +ₚ idx).

Definition operator_index_const (idx : Z) : M pointer :=
  do d <- get _data; ret (d +ₚ idx).

(** *** [at] *)

Definition at_ (index : Z) : M pointer :=
  do sz <- get _size;
  if sz <=? index then throw (out_of_range OUT_OF_RANGE_ERR_MSG)
  else do d <- get _data; ret (d +ₚ index).

Definition at_const (index : Z) : M pointer :=
  do sz <- get _size;
  if sz <=? index then throw (out_of_range OUT_OF_RANGE_ERR_MSG)
  else do d <- get _data; ret (d +ₚ index).

(** *** [operator==] *)

Definition operator_eq (other : VLVector) : M bool :=
  do e <- end_;
  do b <- begin;
  do n <- defined (ptr_diff e b);
  do n' <- defined (ptr_diff (end_of other) (begin_of other));
  if n =? n'
  then do e <- end_; do b <- begin; std_equal b e (begin_of other)
  else ret false.

(** *** [_cap]

    Both branches of the conditional expression have the type [double]:
    [StaticCapacity] is converted to [double], and the result of the
    expression back to [std::size_t]. *)
Definition _cap (additionalSize : Z) : M Z :=
  do sz <- get _size;
  defined
    (Dbl.to_size_t
       (if size_t (sz + additionalSize) <=? StaticCapacity
        then Dbl.of_size_t StaticCapacity
        else Dbl.floor
               (Dbl.mul GROWTH_FACTOR
                  (Dbl.of_size_t (size_t (sz + additionalSize)))))).

(** *** [_pushAt] *)

Definition _pushAt (pos : pointer) (numOfElements : Z) (pushElements : M unit)
  : M unit :=
  do initialEnd <- end_;
  do sz <- get _size;
  do cap <- get _capacity;
  do oldMem <-
    (if cap <? size_t (sz + numOfElements)
     then
       do n <- _cap numOfElements;
       do newMem <- new_array n;
       do cap0 <- get _capacity;
       do d <- get _data;
       do c <- _cap numOfElements;
       run set_capacity c;
       do cb <- cbegin;
       run std_copy cb pos newMem;
       run set_data newMem;
       ret (if cap0 <=? StaticCapacity then None else Some d)
     else ret None);
  do e <- end_;
  run std_copy_backward pos initialEnd (e +ₚ numOfElements);
  run pushElements;
  do sz' <- get _size;
  run set_size (size_t (sz' + numOfElements));
  delete_array oldMem.

(** [_pushAt] up to its call of [pushElements]: the result is [oldMem]. *)
Definition pushAt_before (pos : pointer) (numOfElements : Z) : M (option pointer) :=
  do initialEnd <- end_;
  do sz <- get _size;
  do cap <- get _capacity;
  do oldMem <-
    (if cap <? size_t (sz + numOfElements)
     then
       do n <- _cap numOfElements;
       do newMem <- new_array n;
       do cap0 <- get _capacity;
       do d <- get _data;
       do c <- _cap numOfElements;
       run set_capacity c;
       do cb <- cbegin;
       run std_copy cb pos newMem;
       run set_data newMem;
       ret (if cap0 <=? StaticCapacity then None else Some d)
     else ret None);
  do e <- end_;
  run std_copy_backward pos initialEnd (e +ₚ numOfElements);
  ret oldMem.

(** [_pushAt] after its call of [pushElements]. *)
Definition pushAt_after (numOfElements : Z) (oldMem : option pointer) : M unit :=
  do sz' <- get _size;
  run set_size (size_t (sz' + numOfElements));
  delete_array oldMem.

(** *** The arguments of [insert]: a range of input iterators, a reference *)

(** A range [first, last) of a type [InputIterator].  The template accepts
    every iterator type; the three kinds here differ in where the values are
    and in how often they can be read. *)
Inductive input_range :=
  | pointer_range (first last : pointer)
      (* [T*] or an iterator of a VLVector: the values are in the memory,
         where the call may write before it reads them *)
  | forward_range (r : list T)
      (* multi-pass iterators over a sequence [r] that is not in the
         memory: every pass yields [r] *)
  | istream_range (r : list T).
      (* [std::istream_iterator] over a stream that holds [r]: single-pass,
         a second pass yields only the value that [first] has cached *)

(** [std::distance(first, last)]: for pointers [last - first], undefined
    between two arrays; otherwise the number of increments from [first] to
    [last].  It works on copies of the iterators, and on an
    [std::istream_iterator] it consumes the stream. *)
Definition std_distance (first_last : input_range) : M Z :=
  match first_last with
  | pointer_range first last => defined (ptr_diff last first)
  | forward_range r => ret (Z.of_nat (length r))
  | istream_range r => ret (Z.of_nat (length r))
  end.

(** [std::copy(first, last, d_first)] when [std::distance(first, last)] has
    been called: pointers read the memory as it is now; of a stream that
    [std::distance] has read to its end, only the first value is left, in
    [first]. *)
Definition std_copy_input (first_last : input_range) (d_first : pointer) : M unit :=
  match first_last with
  | pointer_range first last => std_copy first last d_first
  | forward_range r => std_copy_range r d_first
  | istream_range r => std_copy_range (take 1 r) d_first
  end.

(** A parameter [const T &value]: a reference to an object in the memory,
    read when the function uses [value], or to an object that is not in the
    memory (a temporary, a local variable). *)
Inductive const_ref :=
  | ref_to (p : pointer)
  | ref_value (x : T).

Definition read_ref (value : const_ref) : M T :=
  match value with
  | ref_to p => fun s => defined (load (snd s) p) s
  | ref_value x => ret x
  end.

(** *** [insert] (range), [insert] (one value), [push_back] *)

Definition insert (pos : pointer) (first_last : input_range) : M pointer :=
  do n <- std_distance first_last;
  let numOfElements := size_t n in
  do b <- begin;
  do d <- defined (ptr_diff pos b);
  let posIdx := size_t d in
  let pushFunc := (do dt <- get _data; std_copy_input first_last (dt +ₚ posIdx)) in
  run _pushAt pos numOfElements pushFunc;
  do b' <- begin;
  ret (b' +ₚ posIdx).

Definition insert_value (pos : pointer) (value : const_ref) : M pointer :=
  do b <- begin;
  do d <- defined (ptr_diff pos b);
  let idx := size_t d in
  run _pushAt pos 1 (do dt <- get _data; do x <- read_ref value; assign (dt +ₚ idx) x);
  do b' <- begin;
  ret (b' +ₚ idx).

Definition push_back (value : T) : M unit :=
  do e <- cend;
  _pushAt e 1 (do dt <- get _data; do sz <- get _size; assign (dt +ₚ sz) value).

(** *** [erase], [pop_back], [clear] *)

(** The condition of the [if] statement of [erase]:
    [_capacity > StaticCapacity && _size - toRemoveSize <= StaticCapacity]. *)
Definition erase_shrinks (v : VLVector) (toRemoveSize : Z) : bool :=
  (StaticCapacity <? _capacity v)
  && (size_t (_size v - toRemoveSize) <=? StaticCapacity).

(** The body of the [if] statement of [erase]; its value is [oldMem]. *)
Definition erase_to_static (this : obj) (first : pointer) : M (option pointer) :=
  do cb <- cbegin;
  run std_copy cb first (_staticMem this);
  do d <- get _data;
  run set_data (_staticMem this);
  run set_capacity StaticCapacity;
  ret (Some d).

Definition erase (this : obj) (first last : pointer) : M pointer :=
  do initEnd <- cend;
  do r <- defined (ptr_diff last first);
  let toRemoveSize := size_t r in
  do b <- begin;
  do f <- defined (ptr_diff first b);
  let firstIdx := size_t f in
  do v <- get id;
  do oldMem <-
    (if erase_shrinks v toRemoveSize
     then erase_to_static this first
     else ret None);
  do b' <- begin;
  run std_copy last initEnd (b' +ₚ firstIdx);
  do sz' <- get _size;
  run set_size (size_t (sz' - toRemoveSize));
  run delete_array oldMem;
  do b'' <- begin;
  ret (b'' +ₚ firstIdx).

Definition erase_pos (this : obj) (pos : pointer) : M pointer :=
  erase this pos (pos +ₚ 1).

Definition pop_back (this : obj) : M unit :=
  do e <- cend;
  run erase_pos this (e +ₚ (-1));
  ret tt.

Definition clear (this : obj) : M unit :=
  do b <- begin;
  do e <- end_;
  run erase this b e;
  ret tt.

(** *** [_copyMembers], [operator=] *)

Definition _copyMembers (other : VLVector) : M unit :=
  run (if StaticCapacity <? _capacity other
       then do p <- new_array (_capacity other); set_data p
       else ret tt);
  run set_capacity (_capacity other);
  do b <- begin;
  run std_copy (begin_of other) (end_of other) b;
  set_size (_size other).

(** [*this = other] where [other] is the object at [other_addr] with the
    members [other]; [&other == this] compares the addresses. *)
Definition operator_assign (this other_addr : obj) (other : VLVector) : M unit :=
  if decide (other_addr = this) then ret tt
  else
    do cap <- get _capacity;
    run (if StaticCapacity <? cap
         then do d <- get _data; delete_array (Some d)
         else ret tt);
    _copyMembers other.

(** *** Constructors and destructor *)

(** The storage of a new object at [this]: its array member, elements
    default-initialised. *)
Definition place (this : obj) (m : memory) : memory :=
  Mem (<[StaticMem this := replicate (Z.to_nat StaticCapacity) T_default]> (blocks m))
      (next_heap m).

(** [VLVector()] for the object at [this]. *)
Definition VLVector_default (this : obj) (m : memory) : state :=
  ({| _data := _staticMem this; _size := 0; _capacity := StaticCapacity |},
   place this m).

(** [VLVector(VLVector& other)] *)
Definition VLVector_copy (this : obj) (other : VLVector) (m : memory)
  : outcome state unit :=
  _copyMembers other (VLVector_default this m).

(** [VLVector(InputIterator first, InputIterator last)] *)
Definition VLVector_range (this : obj) (first_last : input_range) (m : memory)
  : outcome state unit :=
  (do b <- begin; run insert b first_last; ret tt) (VLVector_default this m).

(** [~VLVector()] *)
Definition destructor : M unit :=
  do cap <- get _capacity;
  if StaticCapacity <? cap
  then do d <- get _data; delete_array (Some d)
  else ret tt.

(** *** Calls in a row *)

(** [push_back] of each value in turn. *)
Fixpoint push_back_all (values : list T) : M unit :=
  match values with
  | [] => ret tt
  | x :: rest => run push_back x; push_back_all rest
  end.

(** ** What a state means *)

(** The memory [m] with the contents of [b] replaced by [l]. *)
Definition set_block (m : memory) (b : block) (l : list T) : memory :=
  Mem (<[b := l]> (blocks m)) (next_heap m).

(** The memory [m] without the block [b]. *)
Definition free_block (m : memory) (b : block) : memory :=
  Mem (delete b (blocks m)) (next_heap m).

(** The memory after a [new T[n]] on [m], when the new array holds [l]. *)
Definition with_new_block (m : memory) (l : list T) : memory :=
  Mem (<[HeapMem (next_heap m) := l]> (blocks m)) (S (next_heap m)).

(** What [_pushAt] needs of its argument [pushElements]: called while
    [_size] still has its old value [sz], it copies the new elements [r] to
    [_data + i]. *)
Definition pushes (pushElements : M unit) (sz : Z) (i : nat) (r : list T) : Prop :=
  forall v' m', _size v' = sz ->
    pushElements (v', m') = std_copy_range r (_data v' +ₚ Z.of_nat i) (v', m').

(** The same of a [pushElements] that reads the new elements from the
    memory: it copies [r] in the states [ok], those in which the source still
    holds [r] and is not the array written. *)
Definition pushes_in (ok : state -> Prop) (pushElements : M unit) (sz : Z)
    (i : nat) (r : list T) : Prop :=
  forall v' m', _size v' = sz -> ok (v', m') ->
    pushElements (v', m') = std_copy_range r (_data v' +ₚ Z.of_nat i) (v', m').

(** The states in which [_pushAt] calls [pushElements]: [_data] is the old
    array [b] or the new one, and the memory is the one before the call
    outside that array. *)
Definition push_states (ok : state -> Prop) (m : memory) (b : block) : Prop :=
  forall v' m',
    (blk (_data v') = b \/ blk (_data v') = HeapMem (next_heap m)) ->
    (forall b', b' <> blk (_data v') -> blocks m' !! b' = blocks m !! b') ->
    ok (v', m').

(** ** The arguments of a call, as they are before the call *)

(** The values that a loop from [first] reads in [n] steps. *)
Fixpoint read_loop (n : nat) (first : pointer) (m : memory) : option (list T) :=
  match n with
  | O => Some []
  | S k =>
      match load m first, read_loop k (first +ₚ 1) m with
      | Some x, Some r => Some (x :: r)
      | _, _ => None
      end
  end.

(** The values of a range in the memory [m]; nothing when it is not a range
    of live elements. *)
Definition range_values (first_last : input_range) (m : memory)
  : option (list T) :=
  match first_last with
  | pointer_range first last =>
      match distance first last with
      | Some n => read_loop n first m
      | None => None
      end
  | forward_range r => Some r
  | istream_range r => Some r
  end.

(** The value that a reference refers to in the memory [m]. *)
Definition referent (value : const_ref) (m : memory) : option T :=
  match value with
  | ref_to p => load m p
  | ref_value x => Some x
  end.

(** [n] cells from [p] on are cells of a live array; no condition for
    [n = 0]. *)
Definition in_bounds (n : nat) (p : pointer) (m : memory) : Prop :=
  n = 0%nat
  \/ exists l, blocks m !! blk p = Some l
               /\ 0 <= off p /\ off p + Z.of_nat n <= Z.of_nat (length l).

(** The array of a range in the memory exists: it is not at the address
    where the next [new T[n]] puts its array.  (No live array of a memory
    that [new T[n]] made is there.) *)
Definition range_allocated (first_last : input_range) (m : memory) : bool :=
  match first_last with
  | pointer_range first last =>
      negb (bool_decide (blk first = HeapMem (next_heap m)))
  | forward_range r => true
  | istream_range r => true
  end.

(** The position [pos] is none of the elements of the range: what
    [std::copy] requires of its destination. *)
Definition range_excludes (first_last : input_range) (pos : pointer) : bool :=
  match first_last with
  | pointer_range first last =>
      negb (bool_decide (blk pos = blk first)
            && (off first <=? off pos) && (off pos <? off last))
  | forward_range r => true
  | istream_range r => true
  end.

(** The same for the object that a reference refers to. *)
Definition ref_allocated (value : const_ref) (m : memory) : bool :=
  match value with
  | ref_to p => negb (bool_decide (blk p = HeapMem (next_heap m)))
  | ref_value x => true
  end.

(** An array that a call on the container [s] does not write: one that is
    not the storage of the container, and is not at the address of the array
    that the next [new T[n]] makes. *)
Definition apart (b : block) (s : state) : bool :=
  negb (bool_decide (b = blk (_data (fst s))))
  && negb (bool_decide (b = HeapMem (next_heap (snd s)))).

(** A range that [insert] can read after it has moved the elements of the
    container: a multi-pass range that is not in the memory, or is in an
    array apart from the storage. *)
Definition range_apart (first_last : input_range) (s : state) : bool :=
  match first_last with
  | pointer_range first last => apart (blk first) s
  | forward_range r => true
  | istream_range r => false
  end.

(** A reference to an object that is no element of the container. *)
Definition ref_apart (value : const_ref) (s : state) : bool :=
  match value with
  | ref_to p => apart (blk p) s
  | ref_value x => true
  end.

(** The range still yields [r] in the state [s], and is not in the storage. *)
Definition range_kept (first_last : input_range) (r : list T) (s : state) : Prop :=
  range_values first_last (snd s) = Some r
  /\ match first_last with
     | pointer_range first last => blk first <> blk (_data (fst s))
     | forward_range _ => True
     | istream_range _ => False
     end.

(** The reference still refers to [x] in the state [s], and to no element
    of the storage. *)
Definition ref_kept (value : const_ref) (x : T) (s : state) : Prop :=
  referent value (snd s) = Some x
  /\ match value with
     | ref_to p => blk p <> blk (_data (fst s))
     | ref_value _ => True
     end.

(** The array [_data] points into; nothing when it is not live. *)
Definition storage (s : state) : list T :=
  default [] (blocks (snd s) !! blk (_data (fst s))).

(** The elements of the container, [begin()] to [end()]. *)
Definition elements (s : state) : list T :=
  take (Z.to_nat (_size (fst s))) (storage s).

(** Two lists of the same length whose elements are equal one by one, by
    [T]'s [operator==]. *)
Fixpoint all_eq (l1 l2 : list T) : bool :=
  match l1, l2 with
  | [], [] => true
  | x :: l1', y :: l2' => T_eq x y && all_eq l1' l2'
  | _, _ => false
  end.

(** [b] is a live array of [n] elements. *)
Definition live (m : memory) (b : block) (n : Z) : bool :=
  match blocks m !! b with
  | Some l => Z.of_nat (length l) =? n
  | None => false
  end.

(** The storage is the array member. *)
Definition inline_mode (this : obj) (s : state) : bool :=
  bool_decide (_data (fst s) = _staticMem this).

(** The storage is an array that [new T[n]] made and that is still live. *)
Definition heap_mode (s : state) : bool :=
  match _data (fst s) with
  | Ptr (HeapMem b) 0 => bool_decide (is_Some (blocks (snd s) !! HeapMem b))
  | _ => false
  end.

(** The class invariant for the object at [this]: the array member has
    [StaticCapacity] elements, [_data] points to the first element of a live
    array of [_capacity] elements, [_size <= _capacity], and [_data] is
    either the array member (then [_capacity == StaticCapacity]) or a heap
    array, which holds more than [StaticCapacity] elements. *)
Definition wf (this : obj) (s : state) : bool :=
  live (snd s) (StaticMem this) StaticCapacity
  && live (snd s) (blk (_data (fst s))) (_capacity (fst s))
  && (0 <=? _size (fst s)) && (_size (fst s) <=? _capacity (fst s))
  && (_capacity (fst s) <? SIZE_MAX_plus_1)
  && match _data (fst s) with
     | Ptr (StaticMem o) 0 => bool_decide (o = this)
     | Ptr (HeapMem b) 0 =>
         bool_decide (b < next_heap (snd s))%nat
         && (StaticCapacity <? _capacity (fst s))
         && (StaticCapacity <? _size (fst s))
     | _ => false
     end.

(** The sizes up to which the [double] arithmetic of [_cap] is exact. *)
Definition exact_size (n : Z) : Prop := 3 * n < 2 ^ Dbl.DBL_MANT_DIG.

(** The growth policy in the words of the specification:
    [InlineCapacity] when the sum fits, else [floor (1.5 * sum)]. *)
Definition computeCapacity (currentSize additionalCount : Z) : Z :=
  if currentSize + additionalCount <=? StaticCapacity
  then StaticCapacity
  else 3 * (currentSize + additionalCount) / 2.

(** [_cap] as the specification states it, for the members [v] and the
    argument [additionalSize]: whatever the memory, the call returns
    [computeCapacity], which is at least the sum, and changes nothing. *)
Definition cap_as_specified (v : VLVector) (additionalSize : Z) : Prop :=
  forall m, exists c,
    _cap additionalSize (v, m) = Ok c (v, m)
    /\ c = computeCapacity (_size v) additionalSize
    /\ _size v + additionalSize <= c.

(** Range [insert] as the specification states it, for a container [s], the
    position [begin() + i] and a source range: whatever values [r] the range
    holds, the call leaves the container holding its elements before [i],
    then [r], then its elements from [i] on, and returns [begin() + i]. *)
Definition insert_as_specified (s : state) (i : nat) (first_last : input_range)
  : Prop :=
  forall r, range_values first_last (snd s) = Some r ->
  exists s',
    insert (_data (fst s) +ₚ Z.of_nat i) first_last s
    = Ok (_data (fst s') +ₚ Z.of_nat i) s'
    /\ elements s' = take i (elements s) ++ r ++ drop i (elements s).

(** ** Programs

    A program creates containers and calls their public member functions.
    Its state is the members of every container, by address, and the
    memory. *)
Record world := World {
  objects : gmap obj VLVector;
  memory_of : memory
}.

(** A statement of a program.  A position of a container is given by its
    index [i], for the iterator [begin() + i].  A range or a value that a
    statement passes is either not in the memory (the values [r], the value
    [x]), or it is given by pointers into the memory, which may point to
    elements of any container, also of the one that is called. *)
Inductive call :=
  | construct_default (a : obj)                     (* VLVector a; *)
  | construct_copy (a b : obj)                      (* VLVector a(b); *)
  | construct_range (a : obj) (r : list T)          (* VLVector a(first, last); *)
  | destroy (a : obj)                               (* the end of a's life *)
  | call_push_back (a : obj) (x : T)                (* a.push_back(x); *)
  | call_pop_back (a : obj)                         (* a.pop_back(); *)
  | call_insert_value (a : obj) (i : nat) (x : T)   (* a.insert(a.begin() + i, x); *)
  | call_insert (a : obj) (i : nat) (r : list T)    (* a.insert(a.begin() + i, first, last); *)
  | call_erase (a : obj) (i j : nat)                (* a.erase(a.begin() + i, a.begin() + j); *)
  | call_erase_pos (a : obj) (i : nat)              (* a.erase(a.begin() + i); *)
  | call_clear (a : obj)                            (* a.clear(); *)
  | call_assign (a b : obj)                         (* a = b; *)
  | call_write (a : obj) (i : nat) (x : T)          (* a[i] = x; *)
  | construct_range_pointers (a : obj) (first last : pointer)
                                                    (* VLVector a(first, last); *)
  | call_insert_pointers (a : obj) (i : nat) (first last : pointer)
                                                    (* a.insert(a.begin() + i, first, last); *)
  | call_insert_ref (a : obj) (i : nat) (p : pointer).
                                                    (* a.insert(a.begin() + i, *p); *)

(** The sizes that the statements of a program are run with: those up to
    which the [double] arithmetic of [_cap] is exact. *)
Definition exact_sizeb (n : Z) : bool := 3 * n <? 2 ^ Dbl.DBL_MANT_DIG.

(** A member function on the object at [this]; no result when its behaviour
    is undefined or it throws. *)
Definition on_object {A} (this : obj) (f : M A) (w : world) : option world :=
  match objects w !! this with
  | Some v =>
      match f (v, memory_of w) with
      | Ok _ s' => Some (World (<[this := fst s']> (objects w)) (snd s'))
      | _ => None
      end
  | None => None
  end.

(** A constructor for a new object at [this], an address not in use. *)
Definition on_new_object (this : obj) (f : memory -> outcome state unit) (w : world)
  : option world :=
  match objects w !! this with
  | Some _ => None
  | None =>
      match f (memory_of w) with
      | Ok _ s' => Some (World (<[this := fst s']> (objects w)) (snd s'))
      | _ => None
      end
  end.

(** [size()] of the object at [this]. *)
Definition size_at (w : world) (this : obj) : Z :=
  match objects w !! this with Some v => _size v | None => 0 end.

(** One statement.  It has a result when the objects it names exist (for a
    constructor: when the address is free), its positions are valid
    ([i <= size()] to insert, [i <= j <= size()] to erase a range,
    [i < size()] for an element, a container that is not empty for
    [pop_back]), the sizes are in the exact range, and the call returns. *)
Definition run_call (c : call) (w : world) : option world :=
  match c with
  | construct_default a =>
      on_new_object a (fun m => Ok tt (VLVector_default a m)) w
  | construct_copy a b =>
      match objects w !! b with
      | Some other => on_new_object a (VLVector_copy a other) w
      | None => None
      end
  | construct_range a r =>
      if exact_sizeb (Z.of_nat (length r))
      then on_new_object a (VLVector_range a (forward_range r)) w
      else None
  | destroy a =>
      match on_object a destructor w with
      | Some w' =>
          Some (World (delete a (objects w'))
                      (free_block (memory_of w') (StaticMem a)))
      | None => None
      end
  | call_push_back a x =>
      if exact_sizeb (size_at w a + 1)
      then on_object a (push_back x) w
      else None
  | call_pop_back a =>
      if 0 <? size_at w a then on_object a (pop_back a) w else None
  | call_insert_value a i x =>
      if (Z.of_nat i <=? size_at w a) && exact_sizeb (size_at w a + 1)
      then on_object a (do b <- begin; insert_value (b +ₚ Z.of_nat i) (ref_value x)) w
      else None
  | call_insert a i r =>
      if (Z.of_nat i <=? size_at w a)
         && exact_sizeb (size_at w a + Z.of_nat (length r))
      then on_object a (do b <- begin; insert (b +ₚ Z.of_nat i) (forward_range r)) w
      else None
  | call_erase a i j =>
      if (i <=? j)%nat && (Z.of_nat j <=? size_at w a)
      then on_object a
             (do b <- begin; erase a (b +ₚ Z.of_nat i) (b +ₚ Z.of_nat j)) w
      else None
  | call_erase_pos a i =>
      if Z.of_nat i <? size_at w a
      then on_object a (do b <- begin; erase_pos a (b +ₚ Z.of_nat i)) w
      else None
  | call_clear a => on_object a (clear a) w
  | call_assign a b =>
      match objects w !! b with
      | Some other => on_object a (operator_assign a b other) w
      | None => None
      end
  | call_write a i x =>
      if Z.of_nat i <? size_at w a
      then on_object a (do p <- operator_index (Z.of_nat i); assign p x) w
      else None
  | construct_range_pointers a first last =>
      match distance first last with
      | Some n =>
          if exact_sizeb (Z.of_nat n)
          then on_new_object a (VLVector_range a (pointer_range first last)) w
          else None
      | None => None
      end
  | call_insert_pointers a i first last =>
      match distance first last with
      | Some n =>
          if (Z.of_nat i <=? size_at w a)
             && exact_sizeb (size_at w a + Z.of_nat n)
          then on_object a
                 (do b <- begin;
                  insert (b +ₚ Z.of_nat i) (pointer_range first last)) w
          else None
      | None => None
      end
  | call_insert_ref a i p =>
      if (Z.of_nat i <=? size_at w a) && exact_sizeb (size_at w a + 1)
      then on_object a (do b <- begin; insert_value (b +ₚ Z.of_nat i) (ref_to p)) w
      else None
  end.

(** The statements that pass no pointers. *)
Definition by_value (c : call) : bool :=
  match c with
  | construct_range_pointers _ _ _ => false
  | call_insert_pointers _ _ _ _ => false
  | call_insert_ref _ _ _ => false
  | _ => true
  end.

(** The statements of a program in turn. *)
Fixpoint run_calls (cs : list call) (w : world) : option world :=
  match cs with
  | [] => Some w
  | c :: cs' =>
      match run_call c w with
      | Some w' => run_calls cs' w'
      | None => None
      end
  end.

(** No object, nothing in memory. *)
Definition empty_world : world := World ∅ (Mem ∅ 0).

(** What a call on the object at [this] leaves alone: blocks other than the
    array member and the storage of [this] and the arrays made by the call,
    and arrays deleted before the call stay deleted. *)
Definition frame (this : obj) (v : VLVector) (m m' : memory) : Prop :=
  (next_heap m <= next_heap m')%nat
  /\ (forall b,
        b <> StaticMem this -> b <> blk (_data v) ->
        (forall h, b = HeapMem h -> (h < next_heap m)%nat) ->
        blocks m' !! b = blocks m !! b)
  /\ (forall h, (h < next_heap m)%nat ->
        blocks m !! HeapMem h = None -> blocks m' !! HeapMem h = None).

(** Where [_data] can point after a call. *)
Definition data_step (this : obj) (v : VLVector) (m : memory) (v' : VLVector) : Prop :=
  _data v' = _data v \/ _data v' = _staticMem this
  \/ _data v' = Ptr (HeapMem (next_heap m)) 0.

(** The state that [operator=] leaves a container in heap mode in when the
    source is empty and in inline mode: no elements,
    [_capacity == StaticCapacity], and [_data] still the heap array that
    was deleted. *)
Definition dangling (this : obj) (s : state) : Prop :=
  live (snd s) (StaticMem this) StaticCapacity = true
  /\ _capacity (fst s) = StaticCapacity
  /\ _size (fst s) = 0
  /\ exists h, _data (fst s) = Ptr (HeapMem h) 0
               /\ (h < next_heap (snd s))%nat
               /\ blocks (snd s) !! HeapMem h = None.

(** What holds of every object of a program. *)
Definition object_inv (this : obj) (s : state) : Prop :=
  wf this s = true \/ dangling this s.

(** What a call on the object at [this] does to the state of a program, as
    far as the invariant of programs goes. *)
Definition preserves (this : obj) (s s' : state) : Prop :=
  object_inv this s'
  /\ frame this (fst s) (snd s) (snd s')
  /\ data_step this (fst s) (snd s) (fst s').

(** What holds of every state of a program: every object satisfies
    [object_inv], and no two objects point to the same live heap array. *)
Definition world_inv (w : world) : Prop :=
  (forall a v, objects w !! a = Some v -> object_inv a (v, memory_of w))
  /\ (forall a b va vb h,
        a <> b -> objects w !! a = Some va -> objects w !! b = Some vb ->
        blk (_data va) = HeapMem h -> blk (_data vb) = HeapMem h ->
        blocks (memory_of w) !! HeapMem h = None).

(** ** Heap arrays

    What the calls of a program do with the arrays that [new T[n]] makes. *)

(** Every live heap array was made by a [new T[n]] of the past. *)
Definition mem_ok (m : memory) : Prop :=
  forall h, is_Some (blocks m !! HeapMem h) -> (h < next_heap m)%nat.

(** A computation that keeps [mem_ok]. *)
Definition keeps_mem_ok {A} (c : M A) : Prop :=
  forall s a s', mem_ok (snd s) -> c s = Ok a s' -> mem_ok (snd s').

(** What a call on a container with the members [v] does with heap arrays:
    it makes at most one, which is the storage afterwards; and when the
    storage is another array afterwards, the heap array that was the
    storage is deleted. *)
Definition realloc_step (v : VLVector) (m : memory) (s' : state) : Prop :=
  (next_heap (snd s') = next_heap m
   \/ (next_heap (snd s') = S (next_heap m)
       /\ _data (fst s') = Ptr (HeapMem (next_heap m)) 0))
  /\ (forall h, blk (_data v) = HeapMem h -> blk (_data (fst s')) <> HeapMem h ->
        blocks (snd s') !! HeapMem h = None).

(** Every live heap array is the storage of a container. *)
Definition heap_owned (w : world) : Prop :=
  mem_ok (memory_of w)
  /\ (forall h, is_Some (blocks (memory_of w) !! HeapMem h) ->
        exists a v, objects w !! a = Some v /\ blk (_data v) = HeapMem h).

(** Every container of the program is well formed. *)
Definition all_wf (w : world) : Prop :=
  forall a v, objects w !! a = Some v -> wf a (v, memory_of w) = true.

(** The statement [a = b] for two containers, [a] in heap mode and [b] in
    inline mode: the case in which [operator=] fails. *)
Definition assigns_heap_from_inline (w : world) (c : call) : bool :=
  match c with
  | call_assign a b =>
      match objects w !! a, objects w !! b with
      | Some va, Some vb =>
          negb (bool_decide (a = b))
          && (StaticCapacity <? _capacity va) && (_capacity vb <=? StaticCapacity)
      | _, _ => false
      end
  | _ => false
  end.

(** No statement of the program is such an assignment when its turn
    comes. *)
Fixpoint never_assigns_heap_from_inline (cs : list call) (w : world) : bool :=
  match cs with
  | [] => true
  | c :: cs' =>
      negb (assigns_heap_from_inline w c)
      && match run_call c w with
         | Some w' => never_assigns_heap_from_inline cs' w'
         | None => true
         end
  end.

(** * Verification *)

(** The template argument is a [std::size_t] that [double] represents
    exactly. *)
Hypothesis StaticCapacity_range : 0 <= StaticCapacity < 2 ^ Dbl.DBL_MANT_DIG.

(** ** Numbers *)

Lemma size_t_small x : 0 <= x < SIZE_MAX_plus_1 -> size_t x = x.
Proof. intros Hx. unfold size_t. now apply Z.mod_small. Qed.

Lemma size_t_range x : 0 <= size_t x < SIZE_MAX_plus_1.
Proof. unfold size_t, SIZE_MAX_plus_1. apply Z.mod_pos_bound. lia. Qed.

Lemma round_exact m e :
  0 <= m < 2 ^ Dbl.DBL_MANT_DIG -> Dbl.round m e = Dbl.Double m e.
Proof.
  intros [H0 H1]. unfold Dbl.round.
  destruct (Z.eq_dec m 0) as [->|Hm]; [reflexivity|].
  assert (Z.log2 m < Dbl.DBL_MANT_DIG)
    by (apply Z.log2_lt_pow2; [lia | exact H1]).
  now rewrite (proj2 (Z.leb_le _ _)) by lia.
Qed.

Lemma of_size_t_exact n :
  0 <= n < 2 ^ Dbl.DBL_MANT_DIG -> Dbl.of_size_t n = Dbl.Double n 0.
Proof. apply round_exact. Qed.

(** Below [2^53 / 3] the product with [1.5] is exact, and its floor is the
    integer quotient [3 * n / 2]. *)
Lemma trunc_growth_exact n :
  0 <= n -> exact_size n ->
  Dbl.trunc (Dbl.floor (Dbl.mul GROWTH_FACTOR (Dbl.of_size_t n))) = 3 * n / 2.
Proof.
  unfold exact_size, Dbl.DBL_MANT_DIG. intros H0 H1.
  rewrite of_size_t_exact by (unfold Dbl.DBL_MANT_DIG; lia).
  unfold Dbl.mul, GROWTH_FACTOR, Dbl.three_halves; cbn [Dbl.mant Dbl.exp].
  rewrite round_exact by (unfold Dbl.DBL_MANT_DIG; lia).
  unfold Dbl.floor, Dbl.trunc; cbn [Dbl.mant Dbl.exp].
  change (0 <=? -1 + 0) with false. change (0 <=? 0) with true.
  change (2 ^ (- (-1 + 0))) with 2. change (2 ^ 0) with 1.
  cbv iota. lia.
Qed.

(** The model agrees with the Standard Library's binary64 on both sides of
    the 53-bit boundary and up to the largest [std::size_t]. *)
Example agrees_with_ieee :
  Forall (fun n => Dbl.trunc (Dbl.floor (Dbl.mul GROWTH_FACTOR (Dbl.of_size_t n)))
                   = Dbl.ieee_growth n)
    [1; 2; 5; 17; 24; 25; 1000003;
     3002399751580330; 3002399751580331; 3002399751580333;
     2 ^ 53 - 1; 2 ^ 53; 2 ^ 53 + 1; 2 ^ 53 + 2; 2 ^ 53 + 3; 2 ^ 54 + 2;
     2 ^ 54 + 6; 2 ^ 60 + 123456789; 2 ^ 63 + 1025; 2 ^ 64 - 1].
Proof. repeat constructor. Qed.

(** ** Memory *)

Lemma blocks_set_block m b l b' :
  blocks (set_block m b l) !! b' = if decide (b = b') then Some l else blocks m !! b'.
Proof. unfold set_block; cbn. apply lookup_insert. Qed.

Lemma blocks_set_block_eq m b l : blocks (set_block m b l) !! b = Some l.
Proof. rewrite blocks_set_block. now rewrite decide_True. Qed.

Lemma blocks_set_block_ne m b l b' :
  b <> b' -> blocks (set_block m b l) !! b' = blocks m !! b'.
Proof. intros. rewrite blocks_set_block. now rewrite decide_False. Qed.

Lemma set_block_twice m b l l' :
  set_block (set_block m b l) b l' = set_block m b l'.
Proof. unfold set_block; cbn. now rewrite insert_insert_eq. Qed.

Lemma set_block_same m b l : blocks m !! b = Some l -> set_block m b l = m.
Proof.
  intros Hl. destruct m as [bs nx]. unfold set_block; cbn in *.
  now rewrite insert_id.
Qed.

Lemma next_heap_set_block m b l : next_heap (set_block m b l) = next_heap m.
Proof. reflexivity. Qed.

Lemma alloc_eq m n :
  alloc m n = (Ptr (HeapMem (next_heap m)) 0,
               with_new_block m (replicate (Z.to_nat n) T_default)).
Proof. reflexivity. Qed.

Lemma blocks_with_new_block m l b :
  blocks (with_new_block m l) !! b
  = if decide (HeapMem (next_heap m) = b) then Some l else blocks m !! b.
Proof. unfold with_new_block; cbn. apply lookup_insert. Qed.

Lemma set_block_with_new_block m l l' :
  set_block (with_new_block m l) (HeapMem (next_heap m)) l' = with_new_block m l'.
Proof. unfold set_block, with_new_block; cbn. now rewrite insert_insert_eq. Qed.

Lemma blocks_free_block m b b' :
  blocks (free_block m b) !! b' = if decide (b = b') then None else blocks m !! b'.
Proof. unfold free_block; cbn. apply lookup_delete. Qed.

Lemma load_Some m b l (i : nat) x :
  blocks m !! b = Some l -> l !! i = Some x ->
  load m (Ptr b (Z.of_nat i)) = Some x.
Proof.
  intros Hb Hx. unfold load; cbn. rewrite Hb.
  rewrite (proj2 (Z.leb_le _ _)) by lia. now rewrite Nat2Z.id.
Qed.

Lemma store_Some m b l (i : nat) x :
  blocks m !! b = Some l -> (i < length l)%nat ->
  store m (Ptr b (Z.of_nat i)) x = Some (set_block m b (<[i := x]> l)).
Proof.
  intros Hb Hi. unfold store; cbn. rewrite Hb.
  rewrite (proj2 (Z.leb_le _ _)) by lia.
  rewrite (proj2 (Z.ltb_lt _ _)) by lia. cbn. now rewrite Nat2Z.id.
Qed.

Lemma ptr_add_Ptr_nat b (i : nat) : Ptr b (Z.of_nat i) +ₚ 1 = Ptr b (Z.of_nat (S i)).
Proof. unfold ptr_add; cbn. f_equal. lia. Qed.

(** [std::copy] of [n] elements from index [i] of [bs] to index [j] of
    [bd], when the ranges are inside the arrays and, in one array, the
    destination does not start after the source. *)
Lemma copy_loop_spec n : forall m bs bd ls ld (i j : nat),
  blocks m !! bs = Some ls -> blocks m !! bd = Some ld ->
  (i + n <= length ls)%nat -> (j + n <= length ld)%nat ->
  (bs <> bd \/ (j <= i)%nat) ->
  copy_loop n (Ptr bs (Z.of_nat i)) (Ptr bd (Z.of_nat j)) m
  = Some (set_block m bd (take j ld ++ take n (drop i ls) ++ drop (j + n) ld)).
Proof.
  induction n as [|n IH]; intros m bs bd ls ld i j Hs Hd Hi Hj Hov; cbn [copy_loop].
  - rewrite take_0, Nat.add_0_r. cbn [app]. rewrite take_drop.
    now rewrite set_block_same.
  - destruct (lookup_lt_is_Some_2 ls i) as [x Hx]; [lia|].
    rewrite (load_Some _ _ _ _ _ Hs Hx).
    rewrite (store_Some _ _ _ _ x Hd) by lia.
    rewrite !ptr_add_Ptr_nat.
    set (ld' := <[j := x]> ld).
    assert (Hd' : blocks (set_block m bd ld') !! bd = Some ld')
      by apply blocks_set_block_eq.
    assert (Hlen : length ld' = length ld) by apply length_insert.
    assert (Htk : take (S j) ld' = take j ld ++ [x]).
    { rewrite (take_S_r _ _ x).
      - unfold ld'. now rewrite take_insert_ge by lia.
      - unfold ld'. apply list_lookup_insert_eq. lia. }
    assert (Hdr : drop (S j + n) ld' = drop (j + S n) ld).
    { unfold ld'. rewrite drop_insert_lt by lia. f_equal. lia. }
    assert (Hsrc : take (S n) (drop i ls) = x :: take n (drop (S i) ls)).
    { rewrite (drop_S _ x i Hx). reflexivity. }
    destruct (decide (bs = bd)) as [->|Hne].
    + assert (ls = ld) by congruence. subst ls.
      destruct Hov as [Hov|Hov]; [congruence|].
      rewrite (IH _ bd bd ld' ld' (S i) (S j) Hd' Hd') by (rewrite ?Hlen; lia || (right; lia)).
      rewrite set_block_twice. f_equal. f_equal.
      rewrite Htk, Hdr, Hsrc. unfold ld' at 1.
      rewrite drop_insert_lt by lia. now rewrite <- app_assoc.
    + assert (Hs' : blocks (set_block m bd ld') !! bs = Some ls)
        by (rewrite blocks_set_block_ne; [exact Hs | congruence]).
      rewrite (IH _ bs bd ls ld' (S i) (S j) Hs' Hd') by (rewrite ?Hlen; lia || (left; exact Hne)).
      rewrite set_block_twice. f_equal. f_equal.
      rewrite Htk, Hdr, Hsrc. now rewrite <- app_assoc.
Qed.

Lemma ptr_sub_Ptr_nat b (i : nat) : Ptr b (Z.of_nat (S i)) +ₚ (-1) = Ptr b (Z.of_nat i).
Proof. unfold ptr_add; cbn. f_equal. lia. Qed.

(** [std::copy_backward] of the [n] elements before index [i + n] of [bs]
    to the [n] places before index [j + n] of [bd], when the ranges are
    inside the arrays and, in one array, the destination does not start
    before the source. *)
Lemma copy_backward_loop_spec n : forall m bs bd ls ld (i j : nat),
  blocks m !! bs = Some ls -> blocks m !! bd = Some ld ->
  (i + n <= length ls)%nat -> (j + n <= length ld)%nat ->
  (bs <> bd \/ (i <= j)%nat) ->
  copy_backward_loop n (Ptr bs (Z.of_nat (i + n))) (Ptr bd (Z.of_nat (j + n))) m
  = Some (set_block m bd (take j ld ++ take n (drop i ls) ++ drop (j + n) ld)).
Proof.
  induction n as [|n IH]; intros m bs bd ls ld i j Hs Hd Hi Hj Hov;
    cbn [copy_backward_loop].
  - rewrite take_0, Nat.add_0_r. cbn [app]. rewrite take_drop.
    now rewrite set_block_same.
  - replace (i + S n)%nat with (S (i + n)) by lia.
    replace (j + S n)%nat with (S (j + n)) by lia.
    rewrite !ptr_sub_Ptr_nat.
    destruct (lookup_lt_is_Some_2 ls (i + n)) as [x Hx]; [lia|].
    rewrite (load_Some _ _ _ _ _ Hs Hx).
    rewrite (store_Some _ _ _ _ x Hd) by lia.
    set (ld' := <[(j + n)%nat := x]> ld).
    assert (Hd' : blocks (set_block m bd ld') !! bd = Some ld')
      by apply blocks_set_block_eq.
    assert (Hlen : length ld' = length ld) by apply length_insert.
    assert (Htk : take j ld' = take j ld)
      by (unfold ld'; apply take_insert_ge; lia).
    assert (Hdr : drop (j + n) ld' = x :: drop (S (j + n)) ld).
    { rewrite (drop_S ld' x (j + n)).
      - unfold ld'. now rewrite drop_insert_lt by lia.
      - unfold ld'. apply list_lookup_insert_eq. lia. }
    assert (Hsrc : take (S n) (drop i ls) = take n (drop i ls) ++ [x]).
    { apply take_S_r. now rewrite lookup_drop. }
    destruct (decide (bs = bd)) as [->|Hne].
    + assert (ls = ld) by congruence. subst ls.
      destruct Hov as [Hov|Hov]; [congruence|].
      rewrite (IH _ bd bd ld' ld' i j Hd' Hd') by (rewrite ?Hlen; lia || (right; lia)).
      rewrite set_block_twice. f_equal. f_equal.
      rewrite Htk, Hdr, Hsrc. f_equal. rewrite <- app_assoc. cbn [app]. f_equal.
      rewrite !take_drop_commute. f_equal. unfold ld'. apply take_insert_ge. lia.
    + assert (Hs' : blocks (set_block m bd ld') !! bs = Some ls)
        by (rewrite blocks_set_block_ne; [exact Hs | congruence]).
      rewrite (IH _ bs bd ls ld' i j Hs' Hd') by (rewrite ?Hlen; lia || (left; exact Hne)).
      rewrite set_block_twice. f_equal. f_equal.
      rewrite Htk, Hdr, Hsrc. f_equal. now rewrite <- app_assoc.
Qed.

(** [std::copy] of an input range into index [j] of [bd]. *)
Lemma copy_range_spec r : forall m bd ld (j : nat),
  blocks m !! bd = Some ld -> (j + length r <= length ld)%nat ->
  copy_range r (Ptr bd (Z.of_nat j)) m
  = Some (set_block m bd (take j ld ++ r ++ drop (j + length r) ld)).
Proof.
  induction r as [|x r IH]; intros m bd ld j Hd Hj; cbn [copy_range].
  - cbn [length app]. rewrite Nat.add_0_r, take_drop. now rewrite set_block_same.
  - cbn [length] in Hj.
    rewrite (store_Some _ _ _ _ x Hd) by lia.
    rewrite ptr_add_Ptr_nat.
    rewrite (IH _ bd (<[j := x]> ld) (S j)).
    + rewrite set_block_twice. f_equal. f_equal.
      rewrite (take_S_r _ _ x) by (apply list_lookup_insert_eq; lia).
      rewrite take_insert_ge by lia. rewrite <- app_assoc. cbn [app length].
      rewrite drop_insert_lt by lia.
      now replace (S j + length r)%nat with (j + S (length r))%nat by lia.
    + apply blocks_set_block_eq.
    + rewrite length_insert. lia.
Qed.

(** [std::equal] compares the two ranges element by element. *)
Lemma equal_loop_spec n : forall m b1 b2 l1 l2 (i1 i2 : nat),
  blocks m !! b1 = Some l1 -> blocks m !! b2 = Some l2 ->
  (i1 + n <= length l1)%nat -> (i2 + n <= length l2)%nat ->
  equal_loop n (Ptr b1 (Z.of_nat i1)) (Ptr b2 (Z.of_nat i2)) m
  = Some (all_eq (take n (drop i1 l1)) (take n (drop i2 l2))).
Proof.
  induction n as [|n IH]; intros m b1 b2 l1 l2 i1 i2 H1 H2 Hi1 Hi2;
    cbn [equal_loop].
  - now rewrite !take_0.
  - destruct (lookup_lt_is_Some_2 l1 i1) as [x Hx]; [lia|].
    destruct (lookup_lt_is_Some_2 l2 i2) as [y Hy]; [lia|].
    rewrite (load_Some _ _ _ _ _ H1 Hx), (load_Some _ _ _ _ _ H2 Hy).
    rewrite (drop_S _ x i1 Hx), (drop_S _ y i2 Hy). cbn [take all_eq].
    rewrite !ptr_add_Ptr_nat.
    destruct (T_eq x y); [|reflexivity].
    now rewrite (IH _ _ _ _ _ (S i1) (S i2) H1 H2) by lia.
Qed.

Lemma all_eq_length l1 : forall l2, length l1 <> length l2 -> all_eq l1 l2 = false.
Proof.
  induction l1 as [|x l1 IH]; intros [|y l2] Hlen; cbn [all_eq length] in *;
    try reflexivity; try lia.
  rewrite IH by lia. apply andb_false_r.
Qed.

(** When [T]'s [operator==] is equality, so is [all_eq]. *)
Lemma all_eq_leibniz l1 :
  (forall x y, T_eq x y = bool_decide (x = y)) ->
  forall l2, all_eq l1 l2 = bool_decide (l1 = l2).
Proof.
  intros Heq. induction l1 as [|x l1 IH]; intros [|y l2]; cbn [all_eq].
  - symmetry. now apply bool_decide_eq_true.
  - symmetry. now apply bool_decide_eq_false.
  - symmetry. now apply bool_decide_eq_false.
  - rewrite Heq, IH. apply eq_true_iff_eq.
    rewrite andb_true_iff, !bool_decide_eq_true.
    split; [intros [-> ->]; reflexivity | intros [= -> ->]; now split].
Qed.

Lemma all_eq_refl l : (forall x, T_eq x x = true) -> all_eq l l = true.
Proof.
  intros Hrefl. induction l as [|x l IH]; cbn [all_eq]; [reflexivity|].
  now rewrite Hrefl, IH.
Qed.

Lemma all_eq_sym l1 :
  (forall x y, T_eq x y = T_eq y x) -> forall l2, all_eq l1 l2 = all_eq l2 l1.
Proof.
  intros Hsym. induction l1 as [|x l1 IH]; intros [|y l2]; cbn [all_eq];
    try reflexivity.
  now rewrite Hsym, IH.
Qed.

Lemma all_eq_trans l1 :
  (forall x y z, T_eq x y = true -> T_eq y z = true -> T_eq x z = true) ->
  forall l2 l3, all_eq l1 l2 = true -> all_eq l2 l3 = true -> all_eq l1 l3 = true.
Proof.
  intros Htrans. induction l1 as [|x l1 IH]; intros [|y l2] [|z l3];
    cbn [all_eq]; try discriminate; try reflexivity.
  rewrite !andb_true_iff. intros [Hxy H12] [Hyz H23].
  split; [eapply Htrans | eapply IH]; eassumption.
Qed.

(** ** [_cap] *)

Lemma to_size_t_Some a :
  Dbl.trunc a < SIZE_MAX_plus_1 -> Dbl.to_size_t a = Some (Dbl.trunc a).
Proof.
  intros Ha. unfold Dbl.to_size_t. cbv zeta.
  now rewrite (proj2 (Z.ltb_lt _ _)) by exact Ha.
Qed.

Lemma computeCapacity_ge sz n : sz + n <= computeCapacity sz n.
Proof.
  unfold computeCapacity. destruct (Z.leb_spec (sz + n) StaticCapacity); [lia|].
  apply Z.div_le_lower_bound; lia.
Qed.

(** In the exact range [_cap] computes the growth policy and changes nothing. *)
Lemma cap_run v m n :
  0 <= _size v -> 0 <= n -> exact_size (_size v + n) ->
  _cap n (v, m) = Ok (computeCapacity (_size v) n) (v, m).
Proof.
  intros Hs Hn Hex. pose proof Hex as Hex'.
  unfold exact_size, Dbl.DBL_MANT_DIG in Hex'.
  pose proof StaticCapacity_range as HSC. unfold Dbl.DBL_MANT_DIG in HSC.
  unfold _cap, bind, get, defined, computeCapacity. cbn [fst].
  rewrite size_t_small by (unfold SIZE_MAX_plus_1; lia).
  destruct (Z.leb_spec (_size v + n) StaticCapacity) as [Hle|Hgt].
  - rewrite of_size_t_exact by (unfold Dbl.DBL_MANT_DIG; lia).
    rewrite to_size_t_Some; unfold Dbl.trunc; cbn [Dbl.mant Dbl.exp];
      change (0 <=? 0) with true; cbv iota; change (2 ^ 0) with 1.
    + now rewrite Z.mul_1_r.
    + unfold SIZE_MAX_plus_1. lia.
  - pose proof (trunc_growth_exact (_size v + n) ltac:(lia) Hex) as Htr.
    rewrite to_size_t_Some; rewrite Htr; [reflexivity|].
    unfold SIZE_MAX_plus_1.
    apply Z.div_lt_upper_bound; lia.
Qed.

(** ** The class invariant *)

Lemma live_spec m b n :
  live m b n = true <-> exists l, blocks m !! b = Some l /\ Z.of_nat (length l) = n.
Proof.
  unfold live. destruct (blocks m !! b) as [l|].
  - rewrite Z.eqb_eq. split; [intros; now exists l | now intros (? & [= <-] & ?)].
  - split; [discriminate | now intros (? & ? & ?)].
Qed.

Lemma wf_inv this v m :
  wf this (v, m) = true ->
  exists ls la,
    blocks m !! StaticMem this = Some ls /\ Z.of_nat (length ls) = StaticCapacity /\
    blocks m !! blk (_data v) = Some la /\ Z.of_nat (length la) = _capacity v /\
    0 <= _size v <= _capacity v /\ _capacity v < SIZE_MAX_plus_1 /\
    ((_data v = _staticMem this /\ _capacity v = StaticCapacity) \/
     (exists b, _data v = Ptr (HeapMem b) 0 /\ (b < next_heap m)%nat /\
                StaticCapacity < _capacity v /\ StaticCapacity < _size v)).
Proof.
  unfold wf; cbn [fst snd]. rewrite !andb_true_iff.
  intros [[[[[Hs Ha] H0] Hle] Hlt] Hmode].
  apply live_spec in Hs as (ls & Hls & Hlen).
  apply live_spec in Ha as (la & Hla & Hlena).
  exists ls, la. repeat split; try assumption; try lia.
  destruct (_data v) as [[o|b] [|p|p]] eqn:Hd; try discriminate.
  - left. apply bool_decide_eq_true in Hmode as ->. split; [reflexivity|].
    cbn in Hla. congruence.
  - right. exists b. rewrite !andb_true_iff in Hmode.
    destruct Hmode as [[Hb Hc] Hsz]. apply bool_decide_eq_true in Hb.
    repeat split; [exact Hb | lia | lia].
Qed.

Lemma wf_inline this v m ls :
  blocks m !! StaticMem this = Some ls -> Z.of_nat (length ls) = StaticCapacity ->
  _data v = _staticMem this -> _capacity v = StaticCapacity ->
  0 <= _size v <= StaticCapacity ->
  wf this (v, m) = true.
Proof.
  intros Hls Hlen Hd Hc Hsz. pose proof StaticCapacity_range as HSC.
  unfold Dbl.DBL_MANT_DIG in HSC.
  unfold wf; cbn [fst snd]. rewrite Hd, Hc; cbn [_staticMem blk].
  rewrite !andb_true_iff. repeat split.
  - apply live_spec. eauto.
  - apply live_spec. eauto.
  - lia.
  - lia.
  - unfold SIZE_MAX_plus_1. lia.
  - now apply bool_decide_eq_true.
Qed.

Lemma wf_heap this v m ls la b :
  blocks m !! StaticMem this = Some ls -> Z.of_nat (length ls) = StaticCapacity ->
  _data v = Ptr (HeapMem b) 0 ->
  blocks m !! HeapMem b = Some la -> Z.of_nat (length la) = _capacity v ->
  (b < next_heap m)%nat ->
  StaticCapacity < _size v <= _capacity v -> _capacity v < SIZE_MAX_plus_1 ->
  wf this (v, m) = true.
Proof.
  intros Hls Hlen Hd Hla Hlena Hb Hsz Hc. pose proof StaticCapacity_range as HSC.
  unfold wf; cbn [fst snd]. rewrite Hd; cbn [blk].
  rewrite !andb_true_iff. repeat split.
  - apply live_spec. eauto.
  - apply live_spec. eauto.
  - lia.
  - lia.
  - lia.
  - now apply bool_decide_eq_true.
  - lia.
  - lia.
Qed.

(** ** Running the member functions *)

Lemma ptr_diff_same b i j : ptr_diff (Ptr b i) (Ptr b j) = Some (i - j).
Proof. unfold ptr_diff; cbn. now rewrite decide_True. Qed.

Lemma distance_same b (i j : nat) :
  (i <= j)%nat ->
  distance (Ptr b (Z.of_nat i)) (Ptr b (Z.of_nat j)) = Some (j - i)%nat.
Proof.
  intros Hij. unfold distance. rewrite ptr_diff_same.
  rewrite (proj2 (Z.leb_le _ _)) by lia. f_equal. lia.
Qed.

Lemma std_copy_mem_spec m bs bd ls ld (i k j : nat) :
  blocks m !! bs = Some ls -> blocks m !! bd = Some ld ->
  (i <= k <= length ls)%nat -> (j + (k - i) <= length ld)%nat ->
  (bs <> bd \/ (j <= i)%nat) ->
  std_copy_mem (Ptr bs (Z.of_nat i)) (Ptr bs (Z.of_nat k)) (Ptr bd (Z.of_nat j)) m
  = Some (set_block m bd
            (take j ld ++ take (k - i) (drop i ls) ++ drop (j + (k - i)) ld)).
Proof.
  intros Hs Hd Hi Hj Hov. unfold std_copy_mem.
  rewrite distance_same by lia. apply copy_loop_spec; auto; lia.
Qed.

Lemma std_copy_backward_mem_spec m bs bd ls ld (i k j : nat) :
  blocks m !! bs = Some ls -> blocks m !! bd = Some ld ->
  (i <= k <= length ls)%nat -> (j + (k - i) <= length ld)%nat ->
  (bs <> bd \/ (i <= j)%nat) ->
  std_copy_backward_mem (Ptr bs (Z.of_nat i)) (Ptr bs (Z.of_nat k))
    (Ptr bd (Z.of_nat (j + (k - i)))) m
  = Some (set_block m bd
            (take j ld ++ take (k - i) (drop i ls) ++ drop (j + (k - i)) ld)).
Proof.
  intros Hs Hd Hi Hj Hov. unfold std_copy_backward_mem.
  rewrite distance_same by lia.
  replace (Z.of_nat k) with (Z.of_nat (i + (k - i))) by lia.
  apply copy_backward_loop_spec; auto; lia.
Qed.

Ltac monad_unfold :=
  cbv beta iota zeta delta
    [bind ret get defined throw on_memory set_data set_size set_capacity
     new_array delete_array std_copy std_copy_backward std_copy_range assign
     std_distance std_copy_input read_ref begin end_ cbegin cend size capacity data empty fst snd ptr_add id
     erase_shrinks erase_to_static];
  cbn [_data _size _capacity blk off].

Lemma erase_inplace this v m b la (i j sz : nat) :
  _data v = Ptr b 0 ->
  blocks m !! b = Some la ->
  _size v = Z.of_nat sz -> (sz <= length la)%nat ->
  Z.of_nat (length la) < SIZE_MAX_plus_1 ->
  (i <= j <= sz)%nat ->
  (StaticCapacity <? _capacity v) && (Z.of_nat (sz - (j - i)) <=? StaticCapacity) = false ->
  erase this (_data v +ₚ Z.of_nat i) (_data v +ₚ Z.of_nat j) (v, m)
  = Ok (_data v +ₚ Z.of_nat i)
       ({| _data := _data v; _size := Z.of_nat (sz - (j - i));
           _capacity := _capacity v |},
        set_block m b
          (take i la ++ take (sz - j) (drop j la) ++ drop (i + (sz - j)) la)).
Proof.
  intros Hd Hla Hsz Hlen Hmax Hij Hcond.
  assert (Hrem : size_t (Z.of_nat j - Z.of_nat i) = Z.of_nat (j - i))
    by (rewrite size_t_small; lia).
  assert (Hnew : size_t (Z.of_nat sz - Z.of_nat (j - i)) = Z.of_nat (sz - (j - i)))
    by (rewrite size_t_small; lia).
  assert (Hidx : size_t (Z.of_nat i - 0) = Z.of_nat i)
    by (rewrite size_t_small; lia).
  unfold erase.
  repeat (progress (monad_unfold;
    rewrite ?Hd, ?Hsz, ?Z.add_0_l, ?Z.sub_0_r, ?ptr_diff_same, ?Hrem, ?Hnew,
            ?Hidx, ?Hcond; cbn [blk off])).
  rewrite (std_copy_mem_spec m b b la la j sz i Hla Hla) by (lia || (right; lia)).
  repeat (progress (monad_unfold; cbv [dealloc];
    rewrite ?Hd, ?Hsz, ?Z.add_0_l, ?Z.sub_0_r, ?ptr_diff_same, ?Hrem, ?Hnew,
            ?Hidx, ?Hcond; cbn [blk off])).
  reflexivity.
Qed.


Lemma dealloc_heap m b l :
  blocks m !! HeapMem b = Some l ->
  dealloc m (Some (Ptr (HeapMem b) 0)) = Some (free_block m (HeapMem b)).
Proof. intros Hb. unfold dealloc. now rewrite Hb. Qed.

Lemma erase_shrink this v m b la ls (i j sz : nat) :
  _data v = Ptr (HeapMem b) 0 ->
  blocks m !! HeapMem b = Some la -> blocks m !! StaticMem this = Some ls ->
  Z.of_nat (length ls) = StaticCapacity ->
  _size v = Z.of_nat sz -> (sz <= length la)%nat ->
  Z.of_nat (length la) < SIZE_MAX_plus_1 ->
  (i <= j <= sz)%nat ->
  StaticCapacity < _capacity v -> Z.of_nat (sz - (j - i)) <= StaticCapacity ->
  erase this (_data v +ₚ Z.of_nat i) (_data v +ₚ Z.of_nat j) (v, m)
  = Ok (_staticMem this +ₚ Z.of_nat i)
       ({| _data := _staticMem this; _size := Z.of_nat (sz - (j - i));
           _capacity := StaticCapacity |},
        free_block
          (set_block m (StaticMem this)
             (take i la ++ take (sz - j) (drop j la) ++ drop (i + (sz - j)) ls))
          (HeapMem b)).
Proof.
  intros Hd Hla Hls Hlens Hsz Hlen Hmax Hij Hcap Hfit.
  assert (Hrem : size_t (Z.of_nat j - Z.of_nat i) = Z.of_nat (j - i))
    by (rewrite size_t_small; lia).
  assert (Hnew : size_t (Z.of_nat sz - Z.of_nat (j - i)) = Z.of_nat (sz - (j - i)))
    by (rewrite size_t_small; lia).
  assert (Hidx : size_t (Z.of_nat i - 0) = Z.of_nat i)
    by (rewrite size_t_small; lia).
  assert (Hcond : (StaticCapacity <? _capacity v)
                  && (Z.of_nat (sz - (j - i)) <=? StaticCapacity) = true).
  { apply andb_true_iff. split; [apply Z.ltb_lt | apply Z.leb_le]; lia. }
  set (ls1 := take i la ++ drop i ls).
  assert (Hcopy1 : std_copy_mem (Ptr (HeapMem b) 0) (Ptr (HeapMem b) (Z.of_nat i))
                     (Ptr (StaticMem this) 0) m
                   = Some (set_block m (StaticMem this) ls1)).
  { etransitivity;
      [apply (std_copy_mem_spec m (HeapMem b) (StaticMem this) la ls 0 i 0 Hla Hls);
       (lia || (left; discriminate))|].
    now rewrite take_0, drop_0, Nat.sub_0_r. }
  assert (Hlen1 : length ls1 = length ls).
  { unfold ls1. rewrite !length_app, !length_take, !length_drop. lia. }
  set (m1 := set_block m (StaticMem this) ls1) in *.
  assert (Hla1 : blocks m1 !! HeapMem b = Some la)
    by (unfold m1; now rewrite blocks_set_block_ne).
  assert (Hls1 : blocks m1 !! StaticMem this = Some ls1)
    by apply blocks_set_block_eq.
  unfold erase.
  repeat (progress (monad_unfold; unfold _staticMem;
    rewrite ?Hd, ?Hsz, ?Z.add_0_l, ?Z.sub_0_r, ?ptr_diff_same, ?Hrem, ?Hnew,
            ?Hidx, ?Hcond, ?Hcopy1; cbn [blk off])).
  rewrite (std_copy_mem_spec m1 (HeapMem b) (StaticMem this) la ls1 j sz i Hla1 Hls1)
    by (rewrite ?Hlen1; lia || (left; discriminate)).
  unfold m1 at 1. rewrite set_block_twice.
  monad_unfold.
  erewrite dealloc_heap by (rewrite blocks_set_block_ne; [exact Hla | discriminate]).
  repeat (progress (monad_unfold;
    rewrite ?Hd, ?Hsz, ?Z.add_0_l, ?Z.sub_0_r, ?ptr_diff_same, ?Hrem, ?Hnew,
            ?Hidx, ?Hcond; cbn [blk off])).
  do 4 f_equal. unfold ls1.
  rewrite take_app_length' by (rewrite length_take; lia). f_equal. f_equal.
  rewrite drop_app_ge by (rewrite length_take; lia).
  rewrite length_take, drop_drop. f_equal. lia.
Qed.

(** ** [erase] on a well-formed container *)

Lemma storage_eq v m l :
  blocks m !! blk (_data v) = Some l -> storage (v, m) = l.
Proof. intros Hl. unfold storage; cbn [fst snd]. now rewrite Hl. Qed.

Lemma elements_eq v m l (sz : nat) :
  blocks m !! blk (_data v) = Some l -> _size v = Z.of_nat sz ->
  elements (v, m) = take sz l.
Proof.
  intros Hl Hsz. unfold elements. rewrite (storage_eq _ _ _ Hl); cbn [fst].
  now rewrite Hsz, Nat2Z.id.
Qed.

(** ** What a call leaves alone *)

Lemma frame_refl this v m : frame this v m m.
Proof. repeat split; auto. Qed.

Lemma frame_set_block this v m b l l0 :
  blocks m !! b = Some l0 ->
  b = StaticMem this \/ b = blk (_data v) ->
  frame this v m (set_block m b l).
Proof.
  intros Hlive Hb. repeat split; cbn [set_block next_heap]; auto.
  - intros b' H1 H2 _. rewrite blocks_set_block_ne; [reflexivity|].
    destruct Hb; congruence.
  - intros h Hh Hdead. rewrite blocks_set_block_ne; [exact Hdead|].
    intros ->. congruence.
Qed.

Lemma frame_free_block this v m m1 b :
  b = StaticMem this \/ b = blk (_data v) ->
  frame this v m m1 ->
  frame this v m (free_block m1 b).
Proof.
  intros Hb (Hn & Hother & Hdead). repeat split; cbn [free_block next_heap]; auto.
  - intros b' H1 H2 H3. rewrite blocks_free_block.
    rewrite decide_False by (destruct Hb; congruence). now apply Hother.
  - intros h Hh Hd. rewrite blocks_free_block.
    destruct (decide (b = HeapMem h)); [reflexivity | now apply Hdead].
Qed.

Lemma frame_with_new_block this v m l :
  frame this v m (with_new_block m l).
Proof.
  repeat split; cbn [with_new_block next_heap]; [lia | |].
  - intros b H1 H2 H3. rewrite blocks_with_new_block.
    rewrite decide_False; [reflexivity|]. intros <-.
    specialize (H3 _ eq_refl). lia.
  - intros h Hh Hd. rewrite blocks_with_new_block.
    rewrite decide_False; [exact Hd|]. intros [= <-]. lia.
Qed.

(** The list left when the elements [i .. j) are removed from the first [sz]
    elements of [la] and the gap is closed. *)
Lemma erase_list (la tail : list T) (i j sz : nat) :
  (i <= j <= sz)%nat -> (sz <= length la)%nat ->
  take (sz - (j - i)) (take i la ++ take (sz - j) (drop j la) ++ tail)
  = take i (take sz la) ++ drop j (take sz la).
Proof.
  intros Hij Hsz.
  rewrite app_assoc, take_app_length'.
  - rewrite take_take, Nat.min_l by lia. f_equal.
    rewrite take_drop_commute. do 2 f_equal. lia.
  - rewrite length_app, !length_take, length_drop. lia.
Qed.

Lemma erase_spec this v m (i j : nat) :
  wf this (v, m) = true ->
  (i <= j <= length (elements (v, m)))%nat ->
  exists s',
    erase this (_data v +ₚ Z.of_nat i) (_data v +ₚ Z.of_nat j) (v, m)
    = Ok (_data (fst s') +ₚ Z.of_nat i) s'
    /\ wf this s' = true
    /\ elements s' = take i (elements (v, m)) ++ drop j (elements (v, m))
    /\ _size (fst s') = _size v - Z.of_nat (j - i)
    /\ next_heap (snd s') = next_heap m
    /\ frame this v m (snd s')
    /\ data_step this v m (fst s')
    /\ (if erase_shrinks v (Z.of_nat (j - i))
        then _data (fst s') = _staticMem this
             /\ _capacity (fst s') = StaticCapacity
             /\ blocks (snd s') !! blk (_data v) = None
        else _data (fst s') = _data v /\ _capacity (fst s') = _capacity v).
Proof.
  intros Hwf Hij.
  destruct (wf_inv _ _ _ Hwf)
    as (ls & la & Hls & Hlens & Hla & Hlena & Hsz & Hmax & Hmode).
  set (sz := Z.to_nat (_size v)).
  assert (Hsz' : _size v = Z.of_nat sz) by (unfold sz; lia).
  rewrite (elements_eq _ _ _ _ Hla Hsz') in *.
  rewrite length_take in Hij.
  assert (Hnew : size_t (_size v - Z.of_nat (j - i)) = Z.of_nat (sz - (j - i)))
    by (rewrite size_t_small; lia).
  unfold erase_shrinks. rewrite Hnew.
  destruct Hmode as [[Hd Hc] | (b & Hd & Hb & Hc & Hs)].
  - (* inline *)
    assert (Hcond : (StaticCapacity <? _capacity v)
                    && (Z.of_nat (sz - (j - i)) <=? StaticCapacity) = false).
    { rewrite (proj2 (Z.ltb_ge _ _)) by lia. reflexivity. }
    rewrite Hcond. rewrite Hd in Hla; cbn [_staticMem blk] in Hla.
    exists ({| _data := _data v; _size := Z.of_nat (sz - (j - i));
               _capacity := _capacity v |},
            set_block m (StaticMem this)
              (take i la ++ take (sz - j) (drop j la) ++ drop (i + (sz - j)) la)).
    split; [|split; [|split; [|split; [|split; [|split; [|split]]]]]].
    + rewrite (erase_inplace this v m (StaticMem this) la i j sz Hd Hla Hsz')
        by (lia || exact Hcond).
      cbn [fst]. reflexivity.
    + eapply (wf_inline this _ _ _ (blocks_set_block_eq _ _ _)); cbn [_data _size _capacity];
        rewrite ?length_app, ?length_take, ?length_drop; try assumption; lia.
    + erewrite elements_eq;
        [| cbn [_data]; rewrite Hd; cbn [blk _staticMem]; apply blocks_set_block_eq
         | cbn [_size]; reflexivity].
      apply erase_list; lia.
    + cbn [fst _size]. lia.
    + reflexivity.
    + cbn [snd]. eapply frame_set_block; [exact Hla|]. right. now rewrite Hd.
    + left. reflexivity.
    + cbn [fst _data _capacity]. auto.
  - destruct (Z.of_nat (sz - (j - i)) <=? StaticCapacity) eqn:Hfit;
      [apply Z.leb_le in Hfit | pose proof Hfit as Hbig; apply Z.leb_gt in Hbig].
    + (* heap, the elements that stay fit the array member *)
      rewrite (proj2 (Z.ltb_lt _ _)) by lia. cbn [andb].
      rewrite Hd in Hla; cbn [blk] in Hla.
      exists ({| _data := _staticMem this; _size := Z.of_nat (sz - (j - i));
                 _capacity := StaticCapacity |},
              free_block
                (set_block m (StaticMem this)
                   (take i la ++ take (sz - j) (drop j la) ++ drop (i + (sz - j)) ls))
                (HeapMem b)).
      split; [|split; [|split; [|split; [|split; [|split; [|split]]]]]].
      * rewrite (erase_shrink this v m b la ls i j sz Hd Hla Hls Hlens Hsz') by lia.
        cbn [fst _data]. reflexivity.
      * eapply (wf_inline this _ _ (take i la ++ take (sz - j) (drop j la)
                                     ++ drop (i + (sz - j)) ls));
          cbn [_data _size _capacity]; try reflexivity.
        -- rewrite blocks_free_block, decide_False by discriminate.
           apply blocks_set_block_eq.
        -- rewrite !length_app, !length_take, !length_drop. lia.
        -- lia.
      * erewrite elements_eq;
          [| cbn [_data _staticMem blk];
             rewrite blocks_free_block, decide_False by discriminate;
             apply blocks_set_block_eq
           | cbn [_size]; reflexivity].
        apply erase_list; lia.
      * cbn [fst _size]. lia.
      * reflexivity.
      * cbn [snd]. apply frame_free_block; [right; now rewrite Hd|].
        eapply frame_set_block; [exact Hls|]. now left.
      * right. left. reflexivity.
      * cbn [fst snd _data _capacity]. repeat split.
        rewrite Hd; cbn [blk]. rewrite blocks_free_block. now rewrite decide_True.
    + (* heap, the container stays on the heap *)
      assert (Hcond : (StaticCapacity <? _capacity v)
                      && (Z.of_nat (sz - (j - i)) <=? StaticCapacity) = false).
      { rewrite Hfit. apply andb_false_r. }
      rewrite andb_false_r. rewrite Hd in Hla; cbn [blk] in Hla.
      exists ({| _data := _data v; _size := Z.of_nat (sz - (j - i));
                 _capacity := _capacity v |},
              set_block m (HeapMem b)
                (take i la ++ take (sz - j) (drop j la) ++ drop (i + (sz - j)) la)).
      split; [|split; [|split; [|split; [|split; [|split; [|split]]]]]].
      * rewrite (erase_inplace this v m (HeapMem b) la i j sz Hd Hla Hsz')
          by (lia || exact Hcond).
        cbn [fst]. reflexivity.
      * eapply (wf_heap this _ _ ls _ b); cbn [_data _size _capacity].
        -- now rewrite blocks_set_block_ne.
        -- exact Hlens.
        -- exact Hd.
        -- apply blocks_set_block_eq.
        -- rewrite !length_app, !length_take, !length_drop. lia.
        -- exact Hb.
        -- lia.
        -- lia.
      * erewrite elements_eq;
          [| cbn [_data]; rewrite Hd; cbn [blk]; apply blocks_set_block_eq
           | cbn [_size]; reflexivity].
        apply erase_list; lia.
      * cbn [fst _size]. lia.
      * reflexivity.
      * cbn [snd]. eapply frame_set_block; [exact Hla|]. right. now rewrite Hd.
      * left. reflexivity.
      * cbn [fst _data _capacity]. auto.
Qed.

(** ** [_pushAt] *)

Lemma pushAt_inplace_in (ok : state -> Prop) v m b la (i sz : nat) (r : list T) pushElements :
  _data v = Ptr b 0 -> blocks m !! b = Some la -> _size v = Z.of_nat sz ->
  Z.of_nat (length la) = _capacity v -> _capacity v < SIZE_MAX_plus_1 ->
  (i <= sz)%nat -> (sz + length r <= length la)%nat ->
  push_states ok m b ->
  pushes_in ok pushElements (_size v) i r ->
  _pushAt (_data v +ₚ Z.of_nat i) (Z.of_nat (length r)) pushElements (v, m)
  = Ok tt ({| _data := _data v; _size := Z.of_nat (sz + length r);
              _capacity := _capacity v |},
           set_block m b
             (take i la ++ r ++ take (sz - i) (drop i la)
                ++ drop (sz + length r) la)).
Proof.
  intros Hd Hla Hsz Hlena Hmax Hi Hfit Hok Hpush.
  assert (Hsum : size_t (Z.of_nat sz + Z.of_nat (length r)) = Z.of_nat (sz + length r))
    by (rewrite size_t_small; lia).
  assert (Hcond : (_capacity v <? Z.of_nat (sz + length r)) = false)
    by (apply Z.ltb_ge; lia).
  set (l1 := take (i + length r) la ++ take (sz - i) (drop i la)
               ++ drop (i + length r + (sz - i)) la).
  assert (Hshift : std_copy_backward_mem (Ptr b (Z.of_nat i)) (Ptr b (Z.of_nat sz))
                     (Ptr b (Z.of_nat sz + Z.of_nat (length r))) m
                   = Some (set_block m b l1)).
  { replace (Z.of_nat sz + Z.of_nat (length r))
      with (Z.of_nat (i + length r + (sz - i))) by lia.
    apply (std_copy_backward_mem_spec m b b la la i sz (i + length r) Hla Hla);
      (lia || (right; lia)). }
  assert (Hlen1 : length l1 = length la).
  { unfold l1. rewrite !length_app, !length_take, !length_drop. lia. }
  unfold _pushAt.
  repeat (progress (monad_unfold;
    rewrite ?Hd, ?Hsz, ?Z.add_0_l, ?Hsum, ?Hcond, ?Hshift; cbn [blk off])).
  rewrite Hpush;
    [| reflexivity
     | apply Hok; cbn [_data blk];
       [left; now rewrite Hd
       |intros b' Hne; rewrite Hd in Hne; now apply blocks_set_block_ne]].
  repeat (progress (monad_unfold; rewrite ?Hd, ?Z.add_0_l; cbn [blk off])).
  rewrite (copy_range_spec r _ b l1 i (blocks_set_block_eq _ _ _))
    by (rewrite Hlen1; lia).
  rewrite set_block_twice.
  repeat (progress (monad_unfold; cbv [dealloc];
    rewrite ?Hd, ?Hsz, ?Z.add_0_l, ?Hsum; cbn [blk off])).
  do 3 f_equal. subst l1.
  rewrite take_app_le by (rewrite length_take; lia).
  rewrite take_take, Nat.min_l by lia. do 2 f_equal.
  rewrite drop_app_length' by (rewrite length_take; lia).
  do 2 f_equal. lia.
Qed.

Lemma pushAt_inplace v m b la (i sz : nat) (r : list T) pushElements :
  _data v = Ptr b 0 -> blocks m !! b = Some la -> _size v = Z.of_nat sz ->
  Z.of_nat (length la) = _capacity v -> _capacity v < SIZE_MAX_plus_1 ->
  (i <= sz)%nat -> (sz + length r <= length la)%nat ->
  pushes pushElements (_size v) i r ->
  _pushAt (_data v +ₚ Z.of_nat i) (Z.of_nat (length r)) pushElements (v, m)
  = Ok tt ({| _data := _data v; _size := Z.of_nat (sz + length r);
              _capacity := _capacity v |},
           set_block m b
             (take i la ++ r ++ take (sz - i) (drop i la)
                ++ drop (sz + length r) la)).
Proof.
  intros Hd Hla Hsz Hlena Hmax Hi Hfit Hpush.
  apply (pushAt_inplace_in (fun _ => True)); auto.
  - intros v' m' _ _. exact I.
  - intros v' m' Hs _. now apply Hpush.
Qed.

(** The contents of the new array of [_pushAt]: the elements before the
    position, the new elements, the elements from the position on, and the
    spare capacity. *)
Lemma pushAt_realloc_in (ok : state -> Prop) v m b la (i sz : nat) (r : list T) pushElements :
  _data v = Ptr b 0 -> blocks m !! b = Some la -> _size v = Z.of_nat sz ->
  Z.of_nat (length la) = _capacity v -> (sz <= length la)%nat ->
  StaticCapacity <= _capacity v ->
  b <> HeapMem (next_heap m) ->
  (_capacity v <= StaticCapacity \/ exists h, b = HeapMem h) ->
  (i <= sz)%nat -> _capacity v < Z.of_nat (sz + length r) ->
  exact_size (Z.of_nat (sz + length r)) ->
  push_states ok m b ->
  pushes_in ok pushElements (_size v) i r ->
  let c := 3 * Z.of_nat (sz + length r) / 2 in
  let m' := with_new_block m
              (take i la ++ r ++ take (sz - i) (drop i la)
                 ++ replicate (Z.to_nat c - (sz + length r)) T_default) in
  _pushAt (_data v +ₚ Z.of_nat i) (Z.of_nat (length r)) pushElements (v, m)
  = Ok tt ({| _data := Ptr (HeapMem (next_heap m)) 0;
              _size := Z.of_nat (sz + length r); _capacity := c |},
           if _capacity v <=? StaticCapacity then m' else free_block m' b).
Proof.
  intros Hd Hla Hsz Hlena Hlen HSC Hfresh Hold Hi Hgrow Hex Hok Hpush c m'.
  pose proof Hex as Hex'. unfold exact_size, Dbl.DBL_MANT_DIG in Hex'.
  assert (Hsum : size_t (Z.of_nat sz + Z.of_nat (length r)) = Z.of_nat (sz + length r))
    by (rewrite size_t_small; unfold SIZE_MAX_plus_1; lia).
  assert (Hcond : (_capacity v <? Z.of_nat (sz + length r)) = true)
    by (apply Z.ltb_lt; lia).
  assert (Hcap : forall mm, _cap (Z.of_nat (length r)) (v, mm) = Ok c (v, mm)).
  { intros mm.
    assert (Hs : _size v + Z.of_nat (length r) = Z.of_nat (sz + length r)) by lia.
    rewrite cap_run by (rewrite ?Hs; (lia || exact Hex)).
    unfold computeCapacity. rewrite Hs.
    now rewrite (proj2 (Z.leb_gt _ _)) by lia. }
  assert (Hc : (sz + length r <= Z.to_nat c)%nat).
  { subst c. apply Nat2Z.inj_le. rewrite Z2Nat.id by (apply Z.div_pos; lia).
    apply Z.div_le_lower_bound; lia. }
  assert (Hfresh' : HeapMem (next_heap m) <> b) by congruence.
  set (l0 := replicate (Z.to_nat c) T_default).
  assert (Hlen0 : length l0 = Z.to_nat c) by apply length_replicate.
  set (m0 := with_new_block m l0).
  assert (Hla0 : blocks m0 !! b = Some la).
  { unfold m0. rewrite blocks_with_new_block. now rewrite decide_False by exact Hfresh'. }
  assert (Hnb0 : blocks m0 !! (HeapMem (next_heap m)) = Some l0).
  { unfold m0. rewrite blocks_with_new_block. now rewrite decide_True. }
  set (l1 := take i la ++ drop i l0).
  assert (Hlen1 : length l1 = Z.to_nat c).
  { unfold l1. rewrite length_app, length_take, length_drop. lia. }
  assert (Hcopy1 : std_copy_mem (Ptr b 0) (Ptr b (Z.of_nat i)) (Ptr (HeapMem (next_heap m)) 0) m0
                   = Some (set_block m0 (HeapMem (next_heap m)) l1)).
  { etransitivity;
      [apply (std_copy_mem_spec m0 b (HeapMem (next_heap m)) la l0 0 i 0 Hla0 Hnb0); (lia || (left; exact Hfresh))|].
    now rewrite take_0, drop_0, Nat.sub_0_r. }
  set (m1 := set_block m0 (HeapMem (next_heap m)) l1) in *.
  assert (Hla1 : blocks m1 !! b = Some la)
    by (unfold m1; rewrite blocks_set_block_ne; [exact Hla0 | exact Hfresh']).
  assert (Hnb1 : blocks m1 !! (HeapMem (next_heap m)) = Some l1) by apply blocks_set_block_eq.
  set (l2 := take (i + length r) l1 ++ take (sz - i) (drop i la)
               ++ drop (i + length r + (sz - i)) l1).
  assert (Hlen2 : length l2 = Z.to_nat c).
  { unfold l2. rewrite !length_app, !length_take, !length_drop. lia. }
  assert (Hshift : std_copy_backward_mem (Ptr b (Z.of_nat i)) (Ptr b (Z.of_nat sz))
                     (Ptr (HeapMem (next_heap m)) (Z.of_nat sz + Z.of_nat (length r))) m1
                   = Some (set_block m1 (HeapMem (next_heap m)) l2)).
  { replace (Z.of_nat sz + Z.of_nat (length r))
      with (Z.of_nat (i + length r + (sz - i))) by lia.
    apply (std_copy_backward_mem_spec m1 b (HeapMem (next_heap m)) la l1 i sz (i + length r) Hla1 Hnb1);
      (lia || (left; exact Hfresh)). }
  unfold _pushAt.
  repeat (progress (monad_unfold;
    rewrite ?Hd, ?Hsz, ?Z.add_0_l, ?Hsum, ?Hcond, ?Hcap, ?alloc_eq; cbn [blk off])).
  fold l0. fold m0.
  repeat (progress (monad_unfold;
    rewrite ?Hd, ?Hsz, ?Z.add_0_l, ?Hsum, ?Hcond, ?Hcap, ?Hcopy1, ?Hshift;
    cbn [blk off])).
  rewrite Hpush;
    [| cbn [_size]; now rewrite Hsz
     | apply Hok; cbn [_data blk];
       [now right
       |intros b' Hne; unfold m1, m0;
        rewrite !blocks_set_block_ne, blocks_with_new_block by congruence;
        now rewrite decide_False by congruence]].
  repeat (progress (monad_unfold; rewrite ?Z.add_0_l; cbn [blk off])).
  rewrite (copy_range_spec r _ (HeapMem (next_heap m)) l2 i (blocks_set_block_eq _ _ _))
    by (rewrite Hlen2; lia).
  unfold m1. rewrite !set_block_twice. unfold m0. rewrite set_block_with_new_block.
  assert (Hl3 : take i l2 ++ r ++ drop (i + length r) l2
                = take i la ++ r ++ take (sz - i) (drop i la)
                    ++ replicate (Z.to_nat c - (sz + length r)) T_default).
  { subst l2 l1 l0.
    rewrite take_app_le by (rewrite length_take, length_app, length_take, length_drop,
                              length_replicate; lia).
    rewrite take_take, Nat.min_l by lia.
    rewrite take_app_length' by (rewrite length_take; lia). do 2 f_equal.
    rewrite drop_app_length'
      by (rewrite length_take, length_app, length_take, length_drop,
            length_replicate; lia).
    f_equal.
    rewrite drop_app_ge by (rewrite length_take; lia).
    rewrite length_take, drop_drop, drop_replicate. f_equal. lia. }
  rewrite Hl3. fold m'.
  destruct (Z.leb_spec (_capacity v) StaticCapacity) as [Hin|Hheap].
  - cbv [dealloc]. monad_unfold. now rewrite Hsum.
  - destruct Hold as [?|[h ->]]; [lia|].
    erewrite dealloc_heap
      by (unfold m'; rewrite blocks_with_new_block, decide_False by exact Hfresh';
          exact Hla).
    monad_unfold. now rewrite Hsum.
Qed.

Lemma pushAt_realloc v m b la (i sz : nat) (r : list T) pushElements :
  _data v = Ptr b 0 -> blocks m !! b = Some la -> _size v = Z.of_nat sz ->
  Z.of_nat (length la) = _capacity v -> (sz <= length la)%nat ->
  StaticCapacity <= _capacity v ->
  b <> HeapMem (next_heap m) ->
  (_capacity v <= StaticCapacity \/ exists h, b = HeapMem h) ->
  (i <= sz)%nat -> _capacity v < Z.of_nat (sz + length r) ->
  exact_size (Z.of_nat (sz + length r)) ->
  pushes pushElements (_size v) i r ->
  let c := 3 * Z.of_nat (sz + length r) / 2 in
  let m' := with_new_block m
              (take i la ++ r ++ take (sz - i) (drop i la)
                 ++ replicate (Z.to_nat c - (sz + length r)) T_default) in
  _pushAt (_data v +ₚ Z.of_nat i) (Z.of_nat (length r)) pushElements (v, m)
  = Ok tt ({| _data := Ptr (HeapMem (next_heap m)) 0;
              _size := Z.of_nat (sz + length r); _capacity := c |},
           if _capacity v <=? StaticCapacity then m' else free_block m' b).
Proof.
  intros Hd Hla Hsz Hlena Hlen HSC Hfresh Hold Hi Hgrow Hex Hpush.
  apply (pushAt_realloc_in (fun _ => True)); auto.
  - intros v' m' _ _. exact I.
  - intros v' m' Hs _. now apply Hpush.
Qed.

(** The list after [r] is inserted before index [i] of the first [sz]
    elements of [la]. *)
Lemma insert_list (la r tail : list T) (i sz : nat) :
  (i <= sz)%nat -> (sz <= length la)%nat ->
  take (sz + length r) (take i la ++ r ++ take (sz - i) (drop i la) ++ tail)
  = take i (take sz la) ++ r ++ drop i (take sz la).
Proof.
  intros Hi Hsz.
  rewrite !app_assoc, take_app_length'.
  - rewrite take_take, Nat.min_l by lia. rewrite <- !app_assoc. do 2 f_equal.
    rewrite take_drop_commute. do 2 f_equal. lia.
  - rewrite !length_app, !length_take, length_drop. lia.
Qed.

Lemma pushAt_spec_in (ok : state -> Prop) this v m (i : nat) (r : list T) pushElements :
  wf this (v, m) = true ->
  (i <= length (elements (v, m)))%nat ->
  exact_size (_size v + Z.of_nat (length r)) ->
  push_states ok m (blk (_data v)) ->
  pushes_in ok pushElements (_size v) i r ->
  exists s',
    _pushAt (_data v +ₚ Z.of_nat i) (Z.of_nat (length r)) pushElements (v, m)
    = Ok tt s'
    /\ wf this s' = true
    /\ elements s' = take i (elements (v, m)) ++ r ++ drop i (elements (v, m))
    /\ _size (fst s') = _size v + Z.of_nat (length r)
    /\ frame this v m (snd s')
    /\ data_step this v m (fst s')
    /\ (if _size v + Z.of_nat (length r) <=? _capacity v
        then _data (fst s') = _data v
             /\ _capacity (fst s') = _capacity v
             /\ next_heap (snd s') = next_heap m
        else _data (fst s') = Ptr (HeapMem (next_heap m)) 0
             /\ _capacity (fst s') = computeCapacity (_size v) (Z.of_nat (length r))
             /\ next_heap (snd s') = S (next_heap m)
             /\ (StaticCapacity < _capacity v ->
                 blocks (snd s') !! blk (_data v) = None)).
Proof.
  intros Hwf Hi Hex Hok Hpush.
  destruct (wf_inv _ _ _ Hwf)
    as (ls & la & Hls & Hlens & Hla & Hlena & Hsz & Hmax & Hmode).
  set (sz := Z.to_nat (_size v)).
  assert (Hsz' : _size v = Z.of_nat sz) by (unfold sz; lia).
  rewrite (elements_eq _ _ _ _ Hla Hsz') in *.
  rewrite length_take in Hi.
  assert (Hdb : exists b, _data v = Ptr b 0 /\ blocks m !! b = Some la
                          /\ b <> HeapMem (next_heap m)
                          /\ (_capacity v <= StaticCapacity \/ exists h, b = HeapMem h)).
  { destruct Hmode as [[Hd Hc] | (h & Hd & Hh & Hc & Hs)].
    - exists (StaticMem this). rewrite Hd in Hla. repeat split; auto; lia.
    - exists (HeapMem h). rewrite Hd in Hla. repeat split; eauto.
      intros [= ->]. lia. }
  destruct Hdb as (b & Hd & Hlab & Hfresh & Hold).
  assert (HSC : StaticCapacity <= _capacity v) by (destruct Hmode as [[? ?]|(? & ? & ? & ? & ?)]; lia).
  destruct (Z.leb_spec (_size v + Z.of_nat (length r)) (_capacity v)) as [Hfit|Hgrow].
  - (* in place *)
    exists ({| _data := _data v; _size := Z.of_nat (sz + length r);
               _capacity := _capacity v |},
            set_block m b (take i la ++ r ++ take (sz - i) (drop i la)
                             ++ drop (sz + length r) la)).
    assert (Hlen' : length (take i la ++ r ++ take (sz - i) (drop i la)
                              ++ drop (sz + length r) la) = length la).
    { rewrite !length_app, !length_take, !length_drop. lia. }
    split; [|split; [|split; [|split; [|split; [|split]]]]].
    + apply (pushAt_inplace_in ok); auto; try lia.
      now rewrite Hd in Hok.
    + destruct Hmode as [[Hd' Hc] | (h & Hd' & Hh & Hc & Hs)].
      * assert (b = StaticMem this) as -> by (rewrite Hd' in Hd; now inversion Hd).
        eapply (wf_inline this _ _ _ (blocks_set_block_eq _ _ _));
          cbn [_data _size _capacity]; rewrite ?Hlen'; try assumption; lia.
      * assert (b = HeapMem h) as -> by (rewrite Hd' in Hd; now inversion Hd).
        eapply (wf_heap this _ _ ls _ h); cbn [_data _size _capacity];
          rewrite ?Hlen'; try assumption; try lia.
        -- now rewrite blocks_set_block_ne.
        -- apply blocks_set_block_eq.
    + erewrite elements_eq;
        [| cbn [_data]; rewrite Hd; cbn [blk]; apply blocks_set_block_eq
         | cbn [_size]; reflexivity].
      apply insert_list; lia.
    + cbn [fst _size]. lia.
    + cbn [snd]. eapply frame_set_block; [exact Hlab|]. right. now rewrite Hd.
    + left. reflexivity.
    + cbn [fst snd _data _capacity]. auto.
  - (* reallocation *)
    set (c := 3 * Z.of_nat (sz + length r) / 2).
    set (lnew := take i la ++ r ++ take (sz - i) (drop i la)
                   ++ replicate (Z.to_nat c - (sz + length r)) T_default).
    set (m' := with_new_block m lnew).
    assert (Hex' : exact_size (Z.of_nat (sz + length r)))
      by (now replace (Z.of_nat (sz + length r)) with (_size v + Z.of_nat (length r)) by lia).
    pose proof Hex' as Hex''. unfold exact_size, Dbl.DBL_MANT_DIG in Hex''.
    assert (Hc : Z.of_nat (sz + length r) <= c)
      by (subst c; apply Z.div_le_lower_bound; lia).
    assert (Hc' : c < SIZE_MAX_plus_1)
      by (subst c; unfold SIZE_MAX_plus_1; apply Z.div_lt_upper_bound; lia).
    assert (Hcc : computeCapacity (_size v) (Z.of_nat (length r)) = c).
    { unfold computeCapacity. rewrite (proj2 (Z.leb_gt _ _)) by lia.
      subst c. do 3 f_equal. lia. }
    assert (Hlenn : Z.of_nat (length lnew) = c).
    { subst lnew. rewrite !length_app, !length_take, !length_drop, length_replicate. lia. }
    exists ({| _data := Ptr (HeapMem (next_heap m)) 0;
               _size := Z.of_nat (sz + length r); _capacity := c |},
            if _capacity v <=? StaticCapacity then m' else free_block m' b).
    assert (Hlook : forall b', b' <> b ->
              blocks (if _capacity v <=? StaticCapacity then m' else free_block m' b) !! b'
              = blocks m' !! b').
    { intros b' Hne. destruct (_capacity v <=? StaticCapacity); [reflexivity|].
      rewrite blocks_free_block. now rewrite decide_False by congruence. }
    split; [|split; [|split; [|split; [|split; [|split]]]]].
    + apply (pushAt_realloc_in ok v m b la i sz r pushElements); auto; try lia.
      now rewrite Hd in Hok.
    + eapply (wf_heap this _ _ ls lnew (next_heap m)); cbn [_data _size _capacity];
        try assumption; try reflexivity; try lia.
      * destruct (decide (b = StaticMem this)) as [->|Hne].
        -- destruct Hold as [Hle|[h [=]]].
           rewrite (proj2 (Z.leb_le _ _)) by lia.
           unfold m'. rewrite blocks_with_new_block. now rewrite decide_False.
        -- rewrite Hlook by congruence.
           unfold m'. rewrite blocks_with_new_block. now rewrite decide_False.
      * rewrite Hlook by congruence.
        unfold m'. rewrite blocks_with_new_block. now rewrite decide_True.
      * destruct (_capacity v <=? StaticCapacity); cbn; lia.
    + erewrite elements_eq;
        [| cbn [_data blk]; rewrite Hlook by congruence;
           unfold m'; rewrite blocks_with_new_block, decide_True by reflexivity;
           reflexivity
         | cbn [_size]; reflexivity].
      apply insert_list; lia.
    + cbn [fst _size]. lia.
    + cbn [snd]. destruct (_capacity v <=? StaticCapacity).
      * apply frame_with_new_block.
      * apply frame_free_block; [right; now rewrite Hd|]. apply frame_with_new_block.
    + right. right. reflexivity.
    + cbn [fst snd _data _capacity]. repeat split; auto.
      * destruct (_capacity v <=? StaticCapacity); reflexivity.
      * intros Hheap. rewrite (proj2 (Z.leb_gt _ _)) by lia.
        rewrite Hd; cbn [blk]. rewrite blocks_free_block. now rewrite decide_True.
Qed.

Lemma pushAt_spec this v m (i : nat) (r : list T) pushElements :
  wf this (v, m) = true ->
  (i <= length (elements (v, m)))%nat ->
  exact_size (_size v + Z.of_nat (length r)) ->
  pushes pushElements (_size v) i r ->
  exists s',
    _pushAt (_data v +ₚ Z.of_nat i) (Z.of_nat (length r)) pushElements (v, m)
    = Ok tt s'
    /\ wf this s' = true
    /\ elements s' = take i (elements (v, m)) ++ r ++ drop i (elements (v, m))
    /\ _size (fst s') = _size v + Z.of_nat (length r)
    /\ frame this v m (snd s')
    /\ data_step this v m (fst s')
    /\ (if _size v + Z.of_nat (length r) <=? _capacity v
        then _data (fst s') = _data v
             /\ _capacity (fst s') = _capacity v
             /\ next_heap (snd s') = next_heap m
        else _data (fst s') = Ptr (HeapMem (next_heap m)) 0
             /\ _capacity (fst s') = computeCapacity (_size v) (Z.of_nat (length r))
             /\ next_heap (snd s') = S (next_heap m)
             /\ (StaticCapacity < _capacity v ->
                 blocks (snd s') !! blk (_data v) = None)).
Proof.
  intros Hwf Hi Hex Hpush.
  apply (pushAt_spec_in (fun _ => True)); auto.
  - intros v' m' _ _. exact I.
  - intros v' m' Hs _. now apply Hpush.
Qed.

(** ** [insert], [push_back] *)

Lemma wf_data this v m :
  wf this (v, m) = true -> exists b, _data v = Ptr b 0.
Proof.
  intros Hwf. destruct (wf_inv _ _ _ Hwf) as (_ & _ & _ & _ & _ & _ & _ & _ & Hmode).
  destruct Hmode as [[Hd _] | (h & Hd & _)]; rewrite Hd; eauto.
Qed.

Lemma wf_size this v m :
  wf this (v, m) = true ->
  0 <= _size v <= _capacity v /\ _capacity v < SIZE_MAX_plus_1
  /\ StaticCapacity <= _capacity v
  /\ length (elements (v, m)) = Z.to_nat (_size v).
Proof.
  intros Hwf. destruct (wf_inv _ _ _ Hwf)
    as (ls & la & Hls & Hlens & Hla & Hlena & Hsz & Hmax & Hmode).
  repeat split; try lia.
  - destruct Hmode as [[_ Hc] | (h & _ & _ & Hc & _)]; lia.
  - unfold elements. rewrite (storage_eq _ _ _ Hla); cbn [fst].
    rewrite length_take. lia.
Qed.

Lemma pushes_copy_range v (i : nat) (r : list T) :
  pushes (do dt <- get _data; std_copy_range r (dt +ₚ Z.of_nat i)) (_size v) i r.
Proof. intros v' m' _. reflexivity. Qed.

Ltac monad_unfold_in H :=
  cbv beta iota zeta delta
    [bind ret get defined throw on_memory set_data set_size set_capacity
     new_array delete_array std_copy std_copy_backward std_copy_range assign
     std_distance std_copy_input read_ref begin end_ cbegin cend size capacity data empty fst snd ptr_add id
     erase_shrinks erase_to_static] in H;
  cbn [_data _size _capacity blk off] in H.

Lemma insert_spec this v m (i : nat) (r : list T) :
  wf this (v, m) = true ->
  (i <= length (elements (v, m)))%nat ->
  exact_size (_size v + Z.of_nat (length r)) ->
  exists s',
    insert (_data v +ₚ Z.of_nat i) (forward_range r) (v, m) = Ok (_data (fst s') +ₚ Z.of_nat i) s'
    /\ wf this s' = true
    /\ elements s' = take i (elements (v, m)) ++ r ++ drop i (elements (v, m))
    /\ _size (fst s') = _size v + Z.of_nat (length r)
    /\ frame this v m (snd s')
    /\ data_step this v m (fst s')
    /\ (if _size v + Z.of_nat (length r) <=? _capacity v
        then _data (fst s') = _data v
             /\ _capacity (fst s') = _capacity v
             /\ next_heap (snd s') = next_heap m
        else _data (fst s') = Ptr (HeapMem (next_heap m)) 0
             /\ _capacity (fst s') = computeCapacity (_size v) (Z.of_nat (length r))
             /\ next_heap (snd s') = S (next_heap m)
             /\ (StaticCapacity < _capacity v ->
                 blocks (snd s') !! blk (_data v) = None)).
Proof.
  intros Hwf Hi Hex.
  destruct (pushAt_spec this v m i r _ Hwf Hi Hex (pushes_copy_range v i r))
    as (s' & Hrun & Hrest).
  exists s'. split; [|exact Hrest].
  destruct (wf_data _ _ _ Hwf) as (b & Hd).
  destruct (wf_size _ _ _ Hwf) as (Hsz & Hmax & _ & Hlen).
  pose proof Hex as Hex'. unfold exact_size, Dbl.DBL_MANT_DIG in Hex'.
  assert (Hn : size_t (Z.of_nat (length r)) = Z.of_nat (length r))
    by (rewrite size_t_small; unfold SIZE_MAX_plus_1; lia).
  assert (Hidx : size_t (0 + Z.of_nat i - 0) = Z.of_nat i)
    by (rewrite size_t_small; unfold SIZE_MAX_plus_1; lia).
  unfold insert. monad_unfold. monad_unfold_in Hrun.
  rewrite Hd in *. cbn [blk off] in *. rewrite ptr_diff_same. monad_unfold.
  rewrite Hn, Hidx. rewrite Hrun. reflexivity.
Qed.

Lemma assign_copy_range p x s : assign p x s = std_copy_range [x] p s.
Proof.
  unfold assign, std_copy_range, on_memory; cbn [copy_range].
  now destruct (store (snd s) p x).
Qed.

(** ** Ranges and references into the memory *)

Lemma load_agree m m' p :
  blocks m' !! blk p = blocks m !! blk p -> load m' p = load m p.
Proof. intros H. unfold load. now rewrite H. Qed.

Lemma read_loop_agree n : forall first m m',
  blocks m' !! blk first = blocks m !! blk first ->
  read_loop n first m' = read_loop n first m.
Proof.
  induction n as [|n IH]; intros first m m' H; cbn [read_loop]; [reflexivity|].
  rewrite (load_agree m m' first H).
  rewrite (IH (first +ₚ 1) m m') by (destruct first; exact H).
  reflexivity.
Qed.

Lemma read_loop_length n : forall first m r,
  read_loop n first m = Some r -> length r = n.
Proof.
  induction n as [|n IH]; intros first m r H; cbn [read_loop] in H.
  - now injection H as <-.
  - destruct (load m first); [|discriminate].
    destruct (read_loop n (first +ₚ 1) m) as [r'|] eqn:Hr; [|discriminate].
    injection H as <-. cbn [length]. f_equal. eapply IH; eassumption.
Qed.

Lemma store_blocks_ne m p x m' b :
  store m p x = Some m' -> b <> blk p -> blocks m' !! b = blocks m !! b.
Proof.
  unfold store. intros H Hne.
  destruct (blocks m !! blk p) as [l|]; [|discriminate].
  destruct (_ && _); [|discriminate].
  injection H as <-. cbn [blocks]. now rewrite lookup_insert_ne by congruence.
Qed.

(** A copy from an array that the copy does not write copies the values
    that the array held. *)
Lemma copy_loop_read n : forall first d_first m r,
  read_loop n first m = Some r -> blk d_first <> blk first ->
  copy_loop n first d_first m = copy_range r d_first m.
Proof.
  induction n as [|n IH]; intros first d m r Hr Hne; cbn [read_loop] in Hr.
  - now injection Hr as <-.
  - destruct (load m first) as [x|] eqn:Hl; [|discriminate].
    destruct (read_loop n (first +ₚ 1) m) as [r'|] eqn:Hr'; [|discriminate].
    injection Hr as <-. cbn [copy_loop copy_range]. rewrite Hl.
    destruct (store m d x) as [m1|] eqn:Hst; [|reflexivity].
    apply IH; [|destruct first, d; exact Hne].
    rewrite <- Hr'. apply read_loop_agree.
    eapply store_blocks_ne; [exact Hst|].
    destruct first. cbn [ptr_add blk] in *. congruence.
Qed.

Lemma range_values_length first_last m r :
  range_values first_last m = Some r ->
  forall s : state, std_distance first_last s = Ok (Z.of_nat (length r)) s.
Proof.
  intros H s. destruct first_last as [first last|r'|r']; cbn [range_values] in H.
  - unfold distance in H. unfold std_distance, defined.
    destruct (ptr_diff last first) as [d|]; [|discriminate].
    destruct (Z.leb_spec 0 d); [|discriminate].
    apply read_loop_length in H. rewrite H. now rewrite Z2Nat.id.
  - now injection H as ->.
  - now injection H as ->.
Qed.

Lemma pushes_in_copy_input first_last r sz (i : nat) :
  pushes_in (range_kept first_last r)
    (do dt <- get _data; std_copy_input first_last (dt +ₚ Z.of_nat i)) sz i r.
Proof.
  intros v' m' _ [Hr Hne]. cbn [fst snd] in *.
  unfold bind, get; cbn [fst].
  destruct first_last as [first last|r'|r']; cbn [range_values] in Hr;
    unfold std_copy_input.
  - unfold std_copy, std_copy_range, on_memory, std_copy_mem; cbn [snd].
    destruct (distance first last) as [n|]; [|discriminate].
    rewrite (copy_loop_read n first _ m' r Hr); [reflexivity|].
    destruct (_data v'). cbn [ptr_add blk] in *. congruence.
  - now injection Hr as ->.
  - contradiction.
Qed.

Lemma push_states_range_kept first_last r v m :
  range_values first_last m = Some r ->
  range_apart first_last (v, m) = true ->
  push_states (range_kept first_last r) m (blk (_data v)).
Proof.
  intros Hr Hap v' m' Hb Hm'. split; cbn [fst snd].
  - destruct first_last as [first last|r'|r']; cbn [range_values] in *;
      try exact Hr.
    unfold range_apart, apart in Hap; cbn [fst snd] in Hap.
    apply andb_true_iff in Hap as [H1 H2].
    apply negb_true_iff, bool_decide_eq_false in H1, H2.
    destruct (distance first last) as [n|]; [|discriminate].
    rewrite <- Hr. apply read_loop_agree, Hm'.
    destruct Hb as [-> | ->]; assumption.
  - destruct first_last as [first last|r'|r']; [|exact I|discriminate].
    unfold range_apart, apart in Hap; cbn [fst snd] in Hap.
    apply andb_true_iff in Hap as [H1 H2].
    apply negb_true_iff, bool_decide_eq_false in H1, H2.
    destruct Hb as [-> | ->]; assumption.
Qed.

Lemma pushes_in_assign_ref value x sz (i : nat) :
  pushes_in (ref_kept value x)
    (do dt <- get _data; do y <- read_ref value; assign (dt +ₚ Z.of_nat i) y)
    sz i [x].
Proof.
  intros v' m' _ [Hx _]. cbn [fst snd] in *.
  unfold bind, get; cbn [fst].
  destruct value as [p|y]; cbn [referent] in Hx; unfold read_ref, defined, ret.
  - cbn [snd]. rewrite Hx. apply assign_copy_range.
  - injection Hx as ->. apply assign_copy_range.
Qed.

Lemma push_states_ref_kept value x v m :
  referent value m = Some x ->
  ref_apart value (v, m) = true ->
  push_states (ref_kept value x) m (blk (_data v)).
Proof.
  intros Hx Hap v' m' Hb Hm'.
  destruct value as [p|y]; [|split; [exact Hx | exact I]].
  unfold ref_apart, apart in Hap; cbn [fst snd] in Hap.
  apply andb_true_iff in Hap as [H1 H2].
  apply negb_true_iff, bool_decide_eq_false in H1, H2.
  assert (Hne : blk p <> blk (_data v')) by (destruct Hb as [-> | ->]; assumption).
  split; cbn [fst snd referent]; [|exact Hne].
  cbn [referent] in Hx. rewrite <- Hx. apply load_agree, Hm', Hne.
Qed.

(** [insert] of a range that is apart from the storage. *)
Lemma insert_spec_apart this v m (i : nat) first_last (r : list T) :
  wf this (v, m) = true ->
  (i <= length (elements (v, m)))%nat ->
  range_values first_last m = Some r ->
  range_apart first_last (v, m) = true ->
  exact_size (_size v + Z.of_nat (length r)) ->
  exists s',
    insert (_data v +ₚ Z.of_nat i) first_last (v, m)
    = Ok (_data (fst s') +ₚ Z.of_nat i) s'
    /\ wf this s' = true
    /\ elements s' = take i (elements (v, m)) ++ r ++ drop i (elements (v, m))
    /\ _size (fst s') = _size v + Z.of_nat (length r)
    /\ frame this v m (snd s')
    /\ data_step this v m (fst s')
    /\ (if _size v + Z.of_nat (length r) <=? _capacity v
        then _data (fst s') = _data v
             /\ _capacity (fst s') = _capacity v
             /\ next_heap (snd s') = next_heap m
        else _data (fst s') = Ptr (HeapMem (next_heap m)) 0
             /\ _capacity (fst s') = computeCapacity (_size v) (Z.of_nat (length r))
             /\ next_heap (snd s') = S (next_heap m)
             /\ (StaticCapacity < _capacity v ->
                 blocks (snd s') !! blk (_data v) = None)).
Proof.
  intros Hwf Hi Hr Hap Hex.
  destruct (pushAt_spec_in (range_kept first_last r) this v m i r _ Hwf Hi Hex
              (push_states_range_kept first_last r v m Hr Hap)
              (pushes_in_copy_input first_last r (_size v) i))
    as (s' & Hrun & Hrest).
  exists s'. split; [|exact Hrest].
  destruct (wf_data _ _ _ Hwf) as (b & Hd).
  destruct (wf_size _ _ _ Hwf) as (Hsz & Hmax & _ & Hlen).
  pose proof Hex as Hex'. unfold exact_size, Dbl.DBL_MANT_DIG in Hex'.
  assert (Hn : size_t (Z.of_nat (length r)) = Z.of_nat (length r))
    by (rewrite size_t_small; unfold SIZE_MAX_plus_1; lia).
  assert (Hidx : size_t (0 + Z.of_nat i - 0) = Z.of_nat i)
    by (rewrite size_t_small; unfold SIZE_MAX_plus_1; lia).
  unfold insert, bind at 1.
  rewrite (range_values_length first_last m r Hr (v, m)).
  unfold bind at 1, begin, get at 1; cbn [fst].
  rewrite Hd in *. cbv [ptr_add] in *. cbn [blk off] in *.
  unfold bind at 1, defined at 1. rewrite ptr_diff_same.
  rewrite Hn, Hidx. unfold bind at 1. rewrite Hrun.
  unfold bind, get, ret; cbn [fst]. reflexivity.
Qed.

(** [insert] of a value that is no element of the container. *)
Lemma insert_value_spec_apart this v m (i : nat) value x :
  wf this (v, m) = true ->
  (i <= length (elements (v, m)))%nat ->
  referent value m = Some x ->
  ref_apart value (v, m) = true ->
  exact_size (_size v + 1) ->
  exists s',
    insert_value (_data v +ₚ Z.of_nat i) value (v, m)
    = Ok (_data (fst s') +ₚ Z.of_nat i) s'
    /\ wf this s' = true
    /\ elements s' = take i (elements (v, m)) ++ [x] ++ drop i (elements (v, m))
    /\ _size (fst s') = _size v + 1
    /\ frame this v m (snd s')
    /\ data_step this v m (fst s').
Proof.
  intros Hwf Hi Hx Hap Hex.
  destruct (pushAt_spec_in (ref_kept value x) this v m i [x] _ Hwf Hi Hex
              (push_states_ref_kept value x v m Hx Hap)
              (pushes_in_assign_ref value x (_size v) i))
    as (s' & Hrun & Hwf' & Hel & Hsz' & Hfr & Hds & _).
  exists s'. split; [|auto 7].
  destruct (wf_data _ _ _ Hwf) as (b & Hd).
  destruct (wf_size _ _ _ Hwf) as (Hsz & Hmax & _ & Hlen).
  assert (Hidx : size_t (0 + Z.of_nat i - 0) = Z.of_nat i)
    by (rewrite size_t_small; unfold SIZE_MAX_plus_1 in *; lia).
  change (Z.of_nat (length [x])) with 1 in Hrun.
  unfold insert_value, bind at 1, begin, get at 1; cbn [fst].
  rewrite Hd in *. cbv [ptr_add] in *. cbn [blk off] in *.
  unfold bind at 1, defined at 1. rewrite ptr_diff_same.
  rewrite Hidx. unfold bind at 1. rewrite Hrun.
  unfold bind, get, ret; cbn [fst]. reflexivity.
Qed.

(** ** [insert] of any range: the values it writes

    Whatever the range, a call of [insert] on a well-formed container does
    what [insert] of some values [r'] does, as many as the range has; they
    are the values of the range when the range is apart from the storage. *)

Lemma bind_assoc {A B C} (c : M A) (f : A -> M B) (g : B -> M C) s :
  bind (bind c f) g s = bind c (fun x => bind (f x) g) s.
Proof. unfold bind. now destruct (c s). Qed.

Lemma bind_ext {A B} (c : M A) (f g : A -> M B) s :
  (forall x s1, f x s1 = g x s1) -> bind c f s = bind c g s.
Proof. intros H. unfold bind. destruct (c s); auto. Qed.

Lemma pushAt_split pos n pe s :
  _pushAt pos n pe s
  = (do oldMem <- pushAt_before pos n; run pe; pushAt_after n oldMem) s.
Proof.
  unfold _pushAt, pushAt_before, pushAt_after.
  rewrite !bind_assoc. apply bind_ext; intros initialEnd s1.
  rewrite !bind_assoc. apply bind_ext; intros sz s2.
  rewrite !bind_assoc. apply bind_ext; intros cap s3.
  rewrite !bind_assoc. apply bind_ext; intros oldMem s4.
  rewrite !bind_assoc. apply bind_ext; intros e s5.
  rewrite !bind_assoc. apply bind_ext; intros [] s6.
  unfold bind at 3, ret. reflexivity.
Qed.

Lemma pushAt_before_inplace v m b la (i sz n : nat) :
  _data v = Ptr b 0 -> blocks m !! b = Some la -> _size v = Z.of_nat sz ->
  Z.of_nat (length la) = _capacity v -> _capacity v < SIZE_MAX_plus_1 ->
  (i <= sz)%nat -> (sz + n <= length la)%nat ->
  pushAt_before (_data v +ₚ Z.of_nat i) (Z.of_nat n) (v, m)
  = Ok None
      (v, set_block m b
            (take (i + n) la ++ take (sz - i) (drop i la)
               ++ drop (i + n + (sz - i)) la)).
Proof.
  intros Hd Hla Hsz Hlena Hmax Hi Hfit.
  assert (Hsum : size_t (Z.of_nat sz + Z.of_nat n) = Z.of_nat (sz + n))
    by (rewrite size_t_small; lia).
  assert (Hcond : (_capacity v <? Z.of_nat (sz + n)) = false)
    by (apply Z.ltb_ge; lia).
  set (l1 := take (i + n) la ++ take (sz - i) (drop i la)
               ++ drop (i + n + (sz - i)) la).
  assert (Hshift : std_copy_backward_mem (Ptr b (Z.of_nat i)) (Ptr b (Z.of_nat sz))
                     (Ptr b (Z.of_nat sz + Z.of_nat n)) m
                   = Some (set_block m b l1)).
  { replace (Z.of_nat sz + Z.of_nat n)
      with (Z.of_nat (i + n + (sz - i))) by lia.
    apply (std_copy_backward_mem_spec m b b la la i sz (i + n) Hla Hla);
      (lia || (right; lia)). }
  unfold pushAt_before.
  repeat (progress (monad_unfold;
    rewrite ?Hd, ?Hsz, ?Z.add_0_l, ?Hsum, ?Hcond, ?Hshift; cbn [blk off])).
  destruct v; cbn [_data _size _capacity] in *. subst. reflexivity.
Qed.

Lemma pushAt_before_realloc v m b la (i sz n : nat) :
  _data v = Ptr b 0 -> blocks m !! b = Some la -> _size v = Z.of_nat sz ->
  Z.of_nat (length la) = _capacity v -> (sz <= length la)%nat ->
  StaticCapacity <= _capacity v ->
  b <> HeapMem (next_heap m) ->
  (i <= sz)%nat -> _capacity v < Z.of_nat (sz + n) ->
  exact_size (Z.of_nat (sz + n)) ->
  let c := 3 * Z.of_nat (sz + n) / 2 in
  let l1 := take i la ++ drop i (replicate (Z.to_nat c) T_default) in
  pushAt_before (_data v +ₚ Z.of_nat i) (Z.of_nat n) (v, m)
  = Ok (if _capacity v <=? StaticCapacity then None else Some (_data v))
      ({| _data := Ptr (HeapMem (next_heap m)) 0;
          _size := _size v; _capacity := c |},
       with_new_block m
         (take (i + n) l1 ++ take (sz - i) (drop i la)
            ++ drop (i + n + (sz - i)) l1)).
Proof.
  intros Hd Hla Hsz Hlena Hlen HSC Hfresh Hi Hgrow Hex c l1'.
  pose proof Hex as Hex'. unfold exact_size, Dbl.DBL_MANT_DIG in Hex'.
  assert (Hsum : size_t (Z.of_nat sz + Z.of_nat n) = Z.of_nat (sz + n))
    by (rewrite size_t_small; unfold SIZE_MAX_plus_1; lia).
  assert (Hcond : (_capacity v <? Z.of_nat (sz + n)) = true)
    by (apply Z.ltb_lt; lia).
  assert (Hcap : forall mm, _cap (Z.of_nat n) (v, mm) = Ok c (v, mm)).
  { intros mm.
    assert (Hs : _size v + Z.of_nat n = Z.of_nat (sz + n)) by lia.
    rewrite cap_run by (rewrite ?Hs; (lia || exact Hex)).
    unfold computeCapacity. rewrite Hs.
    now rewrite (proj2 (Z.leb_gt _ _)) by lia. }
  assert (Hc : (sz + n <= Z.to_nat c)%nat).
  { subst c. apply Nat2Z.inj_le. rewrite Z2Nat.id by (apply Z.div_pos; lia).
    apply Z.div_le_lower_bound; lia. }
  assert (Hfresh' : HeapMem (next_heap m) <> b) by congruence.
  set (l0 := replicate (Z.to_nat c) T_default) in *.
  assert (Hlen0 : length l0 = Z.to_nat c) by apply length_replicate.
  set (m0 := with_new_block m l0).
  assert (Hla0 : blocks m0 !! b = Some la).
  { unfold m0. rewrite blocks_with_new_block. now rewrite decide_False by exact Hfresh'. }
  assert (Hnb0 : blocks m0 !! (HeapMem (next_heap m)) = Some l0).
  { unfold m0. rewrite blocks_with_new_block. now rewrite decide_True. }
  set (l1 := take i la ++ drop i l0) in *.
  assert (Hlen1 : length l1 = Z.to_nat c).
  { unfold l1. rewrite length_app, length_take, length_drop. lia. }
  assert (Hcopy1 : std_copy_mem (Ptr b 0) (Ptr b (Z.of_nat i)) (Ptr (HeapMem (next_heap m)) 0) m0
                   = Some (set_block m0 (HeapMem (next_heap m)) l1)).
  { etransitivity;
      [apply (std_copy_mem_spec m0 b (HeapMem (next_heap m)) la l0 0 i 0 Hla0 Hnb0); (lia || (left; exact Hfresh))|].
    now rewrite take_0, drop_0, Nat.sub_0_r. }
  set (m1 := set_block m0 (HeapMem (next_heap m)) l1) in *.
  assert (Hla1 : blocks m1 !! b = Some la)
    by (unfold m1; rewrite blocks_set_block_ne; [exact Hla0 | exact Hfresh']).
  assert (Hnb1 : blocks m1 !! (HeapMem (next_heap m)) = Some l1) by apply blocks_set_block_eq.
  set (l2 := take (i + n) l1 ++ take (sz - i) (drop i la)
               ++ drop (i + n + (sz - i)) l1).
  assert (Hshift : std_copy_backward_mem (Ptr b (Z.of_nat i)) (Ptr b (Z.of_nat sz))
                     (Ptr (HeapMem (next_heap m)) (Z.of_nat sz + Z.of_nat n)) m1
                   = Some (set_block m1 (HeapMem (next_heap m)) l2)).
  { replace (Z.of_nat sz + Z.of_nat n)
      with (Z.of_nat (i + n + (sz - i))) by lia.
    apply (std_copy_backward_mem_spec m1 b (HeapMem (next_heap m)) la l1 i sz (i + n) Hla1 Hnb1);
      (lia || (left; exact Hfresh)). }
  unfold pushAt_before.
  repeat (progress (monad_unfold;
    rewrite ?Hd, ?Hsz, ?Z.add_0_l, ?Hsum, ?Hcond, ?Hcap, ?alloc_eq; cbn [blk off])).
  fold l0. fold m0.
  repeat (progress (monad_unfold;
    rewrite ?Hd, ?Hsz, ?Z.add_0_l, ?Hsum, ?Hcond, ?Hcap, ?Hcopy1, ?Hshift;
    cbn [blk off])).
  fold m1. unfold m1. rewrite !set_block_twice. unfold m0.
  rewrite set_block_with_new_block. reflexivity.
Qed.

Lemma pushAt_before_state this v m (i n : nat) :
  wf this (v, m) = true ->
  (i <= length (elements (v, m)))%nat ->
  exact_size (_size v + Z.of_nat n) ->
  exists old v1 m1 l1,
    pushAt_before (_data v +ₚ Z.of_nat i) (Z.of_nat n) (v, m) = Ok old (v1, m1)
    /\ off (_data v1) = 0
    /\ (blk (_data v1) = blk (_data v) \/ blk (_data v1) = HeapMem (next_heap m))
    /\ (forall b', b' <> blk (_data v1) -> blocks m1 !! b' = blocks m !! b')
    /\ blocks m1 !! blk (_data v1) = Some l1
    /\ (i + n <= length l1)%nat
    /\ (blk (_data v1) = blk (_data v) ->
        exists la, blocks m !! blk (_data v) = Some la /\ length l1 = length la).
Proof.
  intros Hwf Hi Hex.
  destruct (wf_inv _ _ _ Hwf)
    as (ls & la & Hls & Hlens & Hla & Hlena & Hsz & Hmax & Hmode).
  set (sz := Z.to_nat (_size v)).
  assert (Hsz' : _size v = Z.of_nat sz) by (unfold sz; lia).
  rewrite (elements_eq _ _ _ _ Hla Hsz') in *.
  rewrite length_take in Hi.
  assert (Hdb : exists b, _data v = Ptr b 0 /\ blocks m !! b = Some la
                          /\ b <> HeapMem (next_heap m)).
  { destruct Hmode as [[Hd Hc] | (h & Hd & Hh & Hc & Hs)].
    - exists (StaticMem this). rewrite Hd in Hla. repeat split; auto.
    - exists (HeapMem h). rewrite Hd in Hla. repeat split; eauto.
      intros [= ->]. lia. }
  destruct Hdb as (b & Hd & Hlab & Hfresh).
  assert (HSC : StaticCapacity <= _capacity v)
    by (destruct Hmode as [[? ?]|(? & ? & ? & ? & ?)]; lia).
  destruct (Z.leb_spec (_size v + Z.of_nat n) (_capacity v)) as [Hfit|Hgrow].
  - eexists _, v, _, _. split; [apply (pushAt_before_inplace v m b la i sz n); auto; lia|].
    rewrite Hd; cbn [blk off].
    split; [reflexivity|]. split; [now left|]. split.
    { intros b' Hne. now apply blocks_set_block_ne. }
    split; [apply blocks_set_block_eq|]. split.
    { rewrite !length_app, !length_take, !length_drop. lia. }
    intros _. exists la. split; [exact Hlab|].
    rewrite !length_app, !length_take, !length_drop. lia.
  - assert (Hex' : exact_size (Z.of_nat (sz + n)))
      by (now replace (Z.of_nat (sz + n)) with (_size v + Z.of_nat n) by lia).
    pose proof Hex' as Hex''. unfold exact_size, Dbl.DBL_MANT_DIG in Hex''.
    assert (Hc : Z.of_nat (sz + n) <= 3 * Z.of_nat (sz + n) / 2)
      by (apply Z.div_le_lower_bound; lia).
    eexists _, _, _, _.
    split; [apply (pushAt_before_realloc v m b la i sz n); auto; lia|].
    cbn [_data blk off].
    split; [reflexivity|]. split; [now right|]. split.
    { intros b' Hne. rewrite blocks_with_new_block. now rewrite decide_False. }
    split; [rewrite blocks_with_new_block; now rewrite decide_True|]. split.
    { rewrite !length_app, !length_take, !length_drop, !length_app, !length_take,
        !length_drop, !length_replicate. lia. }
    rewrite Hd; cbn [blk]. intros Heq. congruence.
Qed.

Lemma load_in_bounds n p m : in_bounds (S n) p m -> is_Some (load m p).
Proof.
  intros [|(l & Hl & H0 & Hn)]; [discriminate|].
  unfold load. rewrite Hl. rewrite (proj2 (Z.leb_le _ _)) by lia.
  apply lookup_lt_is_Some. lia.
Qed.

Lemma in_bounds_next n p m : in_bounds (S n) p m -> in_bounds n (p +ₚ 1) m.
Proof.
  intros [|(l & Hl & H0 & Hn)]; [discriminate|].
  right. exists l. destruct p as [b o]. cbn [ptr_add blk off] in *.
  repeat split; [exact Hl | lia | lia].
Qed.

Lemma in_bounds_shape n p m m1 :
  in_bounds n p m ->
  (forall l, blocks m !! blk p = Some l ->
     exists l1, blocks m1 !! blk p = Some l1 /\ length l1 = length l) ->
  in_bounds n p m1.
Proof.
  intros [|(l & Hl & H0 & Hn)] Hshape; [now left|].
  destruct (Hshape l Hl) as (l1 & Hl1 & Hlen).
  right. exists l1. rewrite Hlen. auto.
Qed.

Lemma in_bounds_store n p m d x m' :
  store m d x = Some m' -> in_bounds n p m -> in_bounds n p m'.
Proof.
  intros Hst Hin. apply (in_bounds_shape n p m m' Hin). intros l Hl.
  unfold store in Hst.
  destruct (blocks m !! blk d) as [ld|] eqn:Hd; [|discriminate].
  destruct (_ && _); [|discriminate].
  injection Hst as <-. cbn [blocks].
  destruct (decide (blk p = blk d)) as [Heq|Hne].
  - rewrite Heq, lookup_insert_eq. rewrite Heq, Hd in Hl. injection Hl as <-.
    eexists. split; [reflexivity|]. apply length_insert.
  - rewrite lookup_insert_ne by congruence. eauto.
Qed.

Lemma read_loop_in_bounds n : forall first m r,
  read_loop n first m = Some r -> in_bounds n first m.
Proof.
  induction n as [|n IH]; intros first m r H; [now left|].
  cbn [read_loop] in H.
  destruct (load m first) as [x|] eqn:Hx; [|discriminate].
  destruct (read_loop n (first +ₚ 1) m) as [r'|] eqn:Hr; [|discriminate].
  apply IH in Hr. unfold load in Hx.
  destruct (blocks m !! blk first) as [l|] eqn:Hl; [|discriminate].
  destruct (Z.leb_spec 0 (off first)); [|discriminate].
  apply lookup_lt_Some in Hx.
  right. exists l. split; [exact Hl|]. split; [assumption|].
  destruct Hr as [->|(l' & Hl' & H0' & Hn)]; [lia|].
  destruct first as [b o]. cbn [ptr_add blk off] in *.
  rewrite Hl in Hl'. injection Hl' as <-. lia.
Qed.

(** A copy from cells that can be read writes some values, one for each
    cell. *)
Lemma copy_loop_in_bounds n : forall first d_first m,
  in_bounds n first m ->
  exists r, length r = n /\ copy_loop n first d_first m = copy_range r d_first m.
Proof.
  induction n as [|n IH]; intros first d m Hin.
  - exists []. split; reflexivity.
  - destruct (load_in_bounds n first m Hin) as [x Hx].
    cbn [copy_loop]. rewrite Hx.
    destruct (store m d x) as [m'|] eqn:Hst.
    + destruct (IH (first +ₚ 1) (d +ₚ 1) m') as (r & Hlen & Hr).
      { eapply in_bounds_store; [exact Hst|]. now apply in_bounds_next. }
      exists (x :: r). split; [cbn; now rewrite Hlen|].
      cbn [copy_range]. now rewrite Hst.
    + exists (x :: replicate n x). split; [cbn; now rewrite length_replicate|].
      cbn [copy_range]. now rewrite Hst.
Qed.

Lemma copy_input_at_push first_last r v m v1 m1 l1 (i : nat) :
  range_values first_last m = Some r ->
  range_allocated first_last m = true ->
  off (_data v1) = 0 ->
  (blk (_data v1) = blk (_data v) \/ blk (_data v1) = HeapMem (next_heap m)) ->
  (forall b', b' <> blk (_data v1) -> blocks m1 !! b' = blocks m !! b') ->
  blocks m1 !! blk (_data v1) = Some l1 ->
  (i + length r <= length l1)%nat ->
  (blk (_data v1) = blk (_data v) ->
   exists la, blocks m !! blk (_data v) = Some la /\ length l1 = length la) ->
  exists r', length r' = length r
    /\ (do dt <- get _data; std_copy_input first_last (dt +ₚ Z.of_nat i)) (v1, m1)
       = std_copy_range r' (_data v1 +ₚ Z.of_nat i) (v1, m1)
    /\ (range_apart first_last (v, m) = true -> r' = r).
Proof.
  intros Hr Hal Hoff Hb Hm1 Hl1 Hfit Hsame.
  unfold bind, get; cbn [fst].
  destruct first_last as [first last|r0|r0]; cbn [range_values] in Hr;
    unfold std_copy_input.
  - cbn [range_allocated] in Hal.
    apply negb_true_iff, bool_decide_eq_false in Hal.
    destruct (distance first last) as [n|] eqn:Hn; [|discriminate].
    pose proof (read_loop_length _ _ _ _ Hr) as Hlen.
    unfold std_copy, std_copy_range, on_memory, std_copy_mem; cbn [snd].
    rewrite Hn.
    destruct (decide (blk first = blk (_data v1))) as [Heq|Hne].
    + destruct (copy_loop_in_bounds n first (_data v1 +ₚ Z.of_nat i) m1)
        as (r' & Hlen' & Hcopy).
      { apply (in_bounds_shape n first m m1 (read_loop_in_bounds _ _ _ _ Hr)).
        intros l Hl. destruct Hb as [Hb|Hb]; [|congruence].
        destruct (Hsame Hb) as (la & Hla & Hlena).
        exists l1. rewrite Heq. split; [exact Hl1|].
        rewrite Heq, Hb, Hla in Hl. injection Hl as <-. exact Hlena. }
      exists r'. split; [congruence|]. split; [now rewrite Hcopy|].
      intros Hap. unfold range_apart, apart in Hap; cbn [fst snd] in Hap.
      apply andb_true_iff in Hap as [H1 H2].
      apply negb_true_iff, bool_decide_eq_false in H1.
      destruct Hb as [Hb|Hb]; congruence.
    + exists r. split; [reflexivity|]. split; [|reflexivity].
      rewrite (copy_loop_read n first _ m1 r); [reflexivity| |].
      * rewrite <- Hr. apply read_loop_agree, Hm1, Hne.
      * destruct (_data v1). cbn [ptr_add blk] in *. congruence.
  - injection Hr as ->. exists r. repeat split.
  - injection Hr as ->. destruct r as [|x r].
    + exists []. repeat split.
    + exists ([x] ++ take (length r) (drop (i + 1) l1)).
      assert (Hlen : length ([x] ++ take (length r) (drop (i + 1) l1))
                     = length (x :: r)).
      { cbn [length] in *. rewrite length_app, length_take, length_drop.
        cbn [length]. lia. }
      split; [exact Hlen|]. split; [|discriminate].
      unfold std_copy_range, on_memory; cbn [snd take].
      destruct (_data v1) as [b1 o1] eqn:Hd1. cbn [off blk] in *. subst o1.
      cbv [ptr_add]; cbn [blk off]. rewrite Z.add_0_l, take_0.
      rewrite (copy_range_spec [x] m1 b1 l1 i Hl1) by (cbn [length] in *; lia).
      rewrite (copy_range_spec _ m1 b1 l1 i Hl1) by (rewrite Hlen; exact Hfit).
      do 3 f_equal. rewrite Hlen. cbn [length].
      rewrite <- app_assoc. f_equal.
      rewrite <- (take_drop (length r) (drop (i + 1) l1)) at 1.
      f_equal. rewrite drop_drop. do 2 f_equal. lia.
Qed.

Lemma pushAt_agree pos n pe pe' s old s1 :
  pushAt_before pos n s = Ok old s1 -> pe s1 = pe' s1 ->
  _pushAt pos n pe s = _pushAt pos n pe' s.
Proof.
  intros Hb He. rewrite !pushAt_split. unfold bind. now rewrite Hb, He.
Qed.

Lemma insert_unfold first_last r v m (i : nat) :
  range_values first_last m = Some r ->
  off (_data v) = 0 ->
  Z.of_nat i < SIZE_MAX_plus_1 -> Z.of_nat (length r) < SIZE_MAX_plus_1 ->
  insert (_data v +ₚ Z.of_nat i) first_last (v, m)
  = match _pushAt (_data v +ₚ Z.of_nat i) (Z.of_nat (length r))
            (do dt <- get _data; std_copy_input first_last (dt +ₚ Z.of_nat i))
            (v, m) with
    | Ok _ s' => Ok (_data (fst s') +ₚ Z.of_nat i) s'
    | Throw e s' => Throw e s'
    | Undefined => Undefined
    end.
Proof.
  intros Hr Hoff Hi Hlen.
  assert (Hn : size_t (Z.of_nat (length r)) = Z.of_nat (length r))
    by (rewrite size_t_small; lia).
  assert (Hidx : size_t (0 + Z.of_nat i - 0) = Z.of_nat i)
    by (rewrite size_t_small; lia).
  unfold insert, bind at 1.
  rewrite (range_values_length first_last m r Hr (v, m)).
  destruct v as [[b o] sz cap]; cbn [_data off] in *. subst o.
  unfold bind, begin, get, defined, ret; cbn [fst _data].
  cbv [ptr_add]; cbn [blk off]. rewrite ptr_diff_same, Hn, Hidx.
  reflexivity.
Qed.

Lemma insert_any this v m (i : nat) first_last r :
  wf this (v, m) = true ->
  (i <= length (elements (v, m)))%nat ->
  range_values first_last m = Some r ->
  range_allocated first_last m = true ->
  exact_size (_size v + Z.of_nat (length r)) ->
  exists r', length r' = length r
    /\ insert (_data v +ₚ Z.of_nat i) first_last (v, m)
       = insert (_data v +ₚ Z.of_nat i) (forward_range r') (v, m)
    /\ (range_apart first_last (v, m) = true -> r' = r).
Proof.
  intros Hwf Hi Hr Hal Hex.
  destruct (pushAt_before_state this v m i (length r) Hwf Hi Hex)
    as (old & v1 & m1 & l1 & Hbefore & Hoff & Hb & Hm1 & Hl1 & Hfit & Hsame).
  destruct (copy_input_at_push first_last r v m v1 m1 l1 i Hr Hal Hoff Hb Hm1 Hl1
              Hfit Hsame) as (r' & Hlen & Hcopy & Hap).
  exists r'. split; [exact Hlen|]. split; [|exact Hap].
  destruct (wf_data _ _ _ Hwf) as (b & Hd).
  destruct (wf_size _ _ _ Hwf) as (Hsz & Hmax & _ & Hlen').
  pose proof Hex as Hex'. unfold exact_size, Dbl.DBL_MANT_DIG in Hex'.
  rewrite (insert_unfold first_last r v m i Hr), (insert_unfold (forward_range r') r' v m i eq_refl);
    try (rewrite ?Hlen, ?Hd; cbn [off]; unfold SIZE_MAX_plus_1; lia).
  rewrite Hlen.
  rewrite (pushAt_agree _ _ _ (do dt <- get _data; std_copy_input (forward_range r') (dt +ₚ Z.of_nat i))
             _ _ _ Hbefore); [reflexivity|].
  rewrite Hcopy. reflexivity.
Qed.

Lemma load_one_in_bounds m p x : load m p = Some x -> in_bounds 1 p m.
Proof.
  intros H. apply (read_loop_in_bounds 1 p m [x]). cbn [read_loop]. now rewrite H.
Qed.

Lemma read_ref_at_push value x v m v1 m1 l1 (i : nat) :
  referent value m = Some x ->
  ref_allocated value m = true ->
  (blk (_data v1) = blk (_data v) \/ blk (_data v1) = HeapMem (next_heap m)) ->
  (forall b', b' <> blk (_data v1) -> blocks m1 !! b' = blocks m !! b') ->
  blocks m1 !! blk (_data v1) = Some l1 ->
  (blk (_data v1) = blk (_data v) ->
   exists la, blocks m !! blk (_data v) = Some la /\ length l1 = length la) ->
  exists x',
    (do dt <- get _data; do y <- read_ref value; assign (dt +ₚ Z.of_nat i) y) (v1, m1)
    = (do dt <- get _data; do y <- read_ref (ref_value x'); assign (dt +ₚ Z.of_nat i) y)
        (v1, m1)
    /\ (ref_apart value (v, m) = true -> x' = x).
Proof.
  intros Hx Hal Hb Hm1 Hl1 Hsame.
  destruct value as [p|y]; cbn [referent] in Hx.
  - cbn [ref_allocated] in Hal.
    apply negb_true_iff, bool_decide_eq_false in Hal.
    destruct (decide (blk p = blk (_data v1))) as [Heq|Hne].
    + destruct (load_in_bounds 0 p m1) as [x' Hx'].
      { apply (in_bounds_shape 1 p m m1 (load_one_in_bounds _ _ _ Hx)).
        intros l Hl. destruct Hb as [Hb|Hb]; [|congruence].
        destruct (Hsame Hb) as (la & Hla & Hlena).
        exists l1. rewrite Heq. split; [exact Hl1|].
        rewrite Heq, Hb, Hla in Hl. injection Hl as <-. exact Hlena. }
      exists x'. split.
      * unfold bind, get, read_ref, defined, ret; cbn [fst snd]. now rewrite Hx'.
      * intros Hap. unfold ref_apart, apart in Hap; cbn [fst snd] in Hap.
        apply andb_true_iff in Hap as [H1 H2].
        apply negb_true_iff, bool_decide_eq_false in H1.
        destruct Hb as [Hb|Hb]; congruence.
    + exists x. split; [|reflexivity].
      unfold bind, get, read_ref, defined, ret; cbn [fst snd].
      rewrite (load_agree m m1 p (Hm1 _ Hne)). now rewrite Hx.
  - injection Hx as ->. exists x. split; reflexivity.
Qed.

Lemma insert_value_unfold value v m (i : nat) :
  off (_data v) = 0 ->
  Z.of_nat i < SIZE_MAX_plus_1 ->
  insert_value (_data v +ₚ Z.of_nat i) value (v, m)
  = match _pushAt (_data v +ₚ Z.of_nat i) (Z.of_nat 1)
            (do dt <- get _data; do y <- read_ref value; assign (dt +ₚ Z.of_nat i) y)
            (v, m) with
    | Ok _ s' => Ok (_data (fst s') +ₚ Z.of_nat i) s'
    | Throw e s' => Throw e s'
    | Undefined => Undefined
    end.
Proof.
  intros Hoff Hi.
  assert (Hidx : size_t (0 + Z.of_nat i - 0) = Z.of_nat i)
    by (rewrite size_t_small; lia).
  unfold insert_value.
  destruct v as [[b o] sz cap]; cbn [_data off] in *. subst o.
  unfold bind at 1 2, begin, get at 1, defined at 1; cbn [fst _data].
  cbv [ptr_add]; cbn [blk off]. rewrite ptr_diff_same, Hidx.
  reflexivity.
Qed.

Lemma insert_value_any this v m (i : nat) value x :
  wf this (v, m) = true ->
  (i <= length (elements (v, m)))%nat ->
  referent value m = Some x ->
  ref_allocated value m = true ->
  exact_size (_size v + 1) ->
  exists x',
    insert_value (_data v +ₚ Z.of_nat i) value (v, m)
    = insert_value (_data v +ₚ Z.of_nat i) (ref_value x') (v, m)
    /\ (ref_apart value (v, m) = true -> x' = x).
Proof.
  intros Hwf Hi Hx Hal Hex.
  destruct (pushAt_before_state this v m i 1 Hwf Hi Hex)
    as (old & v1 & m1 & l1 & Hbefore & Hoff & Hb & Hm1 & Hl1 & Hfit & Hsame).
  destruct (read_ref_at_push value x v m v1 m1 l1 i Hx Hal Hb Hm1 Hl1 Hsame)
    as (x' & Hcopy & Hap).
  exists x'. split; [|exact Hap].
  destruct (wf_data _ _ _ Hwf) as (b & Hd).
  destruct (wf_size _ _ _ Hwf) as (Hsz & Hmax & _ & Hlen').
  pose proof Hex as Hex'. unfold exact_size, Dbl.DBL_MANT_DIG in Hex'.
  rewrite !insert_value_unfold
    by (rewrite ?Hd; cbn [off]; unfold SIZE_MAX_plus_1; lia).
  rewrite (pushAt_agree _ _ _
             (do dt <- get _data; do y <- read_ref (ref_value x');
              assign (dt +ₚ Z.of_nat i) y) _ _ _ Hbefore); [reflexivity|].
  exact Hcopy.
Qed.

(** ** [insert] from pointers, when it returns *)

Lemma copy_loop_as_range n : forall first d_first m m',
  copy_loop n first d_first m = Some m' ->
  exists r, length r = n /\ copy_range r d_first m = Some m'.
Proof.
  induction n as [|n IH]; intros first d m m' H; cbn [copy_loop] in H.
  - exists []. split; [reflexivity | exact H].
  - destruct (load m first) as [x|]; [|discriminate].
    destruct (store m d x) as [m1|] eqn:Hst; [|discriminate].
    destruct (IH _ _ _ _ H) as (r & Hlen & Hr).
    exists (x :: r). split; [cbn; now rewrite Hlen|].
    cbn [copy_range]. now rewrite Hst.
Qed.

Lemma insert_run pos first_last s :
  insert pos first_last s
  = (do n <- std_distance first_last;
     do b <- begin;
     do d <- defined (ptr_diff pos b);
     do oldMem <- pushAt_before pos (size_t n);
     do dt <- get _data;
     run std_copy_input first_last (dt +ₚ size_t d);
     run pushAt_after (size_t n) oldMem;
     do b' <- begin;
     ret (b' +ₚ size_t d)) s.
Proof.
  unfold insert.
  apply bind_ext; intros n s1. apply bind_ext; intros b s2.
  apply bind_ext; intros d s3.
  unfold bind at 1. rewrite pushAt_split.
  unfold bind, get; cbn [fst].
  destruct (pushAt_before pos (size_t n) s3) as [old s4| |]; try reflexivity.
  destruct (std_copy_input _ _ s4) as [[] s5| |]; try reflexivity.
Qed.

(** Whenever [insert] of a range of pointers returns, it has done what
    [insert] of some values does, as many as the range has. *)
Lemma insert_returns_as_values pos first last s p s' :
  insert pos (pointer_range first last) s = Ok p s' ->
  exists r, distance first last = Some (length r)
            /\ insert pos (forward_range r) s = Ok p s'.
Proof.
  intros Hrun. rewrite insert_run in Hrun.
  unfold bind at 1, std_distance, defined at 1 in Hrun.
  destruct (ptr_diff last first) as [d|] eqn:Hd; [|discriminate].
  unfold bind at 1, begin, get at 1 in Hrun.
  unfold bind at 1, defined at 1 in Hrun.
  destruct (ptr_diff pos (_data (fst s))) as [pd|] eqn:Hpd; [|discriminate].
  unfold bind at 1 in Hrun.
  destruct (pushAt_before pos (size_t d) s) as [old s1| |] eqn:Hb; try discriminate.
  unfold bind at 1, get at 1 in Hrun. unfold bind at 1 in Hrun.
  unfold std_copy_input, std_copy, on_memory, std_copy_mem in Hrun.
  destruct (distance first last) as [n|] eqn:Hn; [|discriminate].
  destruct (copy_loop n first _ (snd s1)) as [m2|] eqn:Hcopy; [|discriminate].
  destruct (copy_loop_as_range _ _ _ _ _ Hcopy) as (r & Hlen & Hr).
  assert (Hdn : d = Z.of_nat (length r)).
  { unfold distance in Hn. rewrite Hd in Hn.
    destruct (Z.leb_spec 0 d); [|discriminate]. injection Hn as <-. lia. }
  exists r. split; [now rewrite Hlen|].
  rewrite insert_run.
  unfold bind at 1, std_distance, ret at 1. rewrite <- Hdn.
  unfold bind at 1, begin, get at 1.
  unfold bind at 1, defined at 1. rewrite Hpd.
  unfold bind at 1. rewrite Hb.
  unfold bind at 1, get at 1. unfold bind at 1.
  unfold std_copy_input, std_copy_range, on_memory. rewrite Hr.
  exact Hrun.
Qed.

Lemma insert_value_run pos value s :
  insert_value pos value s
  = (do b <- begin;
     do d <- defined (ptr_diff pos b);
     do oldMem <- pushAt_before pos 1;
     do dt <- get _data;
     do x <- read_ref value;
     run assign (dt +ₚ size_t d) x;
     run pushAt_after 1 oldMem;
     do b' <- begin;
     ret (b' +ₚ size_t d)) s.
Proof.
  unfold insert_value.
  apply bind_ext; intros b s2. apply bind_ext; intros d s3.
  unfold bind at 1. rewrite pushAt_split.
  unfold bind, get; cbn [fst].
  destruct (pushAt_before pos 1 s3) as [old s4| |]; try reflexivity.
  destruct (read_ref value s4) as [x s5| |]; try reflexivity.
  destruct (assign _ x s5) as [[] s6| |]; try reflexivity.
Qed.

(** Whenever [insert] of a reference returns, it has done what [insert] of
    some value does. *)
Lemma insert_value_returns_as_value pos q s p s' :
  insert_value pos (ref_to q) s = Ok p s' ->
  exists x, insert_value pos (ref_value x) s = Ok p s'.
Proof.
  intros Hrun. rewrite insert_value_run in Hrun.
  unfold bind at 1, begin, get at 1 in Hrun.
  unfold bind at 1, defined at 1 in Hrun.
  destruct (ptr_diff pos (_data (fst s))) as [pd|] eqn:Hpd; [|discriminate].
  unfold bind at 1 in Hrun.
  destruct (pushAt_before pos 1 s) as [old s1| |] eqn:Hb; try discriminate.
  unfold bind at 1, get at 1 in Hrun. unfold bind at 1, read_ref, defined at 1 in Hrun.
  destruct (load (snd s1) q) as [x|] eqn:Hx; [|discriminate].
  exists x. rewrite insert_value_run.
  unfold bind at 1, begin, get at 1.
  unfold bind at 1, defined at 1. rewrite Hpd.
  unfold bind at 1. rewrite Hb.
  unfold bind at 1, get at 1. unfold bind at 1, read_ref, ret at 1.
  exact Hrun.
Qed.

Lemma pushes_assign_end v (sz : nat) x :
  _size v = Z.of_nat sz ->
  pushes (do dt <- get _data; do n <- get _size; assign (dt +ₚ n) x) (_size v) sz [x].
Proof.
  intros Hsz v' m' Hv'. unfold bind, get; cbn [fst].
  rewrite Hv', Hsz. apply assign_copy_range.
Qed.

Lemma pushes_assign v (i : nat) x :
  pushes (do dt <- get _data; assign (dt +ₚ Z.of_nat i) x) (_size v) i [x].
Proof. intros v' m' _. unfold bind, get; cbn [fst]. apply assign_copy_range. Qed.

Lemma push_back_spec this v m x :
  wf this (v, m) = true ->
  exact_size (_size v + 1) ->
  exists s',
    push_back x (v, m) = Ok tt s'
    /\ wf this s' = true
    /\ elements s' = elements (v, m) ++ [x]
    /\ _size (fst s') = _size v + 1
    /\ frame this v m (snd s')
    /\ data_step this v m (fst s')
    /\ (if _size v + 1 <=? _capacity v
        then _data (fst s') = _data v
             /\ _capacity (fst s') = _capacity v
             /\ next_heap (snd s') = next_heap m
        else _data (fst s') = Ptr (HeapMem (next_heap m)) 0
             /\ _capacity (fst s') = computeCapacity (_size v) 1
             /\ next_heap (snd s') = S (next_heap m)
             /\ (StaticCapacity < _capacity v ->
                 blocks (snd s') !! blk (_data v) = None)).
Proof.
  intros Hwf Hex.
  destruct (wf_size _ _ _ Hwf) as (Hsz & Hmax & _ & Hlen).
  set (sz := Z.to_nat (_size v)) in *.
  assert (Hsz' : _size v = Z.of_nat sz) by (unfold sz; lia).
  destruct (pushAt_spec this v m sz [x] _ Hwf ltac:(lia) Hex
              (pushes_assign_end v sz x Hsz'))
    as (s' & Hrun & Hwf' & Hel & Hrest).
  exists s'. split; [|split; [exact Hwf'|split; [|exact Hrest]]].
  - unfold push_back, cend. unfold bind at 1 2 3, get, ret; cbn [fst].
    rewrite Hsz'. exact Hrun.
  - rewrite Hel. rewrite take_ge, drop_ge by lia. reflexivity.
Qed.

Lemma insert_value_spec this v m (i : nat) x :
  wf this (v, m) = true ->
  (i <= length (elements (v, m)))%nat ->
  exact_size (_size v + 1) ->
  exists s',
    insert_value (_data v +ₚ Z.of_nat i) (ref_value x) (v, m)
    = Ok (_data (fst s') +ₚ Z.of_nat i) s'
    /\ wf this s' = true
    /\ elements s' = take i (elements (v, m)) ++ [x] ++ drop i (elements (v, m))
    /\ _size (fst s') = _size v + 1
    /\ frame this v m (snd s')
    /\ data_step this v m (fst s').
Proof.
  intros Hwf Hi Hex.
  destruct (pushAt_spec this v m i [x] _ Hwf Hi Hex (pushes_assign v i x))
    as (s' & Hrun & Hwf' & Hel & Hsz' & Hfr & Hds & _).
  exists s'. split; [|auto 7].
  destruct (wf_data _ _ _ Hwf) as (b & Hd).
  destruct (wf_size _ _ _ Hwf) as (Hsz & Hmax & _ & Hlen).
  assert (Hidx : size_t (0 + Z.of_nat i - 0) = Z.of_nat i)
    by (rewrite size_t_small; unfold SIZE_MAX_plus_1 in *; lia).
  change (Z.of_nat (length [x])) with 1 in Hrun.
  unfold insert_value. monad_unfold. monad_unfold_in Hrun.
  rewrite Hd in *. cbn [blk off] in *. rewrite ptr_diff_same. monad_unfold.
  rewrite Hidx. rewrite Hrun. reflexivity.
Qed.

(** * The claims *)

(** ** C5: the growth policy *)

(** C5, as amended.  For a container of [_size] elements and a number
    [additionalSize] of new elements whose sum is in the range where the
    [double] arithmetic is exact ([3 * sum < 2^53]), [_cap] returns
    [StaticCapacity] when the sum is at most [StaticCapacity] and
    [floor (1.5 * sum)] otherwise; the value returned is at least the sum,
    and the call changes neither the members nor the memory. *)
Theorem cap_in_exact_range (v : VLVector) (additionalSize : Z) :
  0 <= _size v -> 0 <= additionalSize ->
  exact_size (_size v + additionalSize) ->
  cap_as_specified v additionalSize.
Proof.
  intros Hs Hn Hex m. exists (computeCapacity (_size v) additionalSize).
  split; [now apply cap_run | split; [reflexivity | apply computeCapacity_ge]].
Qed.

(** ** C7: checked access *)

(** C7.  For a container of a program (a well-formed one, or one that
    [operator=] left as [dangling] says) and an index [index] (a
    [std::size_t]), [at(index)] throws exactly when [index >= size()], and
    what it throws is [std::out_of_range]; for [index < size()] it returns
    the reference [_data[index]], the same that [operator[]] returns, and
    that reference holds the element of index [index].  In both cases the
    members and the memory are as before, and the [const] overloads behave
    the same. *)
Theorem at_checked_access this v m (index : Z) :
  object_inv this (v, m) -> 0 <= index ->
  (throws (at_ index (v, m)) <-> _size v <= index)
  /\ (throws (at_const index (v, m)) <-> _size v <= index)
  /\ (_size v <= index ->
      at_ index (v, m) = Throw (out_of_range OUT_OF_RANGE_ERR_MSG) (v, m)
      /\ at_const index (v, m) = Throw (out_of_range OUT_OF_RANGE_ERR_MSG) (v, m))
  /\ (index < _size v ->
      exists x,
        elements (v, m) !! Z.to_nat index = Some x
        /\ at_ index (v, m) = Ok (_data v +ₚ index) (v, m)
        /\ at_const index (v, m) = Ok (_data v +ₚ index) (v, m)
        /\ operator_index index (v, m) = Ok (_data v +ₚ index) (v, m)
        /\ operator_index_const index (v, m) = Ok (_data v +ₚ index) (v, m)
        /\ load m (_data v +ₚ index) = Some x).
Proof.
  intros Hinv Hidx.
  unfold at_, at_const, operator_index, operator_index_const, bind, get, ret, throw;
    cbn [fst].
  destruct (Z.leb_spec (_size v) index) as [Hout|Hin]; cbn [throws].
  - repeat split; auto; try tauto; lia.
  - destruct Hinv as [Hwf | (_ & _ & Hsz0 & _)]; cbn [fst snd] in *; [|lia].
    destruct (wf_inv _ _ _ Hwf)
      as (ls & la & Hls & Hlens & Hla & Hlena & Hsz & Hmax & Hmode).
    destruct (wf_data _ _ _ Hwf) as (b & Hd).
    repeat split; try tauto; try lia.
    intros _.
    destruct (lookup_lt_is_Some_2 la (Z.to_nat index)) as [x Hx]; [lia|].
    exists x. repeat split.
    + unfold elements. rewrite (storage_eq _ _ _ Hla); cbn [fst].
      rewrite lookup_take_lt by lia. exact Hx.
    + rewrite Hd in *. unfold load, ptr_add; cbn [blk off] in *. rewrite Hla.
      rewrite Z.add_0_l. now rewrite (proj2 (Z.leb_le _ _)) by lia.
Qed.

(** ** Erasing an empty range *)

(** On a well-formed container, for a position [p = begin() + i] with
    [0 <= i <= size()], [erase(p, p)] returns [p] and leaves the members
    and the whole memory as they were. *)
Lemma erase_empty_range_wf this v m (i : nat) :
  wf this (v, m) = true ->
  (i <= length (elements (v, m)))%nat ->
  erase this (_data v +ₚ Z.of_nat i) (_data v +ₚ Z.of_nat i) (v, m)
  = Ok (_data v +ₚ Z.of_nat i) (v, m).
Proof.
  intros Hwf Hi.
  destruct (wf_inv _ _ _ Hwf)
    as (ls & la & Hls & Hlens & Hla & Hlena & Hsz & Hmax & Hmode).
  destruct (wf_data _ _ _ Hwf) as (b & Hd).
  destruct (wf_size _ _ _ Hwf) as (_ & _ & _ & Hlen).
  set (sz := Z.to_nat (_size v)) in *.
  assert (Hsz' : _size v = Z.of_nat sz) by (unfold sz; lia).
  rewrite Hd in Hla; cbn [blk] in Hla.
  rewrite (erase_inplace this v m b la i i sz Hd Hla Hsz') by first
    [ lia
    | destruct Hmode as [[_ Hc] | (h & _ & _ & Hc & Hs)];
      [ rewrite (proj2 (Z.ltb_ge _ _)) by lia; reflexivity
      | rewrite (proj2 (Z.leb_gt _ _)) by lia; apply andb_false_r ] ].
  f_equal. f_equal.
  - destruct v as [d s c]; cbn [_data _size _capacity] in *.
    f_equal. lia.
  - apply set_block_same. rewrite Hla. f_equal.
    rewrite app_assoc, take_take_drop. symmetry. apply take_drop.
Qed.

(** ** Modes of a well-formed container *)

Lemma wf_modes this s :
  wf this s = true ->
  (_size (fst s) <= StaticCapacity ->
   _capacity (fst s) = StaticCapacity /\ _data (fst s) = _staticMem this
   /\ inline_mode this s = true /\ heap_mode s = false)
  /\ (StaticCapacity < _capacity (fst s) ->
      StaticCapacity < _size (fst s) <= _capacity (fst s)
      /\ heap_mode s = true /\ inline_mode this s = false)
  /\ (StaticCapacity < _size (fst s) -> StaticCapacity < _capacity (fst s)).
Proof.
  destruct s as [v m]. intros Hwf.
  destruct (wf_inv _ _ _ Hwf)
    as (ls & la & Hls & Hlens & Hla & Hlena & Hsz & Hmax & Hmode).
  cbn [fst]. unfold inline_mode, heap_mode; cbn [fst snd].
  destruct Hmode as [[Hd Hc] | (h & Hd & Hh & Hc & Hs)]; rewrite Hd.
  - split; [|split]; [|lia|lia].
    intros _. repeat split; auto. now apply bool_decide_eq_true.
  - rewrite Hd in Hla; cbn [blk] in Hla.
    split; [|split]; [lia| |lia].
    intros _. repeat split; try lia.
    apply bool_decide_eq_true. rewrite Hla. eauto.
Qed.

Lemma heap_mode_capacity this s :
  wf this s = true -> heap_mode s = true -> StaticCapacity < _capacity (fst s).
Proof.
  intros Hwf Hheap. destruct (wf_modes _ _ Hwf) as (Hin & _ & _).
  destruct (Z.lt_ge_cases StaticCapacity (_capacity (fst s))) as [|Hle]; [assumption|].
  destruct s as [v m]. destruct (wf_size _ _ _ Hwf) as (Hsz & _).
  cbn [fst] in *. destruct Hin as (_ & _ & _ & Hno); [lia|]. congruence.
Qed.

Lemma load_element this v m (i : nat) :
  wf this (v, m) = true ->
  (i < length (elements (v, m)))%nat ->
  load m (_data v +ₚ Z.of_nat i) = elements (v, m) !! i.
Proof.
  intros Hwf Hi.
  destruct (wf_inv _ _ _ Hwf)
    as (ls & la & Hls & Hlens & Hla & Hlena & Hsz & Hmax & Hmode).
  destruct (wf_data _ _ _ Hwf) as (b & Hd).
  destruct (wf_size _ _ _ Hwf) as (_ & _ & _ & Hlen).
  unfold elements in *. rewrite (storage_eq _ _ _ Hla) in *; cbn [fst] in *.
  rewrite lookup_take_lt by lia.
  rewrite Hd in *. unfold load, ptr_add; cbn [blk off] in *. rewrite Hla.
  rewrite Z.add_0_l, (proj2 (Z.leb_le _ _)) by lia. now rewrite Nat2Z.id.
Qed.

(** ** C3: shrinking back on [erase] *)

(** C3.  For a well-formed container in heap mode (it then holds more
    than [StaticCapacity] elements) and a range [first = begin() + i],
    [last = begin() + j] with [i <= j <= size()], [erase(first, last)]
    returns [begin() + i] of the new storage and leaves the elements
    before [i] followed by the elements from [j] on, in their order.  When
    the number of elements left is at most [StaticCapacity], this very call
    makes the array member the storage, with [_capacity == StaticCapacity],
    and deletes the heap array; when more are left, [_data] and [_capacity]
    stay as they were. *)
Theorem erase_shrinks_back_to_static this v m (i j : nat) :
  wf this (v, m) = true ->
  heap_mode (v, m) = true ->
  (i <= j <= length (elements (v, m)))%nat ->
  exists s',
    erase this (_data v +ₚ Z.of_nat i) (_data v +ₚ Z.of_nat j) (v, m)
    = Ok (_data (fst s') +ₚ Z.of_nat i) s'
    /\ wf this s' = true
    /\ StaticCapacity < _size v
    /\ elements s' = take i (elements (v, m)) ++ drop j (elements (v, m))
    /\ _size (fst s') = _size v - Z.of_nat (j - i)
    /\ (_size v - Z.of_nat (j - i) <= StaticCapacity ->
        _capacity (fst s') = StaticCapacity
        /\ _data (fst s') = _staticMem this
        /\ inline_mode this s' = true
        /\ blocks (snd s') !! blk (_data v) = None)
    /\ (StaticCapacity < _size v - Z.of_nat (j - i) ->
        _capacity (fst s') = _capacity v
        /\ _data (fst s') = _data v
        /\ heap_mode s' = true).
Proof.
  intros Hwf Hheap Hij.
  pose proof (heap_mode_capacity _ _ Hwf Hheap) as Hcap. cbn [fst] in Hcap.
  destruct (wf_modes _ _ Hwf) as (_ & Hhm & _). cbn [fst] in Hhm.
  destruct (Hhm Hcap) as (Hsz & _).
  destruct (wf_size _ _ _ Hwf) as (_ & Hmax & _ & Hlen).
  destruct (erase_spec this v m i j Hwf Hij)
    as (s' & Hrun & Hwf' & Hel & Hsz' & Hnext & _ & _ & Hbranch).
  exists s'.
  assert (Hcases :
    (_size v - Z.of_nat (j - i) <= StaticCapacity ->
     _data (fst s') = _staticMem this /\ _capacity (fst s') = StaticCapacity
     /\ blocks (snd s') !! blk (_data v) = None)
    /\ (StaticCapacity < _size v - Z.of_nat (j - i) ->
        _data (fst s') = _data v /\ _capacity (fst s') = _capacity v)).
  { unfold erase_shrinks in Hbranch. rewrite size_t_small in Hbranch by lia.
    rewrite (proj2 (Z.ltb_lt _ _)) in Hbranch by lia. cbn [andb] in Hbranch.
    destruct (Z.leb_spec (_size v - Z.of_nat (j - i)) StaticCapacity);
      split; intros; try lia; tauto. }
  destruct Hcases as [Hfit Hbig].
  destruct (wf_modes _ _ Hwf') as (Hin' & Hhm' & Hsc').
  split; [exact Hrun|]. split; [exact Hwf'|]. split; [lia|].
  split; [exact Hel|]. split; [exact Hsz'|]. split.
  - intros Hle. destruct (Hfit Hle) as (Hd' & Hc' & Hfree).
    repeat split; try assumption. apply Hin'. lia.
  - intros Hgt. destruct (Hbig Hgt) as (Hd' & Hc').
    repeat split; try assumption. apply Hhm'. apply Hsc'. lia.
Qed.

(** ** C8: [clear] *)

Lemma clear_erase this v m p s' :
  erase this (_data v) (_data v +ₚ _size v) (v, m) = Ok p s' ->
  clear this (v, m) = Ok tt s'.
Proof.
  intros Hrun. unfold clear, begin, end_.
  unfold bind at 1 2 3 4, get, ret; cbn [fst]. unfold bind. now rewrite Hrun.
Qed.

(** C8, as amended.  For a well-formed container, [clear()] is
    [erase(begin(), end())] with the returned iterator dropped.  The size
    test of the shrink condition holds whatever the size
    ([0 <= StaticCapacity]), so the branch that moves the elements into
    the array member is taken exactly when the container is in heap mode;
    it is not taken for a container that is in inline mode already.  In
    both cases the container ends with [_size == 0], no elements,
    [_capacity == StaticCapacity] and the array member as its storage, and
    a heap array it had is deleted. *)
Theorem clear_empties_into_static this v m :
  wf this (v, m) = true ->
  exists p s',
    erase this (_data v) (_data v +ₚ _size v) (v, m) = Ok p s'
    /\ clear this (v, m) = Ok tt s'
    /\ erase_shrinks v (_size v) = heap_mode (v, m)
    /\ wf this s' = true
    /\ _size (fst s') = 0
    /\ elements s' = []
    /\ _capacity (fst s') = StaticCapacity
    /\ _data (fst s') = _staticMem this
    /\ inline_mode this s' = true
    /\ (heap_mode (v, m) = true -> blocks (snd s') !! blk (_data v) = None).
Proof.
  intros Hwf.
  destruct (wf_size _ _ _ Hwf) as (Hsz & Hmax & HSC & Hlen).
  destruct (wf_modes _ _ Hwf) as (Hin & Hhm & Hsc). cbn [fst] in *.
  set (sz := Z.to_nat (_size v)) in *.
  assert (Hsz' : _size v = Z.of_nat sz) by (unfold sz; lia).
  destruct (erase_spec this v m 0 sz Hwf ltac:(lia))
    as (s' & Hrun & Hwf' & Hel & Hsize & Hnext & _ & _ & Hbranch).
  assert (Hp : _data v +ₚ Z.of_nat 0 = _data v).
  { destruct (_data v) as [b o]. unfold ptr_add; cbn. f_equal. lia. }
  rewrite Hp in Hrun. rewrite <- Hsz' in Hrun.
  replace (Z.of_nat (sz - 0)) with (_size v) in * by lia.
  assert (Hshr : erase_shrinks v (_size v) = (StaticCapacity <? _capacity v)).
  { unfold erase_shrinks. rewrite Z.sub_diag. change (size_t 0) with 0.
    rewrite (proj2 (Z.leb_le 0 StaticCapacity)) by lia. apply andb_true_r. }
  assert (Hmode : heap_mode (v, m) = (StaticCapacity <? _capacity v)).
  { destruct (Z.ltb_spec StaticCapacity (_capacity v)) as [Hh|Hi].
    - now destruct (Hhm Hh) as (_ & ? & _).
    - destruct Hin as (_ & _ & _ & ?); [lia | assumption]. }
  destruct (wf_modes _ _ Hwf') as (Hin' & _).
  destruct Hin' as (Hc' & Hd' & Hi' & _); [lia|].
  exists (_data (fst s') +ₚ Z.of_nat 0), s'.
  split; [exact Hrun|]. split; [exact (clear_erase _ _ _ _ _ Hrun)|].
  split; [congruence|]. split; [exact Hwf'|]. split; [lia|].
  split; [rewrite Hel, take_0, drop_ge by lia; reflexivity|].
  split; [exact Hc'|]. split; [exact Hd'|]. split; [exact Hi'|].
  intros Hheap. rewrite Hshr, <- Hmode, Hheap in Hbranch. tauto.
Qed.

(** ** C10: the copy into the array member stays inside it *)

(** C10.  For a well-formed container and [erase(first, last)] with
    [first = begin() + i], [last = begin() + j], [i <= j <= size()]: when
    the condition of the shrink branch holds, the branch copies exactly the
    [i] elements before [first] to the start of the array member (the rest
    of the array member is as before), [i] is at most the number of elements
    that stay, which is at most [StaticCapacity], the length of the array
    member; the copy has defined behaviour, and so has the whole call. *)
Theorem erase_to_static_in_bounds this v m (i j : nat) :
  wf this (v, m) = true ->
  (i <= j <= length (elements (v, m)))%nat ->
  erase_shrinks v (Z.of_nat (j - i)) = true ->
  exists ls,
    blocks m !! StaticMem this = Some ls
    /\ Z.of_nat (length ls) = StaticCapacity
    /\ Z.of_nat i <= _size v - Z.of_nat (j - i) <= StaticCapacity
    /\ erase_to_static this (_data v +ₚ Z.of_nat i) (v, m)
       = Ok (Some (_data v))
            ({| _data := _staticMem this; _size := _size v;
                _capacity := StaticCapacity |},
             set_block m (StaticMem this) (take i (elements (v, m)) ++ drop i ls))
    /\ exists p s',
         erase this (_data v +ₚ Z.of_nat i) (_data v +ₚ Z.of_nat j) (v, m) = Ok p s'.
Proof.
  intros Hwf Hij Hshr.
  destruct (wf_inv _ _ _ Hwf)
    as (ls & la & Hls & Hlens & Hla & Hlena & Hsz & Hmax & Hmode).
  destruct (wf_size _ _ _ Hwf) as (_ & _ & _ & Hlen).
  set (sz := Z.to_nat (_size v)) in *.
  assert (Hsz' : _size v = Z.of_nat sz) by (unfold sz; lia).
  unfold erase_shrinks in Hshr. rewrite size_t_small in Hshr by lia.
  apply andb_true_iff in Hshr as [Hcap Hfit].
  apply Z.ltb_lt in Hcap. apply Z.leb_le in Hfit.
  destruct Hmode as [[Hd Hc] | (b & Hd & Hb & Hc & Hs)]; [lia|].
  rewrite Hd in Hla; cbn [blk] in Hla.
  exists ls. split; [exact Hls|]. split; [exact Hlens|]. split; [lia|]. split.
  - assert (Hcopy : std_copy_mem (Ptr (HeapMem b) 0) (Ptr (HeapMem b) (Z.of_nat i))
                      (Ptr (StaticMem this) 0) m
                    = Some (set_block m (StaticMem this) (take i la ++ drop i ls))).
    { etransitivity;
        [apply (std_copy_mem_spec m (HeapMem b) (StaticMem this) la ls 0 i 0 Hla Hls);
         (lia || (left; discriminate))|].
      now rewrite take_0, drop_0, Nat.sub_0_r. }
    unfold elements. rewrite (storage_eq v m la) by (now rewrite Hd); cbn [fst].
    fold sz. rewrite take_take, Nat.min_l by lia.
    monad_unfold. unfold _staticMem. rewrite Hd. cbn [blk off].
    rewrite Z.add_0_l, Hcopy. monad_unfold. now rewrite Hd.
  - destruct (erase_spec this v m i j Hwf Hij) as (s' & Hrun & _). eauto.
Qed.

(** ** C6: a run of [push_back] from an empty container *)

Lemma wf_default this m : wf this (VLVector_default this m) = true.
Proof.
  pose proof StaticCapacity_range as HSC.
  unfold VLVector_default.
  eapply (wf_inline this _ _ (replicate (Z.to_nat StaticCapacity) T_default));
    cbn [_data _size _capacity]; try reflexivity.
  - unfold place; cbn. apply lookup_insert_eq.
  - rewrite length_replicate. lia.
  - lia.
Qed.

Lemma elements_default this m : elements (VLVector_default this m) = [].
Proof. unfold elements, VLVector_default; cbn [fst _size]. apply take_0. Qed.

Lemma exact_size_le a b : a <= b -> exact_size b -> exact_size a.
Proof. unfold exact_size. lia. Qed.

Lemma push_back_all_spec this (values : list T) : forall s,
  wf this s = true ->
  exact_size (_size (fst s) + Z.of_nat (length values)) ->
  exists s',
    push_back_all values s = Ok tt s'
    /\ wf this s' = true
    /\ elements s' = elements s ++ values
    /\ _size (fst s') = _size (fst s) + Z.of_nat (length values).
Proof.
  induction values as [|x values IH]; intros [v m] Hwf Hex; cbn [fst] in *.
  - exists (v, m). cbn [push_back_all length]. unfold ret.
    rewrite app_nil_r, Z.add_0_r. auto.
  - cbn [length] in Hex.
    destruct (wf_size _ _ _ Hwf) as (Hsz & _).
    destruct (push_back_spec this v m x Hwf) as (s1 & Hrun1 & Hwf1 & Hel1 & Hsz1 & _).
    { eapply exact_size_le; [|exact Hex]. lia. }
    destruct (IH s1 Hwf1) as (s' & Hrun & Hwf' & Hel & Hsz').
    { rewrite Hsz1. eapply exact_size_le; [|exact Hex]. lia. }
    exists s'. cbn [push_back_all]. unfold bind at 1. rewrite Hrun1.
    split; [exact Hrun|]. split; [exact Hwf'|]. split.
    + rewrite Hel, Hel1, <- app_assoc. reflexivity.
    + rewrite Hsz', Hsz1. cbn [length]. lia.
Qed.

(** C6.  Starting from a default-constructed container (at any address,
    in any memory), [push_back] of the values of a list, one call each,
    succeeds and the container then holds exactly these values.  With
    [n] the number of values: when [n <= StaticCapacity], the capacity is
    [StaticCapacity] and the storage is the array member; when
    [n > StaticCapacity], the capacity is at least [n] and the storage is
    a live heap array, not the array member.  ([n] is in the range where the
    [double] arithmetic of [_cap] is exact, [3 * n < 2^53].) *)
Theorem push_back_all_capacity this m (values : list T) :
  exact_size (Z.of_nat (length values)) ->
  exists s',
    push_back_all values (VLVector_default this m) = Ok tt s'
    /\ elements s' = values
    /\ _size (fst s') = Z.of_nat (length values)
    /\ (Z.of_nat (length values) <= StaticCapacity ->
        _capacity (fst s') = StaticCapacity
        /\ _data (fst s') = _staticMem this
        /\ inline_mode this s' = true)
    /\ (StaticCapacity < Z.of_nat (length values) ->
        Z.of_nat (length values) <= _capacity (fst s')
        /\ heap_mode s' = true
        /\ inline_mode this s' = false).
Proof.
  intros Hex.
  destruct (push_back_all_spec this values (VLVector_default this m) (wf_default this m))
    as (s' & Hrun & Hwf' & Hel & Hsz').
  { exact Hex. }
  rewrite elements_default in Hel. cbn [VLVector_default fst _size] in Hsz'.
  destruct (wf_modes _ _ Hwf') as (Hin & Hhm & Hsc).
  exists s'. split; [exact Hrun|]. split; [exact Hel|]. split; [lia|]. split.
  - intros Hle. destruct Hin as (Hc & Hd & Hi & _); [lia|]. auto.
  - intros Hgt. destruct Hhm as (Hs & Hh & Hi); [apply Hsc; lia|].
    repeat split; try assumption. lia.
Qed.

(** ** C4: range [insert] *)

(** C4, corrected.  For a well-formed container holding the elements [s],
    a position [p = begin() + i] with [0 <= i <= size()] and a source range
    that holds the values [r] before the call, can be read more than once
    and is not in the storage of the container, [insert(p, first, last)]
    leaves the container holding the elements of [s] before [i], then [r],
    then the elements of [s] from [i] on.  It returns [begin() + i] of the
    storage after the call: when [r] is not empty this points to the first
    inserted element, and when [r] is empty it is the position [p] that was
    passed.  (The new size is in the range where the [double] arithmetic of
    [_cap] is exact.) *)
Theorem insert_range_correct this v m (i : nat) first_last (r : list T) :
  wf this (v, m) = true ->
  (i <= length (elements (v, m)))%nat ->
  range_values first_last m = Some r ->
  range_apart first_last (v, m) = true ->
  exact_size (_size v + Z.of_nat (length r)) ->
  exists s',
    insert (_data v +ₚ Z.of_nat i) first_last (v, m)
    = Ok (_data (fst s') +ₚ Z.of_nat i) s'
    /\ wf this s' = true
    /\ elements s' = take i (elements (v, m)) ++ r ++ drop i (elements (v, m))
    /\ (forall x, head r = Some x ->
        load (snd s') (_data (fst s') +ₚ Z.of_nat i) = Some x)
    /\ (r = [] -> _data (fst s') +ₚ Z.of_nat i = _data v +ₚ Z.of_nat i).
Proof.
  intros Hwf Hi Hr Hap Hex.
  destruct (insert_spec_apart this v m i first_last r Hwf Hi Hr Hap Hex)
    as (s' & Hrun & Hwf' & Hel & Hsz' & _ & _ & Hbranch).
  destruct (wf_size _ _ _ Hwf) as (Hsz & _ & _ & Hlen).
  exists s'. split; [exact Hrun|]. split; [exact Hwf'|]. split; [exact Hel|]. split.
  - intros x Hx. destruct r as [|y r]; [discriminate|]. injection Hx as ->.
    destruct s' as [v' m']. cbn [fst snd] in *.
    rewrite (load_element this v' m' i Hwf').
    + rewrite Hel. rewrite lookup_app_r by (rewrite length_take; lia).
      rewrite length_take. replace (i - i `min` length (elements (v, m)))%nat with 0%nat by lia.
      reflexivity.
    + rewrite Hel, !length_app, length_take, length_drop. cbn [length]. lia.
  - intros ->. cbn [length] in Hbranch. rewrite Z.add_0_r in Hbranch.
    rewrite (proj2 (Z.leb_le _ _)) in Hbranch by lia.
    destruct Hbranch as (-> & _). reflexivity.
Qed.

(** * Programs *)

(** ** A container that [operator=] left dangling *)

Lemma distance_zero p : distance p p = Some 0%nat.
Proof.
  destruct p as [b o]. unfold distance. rewrite ptr_diff_same, Z.sub_diag.
  reflexivity.
Qed.

Lemma std_copy_mem_nothing p d m : std_copy_mem p p d m = Some m.
Proof. unfold std_copy_mem. now rewrite distance_zero. Qed.

Lemma std_copy_backward_mem_nothing p d m : std_copy_backward_mem p p d m = Some m.
Proof. unfold std_copy_backward_mem. now rewrite distance_zero. Qed.

Lemma ptr_add_0 p : p +ₚ 0 = p.
Proof. destruct p as [b o]. unfold ptr_add; cbn. f_equal. lia. Qed.

(** [erase(end(), end())] where nothing has to shrink reads and writes no
    element. *)
Lemma erase_at_end this v m :
  0 <= _size v < SIZE_MAX_plus_1 ->
  erase_shrinks v 0 = false ->
  erase this (_data v +ₚ _size v) (_data v +ₚ _size v) (v, m)
  = Ok (_data v +ₚ _size v) (v, m).
Proof.
  intros Hsz Hcond. destruct v as [[b o] sz cap]; cbn [_data _size _capacity] in *.
  assert (H0 : size_t 0 = 0) by reflexivity.
  assert (Hs : size_t (sz - 0) = sz) by (rewrite Z.sub_0_r; now apply size_t_small).
  assert (Hi : size_t (o + sz - o) = sz)
    by (replace (o + sz - o) with sz by lia; now apply size_t_small).
  unfold erase.
  repeat (progress (monad_unfold;
    rewrite ?ptr_diff_same, ?Z.sub_diag, ?H0, ?Hi;
    cbn [blk off _data _size _capacity])).
  change (erase_shrinks {| _data := Ptr b o; _size := sz; _capacity := cap |} 0)
    with ((StaticCapacity <? cap) && (size_t (sz - 0) <=? StaticCapacity)) in Hcond.
  rewrite Hcond.
  repeat (progress (monad_unfold;
    rewrite ?std_copy_mem_nothing, ?Hs; cbv [dealloc];
    cbn [blk off _data _size _capacity])).
  reflexivity.
Qed.

(** [_pushAt] on a container without elements reads no element: its
    storage need not be live when the new elements go to a new array. *)
Lemma pushAt_empty_realloc v m (r : list T) pushElements :
  off (_data v) = 0 -> _size v = 0 -> _capacity v = StaticCapacity ->
  StaticCapacity < Z.of_nat (length r) ->
  exact_size (Z.of_nat (length r)) ->
  pushes pushElements 0 0 r ->
  let c := 3 * Z.of_nat (length r) / 2 in
  _pushAt (_data v +ₚ Z.of_nat 0) (Z.of_nat (length r)) pushElements (v, m)
  = Ok tt ({| _data := Ptr (HeapMem (next_heap m)) 0;
              _size := Z.of_nat (length r); _capacity := c |},
           with_new_block m
             (r ++ replicate (Z.to_nat c - length r) T_default)).
Proof.
  intros Hoff Hsz Hcap Hgrow Hex Hpush c.
  pose proof Hex as Hex'. unfold exact_size, Dbl.DBL_MANT_DIG in Hex'.
  pose proof StaticCapacity_range as HSC.
  destruct v as [[b o] sz cap]; cbn [_data _size _capacity off] in *. subst o sz cap.
  assert (Hsum : size_t (Z.of_nat (length r)) = Z.of_nat (length r))
    by (rewrite size_t_small; unfold SIZE_MAX_plus_1; lia).
  assert (Hcond : (StaticCapacity <? Z.of_nat (length r)) = true)
    by (apply Z.ltb_lt; lia).
  assert (Hc : (length r <= Z.to_nat c)%nat).
  { subst c. apply Nat2Z.inj_le. rewrite Z2Nat.id by (apply Z.div_pos; lia).
    apply Z.div_le_lower_bound; lia. }
  assert (Hrun_cap : forall mm,
            _cap (Z.of_nat (length r))
              ({| _data := Ptr b 0; _size := 0; _capacity := StaticCapacity |}, mm)
            = Ok c ({| _data := Ptr b 0; _size := 0; _capacity := StaticCapacity |}, mm)).
  { intros mm. rewrite cap_run by (cbn [_size]; (lia || exact Hex)).
    unfold computeCapacity; cbn [_size]. rewrite Z.add_0_l.
    now rewrite (proj2 (Z.leb_gt _ _)) by lia. }
  set (l0 := replicate (Z.to_nat c) T_default).
  assert (Hlen0 : length l0 = Z.to_nat c) by apply length_replicate.
  assert (Hwrite : copy_range r (Ptr (HeapMem (next_heap m)) 0) (with_new_block m l0)
                   = Some (with_new_block m
                             (r ++ replicate (Z.to_nat c - length r) T_default))).
  { etransitivity;
      [apply (copy_range_spec r (with_new_block m l0) (HeapMem (next_heap m)) l0 0)|].
    - rewrite blocks_with_new_block. now rewrite decide_True.
    - lia.
    - rewrite set_block_with_new_block. unfold l0.
      rewrite take_0, drop_replicate. reflexivity. }
  change (Z.of_nat 0) with 0. rewrite ptr_add_0.
  unfold _pushAt.
  repeat (progress (monad_unfold;
    rewrite ?Z.add_0_l, ?Z.add_0_r, ?Hsum, ?Hcond, ?Hrun_cap, ?alloc_eq,
            ?std_copy_mem_nothing, ?std_copy_backward_mem_nothing;
    cbn [blk off _data _size _capacity])).
  rewrite Hpush by reflexivity.
  change (Z.of_nat 0) with 0.
  repeat (progress (monad_unfold; rewrite ?Z.add_0_l; cbn [blk off _data _size _capacity])).
  fold l0. rewrite Hwrite.
  repeat (progress (monad_unfold;
    rewrite ?Z.add_0_l, ?Hsum, ?(proj2 (Z.leb_le StaticCapacity StaticCapacity) (Z.le_refl _));
    cbv [dealloc]; cbn [blk off _data _size _capacity])).
  reflexivity.
Qed.

Lemma pushAt_empty_nothing v m pushElements :
  _size v = 0 -> 0 <= _capacity v ->
  pushes pushElements 0 0 [] ->
  _pushAt (_data v +ₚ Z.of_nat 0) (Z.of_nat (length (@nil T))) pushElements (v, m)
  = Ok tt (v, m).
Proof.
  intros Hsz Hcap Hpush.
  destruct v as [[b o] sz cap]; cbn [_data _size _capacity off] in *. subst sz.
  change (Z.of_nat (length (@nil T))) with 0.
  change (Z.of_nat 0) with 0. rewrite ptr_add_0.
  assert (Hcond : (cap <? 0) = false) by (apply Z.ltb_ge; lia).
  unfold _pushAt.
  repeat (progress (monad_unfold;
    rewrite ?Z.add_0_l, ?Z.add_0_r, ?Hcond, ?std_copy_backward_mem_nothing;
    change (size_t 0) with 0;
    cbn [blk off _data _size _capacity])).
  rewrite Hpush by reflexivity.
  repeat (progress (monad_unfold; cbv [dealloc copy_range];
    rewrite ?Z.add_0_l; change (size_t 0) with 0;
    cbn [blk off _data _size _capacity])).
  reflexivity.
Qed.

Lemma copy_range_dead (r : list T) b o m :
  r <> [] -> blocks m !! b = None -> copy_range r (Ptr b o) m = None.
Proof.
  intros Hr Hdead. destruct r as [|x r]; [congruence|].
  cbn [copy_range]. unfold store; cbn [blk]. now rewrite Hdead.
Qed.

Lemma pushAt_empty_dead v m (r : list T) pushElements :
  _size v = 0 -> Z.of_nat (length r) <= _capacity v ->
  _capacity v < SIZE_MAX_plus_1 ->
  r <> [] -> blocks m !! blk (_data v) = None ->
  pushes pushElements 0 0 r ->
  _pushAt (_data v +ₚ Z.of_nat 0) (Z.of_nat (length r)) pushElements (v, m)
  = Undefined.
Proof.
  intros Hsz Hfit Hmax Hr Hdead Hpush.
  destruct v as [[b o] sz cap]; cbn [_data _size _capacity off blk] in *. subst sz.
  assert (Hsum : size_t (Z.of_nat (length r)) = Z.of_nat (length r))
    by (rewrite size_t_small; lia).
  assert (Hcond : (cap <? Z.of_nat (length r)) = false) by (apply Z.ltb_ge; lia).
  change (Z.of_nat 0) with 0. rewrite ptr_add_0.
  unfold _pushAt.
  repeat (progress (monad_unfold;
    rewrite ?Z.add_0_l, ?Z.add_0_r, ?Hsum, ?Hcond, ?std_copy_backward_mem_nothing;
    cbn [blk off _data _size _capacity])).
  rewrite Hpush by reflexivity.
  repeat (progress (monad_unfold; cbn [blk off _data _size _capacity])).
  now rewrite copy_range_dead.
Qed.

(** ** Every call keeps the invariant of its object *)

Lemma dangling_size this v m : dangling this (v, m) -> _size v = 0.
Proof. now intros (_ & _ & Hsz & _). Qed.

Lemma object_inv_size this v m :
  object_inv this (v, m) ->
  0 <= _size v < SIZE_MAX_plus_1 /\ off (_data v) = 0.
Proof.
  pose proof StaticCapacity_range as HSC.
  intros [Hwf | (_ & _ & Hsz & h & Hd & _)]; cbn [fst] in *.
  - destruct (wf_size _ _ _ Hwf) as (? & ? & _).
    destruct (wf_data _ _ _ Hwf) as (b & ->). cbn. lia.
  - rewrite Hsz, Hd. cbn. unfold SIZE_MAX_plus_1. lia.
Qed.

Lemma preserves_same this v m :
  object_inv this (v, m) -> preserves this (v, m) (v, m).
Proof.
  intros Hinv. split; [exact Hinv|]. split; [apply frame_refl | now left].
Qed.

Lemma erase_preserves this v m (i j : nat) p s' :
  object_inv this (v, m) ->
  (i <= j)%nat -> Z.of_nat j <= _size v ->
  erase this (_data v +ₚ Z.of_nat i) (_data v +ₚ Z.of_nat j) (v, m) = Ok p s' ->
  preserves this (v, m) s'.
Proof.
  intros [Hwf | Hdang] Hij Hj Hrun.
  - destruct (wf_size _ _ _ Hwf) as (_ & _ & _ & Hlen).
    destruct (erase_spec this v m i j Hwf) as (s'' & Hrun' & Hwf' & _ & _ & _ & Hfr & Hds & _);
      [lia|].
    rewrite Hrun' in Hrun. injection Hrun as _ <-.
    split; [now left | split; assumption].
  - pose proof (dangling_size _ _ _ Hdang) as Hsz.
    assert (i = 0%nat) as -> by lia. assert (j = 0%nat) as -> by lia.
    change (Z.of_nat 0) with 0 in Hrun. rewrite <- Hsz in Hrun at 1 2.
    rewrite erase_at_end in Hrun.
    + injection Hrun as _ <-. apply preserves_same. now right.
    + rewrite Hsz. unfold SIZE_MAX_plus_1. lia.
    + destruct Hdang as (_ & Hc & _). unfold erase_shrinks. cbn [fst] in Hc.
      rewrite Hc, Z.ltb_irrefl. reflexivity.
Qed.

Lemma ptr_add_add p a b : p +ₚ a +ₚ b = p +ₚ (a + b).
Proof. destruct p as [bl o]. unfold ptr_add; cbn. f_equal. lia. Qed.

Lemma erase_pos_preserves this v m (i : nat) p s' :
  object_inv this (v, m) ->
  Z.of_nat i < _size v ->
  erase_pos this (_data v +ₚ Z.of_nat i) (v, m) = Ok p s' ->
  preserves this (v, m) s'.
Proof.
  intros Hinv Hi Hrun. unfold erase_pos in Hrun.
  rewrite ptr_add_add in Hrun.
  replace (Z.of_nat i + 1) with (Z.of_nat (S i)) in Hrun by lia.
  apply (erase_preserves this v m i (S i) p s' Hinv); [lia | lia | exact Hrun].
Qed.

Lemma pop_back_preserves this v m s' :
  object_inv this (v, m) ->
  0 < _size v ->
  pop_back this (v, m) = Ok tt s' ->
  preserves this (v, m) s'.
Proof.
  intros Hinv Hsz Hrun. unfold pop_back, cend in Hrun.
  unfold bind at 1 2 3, get, ret in Hrun; cbn [fst] in Hrun.
  rewrite ptr_add_add in Hrun.
  replace (_size v + -1) with (Z.of_nat (Z.to_nat (_size v) - 1)) in Hrun by lia.
  unfold bind in Hrun.
  destruct (erase_pos this _ (v, m)) as [p s''| |] eqn:Hpos; try discriminate.
  injection Hrun as <-.
  apply (erase_pos_preserves this v m (Z.to_nat (_size v) - 1) p s'' Hinv);
    [lia | exact Hpos].
Qed.

Lemma clear_preserves this v m s' :
  object_inv this (v, m) ->
  clear this (v, m) = Ok tt s' ->
  preserves this (v, m) s'.
Proof.
  intros Hinv Hrun. unfold clear, begin, end_ in Hrun.
  unfold bind at 1 2 3 4, get, ret in Hrun; cbn [fst] in Hrun.
  destruct (object_inv_size _ _ _ Hinv) as (Hsz & _).
  rewrite <- (ptr_add_0 (_data v)) in Hrun at 1.
  change 0 with (Z.of_nat 0) in Hrun at 1.
  replace (_size v) with (Z.of_nat (Z.to_nat (_size v))) in Hrun at 1 by lia.
  unfold bind in Hrun.
  destruct (erase this _ _ (v, m)) as [p s''| |] eqn:Hers; try discriminate.
  injection Hrun as <-.
  apply (erase_preserves this v m 0 (Z.to_nat (_size v)) p s'' Hinv);
    [lia | lia | exact Hers].
Qed.

Lemma live_with_new_block m l b n :
  live m b n = true ->
  (forall h, b = HeapMem h -> (h < next_heap m)%nat) ->
  live (with_new_block m l) b n = true.
Proof.
  intros Hlive Hb. unfold live in *. rewrite blocks_with_new_block.
  rewrite decide_False; [exact Hlive|]. intros <-. specialize (Hb _ eq_refl). lia.
Qed.

Lemma pushAt_preserves this v m (i : nat) (r : list T) pushElements s' :
  object_inv this (v, m) ->
  Z.of_nat i <= _size v ->
  exact_size (_size v + Z.of_nat (length r)) ->
  pushes pushElements (_size v) i r ->
  _pushAt (_data v +ₚ Z.of_nat i) (Z.of_nat (length r)) pushElements (v, m) = Ok tt s' ->
  preserves this (v, m) s'.
Proof.
  intros [Hwf | Hdang] Hi Hex Hpush Hrun.
  - destruct (wf_size _ _ _ Hwf) as (_ & _ & _ & Hlen).
    destruct (pushAt_spec this v m i r pushElements Hwf) as
      (s'' & Hrun' & Hwf' & _ & _ & Hfr & Hds & _); [lia | exact Hex | exact Hpush |].
    rewrite Hrun' in Hrun. injection Hrun as <-.
    split; [now left | split; assumption].
  - pose proof Hdang as (Hst & Hc & Hsz & h & Hd & Hh & Hdead). cbn [fst snd] in *.
    assert (i = 0%nat) as -> by lia.
    rewrite Hsz in Hpush, Hex. rewrite Z.add_0_l in Hex.
    pose proof Hex as Hex'. unfold exact_size, Dbl.DBL_MANT_DIG in Hex'.
    pose proof StaticCapacity_range as HSC. unfold Dbl.DBL_MANT_DIG in HSC.
    destruct (Z.lt_ge_cases StaticCapacity (Z.of_nat (length r))) as [Hgrow|Hfit].
    + rewrite pushAt_empty_realloc in Hrun
        by (rewrite ?Hd; auto).
      injection Hrun as <-.
      set (c := 3 * Z.of_nat (length r) / 2).
      assert (Hcr : Z.of_nat (length r) <= c)
        by (subst c; apply Z.div_le_lower_bound; lia).
      assert (Hcmax : c < SIZE_MAX_plus_1)
        by (subst c; unfold SIZE_MAX_plus_1; apply Z.div_lt_upper_bound; lia).
      split; [|split].
      * left. apply live_spec in Hst as (ls & Hls & Hlens).
        apply (wf_heap this _ _ ls (r ++ replicate (Z.to_nat c - length r) T_default)
                 (next_heap m)); cbn [_data _size _capacity].
        -- rewrite blocks_with_new_block. now rewrite decide_False.
        -- exact Hlens.
        -- reflexivity.
        -- rewrite blocks_with_new_block. now rewrite decide_True.
        -- rewrite length_app, length_replicate. lia.
        -- cbn [with_new_block next_heap]. lia.
        -- lia.
        -- exact Hcmax.
      * cbn [fst snd]. apply frame_with_new_block.
      * right. right. reflexivity.
    + destruct r as [|x r].
      * rewrite pushAt_empty_nothing in Hrun by (auto; lia).
        injection Hrun as <-. apply preserves_same. now right.
      * rewrite pushAt_empty_dead in Hrun;
          [discriminate | auto | lia | unfold SIZE_MAX_plus_1; lia | discriminate
          | now rewrite Hd | auto].
Qed.

Lemma insert_pushAt v m (i : nat) (r : list T) p s' :
  off (_data v) = 0 -> Z.of_nat i < SIZE_MAX_plus_1 ->
  Z.of_nat (length r) < SIZE_MAX_plus_1 ->
  insert (_data v +ₚ Z.of_nat i) (forward_range r) (v, m) = Ok p s' ->
  _pushAt (_data v +ₚ Z.of_nat i) (Z.of_nat (length r))
    (do dt <- get _data; std_copy_range r (dt +ₚ Z.of_nat i)) (v, m) = Ok tt s'.
Proof.
  intros Hoff Hi Hn Hrun.
  destruct v as [[b o] sz cap]; cbn [_data off] in *. subst o.
  assert (Hn' : size_t (Z.of_nat (length r)) = Z.of_nat (length r))
    by (rewrite size_t_small; lia).
  assert (Hidx : size_t (0 + Z.of_nat i - 0) = Z.of_nat i)
    by (rewrite size_t_small; lia).
  unfold insert in Hrun. monad_unfold_in Hrun. rewrite ptr_diff_same in Hrun.
  monad_unfold_in Hrun. rewrite Hn', Hidx in Hrun.
  monad_unfold.
  destruct (_pushAt _ _ _ _) as [[] s''| |]; try discriminate.
  now injection Hrun as _ <-.
Qed.

Lemma insert_preserves this v m (i : nat) (r : list T) p s' :
  object_inv this (v, m) ->
  Z.of_nat i <= _size v ->
  exact_size (_size v + Z.of_nat (length r)) ->
  insert (_data v +ₚ Z.of_nat i) (forward_range r) (v, m) = Ok p s' ->
  preserves this (v, m) s'.
Proof.
  intros Hinv Hi Hex Hrun.
  destruct (object_inv_size _ _ _ Hinv) as (Hsz & Hoff).
  pose proof Hex as Hex'. unfold exact_size, Dbl.DBL_MANT_DIG in Hex'.
  apply insert_pushAt in Hrun; [|exact Hoff|lia|unfold SIZE_MAX_plus_1; lia].
  eapply pushAt_preserves; eauto. apply pushes_copy_range.
Qed.

Lemma insert_value_pushAt v m (i : nat) x p s' :
  off (_data v) = 0 -> Z.of_nat i < SIZE_MAX_plus_1 ->
  insert_value (_data v +ₚ Z.of_nat i) (ref_value x) (v, m) = Ok p s' ->
  _pushAt (_data v +ₚ Z.of_nat i) (Z.of_nat (length [x]))
    (do dt <- get _data; assign (dt +ₚ Z.of_nat i) x) (v, m) = Ok tt s'.
Proof.
  intros Hoff Hi Hrun.
  destruct v as [[b o] sz cap]; cbn [_data off] in *. subst o.
  assert (Hidx : size_t (0 + Z.of_nat i - 0) = Z.of_nat i)
    by (rewrite size_t_small; lia).
  change (Z.of_nat (length [x])) with 1.
  unfold insert_value in Hrun. monad_unfold_in Hrun. rewrite ptr_diff_same in Hrun.
  monad_unfold_in Hrun. rewrite Hidx in Hrun.
  monad_unfold.
  destruct (_pushAt _ _ _ _) as [[] s''| |]; try discriminate.
  now injection Hrun as _ <-.
Qed.

Lemma insert_value_preserves this v m (i : nat) x p s' :
  object_inv this (v, m) ->
  Z.of_nat i <= _size v ->
  exact_size (_size v + 1) ->
  insert_value (_data v +ₚ Z.of_nat i) (ref_value x) (v, m) = Ok p s' ->
  preserves this (v, m) s'.
Proof.
  intros Hinv Hi Hex Hrun.
  destruct (object_inv_size _ _ _ Hinv) as (Hsz & Hoff).
  apply insert_value_pushAt in Hrun; [|exact Hoff|lia].
  eapply (pushAt_preserves this v m i [x]); eauto. apply pushes_assign.
Qed.

Lemma push_back_preserves this v m x s' :
  object_inv this (v, m) ->
  exact_size (_size v + 1) ->
  push_back x (v, m) = Ok tt s' ->
  preserves this (v, m) s'.
Proof.
  intros Hinv Hex Hrun.
  destruct (object_inv_size _ _ _ Hinv) as (Hsz & Hoff).
  unfold push_back, cend in Hrun.
  unfold bind at 1 2 3, get, ret in Hrun; cbn [fst] in Hrun.
  replace (_size v) with (Z.of_nat (Z.to_nat (_size v))) in Hrun at 1 by lia.
  eapply (pushAt_preserves this v m (Z.to_nat (_size v)) [x]); eauto; [lia|].
  apply pushes_assign_end. lia.
Qed.

(** ** [_copyMembers] *)

(** From a source in heap mode: a new array of the capacity of the source,
    whatever the destination was. *)
Lemma copyMembers_heap v m other bo lo (so : nat) :
  StaticCapacity < _capacity other ->
  _data other = Ptr bo 0 -> blocks m !! bo = Some lo ->
  bo <> HeapMem (next_heap m) ->
  _size other = Z.of_nat so -> (so <= length lo)%nat ->
  Z.of_nat so <= _capacity other ->
  _copyMembers other (v, m)
  = Ok tt ({| _data := Ptr (HeapMem (next_heap m)) 0; _size := _size other;
              _capacity := _capacity other |},
           with_new_block m
             (take so lo ++ replicate (Z.to_nat (_capacity other) - so) T_default)).
Proof.
  intros Hheap Hdo Hlo Hfresh Hso Hlen Hcap.
  assert (Hcond : (StaticCapacity <? _capacity other) = true) by (apply Z.ltb_lt; lia).
  set (l0 := replicate (Z.to_nat (_capacity other)) T_default).
  set (m0 := with_new_block m l0).
  assert (Hlo0 : blocks m0 !! bo = Some lo).
  { unfold m0. rewrite blocks_with_new_block. now rewrite decide_False by congruence. }
  assert (Hnb0 : blocks m0 !! HeapMem (next_heap m) = Some l0).
  { unfold m0. rewrite blocks_with_new_block. now rewrite decide_True. }
  assert (Hcopy : std_copy_mem (Ptr bo 0) (Ptr bo (Z.of_nat so))
                    (Ptr (HeapMem (next_heap m)) 0) m0
                  = Some (with_new_block m
                            (take so lo
                               ++ replicate (Z.to_nat (_capacity other) - so) T_default))).
  { etransitivity;
      [apply (std_copy_mem_spec m0 bo (HeapMem (next_heap m)) lo l0 0 so 0 Hlo0 Hnb0)|].
    - lia.
    - unfold l0. rewrite length_replicate. lia.
    - left. exact Hfresh.
    - unfold m0. rewrite set_block_with_new_block. unfold l0.
      now rewrite take_0, drop_0, Nat.sub_0_r, Nat.add_0_l, drop_replicate. }
  unfold _copyMembers, begin_of, end_of.
  repeat (progress (monad_unfold;
    rewrite ?Hcond, ?alloc_eq, ?Hdo, ?Hso, ?Z.add_0_l; cbn [blk off _data _size _capacity])).
  fold l0. fold m0. rewrite Hcopy. monad_unfold. reflexivity.
Qed.

(** From a source that is not in heap mode, into live storage. *)
Lemma copyMembers_inline v m other bd ld bo lo (so : nat) :
  _capacity other <= StaticCapacity ->
  _data v = Ptr bd 0 -> blocks m !! bd = Some ld ->
  _data other = Ptr bo 0 -> blocks m !! bo = Some lo -> bo <> bd ->
  _size other = Z.of_nat so -> (so <= length lo)%nat -> (so <= length ld)%nat ->
  _copyMembers other (v, m)
  = Ok tt ({| _data := _data v; _size := _size other; _capacity := _capacity other |},
           set_block m bd (take so lo ++ drop so ld)).
Proof.
  intros Hcap Hd Hld Hdo Hlo Hne Hso Hlen Hlend.
  assert (Hcond : (StaticCapacity <? _capacity other) = false) by (apply Z.ltb_ge; lia).
  assert (Hcopy : std_copy_mem (Ptr bo 0) (Ptr bo (Z.of_nat so)) (Ptr bd 0) m
                  = Some (set_block m bd (take so lo ++ drop so ld))).
  { etransitivity;
      [apply (std_copy_mem_spec m bo bd lo ld 0 so 0 Hlo Hld); (lia || (left; exact Hne))|].
    now rewrite take_0, drop_0, Nat.sub_0_r, Nat.add_0_l. }
  unfold _copyMembers, begin_of, end_of.
  repeat (progress (monad_unfold;
    rewrite ?Hcond, ?Hdo, ?Hd, ?Hso, ?Z.add_0_l, ?Hcopy;
    cbn [blk off _data _size _capacity])).
  reflexivity.
Qed.

(** From an empty source that is not in heap mode: nothing is copied. *)
Lemma copyMembers_empty v m other :
  _capacity other <= StaticCapacity -> _size other = 0 ->
  _copyMembers other (v, m)
  = Ok tt ({| _data := _data v; _size := 0; _capacity := _capacity other |}, m).
Proof.
  intros Hcap Hso.
  assert (Hcond : (StaticCapacity <? _capacity other) = false) by (apply Z.ltb_ge; lia).
  unfold _copyMembers, begin_of, end_of. rewrite Hso, ptr_add_0.
  repeat (progress (monad_unfold;
    rewrite ?Hcond, ?std_copy_mem_nothing; cbn [blk off _data _size _capacity])).
  reflexivity.
Qed.

(** From a source with elements that is not in heap mode, into storage that
    was deleted: the first element is written through a dangling pointer. *)
Lemma copyMembers_dead v m other bo lo :
  _capacity other <= StaticCapacity ->
  blocks m !! blk (_data v) = None ->
  _data other = Ptr bo 0 -> blocks m !! bo = Some lo ->
  0 < _size other <= Z.of_nat (length lo) ->
  _copyMembers other (v, m) = Undefined.
Proof.
  intros Hcap Hdead Hdo Hlo Hso.
  assert (Hcond : (StaticCapacity <? _capacity other) = false) by (apply Z.ltb_ge; lia).
  destruct (lookup_lt_is_Some_2 lo 0) as [x Hx]; [lia|].
  assert (Hcopy : std_copy_mem (Ptr bo 0) (Ptr bo (_size other)) (_data v) m = None).
  { unfold std_copy_mem, distance. rewrite ptr_diff_same, Z.sub_0_r.
    rewrite (proj2 (Z.leb_le _ _)) by lia.
    destruct (Z.to_nat (_size other)) as [|k] eqn:Hk; [lia|].
    cbn [copy_loop]. change 0 with (Z.of_nat 0) at 1.
    rewrite (load_Some _ _ _ _ _ Hlo Hx). unfold store. now rewrite Hdead. }
  unfold _copyMembers, begin_of, end_of.
  repeat (progress (monad_unfold;
    rewrite ?Hcond, ?Hdo, ?Z.add_0_l; cbn [blk off _data _size _capacity])).
  destruct (_data v) as [bd od]. cbn [blk off] in *. now rewrite Hcopy.
Qed.

(** ** Frames *)

Lemma frame_trans this v m m1 m2 :
  frame this v m m1 -> frame this v m1 m2 -> frame this v m m2.
Proof.
  intros (Hn1 & Ho1 & Hd1) (Hn2 & Ho2 & Hd2). repeat split.
  - lia.
  - intros b H1 H2 H3. rewrite Ho2, Ho1; auto.
    intros h Hh. specialize (H3 h Hh). lia.
  - intros h Hh Hdead. apply Hd2; [lia|]. now apply Hd1.
Qed.

(** The blocks an object points to. *)
Lemma object_inv_data this v m :
  object_inv this (v, m) ->
  _data v = _staticMem this \/ exists h, _data v = Ptr (HeapMem h) 0 /\ (h < next_heap m)%nat.
Proof.
  intros [Hwf | (_ & _ & _ & h & Hd & Hh & _)]; cbn [fst snd] in *.
  - destruct (wf_inv _ _ _ Hwf) as (_ & _ & _ & _ & _ & _ & _ & _ & Hmode).
    destruct Hmode as [[Hd _] | (h & Hd & Hh & _)]; eauto.
  - eauto.
Qed.

(** A call on [this] keeps the invariant of another object [a], when the
    two do not share a live heap array. *)
Lemma object_inv_frame a va this v m m' :
  object_inv a (va, m) -> a <> this ->
  frame this v m m' ->
  (blk (_data v) = StaticMem this \/ exists h, blk (_data v) = HeapMem h) ->
  (forall h, blk (_data va) = HeapMem h -> blk (_data v) = HeapMem h ->
             blocks m !! HeapMem h = None) ->
  object_inv a (va, m').
Proof.
  intros Hinv Hne (Hn & Hother & Hdead) Hshape Hsep.
  assert (Hst : blocks m' !! StaticMem a = blocks m !! StaticMem a).
  { apply Hother; [congruence | | discriminate].
    destruct Hshape as [-> | (h & ->)]; congruence. }
  destruct Hinv as [Hwf | (Hlive & Hc & Hsz & h & Hd & Hh & Hd0)]; cbn [fst snd] in *.
  - left.
    destruct (wf_inv _ _ _ Hwf)
      as (ls & la & Hls & Hlens & Hla & Hlena & Hsz & Hmax & Hmode).
    destruct Hmode as [[Hd Hc] | (h & Hd & Hh & Hc & Hs)].
    + apply (wf_inline a va m' ls); auto; [congruence | lia].
    + rewrite Hd in Hla; cbn [blk] in Hla.
      apply (wf_heap a va m' ls la h); auto; try lia; [congruence|].
      rewrite Hother; [exact Hla | discriminate | | intros ? [= <-]; exact Hh].
      intros Heq. rewrite Hd in Hsep; cbn [blk] in Hsep.
      rewrite (Hsep h eq_refl (eq_sym Heq)) in Hla. discriminate.
  - right. repeat split; cbn [fst snd]; auto.
    + unfold live in *. now rewrite Hst.
    + exists h. repeat split; auto. lia.
Qed.

(** ** [operator=] and the copy constructor *)

Lemma copyMembers_preserves this v m oa other s' :
  live m (StaticMem this) StaticCapacity = true ->
  (_data v = _staticMem this
   \/ exists h, _data v = Ptr (HeapMem h) 0 /\ (h < next_heap m)%nat
                /\ blocks m !! HeapMem h = None) ->
  object_inv oa (other, m) -> oa <> this ->
  _copyMembers other (v, m) = Ok tt s' ->
  preserves this (v, m) s'.
Proof.
  intros Hst Hdst Hsrc Hne Hrun.
  pose proof StaticCapacity_range as HSC. unfold Dbl.DBL_MANT_DIG in HSC.
  apply live_spec in Hst as (ls & Hls & Hlens).
  assert (Hempty : _capacity other = StaticCapacity -> _size other = 0 ->
                   preserves this (v, m) s').
  { intros Hco Hso. rewrite copyMembers_empty in Hrun by lia.
    injection Hrun as <-. rewrite Hco.
    split; [|split; [apply frame_refl | now left]].
    destruct Hdst as [Hd | (h & Hd & Hh & Hdead)].
    - left. apply (wf_inline this _ _ ls); cbn [_data _size _capacity]; auto. lia.
    - right. repeat split; cbn [fst snd _data _size _capacity]; auto.
      + apply live_spec. eauto.
      + eauto. }
  destruct Hsrc as [Hwf | (_ & Hco & Hso & _)]; cbn [fst snd] in *; [|now apply Hempty].
  destruct (wf_inv _ _ _ Hwf)
    as (lso & lo & Hlso & Hlenso & Hlo & Hleno & Hszo & Hmaxo & Hmode).
  set (so := Z.to_nat (_size other)).
  assert (Hso : _size other = Z.of_nat so) by (unfold so; lia).
  destruct Hmode as [[Hdo Hco] | (ho & Hdo & Hho & Hco & Hso')].
  - (* the source is in inline mode *)
    rewrite Hdo in Hlo; cbn [_staticMem blk] in Hlo.
    destruct (Z.eq_dec (_size other) 0) as [Hz|Hnz]; [now apply Hempty|].
    destruct Hdst as [Hd | (h & Hd & Hh & Hdead)].
    + rewrite (copyMembers_inline v m other (StaticMem this) ls (StaticMem oa) lo so)
        in Hrun; auto; try lia; [|congruence].
      injection Hrun as <-. split; [|split].
      * left. apply (wf_inline this _ _ (take so lo ++ drop so ls));
          cbn [_data _size _capacity]; auto; try lia.
        -- apply blocks_set_block_eq.
        -- rewrite length_app, length_take, length_drop. lia.
      * cbn [fst snd]. eapply frame_set_block; [exact Hls | now left].
      * now left.
    + rewrite (copyMembers_dead v m other (StaticMem oa) lo) in Hrun;
        [discriminate | lia | now rewrite Hd | exact Hdo | exact Hlo | lia].
  - (* the source is in heap mode *)
    rewrite Hdo in Hlo; cbn [blk] in Hlo.
    rewrite (copyMembers_heap v m other (HeapMem ho) lo so) in Hrun; auto; try lia;
      [|intros [= ->]; lia].
    injection Hrun as <-. split; [|split].
    + left.
      apply (wf_heap this _ _ ls
               (take so lo ++ replicate (Z.to_nat (_capacity other) - so) T_default)
               (next_heap m)); cbn [_data _size _capacity].
      * rewrite blocks_with_new_block. now rewrite decide_False.
      * exact Hlens.
      * reflexivity.
      * rewrite blocks_with_new_block. now rewrite decide_True.
      * rewrite length_app, length_take, length_replicate. lia.
      * cbn [with_new_block next_heap]. lia.
      * lia.
      * lia.
    + cbn [fst snd]. apply frame_with_new_block.
    + right. right. reflexivity.
Qed.

Lemma assign_preserves this v m oa other s' :
  object_inv this (v, m) -> object_inv oa (other, m) ->
  (oa <> this ->
   forall h, blk (_data other) = HeapMem h -> blk (_data v) = HeapMem h ->
             blocks m !! HeapMem h = None) ->
  operator_assign this oa other (v, m) = Ok tt s' ->
  preserves this (v, m) s'.
Proof.
  intros Hinv Hsrc Hsep Hrun. unfold operator_assign in Hrun.
  destruct (decide (oa = this)) as [Heq|Hne].
  { injection Hrun as <-. now apply preserves_same. }
  specialize (Hsep Hne).
  destruct (StaticCapacity <? _capacity v) eqn:Hcap.
  - (* heap mode: the array is deleted first *)
    apply Z.ltb_lt in Hcap.
    destruct Hinv as [Hwf | (_ & Hc & _)]; cbn [fst snd] in *; [|lia].
    destruct (wf_inv _ _ _ Hwf)
      as (ls & la & Hls & Hlens & Hla & Hlena & Hsz & Hmax & Hmode).
    destruct Hmode as [[_ Hc] | (h & Hd & Hh & _ & _)]; [lia|].
    rewrite Hd in Hla; cbn [blk] in Hla.
    assert (Hfr : frame this v m (free_block m (HeapMem h))).
    { apply frame_free_block; [right; now rewrite Hd | apply frame_refl]. }
    assert (Hgo : _copyMembers other (v, free_block m (HeapMem h)) = Ok tt s').
    { rewrite <- Hrun. monad_unfold. apply Z.ltb_lt in Hcap. rewrite Hcap, Hd.
      now rewrite (dealloc_heap m h la Hla). }
    apply copyMembers_preserves with (this := this) (oa := oa) in Hgo; auto.
    + destruct Hgo as (Hinv' & Hfr' & Hstep). split; [exact Hinv'|]. split.
      * eapply frame_trans; eassumption.
      * exact Hstep.
    + apply live_spec. exists ls. split; [|exact Hlens].
      rewrite blocks_free_block. now rewrite decide_False.
    + right. exists h. repeat split; auto.
      rewrite blocks_free_block. now rewrite decide_True.
    + eapply object_inv_frame; [exact Hsrc | exact Hne | exact Hfr | |].
      * right. exists h. now rewrite Hd.
      * exact Hsep.
  - (* nothing to delete *)
    apply Z.ltb_ge in Hcap.
    assert (Hgo : _copyMembers other (v, m) = Ok tt s').
    { rewrite <- Hrun. monad_unfold. apply Z.ltb_ge in Hcap. now rewrite Hcap. }
    apply copyMembers_preserves with (this := this) (oa := oa) in Hgo; auto.
    + destruct Hinv as [Hwf | (Hlive & _)]; [|exact Hlive].
      destruct (wf_inv _ _ _ Hwf) as (ls & la & Hls & Hlens & _).
      apply live_spec. eauto.
    + destruct Hinv as [Hwf | (_ & _ & _ & h & Hd & Hh & Hdead)]; cbn [fst snd] in *.
      * destruct (wf_inv _ _ _ Hwf) as (_ & _ & _ & _ & _ & _ & _ & _ & Hmode).
        destruct Hmode as [[Hd _] | (h & _ & _ & Hc & _)]; [now left | lia].
      * right. eauto.
Qed.

(** ** [a[i] = x] *)

Lemma write_preserves this v m (i : nat) x s' :
  object_inv this (v, m) -> Z.of_nat i < _size v ->
  (do p <- operator_index (Z.of_nat i); assign p x) (v, m) = Ok tt s' ->
  preserves this (v, m) s'.
Proof.
  intros Hinv Hi Hrun.
  destruct Hinv as [Hwf | (_ & _ & Hsz & _)]; cbn [fst snd] in *; [|lia].
  destruct (wf_inv _ _ _ Hwf)
    as (ls & la & Hls & Hlens & Hla & Hlena & Hsz & Hmax & Hmode).
  assert (Hd : _data v = Ptr (blk (_data v)) 0).
  { destruct Hmode as [[-> _] | (h & -> & _)]; reflexivity. }
  unfold operator_index in Hrun. monad_unfold_in Hrun.
  rewrite Hd in Hrun; cbn [blk off] in Hrun. rewrite Z.add_0_l in Hrun.
  rewrite (store_Some m _ la i x Hla) in Hrun by lia.
  injection Hrun as <-. split; [|split; [|now left]].
  - left. destruct Hmode as [[Hds Hc] | (h & Hdh & Hh & Hc & Hs)].
    + rewrite Hds in *; cbn [_staticMem blk] in *.
      apply (wf_inline this v _ (<[i := x]> la)); auto; try lia.
      * apply blocks_set_block_eq.
      * rewrite length_insert. congruence.
    + rewrite Hdh in *; cbn [blk] in *.
      apply (wf_heap this v _ ls (<[i := x]> la) h).
      * rewrite blocks_set_block_ne by discriminate. exact Hls.
      * exact Hlens.
      * exact Hdh.
      * apply blocks_set_block_eq.
      * rewrite length_insert. exact Hlena.
      * exact Hh.
      * lia.
      * exact Hmax.
  - cbn [fst snd]. eapply frame_set_block; [exact Hla | now right].
Qed.

(** ** Constructors and destructor *)

Lemma destructor_preserves this v m s' :
  object_inv this (v, m) ->
  destructor (v, m) = Ok tt s' ->
  fst s' = v /\ frame this v m (snd s')
  /\ frame this v m (free_block (snd s') (StaticMem this))
  /\ (forall h, blk (_data v) = HeapMem h -> blocks (snd s') !! HeapMem h = None).
Proof.
  intros Hinv Hrun. unfold destructor in Hrun. monad_unfold_in Hrun.
  destruct (StaticCapacity <? _capacity v) eqn:Hcap.
  - apply Z.ltb_lt in Hcap.
    destruct Hinv as [Hwf | (_ & Hc & _)]; cbn [fst snd] in *; [|lia].
    destruct (wf_inv _ _ _ Hwf)
      as (ls & la & Hls & Hlens & Hla & Hlena & Hsz & Hmax & Hmode).
    destruct Hmode as [[_ Hc] | (h & Hd & Hh & _ & _)]; [lia|].
    rewrite Hd in Hla, Hrun; cbn [blk] in Hla.
    rewrite (dealloc_heap m h la Hla) in Hrun. injection Hrun as <-.
    cbn [fst snd].
    assert (Hfr : frame this v m (free_block m (HeapMem h))).
    { apply frame_free_block; [right; now rewrite Hd | apply frame_refl]. }
    split; [reflexivity|]. split; [exact Hfr|]. split.
    + apply frame_free_block; [now left | exact Hfr].
    + intros h'. rewrite Hd; cbn [blk]. intros [= <-].
      rewrite blocks_free_block. now rewrite decide_True.
  - apply Z.ltb_ge in Hcap. injection Hrun as <-. cbn [fst snd].
    split; [reflexivity|]. split; [apply frame_refl|]. split.
    + apply frame_free_block; [now left | apply frame_refl].
    + intros h Hb.
      destruct Hinv as [Hwf | (_ & _ & _ & h' & Hd & _ & Hdead)]; cbn [fst snd] in *.
      * destruct (wf_inv _ _ _ Hwf) as (_ & _ & _ & _ & _ & _ & _ & _ & Hmode).
        destruct Hmode as [[Hd _] | (h' & _ & _ & Hc & _)]; [|lia].
        rewrite Hd in Hb. discriminate.
      * rewrite Hd in Hb; cbn [blk] in Hb. now injection Hb as <-.
Qed.

(** ** Worlds *)

Lemma frame_place this v m : frame this v m (place this m).
Proof.
  repeat split; cbn [place next_heap blocks]; [lia | |].
  - intros b Hb _ _. now rewrite lookup_insert_ne.
  - intros h _ Hdead. now rewrite lookup_insert_ne.
Qed.

Lemma heap_data_bound a va m h :
  object_inv a (va, m) -> blk (_data va) = HeapMem h -> (h < next_heap m)%nat.
Proof.
  intros Hinv Hb.
  destruct (object_inv_data _ _ _ Hinv) as [Hd | (h' & Hd & Hh)];
    rewrite Hd in Hb; [discriminate|].
  cbn [blk] in Hb. now injection Hb as <-.
Qed.

Lemma data_shape this v m :
  object_inv this (v, m) ->
  blk (_data v) = StaticMem this \/ exists h, blk (_data v) = HeapMem h.
Proof.
  intros Hinv.
  destruct (object_inv_data _ _ _ Hinv) as [-> | (h & -> & _)]; [now left|].
  right. now exists h.
Qed.

(** The invariant of the world after a call that changed the object at
    [this] from [v], or made it. *)
Lemma world_inv_update w this v s' :
  world_inv w ->
  (blk (_data v) = StaticMem this \/ exists h, blk (_data v) = HeapMem h) ->
  (forall b vb h, b <> this -> objects w !! b = Some vb ->
     blk (_data vb) = HeapMem h -> blk (_data v) = HeapMem h ->
     blocks (memory_of w) !! HeapMem h = None) ->
  object_inv this s' ->
  frame this v (memory_of w) (snd s') ->
  data_step this v (memory_of w) (fst s') ->
  world_inv (World (<[this := fst s']> (objects w)) (snd s')).
Proof.
  intros [I1 I2] Hshape Hsep Hinv Hfr Hstep. destruct s' as [v' m'].
  cbn [fst snd] in *.
  assert (Hdead : forall h, (h < next_heap (memory_of w))%nat ->
            blocks (memory_of w) !! HeapMem h = None -> blocks m' !! HeapMem h = None).
  { destruct Hfr as (_ & _ & Hd). exact Hd. }
  assert (Hnew : forall b vb h, b <> this -> objects w !! b = Some vb ->
            blk (_data vb) = HeapMem h -> blk (_data v') = HeapMem h ->
            blocks m' !! HeapMem h = None).
  { intros b vb h Hb Hvb Hhb Hh'.
    pose proof (heap_data_bound _ _ _ _ (I1 _ _ Hvb) Hhb) as Hlt.
    destruct Hstep as [Hd | [Hd | Hd]]; rewrite Hd in Hh'.
    - apply Hdead; [exact Hlt|]. eapply Hsep; eassumption.
    - discriminate.
    - cbn [blk] in Hh'. injection Hh' as <-. lia. }
  split; cbn [objects memory_of].
  - intros a va Hva. destruct (decide (a = this)) as [->|Hne].
    + rewrite lookup_insert_eq in Hva. now injection Hva as <-.
    + rewrite lookup_insert_ne in Hva by congruence.
      eapply object_inv_frame; [apply (I1 _ _ Hva) | exact Hne | exact Hfr
                               | exact Hshape |].
      intros h Ha Hv. eapply Hsep; eassumption.
  - intros a b va vb h Hab Hva Hvb Ha Hb.
    destruct (decide (a = this)) as [->|Hnea];
      destruct (decide (b = this)) as [->|Hneb]; [congruence | | |].
    + rewrite lookup_insert_eq in Hva. injection Hva as <-.
      rewrite lookup_insert_ne in Hvb by congruence.
      eapply Hnew; eassumption.
    + rewrite lookup_insert_eq in Hvb. injection Hvb as <-.
      rewrite lookup_insert_ne in Hva by congruence.
      eapply Hnew; eassumption.
    + rewrite lookup_insert_ne in Hva by congruence.
      rewrite lookup_insert_ne in Hvb by congruence.
      apply Hdead.
      * eapply heap_data_bound; [apply (I1 _ _ Hva) | exact Ha].
      * eapply I2; [exact Hab | exact Hva | exact Hvb | exact Ha | exact Hb].
Qed.

Lemma on_object_inv {A} w this (f : M A) w' :
  world_inv w ->
  (forall v a s', objects w !! this = Some v ->
     object_inv this (v, memory_of w) ->
     f (v, memory_of w) = Ok a s' -> preserves this (v, memory_of w) s') ->
  on_object this f w = Some w' ->
  world_inv w'.
Proof.
  intros Hw Hf Hrun. unfold on_object in Hrun.
  destruct (objects w !! this) as [v|] eqn:Hv; [|discriminate].
  destruct (f (v, memory_of w)) as [a s'| |] eqn:Hfs; try discriminate.
  injection Hrun as <-.
  pose proof (proj1 Hw _ _ Hv) as Hinv.
  destruct (Hf v a s' eq_refl Hinv Hfs) as (Hinv' & Hfr & Hstep).
  apply (world_inv_update w this v s'); auto.
  - eapply data_shape; exact Hinv.
  - intros b vb h Hb Hvb Hhb Hh.
    apply (proj2 Hw b this vb v h); auto.
Qed.

Lemma on_new_object_inv w this f w' :
  world_inv w ->
  (forall s', f (memory_of w) = Ok tt s' ->
     object_inv this s'
     /\ frame this (fst (VLVector_default this (memory_of w))) (memory_of w) (snd s')
     /\ data_step this (fst (VLVector_default this (memory_of w))) (memory_of w) (fst s')) ->
  on_new_object this f w = Some w' ->
  world_inv w'.
Proof.
  intros Hw Hf Hrun. unfold on_new_object in Hrun.
  destruct (objects w !! this) as [v|] eqn:Hv; [discriminate|].
  destruct (f (memory_of w)) as [[] s'| |] eqn:Hfs; try discriminate.
  injection Hrun as <-.
  destruct (Hf s' eq_refl) as (Hinv' & Hfr & Hstep).
  eapply (world_inv_update w this _ s'); [exact Hw | | | exact Hinv' | exact Hfr
                                          | exact Hstep].
  - now left.
  - intros b vb h _ _ _ Hh. discriminate.
Qed.

Lemma begin_bind {A} (k : pointer -> M A) v m :
  (do b <- begin; k b) (v, m) = k (_data v) (v, m).
Proof. reflexivity. Qed.

Lemma size_at_lookup w a v : objects w !! a = Some v -> size_at w a = _size v.
Proof. intros Hv. unfold size_at. now rewrite Hv. Qed.

Lemma exact_sizeb_spec n : exact_sizeb n = true <-> exact_size n.
Proof. unfold exact_sizeb, exact_size. apply Z.ltb_lt. Qed.

Lemma copy_constructor_preserves this oa other m s' :
  object_inv oa (other, m) -> oa <> this ->
  VLVector_copy this other m = Ok tt s' ->
  object_inv this s'
  /\ frame this (fst (VLVector_default this m)) m (snd s')
  /\ data_step this (fst (VLVector_default this m)) m (fst s').
Proof.
  intros Hsrc Hne Hrun. unfold VLVector_copy, VLVector_default in *.
  cbn [fst] in *.
  set (v0 := {| _data := _staticMem this; _size := 0; _capacity := StaticCapacity |}) in *.
  apply copyMembers_preserves with (this := this) (oa := oa) in Hrun; auto.
  - destruct Hrun as (Hinv & Hfr & Hstep). split; [exact Hinv|]. split.
    + eapply frame_trans; [apply frame_place | exact Hfr].
    + exact Hstep.
  - pose proof (wf_default this m) as Hwf.
    destruct (wf_inv _ _ _ Hwf) as (ls & _ & Hls & Hlens & _).
    apply live_spec. eauto.
  - eapply object_inv_frame; [exact Hsrc | exact Hne | apply (frame_place this v0) | |].
    + now left.
    + intros h _ Hh. discriminate.
Qed.

Lemma range_constructor_preserves this (r : list T) m s' :
  exact_size (Z.of_nat (length r)) ->
  VLVector_range this (forward_range r) m = Ok tt s' ->
  object_inv this s'
  /\ frame this (fst (VLVector_default this m)) m (snd s')
  /\ data_step this (fst (VLVector_default this m)) m (fst s').
Proof.
  intros Hex Hrun. unfold VLVector_range in Hrun.
  pose proof (wf_default this m) as Hwf.
  unfold VLVector_default in *. cbn [fst].
  set (v0 := {| _data := _staticMem this; _size := 0; _capacity := StaticCapacity |}) in *.
  rewrite begin_bind in Hrun. unfold bind, ret in Hrun.
  rewrite <- (ptr_add_0 (_data v0)) in Hrun. change 0 with (Z.of_nat 0) in Hrun.
  destruct (insert _ (forward_range r) (v0, place this m)) as [p s''| |] eqn:Hins; try discriminate.
  injection Hrun as <-.
  apply (insert_preserves this v0 (place this m) 0 r p s'') in Hins.
  - destruct Hins as (Hinv & Hfr & Hstep). split; [exact Hinv|]. split.
    + eapply frame_trans; [apply frame_place | exact Hfr].
    + exact Hstep.
  - now left.
  - cbn. lia.
  - exact Hex.
Qed.

(** ** Every statement keeps the invariant *)

Lemma run_call_inv_by_value c w w' :
  by_value c = true ->
  world_inv w -> run_call c w = Some w' -> world_inv w'.
Proof.
  intros Hbv Hw Hrun. destruct c; try discriminate Hbv; clear Hbv; cbn [run_call] in Hrun.
  - (* VLVector a; *)
    eapply on_new_object_inv; [exact Hw | | exact Hrun].
    intros s' [= <-]. split; [left; apply wf_default|]. split.
    + apply frame_place.
    + now left.
  - (* VLVector a(b); *)
    destruct (objects w !! b) as [other|] eqn:Hb; [|discriminate].
    destruct (objects w !! a) as [va|] eqn:Ha.
    { unfold on_new_object in Hrun. now rewrite Ha in Hrun. }
    eapply on_new_object_inv; [exact Hw | | exact Hrun].
    intros s' Hs'. eapply copy_constructor_preserves; [| |exact Hs'].
    + apply (proj1 Hw _ _ Hb).
    + congruence.
  - (* VLVector a(first, last); *)
    destruct (exact_sizeb _) eqn:Hex; [|discriminate].
    apply exact_sizeb_spec in Hex.
    eapply on_new_object_inv; [exact Hw | | exact Hrun].
    intros s' Hs'. eapply range_constructor_preserves; eassumption.
  - (* the end of a's life *)
    unfold on_object in Hrun.
    destruct (objects w !! a) as [v|] eqn:Ha; [|discriminate].
    destruct (destructor (v, memory_of w)) as [[] s'| |] eqn:Hd; try discriminate.
    injection Hrun as <-. cbn [objects memory_of].
    pose proof (proj1 Hw _ _ Ha) as Hinv.
    destruct (destructor_preserves a v _ s' Hinv Hd) as (Hv & _ & Hfr & _).
    rewrite delete_insert_eq. destruct Hw as [I1 I2]. split; cbn [objects memory_of].
    + intros b vb Hvb. apply lookup_delete_Some in Hvb as [Hne Hvb].
      apply (object_inv_frame b vb a v (memory_of w));
        [apply (I1 _ _ Hvb) | congruence | exact Hfr
        | eapply data_shape; exact Hinv |].
      intros h Hhb Hh. apply (I2 b a vb v h); auto.
    + intros b c vb vc h Hbc Hvb Hvc Hhb Hhc.
      apply lookup_delete_Some in Hvb as [Hneb Hvb].
      apply lookup_delete_Some in Hvc as [Hnec Hvc].
      destruct Hfr as (_ & _ & Hdead). apply Hdead.
      * eapply heap_data_bound; [apply (I1 _ _ Hvb) | exact Hhb].
      * eapply I2; [exact Hbc | exact Hvb | exact Hvc | exact Hhb | exact Hhc].
  - (* a.push_back(x); *)
    destruct (exact_sizeb _) eqn:Hex; [|discriminate].
    apply exact_sizeb_spec in Hex.
    eapply on_object_inv; [exact Hw | | exact Hrun].
    intros v [] s' Hv Hinv Hs'. rewrite (size_at_lookup _ _ _ Hv) in Hex.
    eapply push_back_preserves; eassumption.
  - (* a.pop_back(); *)
    destruct (0 <? size_at w a) eqn:Hsz; [|discriminate].
    apply Z.ltb_lt in Hsz.
    eapply on_object_inv; [exact Hw | | exact Hrun].
    intros v [] s' Hv Hinv Hs'. rewrite (size_at_lookup _ _ _ Hv) in Hsz.
    eapply pop_back_preserves; eassumption.
  - (* a.insert(a.begin() + i, x); *)
    destruct (_ && _) eqn:Hc; [|discriminate].
    apply andb_true_iff in Hc as [Hi Hex].
    apply Z.leb_le in Hi. apply exact_sizeb_spec in Hex.
    eapply on_object_inv; [exact Hw | | exact Hrun].
    intros v p s' Hv Hinv Hs'. rewrite (size_at_lookup _ _ _ Hv) in Hi, Hex.
    rewrite begin_bind in Hs'.
    eapply insert_value_preserves; eassumption.
  - (* a.insert(a.begin() + i, first, last); *)
    destruct (_ && _) eqn:Hc; [|discriminate].
    apply andb_true_iff in Hc as [Hi Hex].
    apply Z.leb_le in Hi. apply exact_sizeb_spec in Hex.
    eapply on_object_inv; [exact Hw | | exact Hrun].
    intros v p s' Hv Hinv Hs'. rewrite (size_at_lookup _ _ _ Hv) in Hi, Hex.
    rewrite begin_bind in Hs'.
    eapply insert_preserves; eassumption.
  - (* a.erase(a.begin() + i, a.begin() + j); *)
    destruct (_ && _) eqn:Hc; [|discriminate].
    apply andb_true_iff in Hc as [Hij Hj].
    apply Nat.leb_le in Hij. apply Z.leb_le in Hj.
    eapply on_object_inv; [exact Hw | | exact Hrun].
    intros v p s' Hv Hinv Hs'. rewrite (size_at_lookup _ _ _ Hv) in Hj.
    rewrite begin_bind in Hs'.
    eapply erase_preserves; eassumption.
  - (* a.erase(a.begin() + i); *)
    destruct (_ <? _) eqn:Hi; [|discriminate].
    apply Z.ltb_lt in Hi.
    eapply on_object_inv; [exact Hw | | exact Hrun].
    intros v p s' Hv Hinv Hs'. rewrite (size_at_lookup _ _ _ Hv) in Hi.
    rewrite begin_bind in Hs'.
    eapply erase_pos_preserves; eassumption.
  - (* a.clear(); *)
    eapply on_object_inv; [exact Hw | | exact Hrun].
    intros v [] s' Hv Hinv Hs'.
    eapply clear_preserves; eassumption.
  - (* a = b; *)
    destruct (objects w !! b) as [other|] eqn:Hb; [|discriminate].
    eapply on_object_inv; [exact Hw | | exact Hrun].
    intros v [] s' Hv Hinv Hs'.
    eapply assign_preserves; [exact Hinv | apply (proj1 Hw _ _ Hb) | | exact Hs'].
    intros Hne h Ho Hh. apply (proj2 Hw b a other v h); auto.
  - (* a[i] = x; *)
    destruct (_ <? _) eqn:Hi; [|discriminate].
    apply Z.ltb_lt in Hi.
    eapply on_object_inv; [exact Hw | | exact Hrun].
    intros v [] s' Hv Hinv Hs'. rewrite (size_at_lookup _ _ _ Hv) in Hi.
    eapply write_preserves; eassumption.
Qed.

Lemma VLVector_range_returns_as_values this first last m s' :
  VLVector_range this (pointer_range first last) m = Ok tt s' ->
  exists r, distance first last = Some (length r)
            /\ VLVector_range this (forward_range r) m = Ok tt s'.
Proof.
  unfold VLVector_range, VLVector_default. intros Hrun.
  rewrite begin_bind in Hrun. unfold bind at 1 in Hrun.
  destruct (insert _ _ _) as [p s''| |] eqn:Hins; try discriminate.
  apply insert_returns_as_values in Hins as (r & Hn & Hins).
  exists r. split; [exact Hn|].
  rewrite begin_bind. unfold bind at 1. now rewrite Hins.
Qed.

(** A statement that passes pointers and has a result does what some
    statement does that passes values. *)
Lemma run_call_by_value c w w' :
  run_call c w = Some w' ->
  exists c', by_value c' = true
             /\ run_call c' w = Some w'
             /\ assigns_heap_from_inline w c' = assigns_heap_from_inline w c.
Proof.
  intros Hrun.
  destruct c;
    try (eexists; split; [|split; [exact Hrun | reflexivity]]; reflexivity);
    cbn [run_call] in Hrun.
  - (* VLVector a(first, last); *)
    destruct (distance _ _) as [n|] eqn:Hn; [|discriminate].
    destruct (exact_sizeb _) eqn:Hex; [|discriminate].
    unfold on_new_object in Hrun.
    destruct (objects w !! a) as [va|] eqn:Ha; [discriminate|].
    destruct (VLVector_range a _ _) as [[] s'| |] eqn:Hs'; try discriminate.
    apply VLVector_range_returns_as_values in Hs' as (r & Hr & Hs').
    rewrite Hn in Hr. injection Hr as ->.
    exists (construct_range a r). split; [reflexivity|]. split; [|reflexivity].
    cbn [run_call]. rewrite Hex. unfold on_new_object. now rewrite Ha, Hs'.
  - (* a.insert(a.begin() + i, first, last); *)
    destruct (distance _ _) as [n|] eqn:Hn; [|discriminate].
    destruct (_ && _) eqn:Hc; [|discriminate].
    unfold on_object in Hrun.
    destruct (objects w !! a) as [v|] eqn:Ha; [|discriminate].
    rewrite begin_bind in Hrun.
    destruct (insert _ _ _) as [q s'| |] eqn:Hs'; try discriminate.
    apply insert_returns_as_values in Hs' as (r & Hr & Hs').
    rewrite Hn in Hr. injection Hr as ->.
    exists (call_insert a i r). split; [reflexivity|]. split; [|reflexivity].
    cbn [run_call]. rewrite Hc. unfold on_object. rewrite Ha, begin_bind.
    now rewrite Hs'.
  - (* a.insert(a.begin() + i, *p); *)
    destruct (_ && _) eqn:Hc; [|discriminate].
    unfold on_object in Hrun.
    destruct (objects w !! a) as [v|] eqn:Ha; [|discriminate].
    rewrite begin_bind in Hrun.
    destruct (insert_value _ _ _) as [q s'| |] eqn:Hs'; try discriminate.
    apply insert_value_returns_as_value in Hs' as (x & Hs').
    exists (call_insert_value a i x). split; [reflexivity|]. split; [|reflexivity].
    cbn [run_call]. rewrite Hc. unfold on_object. rewrite Ha, begin_bind.
    now rewrite Hs'.
Qed.

Lemma run_call_inv c w w' :
  world_inv w -> run_call c w = Some w' -> world_inv w'.
Proof.
  intros Hw Hrun.
  destruct (run_call_by_value c w w' Hrun) as (c' & Hv & Hrun' & _).
  now apply (run_call_inv_by_value c' w w').
Qed.

Lemma world_inv_empty : world_inv empty_world.
Proof.
  split; cbn [empty_world objects memory_of].
  - intros a v Hv. now rewrite lookup_empty in Hv.
  - intros a b va vb h _ Hva. now rewrite lookup_empty in Hva.
Qed.

Lemma run_calls_inv cs : forall w w',
  world_inv w -> run_calls cs w = Some w' -> world_inv w'.
Proof.
  induction cs as [|c cs IH]; intros w w' Hw Hrun; cbn [run_calls] in Hrun.
  - now injection Hrun as <-.
  - destruct (run_call c w) as [w1|] eqn:Hc; [|discriminate].
    eapply IH; [|exact Hrun]. eapply run_call_inv; eassumption.
Qed.

(** Every container of a world that a program reaches is well formed, or
    is what [operator=] leaves of a container in heap mode that was
    assigned an empty one. *)
Lemma reachable_inv cs w this v :
  run_calls cs empty_world = Some w ->
  objects w !! this = Some v ->
  object_inv this (v, memory_of w).
Proof.
  intros Hrun Hv.
  apply (proj1 (run_calls_inv cs _ _ world_inv_empty Hrun) _ _ Hv).
Qed.

(** ** C9: erasing an empty range *)

(** C9.  For every container [v] of a world that a program reaches from
    nothing by constructors, the public member functions and the
    destructor, and every position [p = begin() + i] with
    [0 <= i <= size()], [erase(p, p)] returns [p] and leaves the members
    [_data], [_size], [_capacity] and the whole memory, so all elements, as
    they were. *)
Theorem erase_empty_range_noop cs w this v (i : nat) :
  run_calls cs empty_world = Some w ->
  objects w !! this = Some v ->
  Z.of_nat i <= _size v ->
  erase this (_data v +ₚ Z.of_nat i) (_data v +ₚ Z.of_nat i) (v, memory_of w)
  = Ok (_data v +ₚ Z.of_nat i) (v, memory_of w).
Proof.
  intros Hrun Hv Hi.
  destruct (reachable_inv cs w this v Hrun Hv)
    as [Hwf | (_ & Hc & Hsz & _)]; cbn [fst snd] in *.
  - apply erase_empty_range_wf; [exact Hwf|].
    destruct (wf_size _ _ _ Hwf) as (_ & _ & _ & ->). lia.
  - assert (Hi0 : Z.of_nat i = _size v) by lia. rewrite Hi0.
    apply erase_at_end.
    + rewrite Hsz. unfold SIZE_MAX_plus_1. lia.
    + unfold erase_shrinks. rewrite Hc, Z.ltb_irrefl. reflexivity.
Qed.

(** * Further properties *)

(** ** What a call on one container leaves of another *)

Lemma wf_frame a va this v m m' :
  wf a (va, m) = true -> a <> this ->
  frame this v m m' ->
  (blk (_data v) = StaticMem this \/ exists h, blk (_data v) = HeapMem h) ->
  blk (_data va) <> blk (_data v) ->
  wf a (va, m') = true /\ elements (va, m') = elements (va, m).
Proof.
  intros Hwf Hne (Hn & Hother & Hdead) Hshape Hsep.
  destruct (wf_inv _ _ _ Hwf)
    as (ls & la & Hls & Hlens & Hla & Hlena & Hsz & Hmax & Hmode).
  assert (Hst : blocks m' !! StaticMem a = Some ls).
  { rewrite Hother; [exact Hls | congruence | | discriminate].
    destruct Hshape as [-> | (h & ->)]; congruence. }
  assert (Hda : blocks m' !! blk (_data va) = Some la).
  { destruct Hmode as [[Hd Hc] | (h & Hd & Hh & Hc & Hs)].
    - rewrite Hd in *. cbn [_staticMem blk] in *. congruence.
    - rewrite Hd in *. cbn [blk] in *.
      rewrite Hother; [exact Hla | discriminate | exact Hsep |].
      intros ? [= <-]. exact Hh. }
  split.
  - destruct Hmode as [[Hd Hc] | (h & Hd & Hh & Hc & Hs)].
    + apply (wf_inline a va m' ls); auto. lia.
    + rewrite Hd in Hda; cbn [blk] in Hda.
      apply (wf_heap a va m' ls la h); auto; lia.
  - unfold elements, storage; cbn [fst snd]. now rewrite Hda, Hla.
Qed.

(** ** [_copyMembers] onto a container with its array member as storage, or
    from a source in heap mode *)

Lemma copyMembers_copies this v m oa other :
  live m (StaticMem this) StaticCapacity = true ->
  (_data v = _staticMem this \/ StaticCapacity < _capacity other) ->
  wf oa (other, m) = true -> oa <> this ->
  exists s',
    _copyMembers other (v, m) = Ok tt s'
    /\ wf this s' = true
    /\ elements s' = elements (other, m)
    /\ _size (fst s') = _size other
    /\ _capacity (fst s') = _capacity other
    /\ frame this v m (snd s')
    /\ (if StaticCapacity <? _capacity other
        then _data (fst s') = Ptr (HeapMem (next_heap m)) 0
        else _data (fst s') = _data v).
Proof.
  intros Hst Hdst Hwf Hne.
  pose proof StaticCapacity_range as HSC. unfold Dbl.DBL_MANT_DIG in HSC.
  apply live_spec in Hst as (ls & Hls & Hlens).
  destruct (wf_inv _ _ _ Hwf)
    as (lso & lo & Hlso & Hlenso & Hlo & Hleno & Hszo & Hmaxo & Hmode).
  set (so := Z.to_nat (_size other)).
  assert (Hso : _size other = Z.of_nat so) by (unfold so; lia).
  assert (Hel : elements (other, m) = take so lo).
  { now apply elements_eq. }
  destruct Hmode as [[Hdo Hco] | (ho & Hdo & Hho & Hco & Hso')].
  - (* the source is in inline mode *)
    destruct Hdst as [Hd | Hc]; [|lia].
    rewrite Hdo in Hlo; cbn [_staticMem blk] in Hlo.
    rewrite (copyMembers_inline v m other (StaticMem this) ls (StaticMem oa) lo so);
      auto; try lia; [|congruence].
    eexists. split; [reflexivity|]. cbn [fst snd _data _size _capacity].
    assert (Hnew : blocks (set_block m (StaticMem this) (take so lo ++ drop so ls))
                   !! StaticMem this = Some (take so lo ++ drop so ls))
      by apply blocks_set_block_eq.
    assert (Hlen : length (take so lo ++ drop so ls) = length ls).
    { rewrite length_app, length_take, length_drop. lia. }
    split; [|split; [|split; [|split; [|split]]]].
    + apply (wf_inline this _ _ (take so lo ++ drop so ls));
        cbn [_data _size _capacity]; auto; lia.
    + rewrite Hel.
      rewrite (elements_eq _ _ (take so lo ++ drop so ls) so);
        cbn [_data _size]; [|rewrite Hd; exact Hnew | exact Hso].
      rewrite take_app_length'; [reflexivity|]. rewrite length_take. lia.
    + reflexivity.
    + reflexivity.
    + eapply frame_set_block; [exact Hls | now left].
    + rewrite (proj2 (Z.ltb_ge _ _)) by lia. reflexivity.
  - (* the source is in heap mode *)
    rewrite Hdo in Hlo; cbn [blk] in Hlo.
    rewrite (copyMembers_heap v m other (HeapMem ho) lo so); auto; try lia;
      [|intros [= ->]; lia].
    eexists. split; [reflexivity|]. cbn [fst snd _data _size _capacity].
    set (ln := take so lo ++ replicate (Z.to_nat (_capacity other) - so) T_default).
    assert (Hnew : blocks (with_new_block m ln) !! HeapMem (next_heap m) = Some ln).
    { rewrite blocks_with_new_block. now rewrite decide_True. }
    split; [|split; [|split; [|split; [|split]]]].
    + apply (wf_heap this _ _ ls ln (next_heap m)); cbn [_data _size _capacity].
      * rewrite blocks_with_new_block. now rewrite decide_False.
      * exact Hlens.
      * reflexivity.
      * exact Hnew.
      * unfold ln. rewrite length_app, length_take, length_replicate. lia.
      * cbn [with_new_block next_heap]. lia.
      * lia.
      * lia.
    + rewrite Hel.
      rewrite (elements_eq _ _ ln so); cbn [_data _size blk]; [|exact Hnew | exact Hso].
      unfold ln. rewrite take_app_length'; [reflexivity|]. rewrite length_take. lia.
    + reflexivity.
    + reflexivity.
    + apply frame_with_new_block.
    + rewrite (proj2 (Z.ltb_lt _ _)) by lia. reflexivity.
Qed.

Lemma wf_data_block a va m :
  wf a (va, m) = true ->
  blk (_data va) = StaticMem a \/ exists h, blk (_data va) = HeapMem h.
Proof. intros Hwf. apply (data_shape a va m). now left. Qed.

(** ** The copy constructor *)

(** X1.  [VLVector a(b)] for a well-formed [b]: the new container is well
    formed, holds the elements of [b] and has its size and capacity; it is
    in heap mode, with a new array, exactly when [b] is; [b] is as it was. *)
Theorem copy_constructor_copies this oa other m :
  wf oa (other, m) = true -> oa <> this ->
  exists s',
    VLVector_copy this other m = Ok tt s'
    /\ wf this s' = true
    /\ elements s' = elements (other, m)
    /\ _size (fst s') = _size other
    /\ _capacity (fst s') = _capacity other
    /\ (if StaticCapacity <? _capacity other
        then _data (fst s') = Ptr (HeapMem (next_heap m)) 0
        else _data (fst s') = _staticMem this)
    /\ wf oa (other, snd s') = true
    /\ elements (other, snd s') = elements (other, m).
Proof.
  intros Hwf Hne. unfold VLVector_copy, VLVector_default.
  set (v0 := {| _data := _staticMem this; _size := 0; _capacity := StaticCapacity |}).
  assert (Hblk : blk (_data other) <> blk (_data v0)).
  { destruct (wf_data_block _ _ _ Hwf) as [-> | (h & ->)]; cbn; congruence. }
  destruct (wf_frame oa other this v0 m (place this m) Hwf Hne (frame_place this v0 m))
    as (Hwf1 & Hel1); [now left | exact Hblk |].
  destruct (copyMembers_copies this v0 (place this m) oa other)
    as (s' & Hrun & Hwf' & Hel' & Hsz' & Hcap' & Hfr' & Hd'); auto.
  { pose proof (wf_default this m) as Hwf0.
    destruct (wf_inv _ _ _ Hwf0) as (ls & _ & Hls & Hlens & _).
    apply live_spec. eauto. }
  exists s'. split; [exact Hrun|]. split; [exact Hwf'|].
  split; [congruence|]. split; [exact Hsz'|]. split; [exact Hcap'|].
  split; [exact Hd'|].
  destruct (wf_frame oa other this v0 (place this m) (snd s') Hwf1 Hne Hfr')
    as (Hwf2 & Hel2); [now left | exact Hblk |].
  split; [exact Hwf2 | congruence].
Qed.

(** ** [operator=] where it works *)

(** X2.  [a = b] for well-formed [a] and [b] that are not the same object, when
    [a] is in inline mode or [b] in heap mode: [a] is well formed
    afterwards, holds the elements of [b] and has its size and capacity;
    [b] is as it was. *)
Theorem operator_assign_copies this v m oa other :
  wf this (v, m) = true -> wf oa (other, m) = true -> oa <> this ->
  blk (_data other) <> blk (_data v) ->
  _capacity v <= StaticCapacity \/ StaticCapacity < _capacity other ->
  exists s',
    operator_assign this oa other (v, m) = Ok tt s'
    /\ wf this s' = true
    /\ elements s' = elements (other, m)
    /\ _size (fst s') = _size other
    /\ _capacity (fst s') = _capacity other
    /\ wf oa (other, snd s') = true
    /\ elements (other, snd s') = elements (other, m).
Proof.
  intros Hwf Hwfo Hne Hblk Hmodes.
  destruct (wf_inv _ _ _ Hwf)
    as (ls & la & Hls & Hlens & Hla & Hlena & Hsz & Hmax & Hmode).
  assert (Hshape := wf_data_block _ _ _ Hwf).
  destruct (StaticCapacity <? _capacity v) eqn:Hcap.
  - (* [a] in heap mode: its array is deleted, [b]'s is copied to a new one *)
    apply Z.ltb_lt in Hcap.
    destruct Hmodes as [Hc | Hco]; [lia|].
    destruct Hmode as [[_ Hc] | (h & Hd & Hh & _ & _)]; [lia|].
    rewrite Hd in Hla; cbn [blk] in Hla.
    set (m1 := free_block m (HeapMem h)).
    assert (Hfr : frame this v m m1).
    { apply frame_free_block; [right; now rewrite Hd | apply frame_refl]. }
    assert (Hgo : operator_assign this oa other (v, m) = _copyMembers other (v, m1)).
    { unfold operator_assign. rewrite decide_False by exact Hne.
      monad_unfold. apply Z.ltb_lt in Hcap. rewrite Hcap, Hd.
      now rewrite (dealloc_heap m h la Hla). }
    destruct (wf_frame oa other this v m m1 Hwfo Hne Hfr Hshape Hblk) as (Hwf1 & Hel1).
    destruct (copyMembers_copies this v m1 oa other)
      as (s' & Hrun & Hwf' & Hel' & Hsz' & Hcap' & Hfr' & Hd'); auto.
    { apply live_spec. exists ls. split; [|exact Hlens].
      unfold m1. rewrite blocks_free_block. now rewrite decide_False. }
    exists s'. split; [now rewrite Hgo|]. split; [exact Hwf'|].
    split; [congruence|]. split; [exact Hsz'|]. split; [exact Hcap'|].
    destruct (wf_frame oa other this v m1 (snd s') Hwf1 Hne Hfr' Hshape Hblk)
      as (Hwf2 & Hel2).
    split; [exact Hwf2 | congruence].
  - (* [a] in inline mode *)
    apply Z.ltb_ge in Hcap.
    destruct Hmode as [[Hd _] | (h & _ & _ & Hc & _)]; [|lia].
    assert (Hgo : operator_assign this oa other (v, m) = _copyMembers other (v, m)).
    { unfold operator_assign. rewrite decide_False by exact Hne.
      monad_unfold. apply Z.ltb_ge in Hcap. now rewrite Hcap. }
    destruct (copyMembers_copies this v m oa other)
      as (s' & Hrun & Hwf' & Hel' & Hsz' & Hcap' & Hfr' & Hd'); auto.
    { apply live_spec. eauto. }
    exists s'. split; [now rewrite Hgo|]. split; [exact Hwf'|].
    split; [exact Hel'|]. split; [exact Hsz'|]. split; [exact Hcap'|].
    apply (wf_frame oa other this v m (snd s') Hwfo Hne Hfr' Hshape Hblk).
Qed.

(** [a = a] does nothing. *)
Lemma operator_assign_self this v s : operator_assign this this v s = Ok tt s.
Proof. unfold operator_assign. now rewrite decide_True. Qed.

(** ** [operator==] *)

(** X3.  [a == b] on well-formed containers returns whether they hold the
    same number of elements and these are equal one by one by [T]'s
    [operator==], and changes nothing; when [T]'s [operator==] is equality
    of values, it returns whether they hold the same elements. *)
Theorem operator_eq_compares_elements this v oa other m :
  wf this (v, m) = true -> wf oa (other, m) = true ->
  operator_eq other (v, m)
  = Ok (all_eq (elements (v, m)) (elements (other, m))) (v, m)
  /\ ((forall x y, T_eq x y = bool_decide (x = y)) ->
      operator_eq other (v, m)
      = Ok (bool_decide (elements (v, m) = elements (other, m))) (v, m)).
Proof.
  intros Hwf Hwfo.
  assert (Hrun : operator_eq other (v, m)
                 = Ok (all_eq (elements (v, m)) (elements (other, m))) (v, m));
    [|split; [exact Hrun | intros Heq; rewrite Hrun; f_equal; now apply all_eq_leibniz]].
  destruct (wf_inv _ _ _ Hwf)
    as (ls & la & Hls & Hlens & Hla & Hlena & Hsz & Hmax & Hmode).
  destruct (wf_inv _ _ _ Hwfo)
    as (lso & lo & Hlso & Hlenso & Hlo & Hleno & Hszo & Hmaxo & Hmodeo).
  destruct (wf_data _ _ _ Hwf) as (b & Hd).
  destruct (wf_data _ _ _ Hwfo) as (bo & Hdo).
  rewrite Hd in Hla. rewrite Hdo in Hlo. cbn [blk] in Hla, Hlo.
  set (n := Z.to_nat (_size v)). set (no := Z.to_nat (_size other)).
  assert (Hn : _size v = Z.of_nat n) by (unfold n; lia).
  assert (Hno : _size other = Z.of_nat no) by (unfold no; lia).
  assert (Hel : elements (v, m) = take n la).
  { apply elements_eq; [now rewrite Hd | exact Hn]. }
  assert (Helo : elements (other, m) = take no lo).
  { apply elements_eq; [now rewrite Hdo | exact Hno]. }
  unfold operator_eq, end_of, begin_of, std_equal. monad_unfold.
  rewrite Hd, Hdo; cbn [blk off]. rewrite !ptr_diff_same. monad_unfold.
  rewrite !Z.add_0_l, !Z.sub_0_r.
  destruct (_size v =? _size other) eqn:Heq.
  - apply Z.eqb_eq in Heq. assert (Hnn : no = n) by lia.
    rewrite Hd; cbn [blk off]. rewrite Z.add_0_l, Hn. change 0 with (Z.of_nat 0).
    rewrite (distance_same b 0 n) by lia. rewrite Nat.sub_0_r.
    rewrite (equal_loop_spec n m b bo la lo 0 0 Hla Hlo) by lia.
    rewrite !drop_0. monad_unfold. rewrite Hel, Helo, Hnn. reflexivity.
  - apply Z.eqb_neq in Heq. f_equal. symmetry. apply all_eq_length.
    rewrite Hel, Helo, !length_take. lia.
Qed.

(** ** [push_back], [pop_back], [insert] of one value, [erase] *)

(** X4.  [push_back(x)] on a well-formed container appends [x]; the capacity
    changes only when the container is full. *)
Theorem push_back_appends this v m x :
  wf this (v, m) = true ->
  exact_size (_size v + 1) ->
  exists s',
    push_back x (v, m) = Ok tt s'
    /\ wf this s' = true
    /\ elements s' = elements (v, m) ++ [x]
    /\ _size (fst s') = _size v + 1
    /\ _capacity (fst s')
       = if _size v + 1 <=? _capacity v then _capacity v
         else computeCapacity (_size v) 1.
Proof.
  intros Hwf Hex.
  destruct (push_back_spec this v m x Hwf Hex)
    as (s' & Hrun & Hwf' & Hel & Hsz & _ & _ & Hcase).
  exists s'. repeat (split; [assumption|]).
  destruct (_size v + 1 <=? _capacity v).
  - now destruct Hcase as (_ & Hc & _).
  - now destruct Hcase as (_ & Hc & _).
Qed.

(** X5.  [insert(begin() + i, value)] on a well-formed container,
    [i <= size()], for a reference [value] to an object [x] that is no
    element of the container, puts [x] before the element at [i] and returns
    [begin() + i] of the container as it is afterwards. *)
Theorem insert_value_inserts this v m (i : nat) value x :
  wf this (v, m) = true ->
  (i <= length (elements (v, m)))%nat ->
  referent value m = Some x ->
  ref_apart value (v, m) = true ->
  exact_size (_size v + 1) ->
  exists s',
    insert_value (_data v +ₚ Z.of_nat i) value (v, m)
    = Ok (_data (fst s') +ₚ Z.of_nat i) s'
    /\ wf this s' = true
    /\ elements s' = take i (elements (v, m)) ++ [x] ++ drop i (elements (v, m))
    /\ _size (fst s') = _size v + 1.
Proof.
  intros Hwf Hi Hx Hap Hex.
  destruct (insert_value_spec_apart this v m i value x Hwf Hi Hx Hap Hex)
    as (s' & Hrun & Hwf' & Hel & Hsz & _).
  exists s'. repeat split; assumption.
Qed.

(** X6.  [erase(begin() + i, begin() + j)] on a well-formed container,
    [i <= j <= size()], removes the elements from [i] to [j], returns
    [begin() + i] of the container as it is afterwards, and allocates
    nothing. *)
Theorem erase_removes_range this v m (i j : nat) :
  wf this (v, m) = true ->
  (i <= j <= length (elements (v, m)))%nat ->
  exists s',
    erase this (_data v +ₚ Z.of_nat i) (_data v +ₚ Z.of_nat j) (v, m)
    = Ok (_data (fst s') +ₚ Z.of_nat i) s'
    /\ wf this s' = true
    /\ elements s' = take i (elements (v, m)) ++ drop j (elements (v, m))
    /\ _size (fst s') = _size v - Z.of_nat (j - i)
    /\ next_heap (snd s') = next_heap m.
Proof.
  intros Hwf Hij.
  destruct (erase_spec this v m i j Hwf Hij)
    as (s' & Hrun & Hwf' & Hel & Hsz & Hnh & _).
  exists s'. repeat split; assumption.
Qed.

(** X7.  [pop_back()] on a well-formed container that is not empty removes the
    last element. *)
Theorem pop_back_removes_last this v m :
  wf this (v, m) = true ->
  0 < _size v ->
  exists s',
    pop_back this (v, m) = Ok tt s'
    /\ wf this s' = true
    /\ elements s' = removelast (elements (v, m))
    /\ _size (fst s') = _size v - 1.
Proof.
  intros Hwf Hpos.
  destruct (wf_size _ _ _ Hwf) as (Hsz & _ & _ & Hlen).
  set (n := Z.to_nat (_size v)) in *.
  destruct (erase_spec this v m (n - 1) n Hwf) as (s' & Hrun & Hwf' & Hel & Hsz' & _);
    [lia|].
  exists s'. split; [|split; [exact Hwf'|split]].
  - unfold pop_back, cend, erase_pos.
    unfold bind at 1 2 3, get, ret; cbn [fst].
    rewrite !ptr_add_add.
    replace (_size v + -1) with (Z.of_nat (n - 1)) by lia.
    replace (Z.of_nat (n - 1) + 1) with (Z.of_nat n) by lia.
    unfold bind. now rewrite Hrun.
  - rewrite Hel. rewrite drop_ge by lia. rewrite app_nil_r.
    rewrite <- Hlen. clear.
    induction (elements (v, m)) as [|x [|y l] IH]; [reflexivity | reflexivity |].
    cbn [length] in *. replace (S (S (length l)) - 1)%nat with (S (S (length l) - 1)) by lia.
    cbn [take]. rewrite IH. reflexivity.
  - rewrite Hsz'. lia.
Qed.

(** ** [a[i] = x] *)

(** X8.  Writing through [operator[]] at an index below [size()] replaces that
    element and nothing else. *)
Theorem index_assign_updates this v m (i : nat) x :
  wf this (v, m) = true ->
  (i < length (elements (v, m)))%nat ->
  exists m',
    (do p <- operator_index (Z.of_nat i); assign p x) (v, m) = Ok tt (v, m')
    /\ wf this (v, m') = true
    /\ elements (v, m') = <[i := x]> (elements (v, m)).
Proof.
  intros Hwf Hi.
  destruct (wf_inv _ _ _ Hwf)
    as (ls & la & Hls & Hlens & Hla & Hlena & Hsz & Hmax & Hmode).
  destruct (wf_size _ _ _ Hwf) as (_ & _ & _ & Hlen).
  assert (Hd : _data v = Ptr (blk (_data v)) 0).
  { destruct Hmode as [[-> _] | (h & -> & _)]; reflexivity. }
  set (n := Z.to_nat (_size v)) in *.
  assert (Hn : _size v = Z.of_nat n) by (unfold n; lia).
  exists (set_block m (blk (_data v)) (<[i := x]> la)).
  assert (Hnew : blocks (set_block m (blk (_data v)) (<[i := x]> la)) !! blk (_data v)
                 = Some (<[i := x]> la)) by apply blocks_set_block_eq.
  split; [|split].
  - unfold operator_index. monad_unfold.
    rewrite Hd; cbn [blk off]. rewrite Z.add_0_l.
    rewrite (store_Some m _ la i x Hla) by lia. destruct v; reflexivity.
  - destruct Hmode as [[Hds Hc] | (h & Hdh & Hh & Hc & Hs)].
    + rewrite Hds in *; cbn [_staticMem blk] in *.
      apply (wf_inline this v _ (<[i := x]> la)); auto; try lia.
      rewrite length_insert. congruence.
    + rewrite Hdh in *; cbn [blk] in *.
      apply (wf_heap this v _ ls (<[i := x]> la) h).
      * rewrite blocks_set_block_ne by discriminate. exact Hls.
      * exact Hlens.
      * exact Hdh.
      * exact Hnew.
      * rewrite length_insert. exact Hlena.
      * exact Hh.
      * lia.
      * exact Hmax.
  - rewrite (elements_eq v _ (<[i := x]> la) n Hnew Hn).
    rewrite (elements_eq v m la n Hla Hn).
    apply take_insert_lt. lia.
Qed.

(** ** The invariant of a program *)

(** X9.  Whatever a program does with constructors, member functions and the
    destructor, as long as its behaviour is defined: every container is
    well formed, or is left by [operator=] with [size() == 0],
    [capacity() == StaticCapacity] and [_data] a deleted array; and two
    containers never share a live array. *)
Theorem reachable_world_inv cs w :
  run_calls cs empty_world = Some w -> world_inv w.
Proof. apply run_calls_inv, world_inv_empty. Qed.

(** ** C1: [operator=] onto a container in heap mode from one in inline mode *)

(** C1.  For well-formed [a] in heap mode and [b] in inline mode, two
    objects, [a = b] does not do what the specification says: the heap
    array of [a] is deleted and [_data] is left pointing to it.  When [b]
    holds an element, copying it writes through that pointer and the
    behaviour is undefined.  When [b] is empty the call returns with
    [size() == 0] and [capacity() == StaticCapacity], but the storage of
    [a] is the deleted array, not the array member: [a] is not well
    formed. *)
Theorem operator_assign_heap_from_inline this v m oa other :
  wf this (v, m) = true -> wf oa (other, m) = true -> oa <> this ->
  heap_mode (v, m) = true -> inline_mode oa (other, m) = true ->
  if 0 <? _size other
  then operator_assign this oa other (v, m) = Undefined
  else exists s',
         operator_assign this oa other (v, m) = Ok tt s'
         /\ _size (fst s') = 0
         /\ _capacity (fst s') = StaticCapacity
         /\ _data (fst s') = _data v
         /\ blocks (snd s') !! blk (_data v) = None
         /\ inline_mode this s' = false
         /\ wf this s' = false.
Proof.
  intros Hwf Hwfo Hne Hheap Hinl.
  pose proof (heap_mode_capacity _ _ Hwf Hheap) as Hcap. cbn [fst] in Hcap.
  destruct (wf_inv _ _ _ Hwf)
    as (ls & la & Hls & Hlens & Hla & Hlena & Hsz & Hmax & Hmode).
  destruct Hmode as [[_ Hc] | (h & Hd & Hh & _ & _)]; [lia|].
  rewrite Hd in Hla; cbn [blk] in Hla.
  destruct (wf_inv _ _ _ Hwfo)
    as (lso & lo & Hlso & Hlenso & Hlo & Hleno & Hszo & Hmaxo & Hmodeo).
  apply bool_decide_eq_true in Hinl; cbn [fst] in Hinl.
  destruct Hmodeo as [[Hdo Hco] | (ho & Hdo & _)]; [|rewrite Hdo in Hinl; discriminate].
  rewrite Hdo in Hlo; cbn [_staticMem blk] in Hlo.
  set (m1 := free_block m (HeapMem h)).
  assert (Hgo : operator_assign this oa other (v, m) = _copyMembers other (v, m1)).
  { unfold operator_assign. rewrite decide_False by exact Hne.
    monad_unfold. apply Z.ltb_lt in Hcap. rewrite Hcap, Hd.
    now rewrite (dealloc_heap m h la Hla). }
  assert (Hdead : blocks m1 !! HeapMem h = None).
  { unfold m1. rewrite blocks_free_block. now rewrite decide_True. }
  assert (Hlo1 : blocks m1 !! StaticMem oa = Some lo).
  { unfold m1. rewrite blocks_free_block. now rewrite decide_False. }
  rewrite Hgo. destruct (0 <? _size other) eqn:Hso.
  - apply Z.ltb_lt in Hso.
    apply (copyMembers_dead v m1 other (StaticMem oa) lo);
      [lia | now rewrite Hd | exact Hdo | exact Hlo1 | lia].
  - apply Z.ltb_ge in Hso. assert (Hso0 : _size other = 0) by lia.
    rewrite copyMembers_empty by lia.
    eexists. split; [reflexivity|]. cbn [fst snd _data _size _capacity].
    rewrite Hd; cbn [blk].
    split; [reflexivity|]. split; [exact Hco|]. split; [reflexivity|].
    split; [exact Hdead|]. split.
    + unfold inline_mode; cbn [fst _data]. now apply bool_decide_eq_false.
    + unfold wf; cbn [fst snd _data _size _capacity blk].
      unfold live at 2. rewrite Hdead. rewrite andb_false_r. reflexivity.
Qed.

(** * Round trips and single steps *)

(** ** Lists *)

Lemma insert_erase_list (l r : list T) (i : nat) :
  (i <= length l)%nat ->
  take i (take i l ++ r ++ drop i l)
  ++ drop (i + length r) (take i l ++ r ++ drop i l) = l.
Proof.
  intros Hi.
  assert (Hlen : length (take i l) = i) by (rewrite length_take; lia).
  rewrite take_app_length' by (symmetry; exact Hlen).
  rewrite app_assoc.
  rewrite drop_app_length' by (rewrite length_app, Hlen; reflexivity).
  apply take_drop.
Qed.

(** In a well-formed container the mode follows from the size. *)
Lemma wf_inline_by_size this s :
  wf this s = true ->
  inline_mode this s = (_size (fst s) <=? StaticCapacity)
  /\ heap_mode s = (StaticCapacity <? _size (fst s)).
Proof.
  intros Hwf. destruct (wf_modes _ _ Hwf) as (Hin & Hheap & Hbig).
  destruct (Z.leb_spec (_size (fst s)) StaticCapacity) as [Hle|Hgt].
  - destruct (Hin Hle) as (_ & _ & -> & ->).
    split; [reflexivity|]. symmetry. apply Z.ltb_ge. exact Hle.
  - destruct (Hheap (Hbig Hgt)) as (_ & -> & ->).
    split; [reflexivity|]. symmetry. apply Z.ltb_lt. exact Hgt.
Qed.

(** ** [erase(pos)], [pop_back] *)

Lemma erase_pos_spec this v m (i : nat) :
  wf this (v, m) = true ->
  (i < length (elements (v, m)))%nat ->
  exists s',
    erase_pos this (_data v +ₚ Z.of_nat i) (v, m) = Ok (_data (fst s') +ₚ Z.of_nat i) s'
    /\ wf this s' = true
    /\ elements s' = delete i (elements (v, m))
    /\ _size (fst s') = _size v - 1.
Proof.
  intros Hwf Hi.
  destruct (erase_spec this v m i (S i) Hwf) as (s' & Hrun & Hwf' & Hel & Hsz & _);
    [lia|].
  exists s'. split; [|split; [exact Hwf'|split]].
  - unfold erase_pos. rewrite ptr_add_add.
    replace (Z.of_nat i + 1) with (Z.of_nat (S i)) by lia. exact Hrun.
  - rewrite Hel. symmetry. apply delete_take_drop.
  - rewrite Hsz. lia.
Qed.

Lemma pop_back_spec this v m :
  wf this (v, m) = true ->
  0 < _size v ->
  exists s',
    pop_back this (v, m) = Ok tt s'
    /\ wf this s' = true
    /\ elements s' = removelast (elements (v, m))
    /\ _size (fst s') = _size v - 1.
Proof.
  intros Hwf Hpos.
  destruct (wf_size _ _ _ Hwf) as (Hsz & _ & _ & Hlen).
  set (n := Z.to_nat (_size v)) in *.
  destruct (erase_pos_spec this v m (n - 1) Hwf) as (s' & Hrun & Hwf' & Hel & Hsz');
    [lia|].
  exists s'. split; [|split; [exact Hwf'|split; [|exact Hsz']]].
  - unfold pop_back, cend.
    unfold bind at 1 2 3, get, ret; cbn [fst].
    rewrite ptr_add_add.
    replace (_size v + -1) with (Z.of_nat (n - 1)) by lia.
    unfold bind. now rewrite Hrun.
  - rewrite Hel, delete_take_drop. rewrite drop_ge by lia. rewrite app_nil_r.
    rewrite <- Hlen. clear.
    induction (elements (v, m)) as [|x [|y l] IH]; [reflexivity | reflexivity |].
    cbn [length] in *.
    replace (S (S (length l)) - 1)%nat with (S (S (length l) - 1)) by lia.
    cbn [take]. rewrite IH. reflexivity.
Qed.

(** X10.  [erase(begin() + i)] on a well-formed container, [i < size()],
    removes the element at [i] and no other, keeps the container well
    formed, and returns [begin() + i] of the container as it is afterwards:
    the position of the element that followed, or [end()]. *)
Theorem erase_pos_removes_one this v m (i : nat) :
  wf this (v, m) = true ->
  (i < length (elements (v, m)))%nat ->
  exists s',
    erase_pos this (_data v +ₚ Z.of_nat i) (v, m) = Ok (_data (fst s') +ₚ Z.of_nat i) s'
    /\ wf this s' = true
    /\ elements s' = delete i (elements (v, m))
    /\ _size (fst s') = _size v - 1.
Proof.
  intros Hwf Hi.
  destruct (erase_pos_spec this v m i Hwf Hi) as (s' & Hrun & Hwf' & Hel & Hsz).
  exists s'. repeat split; assumption.
Qed.

(** ** Insert, then erase what was inserted *)

(** X11.  [insert(begin() + i, first, last)] followed by [erase] of the
    range from the iterator that [insert] returned to that iterator plus
    the number of elements inserted: the container holds the elements it
    held before, in the same mode, and [erase] returns the position
    [begin() + i] again.  This holds of every range of live elements that
    does not contain the position, also of one in the container itself and
    of one that can be read only once, from which [insert] does not insert
    the values of the range. *)
Theorem insert_then_erase_restores this v m (i : nat) first_last (r : list T) :
  wf this (v, m) = true ->
  (i <= length (elements (v, m)))%nat ->
  range_values first_last m = Some r ->
  range_allocated first_last m = true ->
  range_excludes first_last (_data v +ₚ Z.of_nat i) = true ->
  exact_size (_size v + Z.of_nat (length r)) ->
  exists s',
    (do p <- insert (_data v +ₚ Z.of_nat i) first_last;
     erase this p (p +ₚ Z.of_nat (length r))) (v, m)
    = Ok (_data (fst s') +ₚ Z.of_nat i) s'
    /\ wf this s' = true
    /\ elements s' = elements (v, m)
    /\ _size (fst s') = _size v
    /\ inline_mode this s' = inline_mode this (v, m).
Proof.
  intros Hwf Hi Hr Hal _ Hex.
  destruct (insert_any this v m i first_last r Hwf Hi Hr Hal Hex)
    as (r' & Hlen & Hany & _).
  rewrite <- Hlen in *. clear Hlen Hr Hal r.
  destruct (insert_spec this v m i r' Hwf Hi Hex)
    as ([v1 m1] & Hrun1 & Hwf1 & Hel1 & Hsz1 & _).
  cbn [fst snd] in *.
  assert (Hlen1 : length (elements (v1, m1)) = (length (elements (v, m)) + length r')%nat).
  { rewrite Hel1, !length_app, length_take, length_drop. lia. }
  destruct (erase_spec this v1 m1 i (i + length r') Hwf1)
    as (s' & Hrun2 & Hwf2 & Hel2 & Hsz2 & _); [lia|].
  exists s'.
  assert (Hsz : _size (fst s') = _size v) by lia.
  split; [|split; [exact Hwf2|split; [|split; [exact Hsz|]]]].
  - unfold bind. rewrite Hany, Hrun1. rewrite ptr_add_add, <- Nat2Z.inj_add. exact Hrun2.
  - rewrite Hel2, Hel1. now apply insert_erase_list.
  - destruct (wf_inline_by_size _ _ Hwf2) as (-> & _).
    destruct (wf_inline_by_size _ _ Hwf) as (-> & _).
    cbn [fst]. now rewrite Hsz.
Qed.

(** X12.  [insert(begin() + i, value)] followed by [erase] at the iterator
    that [insert] returned: the container holds the elements it held
    before, in the same mode.  This holds of every reference to a live
    object, also to an element of the container. *)
Theorem insert_value_then_erase_restores this v m (i : nat) value x0 :
  wf this (v, m) = true ->
  (i <= length (elements (v, m)))%nat ->
  referent value m = Some x0 ->
  ref_allocated value m = true ->
  exact_size (_size v + 1) ->
  exists s',
    (do p <- insert_value (_data v +ₚ Z.of_nat i) value; erase_pos this p) (v, m)
    = Ok (_data (fst s') +ₚ Z.of_nat i) s'
    /\ wf this s' = true
    /\ elements s' = elements (v, m)
    /\ _size (fst s') = _size v
    /\ inline_mode this s' = inline_mode this (v, m).
Proof.
  intros Hwf Hi Hx0 Hal Hex.
  destruct (insert_value_any this v m i value x0 Hwf Hi Hx0 Hal Hex)
    as (x & Hany & _).
  destruct (insert_value_spec this v m i x Hwf Hi Hex)
    as ([v1 m1] & Hrun1 & Hwf1 & Hel1 & Hsz1 & _).
  cbn [fst snd] in *.
  assert (Hlen1 : length (elements (v1, m1)) = S (length (elements (v, m)))).
  { rewrite Hel1, !length_app, length_take, length_drop. cbn [length]. lia. }
  destruct (erase_pos_spec this v1 m1 i Hwf1) as (s' & Hrun2 & Hwf2 & Hel2 & Hsz2);
    [lia|].
  exists s'.
  assert (Hsz : _size (fst s') = _size v) by lia.
  split; [|split; [exact Hwf2|split; [|split; [exact Hsz|]]]].
  - unfold bind. rewrite Hany, Hrun1. exact Hrun2.
  - rewrite Hel2, Hel1, delete_take_drop.
    replace (S i) with (i + length [x])%nat by (cbn [length]; lia).
    now apply insert_erase_list.
  - destruct (wf_inline_by_size _ _ Hwf2) as (-> & _).
    destruct (wf_inline_by_size _ _ Hwf) as (-> & _).
    cbn [fst]. now rewrite Hsz.
Qed.

(** X13.  [push_back(x)] followed by [pop_back()]: the container holds the
    elements it held before, in the same mode; a container that had to
    leave its array member for the new element is back in it. *)
Theorem push_back_then_pop_back_restores this v m x :
  wf this (v, m) = true ->
  exact_size (_size v + 1) ->
  exists s',
    (run push_back x; pop_back this) (v, m) = Ok tt s'
    /\ wf this s' = true
    /\ elements s' = elements (v, m)
    /\ _size (fst s') = _size v
    /\ inline_mode this s' = inline_mode this (v, m).
Proof.
  intros Hwf Hex.
  destruct (push_back_spec this v m x Hwf Hex)
    as ([v1 m1] & Hrun1 & Hwf1 & Hel1 & Hsz1 & _).
  cbn [fst snd] in *.
  destruct (wf_size _ _ _ Hwf) as (Hsz0 & _).
  destruct (pop_back_spec this v1 m1 Hwf1) as (s' & Hrun2 & Hwf2 & Hel2 & Hsz2);
    [lia|].
  exists s'.
  assert (Hsz : _size (fst s') = _size v) by lia.
  split; [|split; [exact Hwf2|split; [|split; [exact Hsz|]]]].
  - unfold bind. rewrite Hrun1. exact Hrun2.
  - rewrite Hel2, Hel1. apply removelast_last.
  - destruct (wf_inline_by_size _ _ Hwf2) as (-> & _).
    destruct (wf_inline_by_size _ _ Hwf) as (-> & _).
    cbn [fst]. now rewrite Hsz.
Qed.

(** ** The range constructor *)

(** X14.  [VLVector a(first, last)] for a range of [n] values, [n] in the
    exact range of [_cap], that can be read more than once and is not in the
    array member of the new object: the new container is well formed and
    holds the values of the range in order; its capacity is what the growth
    policy gives for [0 + n], so it uses its array member when [n] is at most
    [StaticCapacity] and a new heap array otherwise. *)
Theorem range_constructor_builds this first_last (r : list T) m :
  range_values first_last m = Some r ->
  range_apart first_last (VLVector_default this m) = true ->
  exact_size (Z.of_nat (length r)) ->
  exists s',
    VLVector_range this first_last m = Ok tt s'
    /\ wf this s' = true
    /\ elements s' = r
    /\ _size (fst s') = Z.of_nat (length r)
    /\ _capacity (fst s') = computeCapacity 0 (Z.of_nat (length r))
    /\ inline_mode this s' = (Z.of_nat (length r) <=? StaticCapacity).
Proof.
  intros Hr Hap Hex.
  pose proof (wf_default this m) as Hwf0.
  pose proof (elements_default this m) as Hel0.
  unfold VLVector_range. unfold VLVector_default in *.
  set (v0 := {| _data := _staticMem this; _size := 0; _capacity := StaticCapacity |}) in *.
  assert (Hr0 : range_values first_last (place this m) = Some r).
  { destruct first_last as [first last|r'|r']; cbn [range_values] in *;
      try exact Hr.
    unfold range_apart, apart in Hap; cbn [fst snd v0 _data _staticMem blk] in Hap.
    apply andb_true_iff in Hap as [H1 _].
    apply negb_true_iff, bool_decide_eq_false in H1.
    destruct (distance first last) as [n|]; [|discriminate].
    rewrite <- Hr. apply read_loop_agree. cbn [place blocks].
    now rewrite lookup_insert_ne by congruence. }
  destruct (insert_spec_apart this v0 (place this m) 0 first_last r Hwf0)
    as (s' & Hrun & Hwf' & Hel & Hsz & _ & _ & Hcase);
    [rewrite Hel0; cbn; lia | exact Hr0 | exact Hap | exact Hex |].
  cbn [_size _capacity v0] in Hsz, Hcase. rewrite Z.add_0_l in Hsz, Hcase.
  exists s'. split; [|split; [exact Hwf'|split; [|split; [exact Hsz|split]]]].
  - rewrite begin_bind. unfold bind, ret.
    change (Z.of_nat 0) with 0 in Hrun. rewrite ptr_add_0 in Hrun.
    now rewrite Hrun.
  - rewrite Hel, Hel0. cbn. apply app_nil_r.
  - unfold computeCapacity. rewrite Z.add_0_l.
    destruct (Z.of_nat (length r) <=? StaticCapacity) eqn:Hc; rewrite ?Hc in Hcase.
    + now destruct Hcase as (_ & -> & _).
    + destruct Hcase as (_ & -> & _). unfold computeCapacity.
      now rewrite Z.add_0_l, Hc.
  - destruct (wf_inline_by_size _ _ Hwf') as (-> & _). now rewrite Hsz.
Qed.

(** ** The destructor *)

(** X15.  [~VLVector()] on a container of a program (well formed, or left
    by [operator=] as [dangling] says) returns: it deletes the heap array of
    a container in heap mode, once, and nothing else; no other block
    changes, and an array that was deleted before is not deleted again. *)
Theorem destructor_releases this v m :
  object_inv this (v, m) ->
  destructor (v, m)
  = Ok tt (v, if StaticCapacity <? _capacity v then free_block m (blk (_data v)) else m)
  /\ (forall h, blk (_data v) = HeapMem h ->
        blocks (if StaticCapacity <? _capacity v
                then free_block m (blk (_data v)) else m) !! HeapMem h = None)
  /\ (StaticCapacity <? _capacity v) = heap_mode (v, m).
Proof.
  intros Hinv. unfold destructor. monad_unfold.
  destruct Hinv as [Hwf | (_ & Hc & _ & h & Hd & _ & Hdead)]; cbn [fst snd] in *.
  - destruct (wf_inv _ _ _ Hwf)
      as (ls & la & Hls & Hlens & Hla & Hlena & Hsz & Hmax & Hmode).
    destruct (wf_inline_by_size _ _ Hwf) as (_ & Hheap). cbn [fst] in Hheap.
    destruct Hmode as [[Hd Hc] | (h & Hd & Hh & Hc & Hs)].
    + rewrite Hc, Z.ltb_irrefl. split; [reflexivity|]. split.
      * intros h. rewrite Hd. discriminate.
      * rewrite Hheap. symmetry. apply Z.ltb_ge. lia.
    + rewrite (proj2 (Z.ltb_lt _ _) Hc). rewrite Hd in *; cbn [blk] in *.
      rewrite (dealloc_heap m h la Hla). split; [reflexivity|]. split.
      * intros h' [= <-]. rewrite blocks_free_block. now rewrite decide_True.
      * rewrite Hheap. symmetry. apply Z.ltb_lt. lia.
  - rewrite Hc, Z.ltb_irrefl. split; [reflexivity|]. split.
    + intros h'. rewrite Hd; cbn [blk]. now intros [= <-].
    + unfold heap_mode; cbn [fst snd]. rewrite Hd, Hdead. symmetry.
      apply bool_decide_eq_false. now intros [? ?].
Qed.

(** ** Range [insert]: when the storage moves *)

Lemma insert_no_values this v m (i : nat) :
  wf this (v, m) = true ->
  (i <= length (elements (v, m)))%nat ->
  insert (_data v +ₚ Z.of_nat i) (forward_range []) (v, m) = Ok (_data v +ₚ Z.of_nat i) (v, m).
Proof.
  intros Hwf Hi.
  destruct (wf_inv _ _ _ Hwf)
    as (ls & la & Hls & Hlens & Hla & Hlena & Hsz & Hmax & Hmode).
  destruct (wf_data _ _ _ Hwf) as (b & Hd).
  destruct (wf_size _ _ _ Hwf) as (_ & _ & _ & Hlen).
  set (sz := Z.to_nat (_size v)) in *.
  assert (Hsz' : _size v = Z.of_nat sz) by (unfold sz; lia).
  rewrite Hd in Hla; cbn [blk] in Hla.
  assert (Hrun : _pushAt (_data v +ₚ Z.of_nat i) (Z.of_nat (length (@nil T)))
                   (do dt <- get _data; std_copy_range [] (dt +ₚ Z.of_nat i)) (v, m)
                 = Ok tt (v, m)).
  { rewrite (pushAt_inplace v m b la i sz [] _ Hd Hla Hsz' Hlena Hmax);
      [|lia | cbn [length]; lia | apply pushes_copy_range].
    f_equal. f_equal.
    - destruct v as [d s c]; cbn [_data _size _capacity length] in *.
      f_equal. lia.
    - apply set_block_same. rewrite Hla. f_equal. cbn [length app].
      rewrite Nat.add_0_r, app_assoc, take_take_drop.
      replace (i + (sz - i))%nat with sz by lia. symmetry. apply take_drop. }
  assert (Hidx : size_t (0 + Z.of_nat i - 0) = Z.of_nat i)
    by (rewrite size_t_small; lia).
  unfold insert. monad_unfold. monad_unfold_in Hrun.
  rewrite Hd in *. cbn [blk off length] in *. rewrite ptr_diff_same. monad_unfold.
  change (size_t (Z.of_nat 0)) with 0. change (Z.of_nat 0) with 0 in Hrun.
  rewrite Hidx. rewrite Hrun. now rewrite Hd.
Qed.

Lemma copy_input_empty first_last m d_first s :
  range_values first_last m = Some [] ->
  std_copy_input first_last d_first s = std_copy_range [] d_first s.
Proof.
  intros Hr. destruct first_last as [first last|r|r]; cbn [range_values] in Hr;
    unfold std_copy_input.
  - unfold std_copy, std_copy_range, on_memory, std_copy_mem.
    destruct (distance first last) as [n|]; [|discriminate].
    apply read_loop_length in Hr as <-. reflexivity.
  - now injection Hr as ->.
  - now injection Hr as ->.
Qed.

(** X16.  [insert(p, first, last)] of an empty range, of whatever kind, at a
    valid position of a well-formed container returns [p] and changes
    neither the members nor the memory. *)
Theorem insert_empty_range_noop this v m (i : nat) first_last :
  wf this (v, m) = true ->
  (i <= length (elements (v, m)))%nat ->
  range_values first_last m = Some [] ->
  insert (_data v +ₚ Z.of_nat i) first_last (v, m) = Ok (_data v +ₚ Z.of_nat i) (v, m).
Proof.
  intros Hwf Hi Hr.
  rewrite <- (insert_no_values this v m i Hwf Hi).
  destruct (wf_data _ _ _ Hwf) as (b & Hd).
  destruct (wf_size _ _ _ Hwf) as (Hsz & Hmax & _ & Hlen).
  destruct (wf_inv _ _ _ Hwf)
    as (ls & la & Hls & Hlens & Hla & Hlena & _ & _ & Hmode).
  rewrite Hd in Hla; cbn [blk] in Hla.
  pose proof (pushAt_before_inplace v m b la i (Z.to_nat (_size v)) 0 Hd Hla)
    as Hbefore.
  change (Z.of_nat 0) with (Z.of_nat (length (@nil T))) in Hbefore.
  rewrite (insert_unfold first_last [] v m i Hr),
    (insert_unfold (forward_range []) [] v m i eq_refl);
    try (rewrite ?Hd; cbn [off length]; unfold SIZE_MAX_plus_1 in *; lia).
  rewrite (pushAt_agree _ _ _
             (do dt <- get _data; std_copy_input (forward_range []) (dt +ₚ Z.of_nat i))
             _ _ _ (Hbefore ltac:(lia) ltac:(lia) ltac:(lia) ltac:(lia) ltac:(lia)));
    [reflexivity|].
  unfold bind, get; cbn [fst]. now apply (copy_input_empty first_last m).
Qed.

(** X17.  Range [insert] on a well-formed container moves the storage only
    when it must.  When the new size is at most [capacity()], [_data] and
    the capacity stay, nothing is allocated, and the elements before the
    position stay where they are; otherwise the elements go to a new heap
    array of the capacity that the growth policy gives, and the heap array
    that was the storage is deleted.  This holds of every range of live
    elements that does not contain the position. *)
Theorem insert_moves_storage_only_when_full this v m (i : nat) first_last (r : list T) :
  wf this (v, m) = true ->
  (i <= length (elements (v, m)))%nat ->
  range_values first_last m = Some r ->
  range_allocated first_last m = true ->
  range_excludes first_last (_data v +ₚ Z.of_nat i) = true ->
  exact_size (_size v + Z.of_nat (length r)) ->
  exists p s',
    insert (_data v +ₚ Z.of_nat i) first_last (v, m) = Ok p s'
    /\ if _size v + Z.of_nat (length r) <=? _capacity v
       then _data (fst s') = _data v
            /\ _capacity (fst s') = _capacity v
            /\ next_heap (snd s') = next_heap m
            /\ (forall k, (k < i)%nat ->
                  load (snd s') (_data v +ₚ Z.of_nat k) = load m (_data v +ₚ Z.of_nat k))
       else _data (fst s') = Ptr (HeapMem (next_heap m)) 0
            /\ _capacity (fst s') = computeCapacity (_size v) (Z.of_nat (length r))
            /\ _size v + Z.of_nat (length r) <= _capacity (fst s')
            /\ (heap_mode (v, m) = true -> blocks (snd s') !! blk (_data v) = None).
Proof.
  intros Hwf Hi Hr Hal _ Hex.
  destruct (insert_any this v m i first_last r Hwf Hi Hr Hal Hex)
    as (r' & Hlen & Hany & _).
  rewrite <- Hlen in *. clear Hlen Hr Hal r. rename r' into r.
  destruct (insert_spec this v m i r Hwf Hi Hex)
    as ([v' m'] & Hrun & Hwf' & Hel & Hsz & _ & _ & Hcase).
  cbn [fst snd] in *.
  exists (_data v' +ₚ Z.of_nat i), (v', m'). split; [now rewrite Hany|]. cbn [fst snd].
  destruct (_size v + Z.of_nat (length r) <=? _capacity v).
  - destruct Hcase as (Hd & Hc & Hn). repeat (split; [assumption|]).
    intros k Hk. rewrite <- Hd.
    rewrite (load_element this v' m' k Hwf').
    + rewrite Hd, (load_element this v m k Hwf) by lia.
      rewrite Hel. rewrite lookup_app_l by (rewrite length_take; lia).
      apply lookup_take_lt. lia.
    + rewrite Hel, !length_app, length_take. lia.
  - destruct Hcase as (Hd & Hc & Hn & Hold). split; [exact Hd|]. split; [exact Hc|].
    split.
    + rewrite Hc. apply computeCapacity_ge.
    + intros Hheap. apply Hold. now apply (heap_mode_capacity this (v, m)).
Qed.

(** ** [operator==] on the containers of a program *)

Lemma object_inv_elements this v m :
  object_inv this (v, m) ->
  exists b (n : nat),
    _data v = Ptr b 0 /\ _size v = Z.of_nat n /\ length (elements (v, m)) = n
    /\ ((0 < n)%nat ->
        exists la, blocks m !! b = Some la /\ (n <= length la)%nat
                   /\ elements (v, m) = take n la).
Proof.
  intros [Hwf | (_ & _ & Hsz & h & Hd & _ & Hdead)]; cbn [fst snd] in *.
  - destruct (wf_inv _ _ _ Hwf)
      as (ls & la & Hls & Hlens & Hla & Hlena & Hsz & Hmax & Hmode).
    destruct (wf_data _ _ _ Hwf) as (b & Hd).
    destruct (wf_size _ _ _ Hwf) as (_ & _ & _ & Hlen).
    exists b, (Z.to_nat (_size v)). split; [exact Hd|]. split; [lia|].
    split; [exact Hlen|]. intros _. exists la. rewrite Hd in Hla.
    split; [exact Hla|]. split; [lia|].
    apply elements_eq; [now rewrite Hd | lia].
  - exists (HeapMem h), 0%nat. split; [exact Hd|]. split; [exact Hsz|]. split.
    + unfold elements; cbn [fst]. rewrite Hsz. reflexivity.
    + lia.
Qed.

Lemma operator_eq_run this v oa other m :
  object_inv this (v, m) -> object_inv oa (other, m) ->
  operator_eq other (v, m)
  = Ok (all_eq (elements (v, m)) (elements (other, m))) (v, m).
Proof.
  intros Hinv Hinvo.
  destruct (object_inv_elements _ _ _ Hinv) as (b & n & Hd & Hn & Hlen & Hst).
  destruct (object_inv_elements _ _ _ Hinvo) as (bo & no & Hdo & Hno & Hleno & Hsto).
  unfold operator_eq, end_of, begin_of, std_equal. monad_unfold.
  rewrite Hd, Hdo; cbn [blk off]. rewrite !ptr_diff_same. monad_unfold.
  rewrite !Z.add_0_l, !Z.sub_0_r.
  destruct (_size v =? _size other) eqn:Heq.
  - apply Z.eqb_eq in Heq. assert (Hnn : no = n) by lia. rewrite Hnn in *.
    rewrite Hd; cbn [blk off]. rewrite Z.add_0_l, Hn. change 0 with (Z.of_nat 0).
    rewrite (distance_same b 0 n) by lia. rewrite Nat.sub_0_r.
    destruct n as [|n'].
    + cbn [equal_loop]. monad_unfold. f_equal.
      apply length_zero_iff_nil in Hlen, Hleno. now rewrite Hlen, Hleno.
    + destruct Hst as (la & Hla & Hle & Hel); [lia|].
      destruct Hsto as (lo & Hlo & Hleo & Helo); [lia|].
      rewrite (equal_loop_spec (S n') m b bo la lo 0 0 Hla Hlo) by lia.
      rewrite !drop_0. monad_unfold. now rewrite Hel, Helo.
  - apply Z.eqb_neq in Heq. f_equal. symmetry. apply all_eq_length. lia.
Qed.

(** X18.  On the containers of a program (well formed, or left by
    [operator=] as [dangling] says), [operator==] has the laws that [T]'s
    [operator==] has: when that is reflexive, [a == a] is true; when it is
    symmetric, [a == b] and [b == a] return the same; when it is transitive
    and [a == b] and [b == c] are true, so is [a == c].  No call changes
    anything. *)
Theorem operator_eq_equivalence a va b vb c vc m :
  object_inv a (va, m) -> object_inv b (vb, m) -> object_inv c (vc, m) ->
  ((forall x, T_eq x x = true) ->
   operator_eq va (va, m) = Ok true (va, m))
  /\ ((forall x y, T_eq x y = T_eq y x) ->
      exists r, operator_eq vb (va, m) = Ok r (va, m)
                /\ operator_eq va (vb, m) = Ok r (vb, m))
  /\ ((forall x y z, T_eq x y = true -> T_eq y z = true -> T_eq x z = true) ->
      operator_eq vb (va, m) = Ok true (va, m) ->
      operator_eq vc (vb, m) = Ok true (vb, m) ->
      operator_eq vc (va, m) = Ok true (va, m)).
Proof.
  intros Ha Hb Hc. split; [|split].
  - intros Hrefl. rewrite (operator_eq_run a va a va m Ha Ha). f_equal.
    now apply all_eq_refl.
  - intros Hsym. exists (all_eq (elements (va, m)) (elements (vb, m))).
    split; [now apply (operator_eq_run a va b vb)|].
    rewrite (operator_eq_run b vb a va m Hb Ha). f_equal.
    now apply all_eq_sym.
  - intros Htrans.
    rewrite (operator_eq_run a va b vb m Ha Hb), (operator_eq_run b vb c vc m Hb Hc),
      (operator_eq_run a va c vc m Ha Hc).
    intros [= Hab] [= Hbc]. f_equal.
    eapply all_eq_trans; eassumption.
Qed.

(** X19.  When [T]'s [operator==] is reflexive, a copy compares equal to
    its source: after [VLVector c(a)] for a well-formed [a], both [c == a]
    and [a == c] are true. *)
Theorem copy_then_equal this oa other m :
  (forall x, T_eq x x = true) ->
  wf oa (other, m) = true -> oa <> this ->
  exists s',
    VLVector_copy this other m = Ok tt s'
    /\ operator_eq other s' = Ok true s'
    /\ operator_eq (fst s') (other, snd s') = Ok true (other, snd s').
Proof.
  intros Hrefl Hwf Hne. unfold VLVector_copy, VLVector_default.
  set (v0 := {| _data := _staticMem this; _size := 0; _capacity := StaticCapacity |}).
  assert (Hblk : blk (_data other) <> blk (_data v0)).
  { destruct (wf_data_block _ _ _ Hwf) as [-> | (h & ->)]; cbn; congruence. }
  destruct (wf_frame oa other this v0 m (place this m) Hwf Hne (frame_place this v0 m))
    as (Hwf1 & Hel1); [now left | exact Hblk |].
  destruct (copyMembers_copies this v0 (place this m) oa other)
    as ([v' m'] & Hrun & Hwf' & Hel' & _ & _ & Hfr' & _); auto.
  { pose proof (wf_default this m) as Hwf0.
    destruct (wf_inv _ _ _ Hwf0) as (ls & _ & Hls & Hlens & _).
    apply live_spec. eauto. }
  cbn [fst snd] in *.
  destruct (wf_frame oa other this v0 (place this m) m' Hwf1 Hne Hfr')
    as (Hwf2 & Hel2); [now left | exact Hblk |].
  assert (Hsame : elements (v', m') = elements (other, m')) by congruence.
  exists (v', m'). split; [exact Hrun|]. cbn [fst snd]. split.
  - rewrite (operator_eq_run this v' oa other m'); [|now left|now left].
    f_equal. rewrite Hsame. now apply all_eq_refl.
  - rewrite (operator_eq_run oa other this v' m'); [|now left|now left].
    f_equal. rewrite Hsame. now apply all_eq_refl.
Qed.

(** ** [push_back], then [at] *)

(** X20.  After [push_back(x)] on a well-formed container of [n] elements,
    [at(n)] does not throw and returns a reference to an element equal to
    [x]; the elements before it are the ones the container held. *)
Theorem push_back_then_at this v m x :
  wf this (v, m) = true ->
  exact_size (_size v + 1) ->
  exists p s',
    (run push_back x; at_ (_size v)) (v, m) = Ok p s'
    /\ load (snd s') p = Some x
    /\ (forall k, (k < length (elements (v, m)))%nat ->
          load (snd s') (_data (fst s') +ₚ Z.of_nat k) = elements (v, m) !! k).
Proof.
  intros Hwf Hex.
  destruct (push_back_spec this v m x Hwf Hex)
    as ([v1 m1] & Hrun1 & Hwf1 & Hel1 & Hsz1 & _).
  cbn [fst snd] in *.
  destruct (wf_size _ _ _ Hwf) as (Hsz & _ & _ & Hlen).
  set (n := Z.to_nat (_size v)) in *.
  assert (Hn : _size v = Z.of_nat n) by (unfold n; lia).
  exists (_data v1 +ₚ _size v), (v1, m1). cbn [fst snd]. split; [|split].
  - unfold bind at 1. rewrite Hrun1. unfold at_. monad_unfold.
    rewrite Hsz1. now rewrite (proj2 (Z.leb_gt _ _)) by lia.
  - rewrite Hn. rewrite (load_element this v1 m1 n Hwf1).
    + rewrite Hel1. rewrite lookup_app_r by lia.
      rewrite Hlen, Nat.sub_diag. reflexivity.
    + rewrite Hel1, length_app. cbn [length]. lia.
  - intros k Hk. rewrite (load_element this v1 m1 k Hwf1).
    + rewrite Hel1. now apply lookup_app_l.
    + rewrite Hel1, length_app. lia.
Qed.

(** ** [size], [empty], [capacity], [data], [begin], [end] *)

(** X21.  On a well-formed container the observers agree with the elements
    that the storage holds: [size()] is their number, [empty()] says
    whether there is none, [capacity()] is at least [size()] and at least
    [StaticCapacity], and equal to it exactly in inline mode; [data()],
    [begin()] and [cbegin()] are the same pointer, [end()] and [cend()] are
    [size()] elements after it.  None of them changes anything. *)
Theorem observers_agree this v m :
  wf this (v, m) = true ->
  size (v, m) = Ok (Z.of_nat (length (elements (v, m)))) (v, m)
  /\ empty (v, m) = Ok (bool_decide (elements (v, m) = [])) (v, m)
  /\ (exists c, capacity (v, m) = Ok c (v, m)
                /\ Z.of_nat (length (elements (v, m))) <= c
                /\ StaticCapacity <= c
                /\ (c =? StaticCapacity) = inline_mode this (v, m))
  /\ (exists b e,
        begin (v, m) = Ok b (v, m) /\ cbegin (v, m) = Ok b (v, m)
        /\ data (v, m) = Ok b (v, m)
        /\ end_ (v, m) = Ok e (v, m) /\ cend (v, m) = Ok e (v, m)
        /\ ptr_diff e b = Some (Z.of_nat (length (elements (v, m))))).
Proof.
  intros Hwf.
  destruct (wf_size _ _ _ Hwf) as (Hsz & Hmax & Hsc & Hlen).
  destruct (wf_data _ _ _ Hwf) as (b & Hd).
  assert (Hn : Z.of_nat (length (elements (v, m))) = _size v) by lia.
  split; [|split; [|split]].
  - unfold size, get; cbn [fst]. now rewrite Hn.
  - unfold empty. monad_unfold. f_equal.
    destruct (Z.eqb_spec (_size v) 0) as [H0|H0]; symmetry.
    + apply bool_decide_eq_true. apply length_zero_iff_nil. lia.
    + apply bool_decide_eq_false. intros Hnil. rewrite Hnil in Hn. cbn in Hn. lia.
  - exists (_capacity v). split; [reflexivity|]. split; [lia|]. split; [exact Hsc|].
    destruct (wf_inline_by_size _ _ Hwf) as (-> & _). cbn [fst].
    destruct (wf_modes _ _ Hwf) as (Hin & Hheap & Hbig). cbn [fst] in *.
    destruct (Z.eqb_spec (_capacity v) StaticCapacity) as [Hc|Hc]; symmetry.
    + apply Z.leb_le. destruct (Z.le_gt_cases (_size v) StaticCapacity); [assumption|].
      specialize (Hbig ltac:(lia)). lia.
    + apply Z.leb_gt. destruct (Z.le_gt_cases (_size v) StaticCapacity) as [Hle|];
        [|lia]. destruct (Hin Hle) as (Hc' & _). contradiction.
  - exists (_data v), (_data v +ₚ _size v). repeat (split; [reflexivity|]).
    rewrite Hd. unfold ptr_add; cbn [blk off]. rewrite ptr_diff_same. f_equal. lia.
Qed.

(** * Heap arrays *)

(** ** Every computation keeps [mem_ok] *)

Lemma mem_ok_set_block m b l l0 :
  blocks m !! b = Some l0 -> mem_ok m -> mem_ok (set_block m b l).
Proof.
  intros Hb Hm h Hh. rewrite next_heap_set_block. apply Hm.
  rewrite blocks_set_block in Hh. destruct (decide (b = HeapMem h)) as [<-|];
    [rewrite Hb; eauto | exact Hh].
Qed.

Lemma mem_ok_free_block m b : mem_ok m -> mem_ok (free_block m b).
Proof.
  intros Hm h Hh. cbn [free_block next_heap]. apply Hm.
  rewrite blocks_free_block in Hh. destruct (decide (b = HeapMem h));
    [now destruct Hh | exact Hh].
Qed.

Lemma mem_ok_with_new_block m l : mem_ok m -> mem_ok (with_new_block m l).
Proof.
  intros Hm h Hh. cbn [with_new_block next_heap].
  rewrite blocks_with_new_block in Hh.
  destruct (decide (HeapMem (next_heap m) = HeapMem h)) as [[= <-]|]; [lia|].
  specialize (Hm h Hh). lia.
Qed.

Lemma mem_ok_place this m : mem_ok m -> mem_ok (place this m).
Proof.
  intros Hm h Hh. cbn [place next_heap blocks] in *. apply Hm.
  now rewrite lookup_insert_ne in Hh.
Qed.

Lemma store_mem_ok m p x m' : store m p x = Some m' -> mem_ok m -> mem_ok m'.
Proof.
  unfold store. destruct (blocks m !! blk p) as [l|] eqn:Hb; [|discriminate].
  destruct (_ && _); [|discriminate]. intros [= <-].
  apply (mem_ok_set_block m (blk p) _ l Hb).
Qed.

Lemma copy_loop_mem_ok n : forall first d_first m m',
  copy_loop n first d_first m = Some m' -> mem_ok m -> mem_ok m'.
Proof.
  induction n as [|n IH]; intros first d_first m m'; cbn [copy_loop].
  - now intros [= <-].
  - destruct (load m first) as [x|]; [|discriminate].
    destruct (store m d_first x) as [m1|] eqn:Hst; [|discriminate].
    intros Hrun Hm. eapply IH; [exact Hrun|]. eapply store_mem_ok; eassumption.
Qed.

Lemma copy_backward_loop_mem_ok n : forall last d_last m m',
  copy_backward_loop n last d_last m = Some m' -> mem_ok m -> mem_ok m'.
Proof.
  induction n as [|n IH]; intros last d_last m m'; cbn [copy_backward_loop].
  - now intros [= <-].
  - destruct (load m _) as [x|]; [|discriminate].
    destruct (store m _ x) as [m1|] eqn:Hst; [|discriminate].
    intros Hrun Hm. eapply IH; [exact Hrun|]. eapply store_mem_ok; eassumption.
Qed.

Lemma copy_range_mem_ok (r : list T) : forall d_first m m',
  copy_range r d_first m = Some m' -> mem_ok m -> mem_ok m'.
Proof.
  induction r as [|x r IH]; intros d_first m m'; cbn [copy_range].
  - now intros [= <-].
  - destruct (store m d_first x) as [m1|] eqn:Hst; [|discriminate].
    intros Hrun Hm. eapply IH; [exact Hrun|]. eapply store_mem_ok; eassumption.
Qed.

Lemma dealloc_mem_ok m p m' : dealloc m p = Some m' -> mem_ok m -> mem_ok m'.
Proof.
  unfold dealloc. destruct p as [[[o|b] [|z|z]]|]; try discriminate.
  - destruct (blocks m !! HeapMem b); [|discriminate]. intros [= <-].
    apply (mem_ok_free_block m (HeapMem b)).
  - now intros [= <-].
Qed.

Lemma keeps_ret {A} (a : A) : keeps_mem_ok (ret a).
Proof. intros s a' s' Hm [= _ <-]. exact Hm. Qed.

Lemma keeps_get {A} (f : VLVector -> A) : keeps_mem_ok (get f).
Proof. intros s a' s' Hm [= _ <-]. exact Hm. Qed.

Lemma keeps_throw {A} e : keeps_mem_ok (throw (S := state) (A := A) e).
Proof. intros s a' s' Hm Hrun. discriminate. Qed.

Lemma keeps_defined {A} (o : option A) : keeps_mem_ok (defined o).
Proof.
  intros s a' s' Hm. unfold defined. destruct o; [|discriminate].
  now intros [= _ <-].
Qed.

Lemma keeps_bind {A B} (c : M A) (k : A -> M B) :
  keeps_mem_ok c -> (forall a, keeps_mem_ok (k a)) -> keeps_mem_ok (bind c k).
Proof.
  intros Hc Hk s b s' Hm Hrun. unfold bind in Hrun.
  destruct (c s) as [a s1| |] eqn:E; try discriminate.
  eapply Hk; [|exact Hrun]. eapply Hc; eassumption.
Qed.

Lemma keeps_set_data p : keeps_mem_ok (set_data p).
Proof. intros s a' s' Hm [= _ <-]. exact Hm. Qed.

Lemma keeps_set_size n : keeps_mem_ok (set_size n).
Proof. intros s a' s' Hm [= _ <-]. exact Hm. Qed.

Lemma keeps_set_capacity n : keeps_mem_ok (set_capacity n).
Proof. intros s a' s' Hm [= _ <-]. exact Hm. Qed.

Lemma keeps_on_memory (f : memory -> option memory) :
  (forall m m', f m = Some m' -> mem_ok m -> mem_ok m') ->
  keeps_mem_ok (on_memory f).
Proof.
  intros Hf s a' s' Hm. unfold on_memory.
  destruct (f (snd s)) as [m'|] eqn:E; [|discriminate].
  intros [= _ <-]. cbn [snd]. eapply Hf; eassumption.
Qed.

Lemma keeps_new_array n : keeps_mem_ok (new_array n).
Proof.
  intros s a' s' Hm Hrun. unfold new_array in Hrun. rewrite alloc_eq in Hrun.
  injection Hrun as _ <-. cbn [snd]. now apply mem_ok_with_new_block.
Qed.

Lemma keeps_delete_array p : keeps_mem_ok (delete_array p).
Proof. apply keeps_on_memory. intros m m'. apply dealloc_mem_ok. Qed.

Lemma keeps_std_copy first last d_first : keeps_mem_ok (std_copy first last d_first).
Proof.
  apply keeps_on_memory. intros m m'. unfold std_copy_mem.
  destruct (distance first last); [apply copy_loop_mem_ok | discriminate].
Qed.

Lemma keeps_std_copy_backward first last d_last :
  keeps_mem_ok (std_copy_backward first last d_last).
Proof.
  apply keeps_on_memory. intros m m'. unfold std_copy_backward_mem.
  destruct (distance first last); [apply copy_backward_loop_mem_ok | discriminate].
Qed.

Lemma keeps_std_copy_range r d_first : keeps_mem_ok (std_copy_range r d_first).
Proof. apply keeps_on_memory. intros m m'. apply copy_range_mem_ok. Qed.

Lemma keeps_assign p x : keeps_mem_ok (assign p x).
Proof. apply keeps_on_memory. intros m m'. apply store_mem_ok. Qed.

Ltac keeps_step :=
  first
    [ assumption
    | apply keeps_ret | apply keeps_get | apply keeps_throw | apply keeps_defined
    | apply keeps_set_data | apply keeps_set_size | apply keeps_set_capacity
    | apply keeps_new_array | apply keeps_delete_array
    | apply keeps_std_copy | apply keeps_std_copy_backward
    | apply keeps_std_copy_range | apply keeps_assign
    | apply keeps_bind; [|intro]
    | lazymatch goal with
      | |- keeps_mem_ok (if ?c then _ else _) => destruct c
      end ].

Ltac keeps_auto := cbv zeta; repeat keeps_step.

Lemma keeps_cap n : keeps_mem_ok (_cap n).
Proof. unfold _cap. keeps_auto. Qed.

Lemma keeps_pushAt pos n pushElements :
  keeps_mem_ok pushElements -> keeps_mem_ok (_pushAt pos n pushElements).
Proof.
  intros Hp. unfold _pushAt, end_, cbegin.
  pose proof (keeps_cap n) as Hcap. keeps_auto.
Qed.

Lemma keeps_insert pos r : keeps_mem_ok (insert pos (forward_range r)).
Proof.
  unfold insert, begin. keeps_auto.
Qed.

Lemma keeps_insert_value pos x : keeps_mem_ok (insert_value pos (ref_value x)).
Proof.
  unfold insert_value, begin. keeps_auto.
Qed.

Lemma keeps_push_back x : keeps_mem_ok (push_back x).
Proof.
  unfold push_back, cend. keeps_auto.
Qed.

Lemma keeps_erase this first last : keeps_mem_ok (erase this first last).
Proof.
  unfold erase, erase_to_static, cend, begin, cbegin. keeps_auto.
Qed.

Lemma keeps_erase_pos this pos : keeps_mem_ok (erase_pos this pos).
Proof. apply keeps_erase. Qed.

Lemma keeps_pop_back this : keeps_mem_ok (pop_back this).
Proof.
  unfold pop_back, cend. keeps_auto.
Qed.

Lemma keeps_clear this : keeps_mem_ok (clear this).
Proof.
  unfold clear, begin, end_. keeps_auto.
Qed.

Lemma keeps_copyMembers other : keeps_mem_ok (_copyMembers other).
Proof. unfold _copyMembers, begin. keeps_auto. Qed.

Lemma keeps_operator_assign this oa other :
  keeps_mem_ok (operator_assign this oa other).
Proof.
  unfold operator_assign. pose proof (keeps_copyMembers other) as H.
  destruct (decide (oa = this)); keeps_auto.
Qed.

Lemma keeps_destructor : keeps_mem_ok destructor.
Proof. unfold destructor. keeps_auto. Qed.

Lemma keeps_write i x : keeps_mem_ok (do p <- operator_index i; assign p x).
Proof. unfold operator_index. keeps_auto. Qed.

(** ** Every call makes at most one array and deletes the one it replaces *)

Lemma realloc_step_same v m : realloc_step v m (v, m).
Proof. split; [now left|]. intros h Hb Hne. contradiction. Qed.

Lemma erase_realloc this v m (i j : nat) p s' :
  object_inv this (v, m) ->
  (i <= j)%nat -> Z.of_nat j <= _size v ->
  erase this (_data v +ₚ Z.of_nat i) (_data v +ₚ Z.of_nat j) (v, m) = Ok p s' ->
  realloc_step v m s'.
Proof.
  intros [Hwf | Hdang] Hij Hj Hrun.
  - destruct (wf_size _ _ _ Hwf) as (_ & _ & _ & Hlen).
    destruct (erase_spec this v m i j Hwf)
      as (s'' & Hrun' & _ & _ & _ & Hnh & _ & _ & Hcase); [lia|].
    rewrite Hrun' in Hrun. injection Hrun as _ <-.
    split; [now left|]. intros h Hb Hne.
    destruct (erase_shrinks v _).
    + destruct Hcase as (_ & _ & Hdead). now rewrite Hb in Hdead.
    + destruct Hcase as (Hd & _). rewrite Hd in Hne. contradiction.
  - pose proof (dangling_size _ _ _ Hdang) as Hsz.
    assert (i = 0%nat) as -> by lia. assert (j = 0%nat) as -> by lia.
    change (Z.of_nat 0) with 0 in Hrun. rewrite <- Hsz in Hrun at 1 2.
    rewrite erase_at_end in Hrun.
    + injection Hrun as _ <-. apply realloc_step_same.
    + rewrite Hsz. unfold SIZE_MAX_plus_1. lia.
    + destruct Hdang as (_ & Hc & _). unfold erase_shrinks. cbn [fst] in Hc.
      rewrite Hc, Z.ltb_irrefl. reflexivity.
Qed.

Lemma erase_pos_realloc this v m (i : nat) p s' :
  object_inv this (v, m) ->
  Z.of_nat i < _size v ->
  erase_pos this (_data v +ₚ Z.of_nat i) (v, m) = Ok p s' ->
  realloc_step v m s'.
Proof.
  intros Hinv Hi Hrun. unfold erase_pos in Hrun.
  rewrite ptr_add_add in Hrun.
  replace (Z.of_nat i + 1) with (Z.of_nat (S i)) in Hrun by lia.
  apply (erase_realloc this v m i (S i) p s' Hinv); [lia | lia | exact Hrun].
Qed.

Lemma pop_back_realloc this v m s' :
  object_inv this (v, m) ->
  0 < _size v ->
  pop_back this (v, m) = Ok tt s' ->
  realloc_step v m s'.
Proof.
  intros Hinv Hsz Hrun. unfold pop_back, cend in Hrun.
  unfold bind at 1 2 3, get, ret in Hrun; cbn [fst] in Hrun.
  rewrite ptr_add_add in Hrun.
  replace (_size v + -1) with (Z.of_nat (Z.to_nat (_size v) - 1)) in Hrun by lia.
  unfold bind in Hrun.
  destruct (erase_pos this _ (v, m)) as [p s''| |] eqn:Hpos; try discriminate.
  injection Hrun as <-.
  apply (erase_pos_realloc this v m (Z.to_nat (_size v) - 1) p s'' Hinv);
    [lia | exact Hpos].
Qed.

Lemma clear_realloc this v m s' :
  object_inv this (v, m) ->
  clear this (v, m) = Ok tt s' ->
  realloc_step v m s'.
Proof.
  intros Hinv Hrun. unfold clear, begin, end_ in Hrun.
  unfold bind at 1 2 3 4, get, ret in Hrun; cbn [fst] in Hrun.
  destruct (object_inv_size _ _ _ Hinv) as (Hsz & _).
  rewrite <- (ptr_add_0 (_data v)) in Hrun at 1.
  change 0 with (Z.of_nat 0) in Hrun at 1.
  replace (_size v) with (Z.of_nat (Z.to_nat (_size v))) in Hrun at 1 by lia.
  unfold bind in Hrun.
  destruct (erase this _ _ (v, m)) as [p s''| |] eqn:Hers; try discriminate.
  injection Hrun as <-.
  apply (erase_realloc this v m 0 (Z.to_nat (_size v)) p s'' Hinv);
    [lia | lia | exact Hers].
Qed.

Lemma pushAt_realloc_step this v m (i : nat) (r : list T) pushElements s' :
  object_inv this (v, m) ->
  Z.of_nat i <= _size v ->
  exact_size (_size v + Z.of_nat (length r)) ->
  pushes pushElements (_size v) i r ->
  _pushAt (_data v +ₚ Z.of_nat i) (Z.of_nat (length r)) pushElements (v, m) = Ok tt s' ->
  realloc_step v m s'.
Proof.
  intros [Hwf | Hdang] Hi Hex Hpush Hrun.
  - destruct (wf_size _ _ _ Hwf) as (_ & _ & _ & Hlen).
    destruct (pushAt_spec this v m i r pushElements Hwf) as
      (s'' & Hrun' & _ & _ & _ & _ & _ & Hcase); [lia | exact Hex | exact Hpush |].
    rewrite Hrun' in Hrun. injection Hrun as <-.
    destruct (_size v + Z.of_nat (length r) <=? _capacity v).
    + destruct Hcase as (Hd & _ & Hn). split; [now left|].
      intros h Hb Hne. rewrite Hd in Hne. contradiction.
    + destruct Hcase as (Hd & _ & Hn & Hold). split; [right; now split|].
      intros h Hb _. rewrite <- Hb. apply Hold.
      destruct (wf_inv _ _ _ Hwf) as (_ & _ & _ & _ & _ & _ & _ & _ & Hmode).
      destruct Hmode as [[Hds _] | (h' & _ & _ & Hc & _)]; [|exact Hc].
      rewrite Hds in Hb. discriminate.
  - pose proof Hdang as (Hst & Hc & Hsz & h & Hd & Hh & Hdead). cbn [fst snd] in *.
    assert (i = 0%nat) as -> by lia.
    rewrite Hsz in Hpush, Hex. rewrite Z.add_0_l in Hex.
    pose proof Hex as Hex'. unfold exact_size, Dbl.DBL_MANT_DIG in Hex'.
    pose proof StaticCapacity_range as HSC. unfold Dbl.DBL_MANT_DIG in HSC.
    destruct (Z.lt_ge_cases StaticCapacity (Z.of_nat (length r))) as [Hgrow|Hfit].
    + rewrite pushAt_empty_realloc in Hrun
        by (rewrite ?Hd; auto).
      injection Hrun as <-. split; [right; now split|].
      cbn [fst snd]. rewrite Hd; cbn [blk]. intros h' [= <-] _.
      rewrite blocks_with_new_block. rewrite decide_False; [exact Hdead|].
      intros [= Heq]. lia.
    + destruct r as [|x r].
      * rewrite pushAt_empty_nothing in Hrun by (auto; lia).
        injection Hrun as <-. apply realloc_step_same.
      * rewrite pushAt_empty_dead in Hrun;
          [discriminate | auto | lia | unfold SIZE_MAX_plus_1; lia | discriminate
          | now rewrite Hd | auto].
Qed.

Lemma insert_realloc this v m (i : nat) (r : list T) p s' :
  object_inv this (v, m) ->
  Z.of_nat i <= _size v ->
  exact_size (_size v + Z.of_nat (length r)) ->
  insert (_data v +ₚ Z.of_nat i) (forward_range r) (v, m) = Ok p s' ->
  realloc_step v m s'.
Proof.
  intros Hinv Hi Hex Hrun.
  destruct (object_inv_size _ _ _ Hinv) as (Hsz & Hoff).
  pose proof Hex as Hex'. unfold exact_size, Dbl.DBL_MANT_DIG in Hex'.
  apply insert_pushAt in Hrun; [|exact Hoff|lia|unfold SIZE_MAX_plus_1; lia].
  eapply pushAt_realloc_step; eauto. apply pushes_copy_range.
Qed.

Lemma insert_value_realloc this v m (i : nat) x p s' :
  object_inv this (v, m) ->
  Z.of_nat i <= _size v ->
  exact_size (_size v + 1) ->
  insert_value (_data v +ₚ Z.of_nat i) (ref_value x) (v, m) = Ok p s' ->
  realloc_step v m s'.
Proof.
  intros Hinv Hi Hex Hrun.
  destruct (object_inv_size _ _ _ Hinv) as (Hsz & Hoff).
  apply insert_value_pushAt in Hrun; [|exact Hoff|lia].
  eapply (pushAt_realloc_step this v m i [x]); eauto. apply pushes_assign.
Qed.

Lemma push_back_realloc this v m x s' :
  object_inv this (v, m) ->
  exact_size (_size v + 1) ->
  push_back x (v, m) = Ok tt s' ->
  realloc_step v m s'.
Proof.
  intros Hinv Hex Hrun.
  destruct (object_inv_size _ _ _ Hinv) as (Hsz & Hoff).
  unfold push_back, cend in Hrun.
  unfold bind at 1 2 3, get, ret in Hrun; cbn [fst] in Hrun.
  replace (_size v) with (Z.of_nat (Z.to_nat (_size v))) in Hrun at 1 by lia.
  eapply (pushAt_realloc_step this v m (Z.to_nat (_size v)) [x]); eauto; [lia|].
  apply pushes_assign_end. lia.
Qed.

Lemma copyMembers_realloc this v m oa other s' :
  live m (StaticMem this) StaticCapacity = true ->
  (_data v = _staticMem this
   \/ exists h, _data v = Ptr (HeapMem h) 0 /\ (h < next_heap m)%nat
                /\ blocks m !! HeapMem h = None) ->
  object_inv oa (other, m) -> oa <> this ->
  _copyMembers other (v, m) = Ok tt s' ->
  realloc_step v m s'.
Proof.
  intros Hst Hdst Hsrc Hne Hrun.
  pose proof StaticCapacity_range as HSC. unfold Dbl.DBL_MANT_DIG in HSC.
  apply live_spec in Hst as (ls & Hls & Hlens).
  assert (Hsame : forall m' sz c,
            realloc_step v m ({| _data := _data v; _size := sz; _capacity := c |}, m')
            <-> next_heap m' = next_heap m
                \/ (next_heap m' = S (next_heap m)
                    /\ _data v = Ptr (HeapMem (next_heap m)) 0)).
  { intros m' sz c. unfold realloc_step; cbn [fst snd _data]. split.
    - now intros [H _].
    - intros H. split; [exact H|]. intros h Hb Hne'. contradiction. }
  assert (Hempty : _capacity other = StaticCapacity -> _size other = 0 ->
                   realloc_step v m s').
  { intros Hco Hso. rewrite copyMembers_empty in Hrun by lia.
    injection Hrun as <-. apply Hsame. now left. }
  destruct Hsrc as [Hwf | (_ & Hco & Hso & _)]; cbn [fst snd] in *; [|now apply Hempty].
  destruct (wf_inv _ _ _ Hwf)
    as (lso & lo & Hlso & Hlenso & Hlo & Hleno & Hszo & Hmaxo & Hmode).
  set (so := Z.to_nat (_size other)).
  assert (Hso : _size other = Z.of_nat so) by (unfold so; lia).
  destruct Hmode as [[Hdo Hco] | (ho & Hdo & Hho & Hco & Hso')].
  - rewrite Hdo in Hlo; cbn [_staticMem blk] in Hlo.
    destruct (Z.eq_dec (_size other) 0) as [Hz|Hnz]; [now apply Hempty|].
    destruct Hdst as [Hd | (h & Hd & Hh & Hdead)].
    + rewrite (copyMembers_inline v m other (StaticMem this) ls (StaticMem oa) lo so)
        in Hrun; auto; try lia; [|congruence].
      injection Hrun as <-. apply Hsame. left. apply next_heap_set_block.
    + rewrite (copyMembers_dead v m other (StaticMem oa) lo) in Hrun;
        [discriminate | lia | now rewrite Hd | exact Hdo | exact Hlo | lia].
  - rewrite Hdo in Hlo; cbn [blk] in Hlo.
    rewrite (copyMembers_heap v m other (HeapMem ho) lo so) in Hrun; auto; try lia;
      [|intros [= ->]; lia].
    injection Hrun as <-. split; [right; now split|].
    cbn [fst snd _data blk]. intros h Hb _.
    destruct Hdst as [Hd | (h' & Hd & Hh & Hdead)]; rewrite Hd in Hb;
      [discriminate|].
    cbn [blk] in Hb. injection Hb as <-.
    rewrite blocks_with_new_block. rewrite decide_False; [exact Hdead|].
    intros [= Heq]. lia.
Qed.

Lemma assign_realloc this v m oa other s' :
  object_inv this (v, m) -> object_inv oa (other, m) ->
  (oa <> this ->
   forall h, blk (_data other) = HeapMem h -> blk (_data v) = HeapMem h ->
             blocks m !! HeapMem h = None) ->
  operator_assign this oa other (v, m) = Ok tt s' ->
  realloc_step v m s'.
Proof.
  intros Hinv Hsrc Hsep Hrun. unfold operator_assign in Hrun.
  destruct (decide (oa = this)) as [Heq|Hne].
  { injection Hrun as <-. apply realloc_step_same. }
  specialize (Hsep Hne).
  destruct (StaticCapacity <? _capacity v) eqn:Hcap.
  - apply Z.ltb_lt in Hcap.
    destruct Hinv as [Hwf | (_ & Hc & _)]; cbn [fst snd] in *; [|lia].
    destruct (wf_inv _ _ _ Hwf)
      as (ls & la & Hls & Hlens & Hla & Hlena & Hsz & Hmax & Hmode).
    destruct Hmode as [[_ Hc] | (h & Hd & Hh & _ & _)]; [lia|].
    rewrite Hd in Hla; cbn [blk] in Hla.
    assert (Hfr : frame this v m (free_block m (HeapMem h))).
    { apply frame_free_block; [right; now rewrite Hd | apply frame_refl]. }
    assert (Hgo : _copyMembers other (v, free_block m (HeapMem h)) = Ok tt s').
    { rewrite <- Hrun. monad_unfold. apply Z.ltb_lt in Hcap. rewrite Hcap, Hd.
      now rewrite (dealloc_heap m h la Hla). }
    assert (Hdead : blocks (free_block m (HeapMem h)) !! HeapMem h = None).
    { rewrite blocks_free_block. now rewrite decide_True. }
    assert (Hlive : live (free_block m (HeapMem h)) (StaticMem this) StaticCapacity = true).
    { apply live_spec. exists ls. split; [|exact Hlens].
      rewrite blocks_free_block. now rewrite decide_False. }
    assert (Hdst : _data v = _staticMem this
                   \/ exists h0, _data v = Ptr (HeapMem h0) 0
                        /\ (h0 < next_heap (free_block m (HeapMem h)))%nat
                        /\ blocks (free_block m (HeapMem h)) !! HeapMem h0 = None).
    { right. exists h. repeat split; auto. }
    assert (Hsrc1 : object_inv oa (other, free_block m (HeapMem h))).
    { eapply object_inv_frame; [exact Hsrc | exact Hne | exact Hfr | |].
      - right. exists h. now rewrite Hd.
      - exact Hsep. }
    pose proof (copyMembers_realloc this v _ oa other s' Hlive Hdst Hsrc1 Hne Hgo)
      as (Hn & Hold).
    pose proof (copyMembers_preserves this v _ oa other s' Hlive Hdst Hsrc1 Hne Hgo)
      as (_ & (_ & _ & Hkeep) & _).
    split; [exact Hn|].
    intros h' Hb Hne'. rewrite Hd in Hb; cbn [blk] in Hb. injection Hb as <-.
    apply Hkeep; [exact Hh | exact Hdead].
  - apply Z.ltb_ge in Hcap.
    assert (Hgo : _copyMembers other (v, m) = Ok tt s').
    { rewrite <- Hrun. monad_unfold. apply Z.ltb_ge in Hcap. now rewrite Hcap. }
    apply (copyMembers_realloc this v m oa other s'); auto.
    + destruct Hinv as [Hwf | (Hlive & _)]; [|exact Hlive].
      destruct (wf_inv _ _ _ Hwf) as (ls & la & Hls & Hlens & _).
      apply live_spec. eauto.
    + destruct Hinv as [Hwf | (_ & _ & _ & h & Hd & Hh & Hdead)]; cbn [fst snd] in *.
      * destruct (wf_inv _ _ _ Hwf) as (_ & _ & _ & _ & _ & _ & _ & _ & Hmode).
        destruct Hmode as [[Hd _] | (h & _ & _ & Hc & _)]; [now left | lia].
      * right. eauto.
Qed.

Lemma write_realloc this v m (i : nat) x s' :
  object_inv this (v, m) -> Z.of_nat i < _size v ->
  (do p <- operator_index (Z.of_nat i); assign p x) (v, m) = Ok tt s' ->
  realloc_step v m s'.
Proof.
  intros Hinv Hi Hrun.
  destruct Hinv as [Hwf | (_ & _ & Hsz & _)]; cbn [fst snd] in *; [|lia].
  destruct (wf_inv _ _ _ Hwf)
    as (ls & la & Hls & Hlens & Hla & Hlena & Hsz & Hmax & Hmode).
  assert (Hd : _data v = Ptr (blk (_data v)) 0).
  { destruct Hmode as [[-> _] | (h & -> & _)]; reflexivity. }
  unfold operator_index in Hrun. monad_unfold_in Hrun.
  rewrite Hd in Hrun; cbn [blk off] in Hrun. rewrite Z.add_0_l in Hrun.
  rewrite (store_Some m _ la i x Hla) in Hrun by lia.
  injection Hrun as <-. split; [left; apply next_heap_set_block|].
  intros h Hb Hne. contradiction.
Qed.

(** ** Every live heap array has an owner *)

Lemma dealloc_next_heap m p m' : dealloc m p = Some m' -> next_heap m' = next_heap m.
Proof.
  unfold dealloc. destruct p as [[[o|b] [|z|z]]|]; try discriminate.
  - destruct (blocks m !! HeapMem b); [|discriminate]. now intros [= <-].
  - now intros [= <-].
Qed.

Lemma destructor_next_heap v m s' :
  destructor (v, m) = Ok tt s' -> next_heap (snd s') = next_heap m.
Proof.
  unfold destructor. monad_unfold.
  destruct (StaticCapacity <? _capacity v).
  - destruct (dealloc m (Some (_data v))) as [m'|] eqn:Hd; [|discriminate].
    intros [= <-]. cbn [snd]. eapply dealloc_next_heap. exact Hd.
  - now intros [= <-].
Qed.

(** The owners after a call that changed the object at [this] from [v], or
    made it. *)
Lemma heap_owned_update w this v s' :
  heap_owned w ->
  (forall va, objects w !! this = Some va -> va = v) ->
  mem_ok (snd s') ->
  frame this v (memory_of w) (snd s') ->
  realloc_step v (memory_of w) s' ->
  heap_owned (World (<[this := fst s']> (objects w)) (snd s')).
Proof.
  intros [Hm Hown] Hthis Hm' (Hn & Hother & _) (Hnew & Hold).
  split; [exact Hm'|]. cbn [objects memory_of]. intros h Hlive.
  destruct (decide (blk (_data (fst s')) = HeapMem h)) as [Hd'|Hd'].
  { exists this, (fst s'). split; [apply lookup_insert_eq | exact Hd']. }
  assert (Hlt : (h < next_heap (memory_of w))%nat).
  { specialize (Hm' h Hlive). destruct Hnew as [Hsame | [Hs Hfresh]]; [lia|].
    destruct (decide (h = next_heap (memory_of w))) as [->|]; [|lia].
    rewrite Hfresh in Hd'. now contradiction Hd'. }
  assert (Hdv : blk (_data v) <> HeapMem h).
  { intros Hb. rewrite (Hold h Hb Hd') in Hlive. now destruct Hlive. }
  rewrite Hother in Hlive; [|discriminate | congruence | intros ? [= <-]; exact Hlt].
  destruct (Hown h Hlive) as (a & va & Hva & Hb).
  exists a, va. split; [|exact Hb].
  rewrite lookup_insert_ne; [exact Hva|].
  intros <-. apply Hthis in Hva. subst va. contradiction.
Qed.

Lemma on_object_owned {A} w this (f : M A) w' :
  world_inv w -> heap_owned w ->
  keeps_mem_ok f ->
  (forall v a s', objects w !! this = Some v ->
     object_inv this (v, memory_of w) ->
     f (v, memory_of w) = Ok a s' ->
     preserves this (v, memory_of w) s' /\ realloc_step v (memory_of w) s') ->
  on_object this f w = Some w' ->
  heap_owned w'.
Proof.
  intros Hw Ho Hk Hf Hrun. unfold on_object in Hrun.
  destruct (objects w !! this) as [v|] eqn:Hv; [|discriminate].
  destruct (f (v, memory_of w)) as [a s'| |] eqn:Hfs; try discriminate.
  injection Hrun as <-.
  pose proof (proj1 Hw _ _ Hv) as Hinv.
  destruct (Hf v a s' eq_refl Hinv Hfs) as ((_ & Hfr & _) & Hre).
  apply (heap_owned_update w this v s'); auto.
  - intros va Hva. congruence.
  - apply (Hk (v, memory_of w) a s'); [exact (proj1 Ho) | exact Hfs].
Qed.

Lemma on_new_object_owned w this f w' :
  heap_owned w ->
  (forall s', f (memory_of w) = Ok tt s' ->
     mem_ok (snd s')
     /\ frame this (fst (VLVector_default this (memory_of w))) (memory_of w) (snd s')
     /\ realloc_step (fst (VLVector_default this (memory_of w))) (memory_of w) s') ->
  on_new_object this f w = Some w' ->
  heap_owned w'.
Proof.
  intros Ho Hf Hrun. unfold on_new_object in Hrun.
  destruct (objects w !! this) as [v|] eqn:Hv; [discriminate|].
  destruct (f (memory_of w)) as [[] s'| |] eqn:Hfs; try discriminate.
  injection Hrun as <-.
  destruct (Hf s' eq_refl) as (Hm' & Hfr & Hre).
  eapply (heap_owned_update w this _ s'); [exact Ho | | exact Hm' | exact Hfr | exact Hre].
  intros va Hva. congruence.
Qed.

Lemma run_call_owned_by_value c w w' :
  by_value c = true ->
  world_inv w -> heap_owned w -> run_call c w = Some w' -> heap_owned w'.
Proof.
  intros Hbv Hw Ho Hrun. pose proof (proj1 Ho) as Hm.
  destruct c; try discriminate Hbv; clear Hbv; cbn [run_call] in Hrun.
  - (* VLVector a; *)
    eapply on_new_object_owned; [exact Ho | | exact Hrun].
    intros s' [= <-]. split; [now apply mem_ok_place|]. split.
    + apply frame_place.
    + split; [now left|]. intros h Hb Hne. contradiction.
  - (* VLVector a(b); *)
    destruct (objects w !! b) as [other|] eqn:Hb; [|discriminate].
    destruct (objects w !! a) as [va|] eqn:Ha.
    { unfold on_new_object in Hrun. now rewrite Ha in Hrun. }
    eapply on_new_object_owned; [exact Ho | | exact Hrun].
    intros s' Hs'.
    assert (Hne : b <> a) by congruence.
    pose proof (proj1 Hw _ _ Hb) as Hinvb.
    destruct (copy_constructor_preserves a b other _ s' Hinvb Hne Hs') as (_ & Hfr & _).
    split; [|split; [exact Hfr|]].
    + apply (keeps_copyMembers other (VLVector_default a (memory_of w)) tt s');
        [now apply mem_ok_place | exact Hs'].
    + unfold VLVector_copy, VLVector_default in *. cbn [fst].
      set (v0 := {| _data := _staticMem a; _size := 0; _capacity := StaticCapacity |}) in *.
      apply (copyMembers_realloc a v0 (place a (memory_of w)) b other s'); auto.
      * pose proof (wf_default a (memory_of w)) as Hwf0.
        destruct (wf_inv _ _ _ Hwf0) as (ls & _ & Hls & Hlens & _).
        apply live_spec. eauto.
      * eapply object_inv_frame;
          [exact Hinvb | exact Hne | apply (frame_place a v0) | now left |].
        intros h _ Hh. discriminate.
  - (* VLVector a(first, last); *)
    destruct (exact_sizeb _) eqn:Hex; [|discriminate].
    apply exact_sizeb_spec in Hex.
    eapply on_new_object_owned; [exact Ho | | exact Hrun].
    intros s' Hs'.
    destruct (range_constructor_preserves a r _ s' Hex Hs') as (_ & Hfr & _).
    split; [|split; [exact Hfr|]].
    + unfold VLVector_range in Hs'.
      assert (Hk : keeps_mem_ok (do b <- begin; run insert b (forward_range r); ret tt)).
      { pose proof (fun p => keeps_insert p r) as Hi. unfold begin.
        apply keeps_bind; [apply keeps_get|]. intros p.
        apply keeps_bind; [apply Hi|]. intros _. apply keeps_ret. }
      apply (Hk (VLVector_default a (memory_of w)) tt s');
        [now apply mem_ok_place | exact Hs'].
    + unfold VLVector_range in Hs'.
      pose proof (wf_default a (memory_of w)) as Hwf0.
      unfold VLVector_default in *. cbn [fst].
      set (v0 := {| _data := _staticMem a; _size := 0; _capacity := StaticCapacity |}) in *.
      rewrite begin_bind in Hs'. unfold bind, ret in Hs'.
      rewrite <- (ptr_add_0 (_data v0)) in Hs'. change 0 with (Z.of_nat 0) in Hs'.
      destruct (insert _ (forward_range r) (v0, place a (memory_of w))) as [p s''| |] eqn:Hins;
        try discriminate.
      injection Hs' as <-.
      apply (insert_realloc a v0 (place a (memory_of w)) 0 r p s''); auto.
      * now left.
      * cbn. lia.
  - (* the end of a's life *)
    unfold on_object in Hrun.
    destruct (objects w !! a) as [v|] eqn:Ha; [|discriminate].
    destruct (destructor (v, memory_of w)) as [[] s'| |] eqn:Hd; try discriminate.
    injection Hrun as <-.
    pose proof (proj1 Hw _ _ Ha) as Hinv.
    destruct (destructor_preserves a v _ s' Hinv Hd) as (Hv & (_ & Hother & _) & _ & Hdead).
    pose proof (destructor_next_heap _ _ _ Hd) as Hnh.
    pose proof (keeps_destructor (v, memory_of w) tt s' Hm Hd) as Hm'.
    split; cbn [objects memory_of].
    + now apply mem_ok_free_block.
    + intros h Hlive. rewrite blocks_free_block in Hlive.
      rewrite decide_False in Hlive by discriminate.
      pose proof (Hm' h Hlive) as Hlt. rewrite Hnh in Hlt.
      assert (Hdv : blk (_data v) <> HeapMem h).
      { intros Hb. rewrite (Hdead h Hb) in Hlive. now destruct Hlive. }
      rewrite Hother in Hlive; [|discriminate | congruence | intros ? [= <-]; exact Hlt].
      destruct (proj2 Ho h Hlive) as (a' & va & Hva & Hb).
      exists a', va. split; [|exact Hb].
      rewrite delete_insert_eq. apply lookup_delete_Some. split; [|exact Hva].
      intros <-. congruence.
  - (* a.push_back(x); *)
    destruct (exact_sizeb _) eqn:Hex; [|discriminate].
    apply exact_sizeb_spec in Hex.
    eapply on_object_owned; [exact Hw | exact Ho | apply keeps_push_back | | exact Hrun].
    intros v [] s' Hv Hinv Hs'. rewrite (size_at_lookup _ _ _ Hv) in Hex.
    split; [eapply push_back_preserves | eapply push_back_realloc]; eassumption.
  - (* a.pop_back(); *)
    destruct (0 <? size_at w a) eqn:Hsz; [|discriminate].
    apply Z.ltb_lt in Hsz.
    eapply on_object_owned; [exact Hw | exact Ho | apply keeps_pop_back | | exact Hrun].
    intros v [] s' Hv Hinv Hs'. rewrite (size_at_lookup _ _ _ Hv) in Hsz.
    split; [eapply pop_back_preserves | eapply pop_back_realloc]; eassumption.
  - (* a.insert(a.begin() + i, x); *)
    destruct (_ && _) eqn:Hc; [|discriminate].
    apply andb_true_iff in Hc as [Hi Hex].
    apply Z.leb_le in Hi. apply exact_sizeb_spec in Hex.
    eapply on_object_owned; [exact Hw | exact Ho | | | exact Hrun].
    { unfold begin. apply keeps_bind; [apply keeps_get|]. intros p.
      apply keeps_insert_value. }
    intros v p s' Hv Hinv Hs'. rewrite (size_at_lookup _ _ _ Hv) in Hi, Hex.
    rewrite begin_bind in Hs'.
    split; [eapply insert_value_preserves | eapply insert_value_realloc]; eassumption.
  - (* a.insert(a.begin() + i, first, last); *)
    destruct (_ && _) eqn:Hc; [|discriminate].
    apply andb_true_iff in Hc as [Hi Hex].
    apply Z.leb_le in Hi. apply exact_sizeb_spec in Hex.
    eapply on_object_owned; [exact Hw | exact Ho | | | exact Hrun].
    { unfold begin. apply keeps_bind; [apply keeps_get|]. intros p.
      apply keeps_insert. }
    intros v p s' Hv Hinv Hs'. rewrite (size_at_lookup _ _ _ Hv) in Hi, Hex.
    rewrite begin_bind in Hs'.
    split; [eapply insert_preserves | eapply insert_realloc]; eassumption.
  - (* a.erase(a.begin() + i, a.begin() + j); *)
    destruct (_ && _) eqn:Hc; [|discriminate].
    apply andb_true_iff in Hc as [Hij Hj].
    apply Nat.leb_le in Hij. apply Z.leb_le in Hj.
    eapply on_object_owned; [exact Hw | exact Ho | | | exact Hrun].
    { unfold begin. apply keeps_bind; [apply keeps_get|]. intros p.
      apply keeps_erase. }
    intros v p s' Hv Hinv Hs'. rewrite (size_at_lookup _ _ _ Hv) in Hj.
    rewrite begin_bind in Hs'.
    split; [eapply erase_preserves | eapply erase_realloc]; eassumption.
  - (* a.erase(a.begin() + i); *)
    destruct (_ <? _) eqn:Hi; [|discriminate].
    apply Z.ltb_lt in Hi.
    eapply on_object_owned; [exact Hw | exact Ho | | | exact Hrun].
    { unfold begin. apply keeps_bind; [apply keeps_get|]. intros p.
      apply keeps_erase_pos. }
    intros v p s' Hv Hinv Hs'. rewrite (size_at_lookup _ _ _ Hv) in Hi.
    rewrite begin_bind in Hs'.
    split; [eapply erase_pos_preserves | eapply erase_pos_realloc]; eassumption.
  - (* a.clear(); *)
    eapply on_object_owned; [exact Hw | exact Ho | apply keeps_clear | | exact Hrun].
    intros v [] s' Hv Hinv Hs'.
    split; [eapply clear_preserves | eapply clear_realloc]; eassumption.
  - (* a = b; *)
    destruct (objects w !! b) as [other|] eqn:Hb; [|discriminate].
    eapply on_object_owned;
      [exact Hw | exact Ho | apply keeps_operator_assign | | exact Hrun].
    intros v [] s' Hv Hinv Hs'.
    assert (Hsep : b <> a ->
              forall h, blk (_data other) = HeapMem h -> blk (_data v) = HeapMem h ->
                        blocks (memory_of w) !! HeapMem h = None).
    { intros Hne h Hob Hh. apply (proj2 Hw b a other v h); auto. }
    pose proof (proj1 Hw _ _ Hb) as Hinvb.
    split.
    + apply (assign_preserves a v _ b other s' Hinv Hinvb Hsep Hs').
    + apply (assign_realloc a v _ b other s' Hinv Hinvb Hsep Hs').
  - (* a[i] = x; *)
    destruct (_ <? _) eqn:Hi; [|discriminate].
    apply Z.ltb_lt in Hi.
    eapply on_object_owned; [exact Hw | exact Ho | apply keeps_write | | exact Hrun].
    intros v [] s' Hv Hinv Hs'. rewrite (size_at_lookup _ _ _ Hv) in Hi.
    split; [eapply write_preserves | eapply write_realloc]; eassumption.
Qed.

Lemma run_call_owned c w w' :
  world_inv w -> heap_owned w -> run_call c w = Some w' -> heap_owned w'.
Proof.
  intros Hw Ho Hrun.
  destruct (run_call_by_value c w w' Hrun) as (c' & Hv & Hrun' & _).
  now apply (run_call_owned_by_value c' w w').
Qed.

Lemma heap_owned_empty : heap_owned empty_world.
Proof.
  split; intros h Hh; cbn [empty_world objects memory_of blocks] in Hh;
    rewrite lookup_empty in Hh; now destruct Hh.
Qed.

Lemma run_calls_owned cs : forall w w',
  world_inv w -> heap_owned w -> run_calls cs w = Some w' -> heap_owned w'.
Proof.
  induction cs as [|c cs IH]; intros w w' Hw Ho Hrun; cbn [run_calls] in Hrun.
  - now injection Hrun as <-.
  - destruct (run_call c w) as [w1|] eqn:Hc; [|discriminate].
    eapply IH; [| |exact Hrun].
    + eapply run_call_inv; eassumption.
    + eapply run_call_owned; eassumption.
Qed.

(** X22.  A program never leaks a heap array and never leaves one shared.
    In every state that constructor, member-function and destructor calls
    with defined behaviour reach from nothing, every live heap array is the
    storage [_data] of one container and of no other, so that once every
    container is destroyed no heap array is left. *)
Theorem reachable_heap_arrays_owned cs w :
  run_calls cs empty_world = Some w ->
  (forall h, is_Some (blocks (memory_of w) !! HeapMem h) ->
     exists a v,
       objects w !! a = Some v /\ _data v = Ptr (HeapMem h) 0
       /\ (forall a' v', objects w !! a' = Some v' ->
             blk (_data v') = HeapMem h -> a' = a))
  /\ (objects w = ∅ -> forall h, blocks (memory_of w) !! HeapMem h = None).
Proof.
  intros Hrun.
  pose proof (run_calls_inv cs _ _ world_inv_empty Hrun) as Hw.
  pose proof (run_calls_owned cs _ _ world_inv_empty heap_owned_empty Hrun) as Ho.
  assert (Hown : forall h, is_Some (blocks (memory_of w) !! HeapMem h) ->
            exists a v,
              objects w !! a = Some v /\ _data v = Ptr (HeapMem h) 0
              /\ (forall a' v', objects w !! a' = Some v' ->
                    blk (_data v') = HeapMem h -> a' = a)).
  { intros h Hlive. destruct (proj2 Ho h Hlive) as (a & v & Hv & Hb).
    exists a, v. split; [exact Hv|]. split.
    - destruct (object_inv_data _ _ _ (proj1 Hw _ _ Hv)) as [Hd | (h' & Hd & _)];
        rewrite Hd in Hb; [discriminate|].
      cbn [blk] in Hb. now injection Hb as <-.
    - intros a' v' Hv' Hb'. destruct (decide (a' = a)) as [|Hne]; [assumption|].
      rewrite (proj2 Hw a' a v' v h Hne Hv' Hv Hb' Hb) in Hlive. now destruct Hlive. }
  split; [exact Hown|].
  intros Hnone h. destruct (blocks (memory_of w) !! HeapMem h) as [l|] eqn:Hl;
    [|reflexivity].
  destruct (Hown h) as (a & v & Hv & _); [rewrite Hl; eauto|].
  rewrite Hnone, lookup_empty in Hv. discriminate.
Qed.

(** * Programs that keep every container well formed *)

Lemma wf_separate w a b va vb :
  world_inv w -> a <> b ->
  objects w !! a = Some va -> objects w !! b = Some vb ->
  wf a (va, memory_of w) = true -> wf b (vb, memory_of w) = true ->
  blk (_data va) <> blk (_data vb).
Proof.
  intros [_ I2] Hab Hva Hvb Hwfa Hwfb Heq.
  destruct (wf_inv _ _ _ Hwfa) as (_ & la & _ & _ & Hla & _).
  destruct (wf_data_block _ _ _ Hwfa) as [Ha | (h & Ha)];
    destruct (wf_data_block _ _ _ Hwfb) as [Hb | (h' & Hb)]; try congruence.
  assert (h' = h) as -> by congruence.
  rewrite Ha, (I2 a b va vb h Hab Hva Hvb Ha Hb) in Hla. discriminate.
Qed.

(** The calls on a well-formed container that return leave it well
    formed. *)
Lemma erase_wf this v m (i j : nat) p s' :
  wf this (v, m) = true ->
  (i <= j)%nat -> Z.of_nat j <= _size v ->
  erase this (_data v +ₚ Z.of_nat i) (_data v +ₚ Z.of_nat j) (v, m) = Ok p s' ->
  wf this s' = true.
Proof.
  intros Hwf Hij Hj Hrun.
  destruct (wf_size _ _ _ Hwf) as (_ & _ & _ & Hlen).
  destruct (erase_spec this v m i j Hwf) as (s'' & Hrun' & Hwf' & _); [lia|].
  rewrite Hrun' in Hrun. now injection Hrun as _ <-.
Qed.

Lemma erase_pos_wf this v m (i : nat) p s' :
  wf this (v, m) = true ->
  Z.of_nat i < _size v ->
  erase_pos this (_data v +ₚ Z.of_nat i) (v, m) = Ok p s' ->
  wf this s' = true.
Proof.
  intros Hwf Hi Hrun.
  destruct (wf_size _ _ _ Hwf) as (_ & _ & _ & Hlen).
  destruct (erase_pos_spec this v m i Hwf) as (s'' & Hrun' & Hwf' & _); [lia|].
  rewrite Hrun' in Hrun. now injection Hrun as _ <-.
Qed.

Lemma pop_back_wf this v m s' :
  wf this (v, m) = true -> 0 < _size v ->
  pop_back this (v, m) = Ok tt s' ->
  wf this s' = true.
Proof.
  intros Hwf Hsz Hrun.
  destruct (pop_back_spec this v m Hwf Hsz) as (s'' & Hrun' & Hwf' & _).
  rewrite Hrun' in Hrun. now injection Hrun as <-.
Qed.

Lemma clear_wf this v m s' :
  wf this (v, m) = true ->
  clear this (v, m) = Ok tt s' ->
  wf this s' = true.
Proof.
  intros Hwf Hrun.
  destruct (wf_size _ _ _ Hwf) as (Hsz & _ & _ & Hlen).
  destruct (erase_spec this v m 0 (Z.to_nat (_size v)) Hwf)
    as (s'' & Hrun' & Hwf' & _); [lia|].
  change (Z.of_nat 0) with 0 in Hrun'. rewrite ptr_add_0 in Hrun'.
  rewrite Z2Nat.id in Hrun' by lia.
  apply clear_erase in Hrun'. rewrite Hrun' in Hrun. now injection Hrun as <-.
Qed.

Lemma insert_wf this v m (i : nat) (r : list T) p s' :
  wf this (v, m) = true ->
  Z.of_nat i <= _size v ->
  exact_size (_size v + Z.of_nat (length r)) ->
  insert (_data v +ₚ Z.of_nat i) (forward_range r) (v, m) = Ok p s' ->
  wf this s' = true.
Proof.
  intros Hwf Hi Hex Hrun.
  destruct (wf_size _ _ _ Hwf) as (_ & _ & _ & Hlen).
  destruct (insert_spec this v m i r Hwf) as (s'' & Hrun' & Hwf' & _);
    [lia | exact Hex |].
  rewrite Hrun' in Hrun. now injection Hrun as _ <-.
Qed.

Lemma insert_value_wf this v m (i : nat) x p s' :
  wf this (v, m) = true ->
  Z.of_nat i <= _size v ->
  exact_size (_size v + 1) ->
  insert_value (_data v +ₚ Z.of_nat i) (ref_value x) (v, m) = Ok p s' ->
  wf this s' = true.
Proof.
  intros Hwf Hi Hex Hrun.
  destruct (wf_size _ _ _ Hwf) as (_ & _ & _ & Hlen).
  destruct (insert_value_spec this v m i x Hwf) as (s'' & Hrun' & Hwf' & _);
    [lia | exact Hex |].
  rewrite Hrun' in Hrun. now injection Hrun as _ <-.
Qed.

Lemma push_back_wf this v m x s' :
  wf this (v, m) = true ->
  exact_size (_size v + 1) ->
  push_back x (v, m) = Ok tt s' ->
  wf this s' = true.
Proof.
  intros Hwf Hex Hrun.
  destruct (push_back_spec this v m x Hwf Hex) as (s'' & Hrun' & Hwf' & _).
  rewrite Hrun' in Hrun. now injection Hrun as <-.
Qed.

Lemma write_wf this v m (i : nat) x s' :
  wf this (v, m) = true -> Z.of_nat i < _size v ->
  (do p <- operator_index (Z.of_nat i); assign p x) (v, m) = Ok tt s' ->
  wf this s' = true.
Proof.
  intros Hwf Hi Hrun.
  destruct (write_preserves this v m i x s' (or_introl Hwf) Hi Hrun)
    as ([Hwf' | (_ & _ & Hsz & _)] & _); [exact Hwf'|].
  exfalso. unfold operator_index in Hrun. monad_unfold_in Hrun.
  destruct (store m _ x); [|discriminate]. injection Hrun as <-.
  cbn [fst _size] in Hsz. lia.
Qed.

Lemma copyMembers_wf this v m oa other s' :
  live m (StaticMem this) StaticCapacity = true ->
  (_data v = _staticMem this \/ StaticCapacity < _capacity other) ->
  wf oa (other, m) = true -> oa <> this ->
  _copyMembers other (v, m) = Ok tt s' ->
  wf this s' = true.
Proof.
  intros Hst Hdst Hwf Hne Hrun.
  destruct (copyMembers_copies this v m oa other Hst Hdst Hwf Hne)
    as (s'' & Hrun' & Hwf' & _).
  rewrite Hrun' in Hrun. now injection Hrun as <-.
Qed.

Lemma assign_wf this v m oa other s' :
  wf this (v, m) = true -> wf oa (other, m) = true ->
  (oa <> this -> blk (_data other) <> blk (_data v)) ->
  (oa = this \/ _capacity v <= StaticCapacity \/ StaticCapacity < _capacity other) ->
  operator_assign this oa other (v, m) = Ok tt s' ->
  wf this s' = true.
Proof.
  intros Hwf Hwfo Hblk Hmodes Hrun. unfold operator_assign in Hrun.
  destruct (decide (oa = this)) as [Heq|Hne].
  { now injection Hrun as <-. }
  specialize (Hblk Hne). destruct Hmodes as [Heq | Hmodes]; [contradiction|].
  destruct (wf_inv _ _ _ Hwf)
    as (ls & la & Hls & Hlens & Hla & Hlena & Hsz & Hmax & Hmode).
  assert (Hshape := wf_data_block _ _ _ Hwf).
  destruct (StaticCapacity <? _capacity v) eqn:Hcap.
  - apply Z.ltb_lt in Hcap.
    destruct Hmodes as [Hc | Hco]; [lia|].
    destruct Hmode as [[_ Hc] | (h & Hd & Hh & _ & _)]; [lia|].
    rewrite Hd in Hla; cbn [blk] in Hla.
    set (m1 := free_block m (HeapMem h)).
    assert (Hfr : frame this v m m1).
    { apply frame_free_block; [right; now rewrite Hd | apply frame_refl]. }
    assert (Hgo : _copyMembers other (v, m1) = Ok tt s').
    { rewrite <- Hrun. monad_unfold. apply Z.ltb_lt in Hcap. rewrite Hcap, Hd.
      now rewrite (dealloc_heap m h la Hla). }
    destruct (wf_frame oa other this v m m1 Hwfo Hne Hfr Hshape Hblk) as (Hwf1 & _).
    apply (copyMembers_wf this v m1 oa other s'); auto.
    apply live_spec. exists ls. split; [|exact Hlens].
    unfold m1. rewrite blocks_free_block. now rewrite decide_False.
  - apply Z.ltb_ge in Hcap.
    destruct Hmode as [[Hd _] | (h & _ & _ & Hc & _)]; [|lia].
    assert (Hgo : _copyMembers other (v, m) = Ok tt s').
    { rewrite <- Hrun. monad_unfold. apply Z.ltb_ge in Hcap. now rewrite Hcap. }
    apply (copyMembers_wf this v m oa other s'); auto.
    apply live_spec. eauto.
Qed.

Lemma all_wf_update w this v s' :
  world_inv w -> all_wf w ->
  (objects w !! this = Some v
   \/ (objects w !! this = None /\ _data v = _staticMem this)) ->
  wf this s' = true ->
  frame this v (memory_of w) (snd s') ->
  all_wf (World (<[this := fst s']> (objects w)) (snd s')).
Proof.
  intros Hw Hall Hthis Hwf' Hfr a va Hva. cbn [objects memory_of] in *.
  destruct (decide (a = this)) as [->|Hne].
  - rewrite lookup_insert_eq in Hva. injection Hva as <-. now destruct s'.
  - rewrite lookup_insert_ne in Hva by congruence.
    pose proof (Hall _ _ Hva) as Hwfa.
    apply (wf_frame a va this v (memory_of w) (snd s') Hwfa Hne Hfr).
    + destruct Hthis as [Hv | [_ Hd]].
      * apply (wf_data_block this v (memory_of w)). now apply Hall.
      * left. now rewrite Hd.
    + destruct Hthis as [Hv | [_ Hd]].
      * apply (wf_separate w a this va v); auto.
      * rewrite Hd. cbn [_staticMem blk].
        destruct (wf_data_block _ _ _ Hwfa) as [-> | (h & ->)]; congruence.
Qed.

Lemma on_object_wf {A} w this (f : M A) w' :
  world_inv w -> all_wf w ->
  (forall v a s', objects w !! this = Some v ->
     wf this (v, memory_of w) = true ->
     f (v, memory_of w) = Ok a s' ->
     wf this s' = true /\ preserves this (v, memory_of w) s') ->
  on_object this f w = Some w' ->
  all_wf w'.
Proof.
  intros Hw Hall Hf Hrun. unfold on_object in Hrun.
  destruct (objects w !! this) as [v|] eqn:Hv; [|discriminate].
  destruct (f (v, memory_of w)) as [a s'| |] eqn:Hfs; try discriminate.
  injection Hrun as <-.
  destruct (Hf v a s' eq_refl (Hall _ _ Hv) Hfs) as (Hwf' & _ & Hfr & _).
  apply (all_wf_update w this v s'); auto.
Qed.

Lemma on_new_object_wf w this f w' :
  world_inv w -> all_wf w ->
  (forall s', f (memory_of w) = Ok tt s' ->
     wf this s' = true
     /\ frame this (fst (VLVector_default this (memory_of w))) (memory_of w) (snd s')) ->
  on_new_object this f w = Some w' ->
  all_wf w'.
Proof.
  intros Hw Hall Hf Hrun. unfold on_new_object in Hrun.
  destruct (objects w !! this) as [v|] eqn:Hv; [discriminate|].
  destruct (f (memory_of w)) as [[] s'| |] eqn:Hfs; try discriminate.
  injection Hrun as <-.
  destruct (Hf s' eq_refl) as (Hwf' & Hfr).
  eapply (all_wf_update w this _ s'); [exact Hw | exact Hall | | exact Hwf' | exact Hfr].
  right. split; [exact Hv | reflexivity].
Qed.

Lemma run_call_wf_by_value c w w' :
  by_value c = true ->
  world_inv w -> all_wf w ->
  assigns_heap_from_inline w c = false ->
  run_call c w = Some w' ->
  all_wf w'.
Proof.
  intros Hbv Hw Hall Hok Hrun. destruct c; try discriminate Hbv; clear Hbv; cbn [run_call] in Hrun.
  - (* VLVector a; *)
    eapply on_new_object_wf; [exact Hw | exact Hall | | exact Hrun].
    intros s' [= <-]. split; [apply wf_default | apply frame_place].
  - (* VLVector a(b); *)
    destruct (objects w !! b) as [other|] eqn:Hb; [|discriminate].
    destruct (objects w !! a) as [va|] eqn:Ha.
    { unfold on_new_object in Hrun. now rewrite Ha in Hrun. }
    eapply on_new_object_wf; [exact Hw | exact Hall | | exact Hrun].
    intros s' Hs'.
    assert (Hne : b <> a) by congruence.
    pose proof (Hall _ _ Hb) as Hwfb.
    destruct (copy_constructor_preserves a b other _ s' (or_introl Hwfb) Hne Hs')
      as (_ & Hfr & _).
    split; [|exact Hfr].
    unfold VLVector_copy, VLVector_default in *. cbn [fst] in *.
    set (v0 := {| _data := _staticMem a; _size := 0; _capacity := StaticCapacity |}) in *.
    apply (copyMembers_wf a v0 (place a (memory_of w)) b other s'); auto.
    + pose proof (wf_default a (memory_of w)) as Hwf0.
      destruct (wf_inv _ _ _ Hwf0) as (ls & _ & Hls & Hlens & _).
      apply live_spec. eauto.
    + apply (wf_frame b other a v0 (memory_of w) (place a (memory_of w)) Hwfb Hne
               (frame_place a v0 _)); [now left|].
      destruct (wf_data_block _ _ _ Hwfb) as [-> | (h & ->)]; cbn; congruence.
  - (* VLVector a(first, last); *)
    destruct (exact_sizeb _) eqn:Hex; [|discriminate].
    apply exact_sizeb_spec in Hex.
    eapply on_new_object_wf; [exact Hw | exact Hall | | exact Hrun].
    intros s' Hs'.
    destruct (range_constructor_preserves a r _ s' Hex Hs') as (_ & Hfr & _).
    split; [|exact Hfr].
    unfold VLVector_range in Hs'.
    pose proof (wf_default a (memory_of w)) as Hwf0.
    unfold VLVector_default in *.
    set (v0 := {| _data := _staticMem a; _size := 0; _capacity := StaticCapacity |}) in *.
    rewrite begin_bind in Hs'. unfold bind, ret in Hs'.
    rewrite <- (ptr_add_0 (_data v0)) in Hs'. change 0 with (Z.of_nat 0) in Hs'.
    destruct (insert _ (forward_range r) (v0, place a (memory_of w))) as [p s''| |] eqn:Hins;
      try discriminate.
    injection Hs' as <-.
    apply (insert_wf a v0 (place a (memory_of w)) 0 r p s''); auto. cbn. lia.
  - (* the end of a's life *)
    unfold on_object in Hrun.
    destruct (objects w !! a) as [v|] eqn:Ha; [|discriminate].
    destruct (destructor (v, memory_of w)) as [[] s'| |] eqn:Hd; try discriminate.
    injection Hrun as <-.
    pose proof (Hall _ _ Ha) as Hwfa.
    destruct (destructor_preserves a v _ s' (or_introl Hwfa) Hd) as (_ & _ & Hfr & _).
    intros b vb Hvb. cbn [objects memory_of] in *.
    rewrite delete_insert_eq in Hvb. apply lookup_delete_Some in Hvb as [Hne Hvb].
    apply (wf_frame b vb a v (memory_of w) _ (Hall _ _ Hvb)); auto.
    + apply (wf_data_block a v (memory_of w) Hwfa).
    + apply (wf_separate w b a vb v); auto.
  - (* a.push_back(x); *)
    destruct (exact_sizeb _) eqn:Hex; [|discriminate].
    apply exact_sizeb_spec in Hex.
    eapply on_object_wf; [exact Hw | exact Hall | | exact Hrun].
    intros v [] s' Hv Hwf Hs'. rewrite (size_at_lookup _ _ _ Hv) in Hex.
    split; [eapply push_back_wf; eauto | eapply push_back_preserves; eauto; now left].
  - (* a.pop_back(); *)
    destruct (0 <? size_at w a) eqn:Hsz; [|discriminate].
    apply Z.ltb_lt in Hsz.
    eapply on_object_wf; [exact Hw | exact Hall | | exact Hrun].
    intros v [] s' Hv Hwf Hs'. rewrite (size_at_lookup _ _ _ Hv) in Hsz.
    split; [eapply pop_back_wf; eauto | eapply pop_back_preserves; eauto; now left].
  - (* a.insert(a.begin() + i, x); *)
    destruct (_ && _) eqn:Hc; [|discriminate].
    apply andb_true_iff in Hc as [Hi Hex].
    apply Z.leb_le in Hi. apply exact_sizeb_spec in Hex.
    eapply on_object_wf; [exact Hw | exact Hall | | exact Hrun].
    intros v p s' Hv Hwf Hs'. rewrite (size_at_lookup _ _ _ Hv) in Hi, Hex.
    rewrite begin_bind in Hs'.
    split; [eapply insert_value_wf; eauto | eapply insert_value_preserves; eauto; now left].
  - (* a.insert(a.begin() + i, first, last); *)
    destruct (_ && _) eqn:Hc; [|discriminate].
    apply andb_true_iff in Hc as [Hi Hex].
    apply Z.leb_le in Hi. apply exact_sizeb_spec in Hex.
    eapply on_object_wf; [exact Hw | exact Hall | | exact Hrun].
    intros v p s' Hv Hwf Hs'. rewrite (size_at_lookup _ _ _ Hv) in Hi, Hex.
    rewrite begin_bind in Hs'.
    split; [eapply insert_wf; eauto | eapply insert_preserves; eauto; now left].
  - (* a.erase(a.begin() + i, a.begin() + j); *)
    destruct (_ && _) eqn:Hc; [|discriminate].
    apply andb_true_iff in Hc as [Hij Hj].
    apply Nat.leb_le in Hij. apply Z.leb_le in Hj.
    eapply on_object_wf; [exact Hw | exact Hall | | exact Hrun].
    intros v p s' Hv Hwf Hs'. rewrite (size_at_lookup _ _ _ Hv) in Hj.
    rewrite begin_bind in Hs'.
    split; [eapply erase_wf; eauto | eapply erase_preserves; eauto; now left].
  - (* a.erase(a.begin() + i); *)
    destruct (_ <? _) eqn:Hi; [|discriminate].
    apply Z.ltb_lt in Hi.
    eapply on_object_wf; [exact Hw | exact Hall | | exact Hrun].
    intros v p s' Hv Hwf Hs'. rewrite (size_at_lookup _ _ _ Hv) in Hi.
    rewrite begin_bind in Hs'.
    split; [eapply erase_pos_wf; eauto | eapply erase_pos_preserves; eauto; now left].
  - (* a.clear(); *)
    eapply on_object_wf; [exact Hw | exact Hall | | exact Hrun].
    intros v [] s' Hv Hwf Hs'.
    split; [eapply clear_wf; eauto | eapply clear_preserves; eauto; now left].
  - (* a = b; *)
    destruct (objects w !! b) as [other|] eqn:Hb; [|discriminate].
    eapply on_object_wf; [exact Hw | exact Hall | | exact Hrun].
    intros v [] s' Hv Hwf Hs'.
    pose proof (Hall _ _ Hb) as Hwfb.
    cbn [assigns_heap_from_inline] in Hok. rewrite Hv, Hb in Hok.
    split.
    + apply (assign_wf a v (memory_of w) b other s' Hwf Hwfb); auto.
      * intros Hne. apply (wf_separate w b a other v); auto.
      * destruct (decide (a = b)) as [->|Hne]; [now left|right].
        rewrite bool_decide_eq_false_2 in Hok by exact Hne. cbn [negb andb] in Hok.
        apply andb_false_iff in Hok as [Hc|Hc].
        -- left. now apply Z.ltb_ge.
        -- right. now apply Z.leb_gt.
    + apply (assign_preserves a v (memory_of w) b other s' (or_introl Hwf)
               (or_introl Hwfb)); [|exact Hs'].
      intros Hne h Hob Hh. apply (proj2 Hw b a other v h); auto.
  - (* a[i] = x; *)
    destruct (_ <? _) eqn:Hi; [|discriminate].
    apply Z.ltb_lt in Hi.
    eapply on_object_wf; [exact Hw | exact Hall | | exact Hrun].
    intros v [] s' Hv Hwf Hs'. rewrite (size_at_lookup _ _ _ Hv) in Hi.
    split; [eapply write_wf; eauto | eapply write_preserves; eauto; now left].
Qed.

Lemma run_call_wf c w w' :
  world_inv w -> all_wf w ->
  assigns_heap_from_inline w c = false ->
  run_call c w = Some w' ->
  all_wf w'.
Proof.
  intros Hw Hall Hok Hrun.
  destruct (run_call_by_value c w w' Hrun) as (c' & Hv & Hrun' & Hsame).
  apply (run_call_wf_by_value c' w w'); auto. congruence.
Qed.

Lemma run_calls_wf cs : forall w w',
  world_inv w -> all_wf w ->
  never_assigns_heap_from_inline cs w = true ->
  run_calls cs w = Some w' ->
  all_wf w'.
Proof.
  induction cs as [|c cs IH]; intros w w' Hw Hall Hok Hrun;
    cbn [run_calls never_assigns_heap_from_inline] in *.
  - now injection Hrun as <-.
  - destruct (run_call c w) as [w1|] eqn:Hc; [|discriminate].
    apply andb_true_iff in Hok as [Hc1 Hrest]. apply negb_true_iff in Hc1.
    eapply IH; [| |exact Hrest|exact Hrun].
    + eapply run_call_inv; eassumption.
    + eapply run_call_wf; eassumption.
Qed.

(** X23.  The class invariant can only be broken by the assignment of a
    container in inline mode to another container in heap mode.  In every
    state that a program reaches from nothing without such an assignment,
    every container is well formed: it is in inline mode, using its array
    member, exactly when [size() <= StaticCapacity], and in heap mode
    otherwise. *)
Theorem reachable_wf_unless_heap_from_inline cs w a v :
  run_calls cs empty_world = Some w ->
  never_assigns_heap_from_inline cs empty_world = true ->
  objects w !! a = Some v ->
  wf a (v, memory_of w) = true
  /\ inline_mode a (v, memory_of w) = (_size v <=? StaticCapacity)
  /\ heap_mode (v, memory_of w) = (StaticCapacity <? _size v).
Proof.
  intros Hrun Hok Hv.
  assert (Hall0 : all_wf empty_world).
  { intros b vb Hvb. cbn [empty_world objects] in Hvb.
    now rewrite lookup_empty in Hvb. }
  pose proof (run_calls_wf cs _ _ world_inv_empty Hall0 Hok Hrun a v Hv) as Hwf.
  split; [exact Hwf|]. apply (wf_inline_by_size a (v, memory_of w) Hwf).
Qed.

End VLVector.

(** * Instances: [VLVector<int, 4>]

    Elements are integers, a default-initialised element is [0], and
    [StaticCapacity] is [4]. *)

Lemma capacity_4_range : 0 <= 4 < 2 ^ Dbl.DBL_MANT_DIG.
Proof. unfold Dbl.DBL_MANT_DIG. lia. Qed.

Lemma capacity_16_range : 0 <= DEFAULT_STATIC_CAPACITY < 2 ^ Dbl.DBL_MANT_DIG.
Proof. unfold Dbl.DBL_MANT_DIG, DEFAULT_STATIC_CAPACITY. lia. Qed.

(** A memory with nothing in it. *)
Definition demo_memory : memory (T := Z) := Mem ∅ 0%nat.

(** [int]'s [operator==]. *)
Definition int_eq : equality Z := operator_equal Z Z.eqb.

(** A default-constructed container at address [0]. *)
Definition demo_new : state (T := Z) := VLVector_default 0 4 0%nat demo_memory.

(** The container at address [0] after [push_back] of [10] and [20]. *)
Definition demo_inline : state (T := Z) :=
  ({| _data := Ptr (StaticMem 0) 0; _size := 2; _capacity := 4 |},
   Mem (<[StaticMem 0 := [10; 20; 0; 0]]> ∅) 0%nat).

(** The container at address [0] after [push_back] of [1] to [5]. *)
Definition demo_heap : state (T := Z) :=
  ({| _data := Ptr (HeapMem 0) 0; _size := 5; _capacity := 7 |},
   Mem (<[HeapMem 0 := [1; 2; 3; 4; 5; 0; 0]]>
          (<[StaticMem 0 := [1; 2; 3; 4]]> ∅)) 1%nat).

Example demo_inline_built :
  push_back_all 0 4 [10; 20] demo_new = Ok tt demo_inline.
Proof. vm_compute. reflexivity. Qed.

Example demo_heap_built :
  push_back_all 0 4 [1; 2; 3; 4; 5] demo_new = Ok tt demo_heap.
Proof. vm_compute. reflexivity. Qed.

(** ** C5 *)

(** C5, witness: a full default container ([StaticCapacity = 16]) that
    grows by one gets capacity [floor (1.5 * 17) = 25]. *)
Lemma cap_in_exact_range_witness :
  exact_size (16 + 1)
  /\ cap_as_specified (T := Z) DEFAULT_STATIC_CAPACITY
       {| _data := Ptr (StaticMem 0) 0; _size := 16; _capacity := 16 |} 1
  /\ computeCapacity DEFAULT_STATIC_CAPACITY 16 1 = 25.
Proof.
  split; [unfold exact_size, Dbl.DBL_MANT_DIG; lia|].
  split; [|reflexivity].
  apply (cap_in_exact_range DEFAULT_STATIC_CAPACITY capacity_16_range);
    cbn [_size]; unfold exact_size, Dbl.DBL_MANT_DIG; lia.
Defined.

(** C5, counterexample to the claim as stated: for an empty container and
    [additionalSize = 2^53 + 1] the sum is not a [double]; the conversion
    rounds it to [2^53], and [_cap] returns [3 * 2^52], one less than
    [floor (1.5 * (2^53 + 1))]. *)
Lemma cap_rounds_beyond_exact_range :
  ~ cap_as_specified (T := Z) DEFAULT_STATIC_CAPACITY
      {| _data := Ptr (StaticMem 0) 0; _size := 0; _capacity := 16 |}
      (2 ^ 53 + 1).
Proof.
  intros Hspec. destruct (Hspec demo_memory) as (c & Hrun & Hc & _).
  vm_compute in Hrun. vm_compute in Hc. congruence.
Qed.

Example cap_rounds_beyond_exact_range_values :
  _cap DEFAULT_STATIC_CAPACITY (2 ^ 53 + 1)
    ({| _data := Ptr (StaticMem 0) 0; _size := 0; _capacity := 16 |}, demo_memory)
  = Ok 13510798882111488
      ({| _data := Ptr (StaticMem 0) 0; _size := 0; _capacity := 16 |}, demo_memory)
  /\ computeCapacity DEFAULT_STATIC_CAPACITY 0 (2 ^ 53 + 1) = 13510798882111489.
Proof. split; vm_compute; reflexivity. Qed.

(** ** C7 *)

(** C7, witness: on the container holding [1] to [5], [at(2)] is the
    reference [_data[2]], which holds [3], and [at(5)] throws. *)
Lemma at_checked_access_witness :
  wf 4 0%nat demo_heap = true
  /\ at_ 2 demo_heap = Ok (Ptr (HeapMem 0) 2) demo_heap
  /\ operator_index 2 demo_heap = Ok (Ptr (HeapMem 0) 2) demo_heap
  /\ load (snd demo_heap) (Ptr (HeapMem 0) 2) = Some 3
  /\ at_ 5 demo_heap = Throw (out_of_range OUT_OF_RANGE_ERR_MSG) demo_heap.
Proof.
  split; [reflexivity|].
  destruct (at_checked_access 4 capacity_4_range 0%nat (fst demo_heap) (snd demo_heap) 2
              (or_introl eq_refl) ltac:(lia)) as (_ & _ & _ & Hin).
  destruct (at_checked_access 4 capacity_4_range 0%nat (fst demo_heap) (snd demo_heap) 5
              (or_introl eq_refl) ltac:(lia)) as (_ & _ & Hout & _).
  destruct Hin as (x & Hx & Hat & _ & Hidx & _ & Hload); [cbn; lia|].
  destruct Hout as (Hthrow & _); [cbn; lia|].
  vm_compute in Hx. injection Hx as <-.
  repeat split; assumption.
Defined.

(** ** C9 *)

(** The program [VLVector<int, 4> a; a.push_back(1); ... a.push_back(5);]
    and the world it reaches. *)
Definition demo_program : list (call (T := Z)) :=
  [construct_default 0%nat; call_push_back 0%nat 1; call_push_back 0%nat 2;
   call_push_back 0%nat 3; call_push_back 0%nat 4; call_push_back 0%nat 5].

Definition demo_world : world (T := Z) :=
  World {[0%nat := fst demo_heap]} (snd demo_heap).

Example demo_world_reached :
  run_calls 0 4 demo_program empty_world = Some demo_world.
Proof. vm_compute. reflexivity. Qed.

(** A program that passes pointers to the elements of the container it
    calls: [VLVector<int, 4> v; v.push_back(10); v.push_back(20);
    v.insert(v.begin(), v.begin() + 1, v.begin() + 2);
    v.insert(v.begin() + 3, v[0]);] *)
Definition demo_program_own_elements : list (call (T := Z)) :=
  [construct_default 0%nat; call_push_back 0%nat 10; call_push_back 0%nat 20;
   call_insert_pointers 0%nat 0 (Ptr (StaticMem 0) 1) (Ptr (StaticMem 0) 2);
   call_insert_ref 0%nat 3 (Ptr (StaticMem 0) 0)].

Example demo_program_own_elements_reached :
  run_calls 0 4 demo_program_own_elements empty_world
  = Some (World {[0%nat := {| _data := Ptr (StaticMem 0) 0; _size := 4;
                               _capacity := 4 |}]}
                (Mem (<[StaticMem 0 := [10; 10; 20; 10]]> ∅) 0%nat)).
Proof. vm_compute. reflexivity. Qed.

(** C9, witness: [erase(begin() + 2, begin() + 2)] on the container
    holding [1] to [5]. *)
Lemma erase_empty_range_noop_witness :
  run_calls 0 4 demo_program empty_world = Some demo_world
  /\ erase 4 0%nat (Ptr (HeapMem 0) 2) (Ptr (HeapMem 0) 2) demo_heap
     = Ok (Ptr (HeapMem 0) 2) demo_heap.
Proof.
  split; [vm_compute; reflexivity|].
  apply (erase_empty_range_noop 0 4 capacity_4_range demo_program demo_world 0%nat
           (fst demo_heap) 2).
  - vm_compute. reflexivity.
  - reflexivity.
  - cbn. lia.
Defined.

(** The program [VLVector<int, 4> a; a.push_back(1); ... a.push_back(5);
    VLVector<int, 4> b; a = b;] reaches a world where [a] is not well
    formed: [_data] is the deleted heap array.  [erase(begin(), begin())]
    is still a no-op there; [a.push_back(6)] writes through [_data] and has
    no defined behaviour. *)
Definition demo_program_assign : list (call (T := Z)) :=
  demo_program ++ [construct_default 1%nat; call_assign 0%nat 1%nat].

Definition demo_world_assign : world (T := Z) :=
  World (<[1%nat := {| _data := Ptr (StaticMem 1) 0; _size := 0; _capacity := 4 |}]>
           {[0%nat := {| _data := Ptr (HeapMem 0) 0; _size := 0; _capacity := 4 |}]})
        (Mem (<[StaticMem 1 := [0; 0; 0; 0]]> (<[StaticMem 0 := [1; 2; 3; 4]]> ∅)) 1%nat).

Example demo_world_assign_reached :
  run_calls 0 4 demo_program_assign empty_world = Some demo_world_assign
  /\ (forall v, objects demo_world_assign !! 0%nat = Some v ->
        wf 4 0%nat (v, memory_of demo_world_assign) = false
        /\ erase 4 0%nat (_data v) (_data v) (v, memory_of demo_world_assign)
           = Ok (_data v) (v, memory_of demo_world_assign))
  /\ run_call 0 4 (call_push_back 0%nat 6) demo_world_assign = None.
Proof.
  split; [vm_compute; reflexivity|]. split.
  - intros v [= <-]. split; vm_compute; reflexivity.
  - vm_compute. reflexivity.
Qed.

(** ** C3 *)

(** C3, witness: with [StaticCapacity = 4], erasing the second of the five
    elements [1] to [5] moves the container back into the array member. *)
Lemma erase_shrinks_back_to_static_witness :
  wf 4 0%nat demo_heap = true /\ heap_mode demo_heap = true
  /\ exists s',
       erase 4 0%nat (Ptr (HeapMem 0) 1) (Ptr (HeapMem 0) 2) demo_heap
       = Ok (Ptr (StaticMem 0) 1) s'
       /\ elements s' = [1; 3; 4; 5]
       /\ _capacity (fst s') = 4
       /\ inline_mode 0%nat s' = true.
Proof.
  split; [reflexivity|]. split; [reflexivity|].
  destruct (erase_shrinks_back_to_static 4 capacity_4_range 0%nat
              (fst demo_heap) (snd demo_heap) 1 2 eq_refl eq_refl)
    as (s' & Hrun & _ & _ & Hel & _ & Hfit & _); [vm_compute; lia|].
  destruct Hfit as (Hc & Hd & Hi & _); [cbn; lia|].
  exists s'. rewrite Hd in Hrun. repeat split; assumption.
Defined.

(** ** C8 *)

(** C8, witness: [clear()] on the container holding [1] to [5]. *)
Lemma clear_empties_into_static_witness :
  wf 4 0%nat demo_heap = true
  /\ exists s',
       clear 4 0%nat demo_heap = Ok tt s'
       /\ _size (fst s') = 0 /\ _capacity (fst s') = 4
       /\ _data (fst s') = Ptr (StaticMem 0) 0
       /\ blocks (snd s') !! HeapMem 0 = None.
Proof.
  split; [reflexivity|].
  destruct (clear_empties_into_static 4 capacity_4_range 0%nat
              (fst demo_heap) (snd demo_heap) eq_refl)
    as (p & s' & _ & Hrun & _ & _ & Hsz & _ & Hc & Hd & _ & Hfree).
  exists s'. repeat split; try assumption. now apply Hfree.
Defined.

(** C8, counterexample to the claim as stated: [clear()] on a
    default-constructed container does not take the shrink branch of
    [erase] (its condition is false), and changes nothing. *)
Lemma clear_inline_skips_shrink_branch :
  erase_shrinks 4 (fst demo_new) (_size (fst demo_new)) = false
  /\ clear 4 0%nat demo_new = Ok tt demo_new.
Proof. split; vm_compute; reflexivity. Qed.

(** ** C10 *)

(** C10, witness: the shrink branch of [erase(begin() + 1, begin() + 2)] on
    the container holding [1] to [5] copies one element into the array
    member. *)
Lemma erase_to_static_in_bounds_witness :
  wf 4 0%nat demo_heap = true
  /\ erase_shrinks 4 (fst demo_heap) 1 = true
  /\ erase_to_static 4 0%nat (Ptr (HeapMem 0) 1) demo_heap
     = Ok (Some (Ptr (HeapMem 0) 0))
          ({| _data := Ptr (StaticMem 0) 0; _size := 5; _capacity := 4 |},
           set_block (snd demo_heap) (StaticMem 0) [1; 2; 3; 4]).
Proof.
  split; [reflexivity|]. split; [reflexivity|].
  destruct (erase_to_static_in_bounds 4 capacity_4_range 0%nat
              (fst demo_heap) (snd demo_heap) 1 2 eq_refl)
    as (ls & Hls & _ & _ & Hrun & _); [vm_compute; lia | reflexivity |].
  vm_compute in Hls. injection Hls as <-. exact Hrun.
Defined.

(** ** C6 *)

(** C6, witness: five calls of [push_back] on a default-constructed
    container with [StaticCapacity = 4]. *)
Lemma push_back_all_capacity_witness :
  exact_size 5
  /\ exists s',
       push_back_all 0 4 [1; 2; 3; 4; 5] (VLVector_default 0 4 0%nat demo_memory)
       = Ok tt s'
       /\ elements s' = [1; 2; 3; 4; 5]
       /\ 5 <= _capacity (fst s')
       /\ heap_mode s' = true.
Proof.
  split; [unfold exact_size, Dbl.DBL_MANT_DIG; lia|].
  destruct (push_back_all_capacity 0 4 capacity_4_range 0%nat demo_memory [1; 2; 3; 4; 5])
    as (s' & Hrun & Hel & _ & _ & Hheap);
    [unfold exact_size, Dbl.DBL_MANT_DIG; cbn; lia|].
  destruct Hheap as (Hc & Hh & _); [cbn; lia|].
  exists s'. repeat split; assumption.
Defined.

(** ** C4 *)

(** The container at address [0] holding [10; 20], and an array of three
    [int] that holds [1; 2; 3]. *)
Definition demo_inline_and_array : state (T := Z) :=
  (fst demo_inline,
   Mem (<[StaticMem 1 := [1; 2; 3]]> (<[StaticMem 0 := [10; 20; 0; 0]]> ∅)) 0%nat).

(** C4, witness: inserting the array [1; 2; 3] before [begin()] of the
    container holding [10; 20] gives [1; 2; 3; 10; 20], and the iterator
    returned points to the [1]. *)
Lemma insert_range_correct_witness :
  wf 4 0%nat demo_inline_and_array = true
  /\ range_values (pointer_range (Ptr (StaticMem 1) 0) (Ptr (StaticMem 1) 3))
       (snd demo_inline_and_array) = Some [1; 2; 3]
  /\ exists s',
       insert 0 4 (Ptr (StaticMem 0) 0)
         (pointer_range (Ptr (StaticMem 1) 0) (Ptr (StaticMem 1) 3))
         demo_inline_and_array
       = Ok (_data (fst s') +ₚ 0) s'
       /\ elements s' = [1; 2; 3; 10; 20]
       /\ load (snd s') (_data (fst s') +ₚ 0) = Some 1.
Proof.
  split; [reflexivity|]. split; [reflexivity|].
  destruct (insert_range_correct 0 4 capacity_4_range 0%nat
              (fst demo_inline_and_array) (snd demo_inline_and_array) 0
              (pointer_range (Ptr (StaticMem 1) 0) (Ptr (StaticMem 1) 3))
              [1; 2; 3] eq_refl)
    as (s' & Hrun & _ & Hel & Hload & _);
    [vm_compute; lia | reflexivity | reflexivity
    | unfold exact_size, Dbl.DBL_MANT_DIG; cbn; lia |].
  exists s'. repeat split; [exact Hrun | exact Hel | now apply Hload].
Defined.

(** C4, counterexample to the claim as stated, which is for every source
    range: [v.insert(v.begin(), v.begin() + 1, v.begin() + 2)] on the
    container [v] holding [10; 20].  The range holds [20]; [_pushAt] moves
    the elements one place up before it copies the range, which then holds
    the [10] that was moved there: the container holds [10; 10; 20] and not
    [20; 10; 20]. *)
Lemma insert_from_own_elements :
  wf 4 0%nat demo_inline = true
  /\ ~ insert_as_specified 0 4 demo_inline 0
        (pointer_range (Ptr (StaticMem 0) 1) (Ptr (StaticMem 0) 2)).
Proof.
  split; [reflexivity|].
  intros Hspec. destruct (Hspec [20] eq_refl) as ([v' m'] & Hrun & Hel).
  vm_compute in Hrun. inversion Hrun; subst v' m'.
  vm_compute in Hel. discriminate.
Qed.

Example insert_from_own_elements_values :
  range_values (pointer_range (Ptr (StaticMem 0) 1) (Ptr (StaticMem 0) 2))
    (snd demo_inline) = Some [20]
  /\ exists s',
       insert 0 4 (Ptr (StaticMem 0) 0)
         (pointer_range (Ptr (StaticMem 0) 1) (Ptr (StaticMem 0) 2)) demo_inline
       = Ok (Ptr (StaticMem 0) 0) s'
       /\ elements s' = [10; 10; 20].
Proof.
  split; [reflexivity|]. eexists. split; vm_compute; reflexivity.
Qed.

(** The same for a range that can be read only once: [insert] of the three
    values [1 2 3] of a stream, through [std::istream_iterator], into the
    container holding [10; 20].  [std::distance] reads the stream to its
    end, [std::copy] then finds only the value that [first] holds, and
    [_size] grows by three: the container holds [1; 0; 0; 10; 20]. *)
Example insert_from_stream :
  ~ insert_as_specified 0 4 demo_inline 0 (istream_range [1; 2; 3])
  /\ exists s',
       insert 0 4 (Ptr (StaticMem 0) 0) (istream_range [1; 2; 3]) demo_inline
       = Ok (Ptr (HeapMem 0) 0) s'
       /\ elements s' = [1; 0; 0; 10; 20].
Proof.
  split.
  - intros Hspec. destruct (Hspec [1; 2; 3] eq_refl) as ([v' m'] & Hrun & Hel).
    vm_compute in Hrun. inversion Hrun; subst v' m'.
    vm_compute in Hel. discriminate.
  - eexists. split; vm_compute; reflexivity.
Qed.

(** ** C1: copy assignment to a container in heap mode *)

(** Two containers in one memory: [a] at address [0] holds [1] to [5] in a
    heap array, [b] at address [1] holds [7] in its array member. *)
Definition demo_two : memory (T := Z) :=
  Mem (<[StaticMem 1 := [7; 0; 0; 0]]>
         (<[HeapMem 0 := [1; 2; 3; 4; 5; 0; 0]]>
            (<[StaticMem 0 := [1; 2; 3; 4]]> ∅))) 1%nat.

Definition demo_a : VLVector :=
  {| _data := Ptr (HeapMem 0) 0; _size := 5; _capacity := 7 |}.

Definition demo_b : VLVector :=
  {| _data := Ptr (StaticMem 1) 0; _size := 1; _capacity := 4 |}.

(** [b] after [clear()]. *)
Definition demo_b_empty : VLVector :=
  {| _data := Ptr (StaticMem 1) 0; _size := 0; _capacity := 4 |}.

(** C1, witness: [a = b] with [b] holding [7] has no defined behaviour;
    with [b] empty it returns and leaves [a] broken. *)
Lemma operator_assign_heap_from_inline_witness :
  wf 4 0%nat (demo_a, demo_two) = true
  /\ wf 4 1%nat (demo_b, demo_two) = true
  /\ wf 4 1%nat (demo_b_empty, demo_two) = true
  /\ operator_assign 0 4 0%nat 1%nat demo_b (demo_a, demo_two) = Undefined
  /\ (exists s',
        operator_assign 0 4 0%nat 1%nat demo_b_empty (demo_a, demo_two) = Ok tt s'
        /\ _size (fst s') = 0
        /\ _capacity (fst s') = 4
        /\ _data (fst s') = Ptr (HeapMem 0) 0
        /\ blocks (snd s') !! HeapMem 0 = None
        /\ inline_mode 0%nat s' = false
        /\ wf 4 0%nat s' = false).
Proof.
  split; [reflexivity|]. split; [reflexivity|]. split; [reflexivity|]. split.
  - apply (operator_assign_heap_from_inline 0 4 capacity_4_range 0%nat demo_a demo_two
             1%nat demo_b eq_refl eq_refl);
      [discriminate | reflexivity | reflexivity].
  - apply (operator_assign_heap_from_inline 0 4 capacity_4_range 0%nat demo_a demo_two
             1%nat demo_b_empty eq_refl eq_refl);
      [discriminate | reflexivity | reflexivity].
Defined.

(** The same by running the code, and the copy constructor, which starts
    from [VLVector()], on the same [b]: it builds a well-formed copy. *)
Example operator_assign_heap_from_inline_run :
  operator_assign 0 4 0%nat 1%nat demo_b (demo_a, demo_two) = Undefined
  /\ (exists s',
        operator_assign 0 4 0%nat 1%nat demo_b_empty (demo_a, demo_two) = Ok tt s'
        /\ _capacity (fst s') = 4
        /\ _data (fst s') = Ptr (HeapMem 0) 0
        /\ blocks (snd s') !! HeapMem 0 = None
        /\ inline_mode 0%nat s' = false
        /\ wf 4 0%nat s' = false)
  /\ (exists s',
        VLVector_copy 0 4 2%nat demo_b demo_two = Ok tt s'
        /\ wf 4 2%nat s' = true
        /\ inline_mode 2%nat s' = true
        /\ elements s' = [7]).
Proof.
  split; [vm_compute; reflexivity|]. split.
  - eexists. split; [vm_compute; reflexivity|]. repeat split.
  - eexists. split; [vm_compute; reflexivity|]. repeat split.
Qed.

(** * Further properties, at [VLVector<int, 4>] *)

(** X1, witness: [VLVector<int, 4> c(a)] for the container [a] holding [1]
    to [5]. *)
Lemma copy_constructor_copies_witness :
  wf 4 0%nat (demo_a, demo_two) = true
  /\ exists s',
       VLVector_copy 0 4 2%nat demo_a demo_two = Ok tt s'
       /\ elements s' = [1; 2; 3; 4; 5]
       /\ _capacity (fst s') = 7.
Proof.
  split; [reflexivity|].
  destruct (copy_constructor_copies 0 4 capacity_4_range 2%nat 0%nat demo_a demo_two
              eq_refl) as (s' & Hrun & _ & Hel & _ & Hcap & _); [discriminate|].
  exists s'. split; [exact Hrun|]. split; [exact Hel | exact Hcap].
Defined.

(** X2, witness: [b = a] for [b] holding [7], in inline mode, and [a]
    holding [1] to [5]. *)
Lemma operator_assign_copies_witness :
  wf 4 1%nat (demo_b, demo_two) = true /\ wf 4 0%nat (demo_a, demo_two) = true
  /\ exists s',
       operator_assign 0 4 1%nat 0%nat demo_a (demo_b, demo_two) = Ok tt s'
       /\ elements s' = [1; 2; 3; 4; 5]
       /\ _capacity (fst s') = 7.
Proof.
  split; [reflexivity|]. split; [reflexivity|].
  destruct (operator_assign_copies 0 4 capacity_4_range 1%nat demo_b demo_two 0%nat
              demo_a eq_refl eq_refl)
    as (s' & Hrun & _ & Hel & _ & Hcap & _);
    [discriminate | discriminate | left; cbn; lia |].
  exists s'. split; [exact Hrun|]. split; [exact Hel | exact Hcap].
Defined.

(** X3, witness: [a == b] for [a] holding [1] to [5] and [b] holding [7]. *)
Lemma operator_eq_compares_elements_witness :
  wf 4 0%nat (demo_a, demo_two) = true /\ wf 4 1%nat (demo_b, demo_two) = true
  /\ operator_eq int_eq demo_b (demo_a, demo_two) = Ok false (demo_a, demo_two).
Proof.
  split; [reflexivity|]. split; [reflexivity|].
  rewrite (proj1 (operator_eq_compares_elements int_eq 4 capacity_4_range 0%nat demo_a
                    1%nat demo_b demo_two eq_refl eq_refl)).
  vm_compute. reflexivity.
Defined.

(** X4, witness: [push_back(30)] on the container holding [10] and [20]. *)
Lemma push_back_appends_witness :
  wf 4 0%nat demo_inline = true
  /\ exists s',
       push_back 0 4 30 demo_inline = Ok tt s'
       /\ elements s' = [10; 20; 30]
       /\ _capacity (fst s') = 4.
Proof.
  split; [reflexivity|].
  destruct (push_back_appends 0 4 capacity_4_range 0%nat (fst demo_inline)
              (snd demo_inline) 30 eq_refl)
    as (s' & Hrun & _ & Hel & _ & Hcap); [vm_compute; reflexivity|].
  exists s'. split; [exact Hrun|]. split; [exact Hel | exact Hcap].
Defined.

(** X5, witness: [insert(begin() + 1, 15)] on the container holding [10]
    and [20]. *)
Lemma insert_value_inserts_witness :
  wf 4 0%nat demo_inline = true
  /\ exists s',
       insert_value 0 4 (Ptr (StaticMem 0) 1) (ref_value 15) demo_inline
       = Ok (_data (fst s') +ₚ 1) s'
       /\ elements s' = [10; 15; 20].
Proof.
  split; [reflexivity|].
  destruct (insert_value_inserts 0 4 capacity_4_range 0%nat (fst demo_inline)
              (snd demo_inline) 1 (ref_value 15) 15 eq_refl)
    as (s' & Hrun & _ & Hel & _);
    [vm_compute; lia | reflexivity | reflexivity | vm_compute; reflexivity|].
  exists s'. split; [exact Hrun | exact Hel].
Defined.

(** The condition of X5 is needed: [v.insert(v.begin(), v[1])] on the
    container [v] holding [10; 20].  The reference is to the [20]; [_pushAt]
    moves the elements one place up before the reference is read, and the
    object it refers to then holds [10]: the container holds [10; 10; 20]. *)
Example insert_value_of_own_element :
  referent (ref_to (Ptr (StaticMem 0) 1)) (snd demo_inline) = Some 20
  /\ exists s',
       insert_value 0 4 (Ptr (StaticMem 0) 0) (ref_to (Ptr (StaticMem 0) 1))
         demo_inline
       = Ok (Ptr (StaticMem 0) 0) s'
       /\ elements s' = [10; 10; 20].
Proof.
  split; [reflexivity|]. eexists. split; vm_compute; reflexivity.
Qed.

(** X6, witness: [erase(begin(), begin() + 1)] on the container holding
    [10] and [20]. *)
Lemma erase_removes_range_witness :
  wf 4 0%nat demo_inline = true
  /\ exists s',
       erase 4 0%nat (Ptr (StaticMem 0) 0) (Ptr (StaticMem 0) 1) demo_inline
       = Ok (_data (fst s') +ₚ 0) s'
       /\ elements s' = [20].
Proof.
  split; [reflexivity|].
  destruct (erase_removes_range 4 capacity_4_range 0%nat (fst demo_inline)
              (snd demo_inline) 0 1 eq_refl)
    as (s' & Hrun & _ & Hel & _); [vm_compute; lia|].
  exists s'. split; [exact Hrun | exact Hel].
Defined.

(** X7, witness: [pop_back()] on the container holding [10] and [20]. *)
Lemma pop_back_removes_last_witness :
  wf 4 0%nat demo_inline = true
  /\ exists s',
       pop_back 4 0%nat demo_inline = Ok tt s'
       /\ elements s' = [10].
Proof.
  split; [reflexivity|].
  destruct (pop_back_removes_last 4 capacity_4_range 0%nat (fst demo_inline)
              (snd demo_inline) eq_refl)
    as (s' & Hrun & _ & Hel & _); [reflexivity|].
  exists s'. split; [exact Hrun | exact Hel].
Defined.

(** X8, witness: [a[1] = 99] on the container holding [10] and [20]. *)
Lemma index_assign_updates_witness :
  wf 4 0%nat demo_inline = true
  /\ exists m',
       (do p <- operator_index 1; assign p 99) demo_inline
       = Ok tt (fst demo_inline, m')
       /\ elements (fst demo_inline, m') = [10; 99].
Proof.
  split; [reflexivity|].
  destruct (index_assign_updates 4 capacity_4_range 0%nat (fst demo_inline)
              (snd demo_inline) 1 99 eq_refl)
    as (m' & Hrun & _ & Hel); [vm_compute; lia|].
  exists m'. split; [exact Hrun | exact Hel].
Defined.

(** X9, witness: the world after [VLVector<int, 4> a; a.push_back(1); ...
    a.push_back(5);]. *)
Lemma reachable_world_inv_witness :
  run_calls 0 4 demo_program empty_world = Some demo_world
  /\ world_inv 4 demo_world.
Proof.
  split; [vm_compute; reflexivity|].
  apply (reachable_world_inv 0 4 capacity_4_range demo_program demo_world).
  vm_compute. reflexivity.
Defined.


(** * Round trips, single steps and heap arrays, at [VLVector<int, 4>] *)

(** A full container in inline mode, holding [1] to [4]. *)
Definition demo_full : state (T := Z) :=
  ({| _data := Ptr (StaticMem 0) 0; _size := 4; _capacity := 4 |},
   Mem (<[StaticMem 0 := [1; 2; 3; 4]]> ∅) 0%nat).

(** The program [demo_program], then [VLVector<int, 4> b(a); a.pop_back();]
    and the end of [a]; and the world it reaches: [b] with its own heap
    array. *)
Definition demo_program_copy : list (call (T := Z)) :=
  demo_program ++ [construct_copy 1%nat 0%nat; call_pop_back 0%nat; destroy 0%nat].

Definition demo_world_copy : world (T := Z) :=
  World {[1%nat := {| _data := Ptr (HeapMem 1) 0; _size := 5; _capacity := 7 |}]}
        (Mem (<[StaticMem 1 := [0; 0; 0; 0]]>
                (<[HeapMem 1 := [1; 2; 3; 4; 5; 0; 0]]> ∅)) 2%nat).

(** X10, witness: [erase(begin() + 1)] on the container holding [1] to
    [5]. *)
Lemma erase_pos_removes_one_witness :
  wf 4 0%nat demo_heap = true
  /\ exists s',
       erase_pos 4 0%nat (Ptr (HeapMem 0) 1) demo_heap
       = Ok (_data (fst s') +ₚ 1) s'
       /\ elements s' = [1; 3; 4; 5].
Proof.
  split; [reflexivity|].
  destruct (erase_pos_removes_one 4 capacity_4_range 0%nat (fst demo_heap)
              (snd demo_heap) 1 eq_refl)
    as (s' & Hrun & _ & Hel & _); [vm_compute; lia|].
  exists s'. split; [exact Hrun | exact Hel].
Defined.

(** X11, witness: the container holding [10] and [20] inserts its second
    element before its first, as a range, and erases what it inserted. *)
Lemma insert_then_erase_restores_witness :
  wf 4 0%nat demo_inline = true
  /\ range_values (pointer_range (Ptr (StaticMem 0) 1) (Ptr (StaticMem 0) 2))
       (snd demo_inline) = Some [20]
  /\ exists s',
       (do p <- insert 0 4 (Ptr (StaticMem 0) 0)
                  (pointer_range (Ptr (StaticMem 0) 1) (Ptr (StaticMem 0) 2));
        erase 4 0%nat p (p +ₚ 1)) demo_inline
       = Ok (_data (fst s') +ₚ 0) s'
       /\ elements s' = [10; 20]
       /\ inline_mode 0%nat s' = true.
Proof.
  split; [reflexivity|]. split; [reflexivity|].
  destruct (insert_then_erase_restores 0 4 capacity_4_range 0%nat (fst demo_inline)
              (snd demo_inline) 0
              (pointer_range (Ptr (StaticMem 0) 1) (Ptr (StaticMem 0) 2))
              [20] eq_refl)
    as (s' & Hrun & _ & Hel & _ & Hmode);
    [vm_compute; lia | reflexivity | reflexivity | reflexivity
    | vm_compute; reflexivity|].
  exists s'. split; [exact Hrun|]. split; [exact Hel | exact Hmode].
Defined.

(** X12, witness: the container holding [10] and [20] inserts its second
    element before its first, and erases what it inserted. *)
Lemma insert_value_then_erase_restores_witness :
  wf 4 0%nat demo_inline = true
  /\ referent (ref_to (Ptr (StaticMem 0) 1)) (snd demo_inline) = Some 20
  /\ exists s',
       (do p <- insert_value 0 4 (Ptr (StaticMem 0) 0) (ref_to (Ptr (StaticMem 0) 1));
        erase_pos 4 0%nat p) demo_inline
       = Ok (_data (fst s') +ₚ 0) s'
       /\ elements s' = [10; 20].
Proof.
  split; [reflexivity|]. split; [reflexivity|].
  destruct (insert_value_then_erase_restores 0 4 capacity_4_range 0%nat
              (fst demo_inline) (snd demo_inline) 0 (ref_to (Ptr (StaticMem 0) 1)) 20
              eq_refl)
    as (s' & Hrun & _ & Hel & _);
    [vm_compute; lia | reflexivity | reflexivity | vm_compute; reflexivity|].
  exists s'. split; [exact Hrun | exact Hel].
Defined.

(** X13, witness: [push_back(5)] on the full container holding [1] to [4]
    moves it to a heap array; [pop_back()] brings it back. *)
Lemma push_back_then_pop_back_restores_witness :
  wf 4 0%nat demo_full = true
  /\ exists s',
       (run push_back 0 4 5; pop_back 4 0%nat) demo_full = Ok tt s'
       /\ elements s' = [1; 2; 3; 4]
       /\ inline_mode 0%nat s' = true.
Proof.
  split; [reflexivity|].
  destruct (push_back_then_pop_back_restores 0 4 capacity_4_range 0%nat (fst demo_full)
              (snd demo_full) 5 eq_refl)
    as (s' & Hrun & _ & Hel & _ & Hmode); [vm_compute; reflexivity|].
  exists s'. split; [exact Hrun|]. split; [exact Hel | exact Hmode].
Defined.

(** X14, witness: [VLVector<int, 4> a(first, last)] for the range [1] to
    [5]. *)
Lemma range_constructor_builds_witness :
  exact_size 5
  /\ exists s',
       VLVector_range 0 4 0%nat (forward_range [1; 2; 3; 4; 5]) demo_memory = Ok tt s'
       /\ elements s' = [1; 2; 3; 4; 5]
       /\ _capacity (fst s') = 7
       /\ inline_mode 0%nat s' = false.
Proof.
  split; [vm_compute; reflexivity|].
  destruct (range_constructor_builds 0 4 capacity_4_range 0%nat
              (forward_range [1; 2; 3; 4; 5]) [1; 2; 3; 4; 5] demo_memory)
    as (s' & Hrun & _ & Hel & _ & Hcap & Hmode);
    [reflexivity | reflexivity | vm_compute; reflexivity|].
  exists s'. split; [exact Hrun|]. split; [exact Hel|]. split; [exact Hcap | exact Hmode].
Defined.

(** The condition of X14 is needed: from the three values [1 2 3] of a
    stream, through [std::istream_iterator], the constructor builds a
    container of size three that holds [1; 0; 0]. *)
Example range_constructor_from_stream :
  exists s',
    VLVector_range 0 4 0%nat (istream_range [1; 2; 3]) demo_memory = Ok tt s'
    /\ _size (fst s') = 3
    /\ elements s' = [1; 0; 0].
Proof. eexists. repeat split; vm_compute; reflexivity. Qed.

(** X15, witness: the destructor of the container holding [1] to [5]
    deletes its heap array. *)
Lemma destructor_releases_witness :
  wf 4 0%nat demo_heap = true
  /\ destructor 4 demo_heap
     = Ok tt (fst demo_heap, free_block (snd demo_heap) (HeapMem 0))
  /\ blocks (free_block (snd demo_heap) (HeapMem 0)) !! HeapMem 0 = None.
Proof.
  split; [reflexivity|].
  destruct (destructor_releases 4 capacity_4_range 0%nat (fst demo_heap) (snd demo_heap)
              (or_introl eq_refl)) as (Hrun & Hdead & _).
  split; [exact Hrun | exact (Hdead 0%nat eq_refl)].
Defined.

(** X16, witness: an empty range of its own elements inserted before the
    third element of the container holding [1] to [5]. *)
Lemma insert_empty_range_noop_witness :
  wf 4 0%nat demo_heap = true
  /\ insert 0 4 (Ptr (HeapMem 0) 2)
       (pointer_range (Ptr (HeapMem 0) 1) (Ptr (HeapMem 0) 1)) demo_heap
     = Ok (Ptr (HeapMem 0) 2) demo_heap.
Proof.
  split; [reflexivity|].
  apply (insert_empty_range_noop 0 4 capacity_4_range 0%nat (fst demo_heap)
           (snd demo_heap) 2 (pointer_range (Ptr (HeapMem 0) 1) (Ptr (HeapMem 0) 1))
           eq_refl).
  - vm_compute. lia.
  - reflexivity.
Defined.

(** X17, witness: [7] inserted before the second element of the container
    holding [10] and [20] fits; the storage stays. *)
Lemma insert_moves_storage_only_when_full_witness :
  wf 4 0%nat demo_inline = true
  /\ exists p s',
       insert 0 4 (Ptr (StaticMem 0) 1) (forward_range [7]) demo_inline = Ok p s'
       /\ _data (fst s') = Ptr (StaticMem 0) 0
       /\ _capacity (fst s') = 4
       /\ next_heap (snd s') = 0%nat.
Proof.
  split; [reflexivity|].
  destruct (insert_moves_storage_only_when_full 0 4 capacity_4_range 0%nat
              (fst demo_inline) (snd demo_inline) 1 (forward_range [7]) [7] eq_refl)
    as (p & s' & Hrun & Hd & Hc & Hn & _);
    [vm_compute; lia | reflexivity | reflexivity | reflexivity
    | vm_compute; reflexivity|].
  exists p, s'. split; [exact Hrun|]. split; [exact Hd|]. split; [exact Hc | exact Hn].
Defined.

(** [int]'s [operator==] is reflexive and symmetric. *)
Lemma int_eq_refl (x : Z) : int_eq x x = true.
Proof. apply Z.eqb_refl. Qed.

Lemma int_eq_sym (x y : Z) : int_eq x y = int_eq y x.
Proof. apply Z.eqb_sym. Qed.

(** X18, witness: [a == a] for [a] holding [1] to [5], and [a == b],
    [b == a] for [b] holding [7]. *)
Lemma operator_eq_equivalence_witness :
  wf 4 0%nat (demo_a, demo_two) = true /\ wf 4 1%nat (demo_b, demo_two) = true
  /\ operator_eq int_eq demo_a (demo_a, demo_two) = Ok true (demo_a, demo_two)
  /\ exists r, operator_eq int_eq demo_b (demo_a, demo_two) = Ok r (demo_a, demo_two)
               /\ operator_eq int_eq demo_a (demo_b, demo_two) = Ok r (demo_b, demo_two).
Proof.
  split; [reflexivity|]. split; [reflexivity|].
  destruct (operator_eq_equivalence int_eq 4 capacity_4_range 0%nat demo_a 1%nat demo_b
              1%nat demo_b demo_two (or_introl eq_refl) (or_introl eq_refl)
              (or_introl eq_refl)) as (Hrefl & Hsym & _).
  split; [exact (Hrefl int_eq_refl) | exact (Hsym int_eq_sym)].
Defined.

(** An [operator==] that is not reflexive, as that of [double] is at NaN:
    here [0] is not equal to itself.  A container holding [0] is not equal
    to itself. *)
Definition nan_like_eq : equality Z :=
  operator_equal Z (fun x y => negb (x =? 0) && (x =? y)).

Example operator_eq_not_reflexive :
  let a := {| _data := Ptr (StaticMem 0) 0; _size := 1; _capacity := 4 |} in
  let m := Mem (<[StaticMem 0 := [0; 0; 0; 0]]> ∅) 0%nat in
  wf 4 0%nat (a, m) = true
  /\ operator_eq nan_like_eq a (a, m) = Ok false (a, m).
Proof. split; vm_compute; reflexivity. Qed.

(** X19, witness: [VLVector<int, 4> c(a); c == a;] for [a] holding [1] to
    [5]. *)
Lemma copy_then_equal_witness :
  wf 4 0%nat (demo_a, demo_two) = true
  /\ exists s',
       VLVector_copy 0 4 2%nat demo_a demo_two = Ok tt s'
       /\ operator_eq int_eq demo_a s' = Ok true s'.
Proof.
  split; [reflexivity|].
  destruct (copy_then_equal 0 int_eq 4 capacity_4_range 2%nat 0%nat demo_a demo_two
              int_eq_refl eq_refl)
    as (s' & Hrun & Heq & _); [discriminate|].
  exists s'. split; [exact Hrun | exact Heq].
Defined.

(** X20, witness: [push_back(30); at(2)] on the container holding [10] and
    [20]. *)
Lemma push_back_then_at_witness :
  wf 4 0%nat demo_inline = true
  /\ exists p s',
       (run push_back 0 4 30; at_ 2) demo_inline = Ok p s'
       /\ load (snd s') p = Some 30.
Proof.
  split; [reflexivity|].
  destruct (push_back_then_at 0 4 capacity_4_range 0%nat (fst demo_inline)
              (snd demo_inline) 30 eq_refl)
    as (p & s' & Hrun & Hload & _); [vm_compute; reflexivity|].
  exists p, s'. split; [exact Hrun | exact Hload].
Defined.

(** X21, witness: the observers on the container holding [1] to [5]. *)
Lemma observers_agree_witness :
  wf 4 0%nat demo_heap = true
  /\ size demo_heap = Ok 5 demo_heap
  /\ empty demo_heap = Ok false demo_heap.
Proof.
  split; [reflexivity|].
  destruct (observers_agree 4 capacity_4_range 0%nat (fst demo_heap) (snd demo_heap)
              eq_refl) as (Hsize & Hempty & _).
  split; [exact Hsize|].
  etransitivity; [exact Hempty|]. f_equal.
Defined.

(** X22, witness: after [demo_program_copy] the one live heap array is the
    storage of [b]. *)
Lemma reachable_heap_arrays_owned_witness :
  run_calls 0 4 demo_program_copy empty_world = Some demo_world_copy
  /\ forall h, is_Some (blocks (memory_of demo_world_copy) !! HeapMem h) ->
       exists a v,
         objects demo_world_copy !! a = Some v /\ _data v = Ptr (HeapMem h) 0.
Proof.
  split; [vm_compute; reflexivity|].
  destruct (reachable_heap_arrays_owned 0 4 capacity_4_range demo_program_copy
              demo_world_copy) as (Hown & _); [vm_compute; reflexivity|].
  intros h Hlive. destruct (Hown h Hlive) as (a & v & Hv & Hd & _).
  exists a, v. split; [exact Hv | exact Hd].
Defined.

(** X23, witness: [demo_program_copy] has no assignment; its container [b]
    is well formed and in heap mode. *)
Lemma reachable_wf_unless_heap_from_inline_witness :
  run_calls 0 4 demo_program_copy empty_world = Some demo_world_copy
  /\ never_assigns_heap_from_inline 0 4 demo_program_copy empty_world = true
  /\ forall v, objects demo_world_copy !! 1%nat = Some v ->
       wf 4 1%nat (v, memory_of demo_world_copy) = true
       /\ heap_mode (v, memory_of demo_world_copy) = (4 <? _size v).
Proof.
  split; [vm_compute; reflexivity|]. split; [vm_compute; reflexivity|].
  intros v Hv.
  destruct (reachable_wf_unless_heap_from_inline 0 4 capacity_4_range demo_program_copy
              demo_world_copy 1%nat v) as (Hwf & _ & Hheap);
    [vm_compute; reflexivity | vm_compute; reflexivity | exact Hv |].
  split; [exact Hwf | exact Hheap].
Defined.
